(** * WorkflowParser: run-time graph reconstruction for Tekton pipeline runs

    A shallow embedding of [frontend/src/lib/WorkflowParser.ts] and the
    properties of its parameter-reference decoder, storage-path parser,
    artifact-location resolver and run-time graph builder. *)

From Stdlib Require Import ZArith Ascii String Permutation Lia.
From stdpp Require Import base option list gmap strings.

Local Open Scope Z_scope.

(* stdpp keeps [simpl] from unfolding string concatenation; the string
   lemmas below compute with it. *)
#[local] Arguments String.append !s1 s2 /.

(** ** JavaScript string primitives used by the parser

    Strings are sequences of code units; indices are JavaScript numbers,
    modelled in [Z] so that [length - 1] on the empty string and the [-1] of
    a failed [indexOf] are the values the code computes with. *)
Module Js.

Fixpoint take (n : nat) (s : string) : string :=
  match n, s with
  | S n', String c s' => String c (take n' s')
  | _, _ => EmptyString
  end.

Fixpoint drop (n : nat) (s : string) : string :=
  match n, s with
  | S n', String _ s' => drop n' s'
  | _, _ => s
  end.

Definition length (s : string) : Z := Z.of_nat (String.length s).

(** An index argument of [substring] is clamped into [0 .. length]. *)
Definition clamp (s : string) (i : Z) : nat :=
  Z.to_nat (Z.min (Z.max i 0) (length s)).

(** [s.substring(start, end)]: both indices clamped, then swapped when
    [start > end]. *)
Definition substring (s : string) (start end_ : Z) : string :=
  let a := clamp s start in
  let b := clamp s end_ in
  take (Nat.max a b - Nat.min a b) (drop (Nat.min a b) s).

(** [s.substring(start)]. *)
Definition substring_from (s : string) (start : Z) : string :=
  substring s start (length s).

(** [s.substr(start)] for a non-negative literal [start]. *)
Definition substr (s : string) (start : nat) : string := drop start s.

(** [s.startsWith(p)]. *)
Definition startsWith (s p : string) : bool := String.prefix p s.

Fixpoint indexOf_from (s needle : string) (i : Z) : Z :=
  if String.prefix needle s then i
  else match s with
       | EmptyString => -1
       | String _ s' => indexOf_from s' needle (i + 1)
       end.

(** [s.indexOf(needle)]: first position of [needle], [-1] when absent. *)
Definition indexOf (s needle : string) : Z := indexOf_from s needle 0.

(** [s.split(sep)] for a one-character separator, the only use in the
    parser ('.', ',' and '/'). The result always has at least one segment. *)
Fixpoint split (sep : ascii) (s : string) : list string :=
  match s with
  | EmptyString => [EmptyString]
  | String c s' =>
      if Ascii.eqb c sep then EmptyString :: split sep s'
      else match split sep s' with
           | seg :: rest => String c seg :: rest
           | [] => [String c EmptyString]
           end
  end.

(** [parts.join(sep)]. *)
Fixpoint join (sep : string) (parts : list string) : string :=
  match parts with
  | [] => EmptyString
  | [p] => p
  | p :: rest => p +:+ sep +:+ join sep rest
  end.

(** [parts.slice(1)]. *)
Definition slice1 (parts : list string) : list string := tail parts.

(** The replacement-text expansion of [String.prototype.replace] for a
    string pattern (no capture groups): [$$] is a dollar sign, [$&] the
    match, [$`] the text before it, [$'] the text after it; every other
    character stands for itself. *)
Fixpoint expand (repl matched before after : string) : string :=
  match repl with
  | String "$" (String c rest as tl) =>
      if Ascii.eqb c "$" then String "$" (expand rest matched before after)
      else if Ascii.eqb c "&" then matched +:+ expand rest matched before after
      else if Ascii.eqb c "`" then before +:+ expand rest matched before after
      else if Ascii.eqb c "'" then after +:+ expand rest matched before after
      else String "$" (expand tl matched before after)
  | String c rest => String c (expand rest matched before after)
  | EmptyString => EmptyString
  end.

(** [s.replace(pat, repl)] for a string pattern: only the first occurrence
    is replaced. *)
Definition replace (s pat repl : string) : string :=
  let i := indexOf s pat in
  if i =? -1 then s
  else
    let before := take (Z.to_nat i) s in
    let after := drop (Z.to_nat i + String.length pat) s in
    before +:+ expand repl pat before after +:+ after.

(** Truthiness of a possibly-undefined string: [undefined] and the empty
    string are falsy. *)
Definition truthy (v : option string) : bool :=
  match v with
  | Some s => negb (String.eqb s EmptyString)
  | None => false
  end.

(** Truthiness of a possibly-undefined object or array: only [undefined]
    is falsy. *)
Definition has {A : Type} (v : option A) : bool :=
  match v with
  | Some _ => true
  | None => false
  end.

End Js.

(** ** Storage paths *)

Inductive StorageService := GCS | HTTP | HTTPS | MINIO | S3 | VOLUME.

Record StoragePath := {
  source : StorageService;
  bucket : option string;
  key : string;
}.

(** ** Exceptions

    [TypeError] is what the JavaScript engine raises on a property access
    through [undefined]; [Error] is the exception the parser throws
    itself. A [Result] is the outcome of a call that may throw. *)
Inductive Exception :=
  | TypeError
  | Error (msg : string).

Inductive Result (A : Type) :=
  | Ok (a : A)
  | Throw (e : Exception).
Arguments Ok {A} a.
Arguments Throw {A} e.

Global Instance Result_ret : MRet Result := λ A a, Ok a.
Global Instance Result_bind : MBind Result := λ A B f m,
  match m with
  | Ok a => f a
  | Throw e => Throw e
  end.

(** A property access [v.field] or a method call on [v]: a [TypeError]
    when [v] is [undefined]. *)
Definition must {A : Type} (v : option A) : Result A :=
  match v with
  | Some a => Ok a
  | None => Throw TypeError
  end.

Definition storagePathOf (svc : StorageService) (prefix strPath : string)
  : StoragePath :=
  let pathParts := Js.split "/" (Js.substr strPath (String.length prefix)) in
  {| bucket := pathParts !! 0%nat;
     key := Js.join "/" (Js.slice1 pathParts);
     source := svc |}.

Definition parseStoragePath (strPath : string) : Result StoragePath :=
  if Js.startsWith strPath "gs://" then
    Ok (storagePathOf GCS "gs://" strPath)
  else if Js.startsWith strPath "minio://" then
    Ok (storagePathOf MINIO "minio://" strPath)
  else if Js.startsWith strPath "s3://" then
    Ok (storagePathOf S3 "s3://" strPath)
  else if Js.startsWith strPath "http://" then
    Ok (storagePathOf HTTP "http://" strPath)
  else if Js.startsWith strPath "https://" then
    Ok (storagePathOf HTTPS "https://" strPath)
  else if Js.startsWith strPath "volume://" then
    Ok (storagePathOf VOLUME "volume://" strPath)
  else Throw (Error ("Unsupported storage path: " +:+ strPath)).

(** ** Parameter references *)

(** A decoded reference. [None] is a field that the returned object does
    not have; the empty object [{}] has neither. *)
Record ParamRef := {
  task : option string;
  param : option string;
}.

Definition decodeParam (paramString : string) : Result ParamRef :=
  if String.eqb (Js.substring paramString 0 9) "$(params."
     && String.eqb (Js.substring_from paramString (Js.length paramString - 1)) ")"
  then
    let paramName := Js.substring paramString 9 (Js.length paramString - 1) in
    Ok {| task := Some EmptyString; param := Some paramName |}
  else if negb (Js.indexOf paramString "$(" =? -1)
          && negb (Js.indexOf paramString ")" =? -1)
  then
    let paramSplit := Js.split "." paramString in
    let parentTask := paramSplit !! 1%nat in
    last ← must (paramSplit !! (List.length paramSplit - 1)%nat);
    let paramName := Js.substring last 0 (Js.length last - 1) in
    Ok {| task := parentTask; param := Some paramName |}
  else Ok {| task := None; param := None |}.

(** ** The status document

    The parser reads an untyped JSON document. The records below give it
    the shape the code relies on; an [option] field is one the code tests
    for or defaults, and [None] is JavaScript's [undefined]. *)

(** A name with a value: a parameter binding of a task or a condition, a
    pipeline-level parameter, a task result, or a parameter recorded on a
    run. *)
Record NameValue := {
  nv_name : string;
  nv_value : option string;
}.

Record WhenExpression := { when_input : string }.

Record Step := {
  step_args : option (list string);
  step_command : option (list string);
}.

Record TaskMetadata := { labels : option (gmap string string) }.

Record TaskSpec := {
  ts_steps : option (list Step);
  ts_metadata : option TaskMetadata;
}.

(** What [checkParams] reads of its [component] argument, which is a task
    or one of a task's condition objects. *)
Record Component := {
  c_name : option string;
  conditionRef : option string;
  c_params : option (list NameValue);
}.

Record Task := {
  t_name : string;
  t_params : option (list NameValue);
  t_conditions : option (list Component);
  t_when : option (list WhenExpression);
  t_taskSpec : option TaskSpec;
  runAfter : option (list string);
}.

Definition task_component (t : Task) : Component :=
  {| c_name := Some (t_name t); conditionRef := None; c_params := t_params t |}.

Record StatusCondition := {
  cond_type : string;
  cond_reason : string;
}.

Record StatusTaskSpec := { sts_params : option (list NameValue) }.

Record RunStatus := {
  podName : option string;
  conditions : option (list StatusCondition);
  taskResults : option (list NameValue);
  taskSpec : option StatusTaskSpec;
  startTime : option string;
  completionTime : option string;
}.

(** A run record, of either collection. [taskRunId] is the field the graph
    builder adds to the record. *)
Record RunRecord := {
  pipelineTaskName : string;
  rr_status : option RunStatus;
  taskRunId : option string;
}.

(** The [status] object. [taskRuns] and [runs] are objects used as maps
    from run id to record, in property order; [skippedTasks] lists the
    names of its entries; [st_others] counts the further properties of the
    object, which the parser does not read. *)
Record Status := {
  taskRuns : option (list (string * RunRecord));
  runs : option (list (string * RunRecord));
  skippedTasks : option (list string);
  st_others : nat;
}.

Record PipelineSpec := {
  tasks : option (list Task);
  finally : option (list Task);
}.

Record Spec := {
  sp_params : option (list NameValue);
  pipelineSpec : PipelineSpec;
}.

Record InputArtifact := {
  ia_name : string;
  parent_task : string;
}.

Record OutputArtifact := {
  oa_name : string;
  oa_key : option string;
}.

(** The annotations of the run; the two artifact annotations are held as
    the value [JSON.parse] returns for them, an object whose members are
    the artifact descriptors of the tasks, by task name. [None] is an
    annotation that is missing or empty. *)
Record Annotations := {
  input_artifacts : option (gmap string (list InputArtifact));
  output_artifacts : option (gmap string (list OutputArtifact));
  artifact_endpoint : option string;
  artifact_bucket : option string;
  artifact_endpoint_scheme : option string;
}.

Record Metadata := {
  md_name : option string;
  annotations : option Annotations;
}.

Record Workflow := {
  metadata : option Metadata;
  spec : Spec;
  status : option Status;
}.

(** [Object.keys(workflow.status).length]. *)
Definition status_keys (st : Status) : nat :=
  (st_others st
   + (if Js.has (taskRuns st) then 1 else 0)
   + (if Js.has (runs st) then 1 else 0)
   + (if Js.has (skippedTasks st) then 1 else 0))%nat.

(** ** The status index

    [statusMap] maps a task name to a run record of the document. The map
    holds the record itself, not a copy: what [checkParams] writes through
    the map is written to the document. A [RunRef] names the record by its
    collection and its position there, and reading through the map
    dereferences it in the current document. *)
Inductive RunRef :=
  | TaskRunRef (i : nat)
  | CustomRunRef (i : nat).

Definition records_of (o : option (list (string * RunRecord)))
  : list (string * RunRecord) := default [] o.

Definition deref (st : Status) (r : RunRef) : option RunRecord :=
  match r with
  | TaskRunRef i => snd <$> records_of (taskRuns st) !! i
  | CustomRunRef i => snd <$> records_of (runs st) !! i
  end.

(** Replace the record a reference names. *)
Definition store (st : Status) (r : RunRef) (rec : RunRecord) : Status :=
  let put i o := alter (λ kv, (fst kv, rec)) i <$> o in
  match r with
  | TaskRunRef i =>
      {| taskRuns := put i (taskRuns st); runs := runs st;
         skippedTasks := skippedTasks st; st_others := st_others st |}
  | CustomRunRef i =>
      {| taskRuns := taskRuns st; runs := put i (runs st);
         skippedTasks := skippedTasks st; st_others := st_others st |}
  end.

(** [statusMap.get(name)]; the key may be [undefined], which no record is
    filed under. *)
Definition statusMap_ref (statusMap : gmap string RunRef)
    (name : option string) : option RunRef :=
  n ← name; statusMap !! n.

Definition statusMap_get (statusMap : gmap string RunRef) (st : Status)
    (name : option string) : option RunRecord :=
  statusMap_ref statusMap name ≫= deref st.

(** The first loop body of the index construction: the record's own key is
    written into its [taskRunId] field. *)
Definition stampRunIds (records : list (string * RunRecord))
  : list (string * RunRecord) :=
  (λ kv, (fst kv, {| pipelineTaskName := pipelineTaskName (snd kv);
                     rr_status := rr_status (snd kv);
                     taskRunId := Some (fst kv) |})) <$> records.

(** ... and the record is filed under its task name when it has a status;
    a later record of the same task replaces an earlier one. *)
Fixpoint indexRuns (mk : nat → RunRef) (i : nat)
    (records : list (string * RunRecord)) (statusMap : gmap string RunRef)
  : gmap string RunRef :=
  match records with
  | [] => statusMap
  | (_, rec) :: rest =>
      indexRuns mk (S i) rest
        (if Js.has (rr_status rec)
         then <[pipelineTaskName rec := mk i]> statusMap
         else statusMap)
  end.

(** ** The graph

    The graph library is not part of the repository. A [Graph] holds what
    the builder commits to it: in [g_nodes] the nodes that it sets by
    [setNode], with their labels, and in [g_edges] the edges that it sets by
    [setEdge], with the ends as it passes them, [None] being an end that is
    [undefined]. An edge that is already there is not added again, and a
    node that is set twice keeps its place with the later label. The
    library makes a string of each end of an edge, and gives the graph a
    node without a label for an end that is not a node yet: [endName] is
    the string, and [nodeIds] are the node identities of the graph that the
    library returns. *)
Record Edge := {
  parent : option string;
  child : option string;
}.

Global Instance Edge_eq_dec : EqDecision Edge.
Proof. solve_decision. Defined.

(** What the builder computes of a node's label: the status and the times
    that the icon is drawn from, and whether the task belongs to the exit
    handlers, which decides the colouring. *)
Record NodeLabel := {
  nl_status : string;
  nl_exitHandler : bool;
  nl_startTime : option string;
  nl_completionTime : option string;
}.

Record Graph := {
  g_nodes : list (string * NodeLabel);
  g_edges : list Edge;
}.

Definition emptyGraph : Graph := {| g_nodes := []; g_edges := [] |}.

Definition setEdge (g : Graph) (e : Edge) : Graph :=
  if bool_decide (e ∈ g_edges g) then g
  else {| g_nodes := g_nodes g; g_edges := g_edges g ++ [e] |}.

Fixpoint setLabel (id : string) (l : NodeLabel)
    (nodes : list (string * NodeLabel)) : list (string * NodeLabel) :=
  match nodes with
  | [] => [(id, l)]
  | (id', l') :: rest =>
      if String.eqb id' id then (id, l) :: rest
      else (id', l') :: setLabel id l rest
  end.

Definition setNode (g : Graph) (id : string) (l : NodeLabel) : Graph :=
  {| g_nodes := setLabel id l (g_nodes g); g_edges := g_edges g |}.

Definition setEdges (g : Graph) (es : list Edge) : Graph :=
  foldl setEdge g es.

(** The string that the library makes of an end: ['undefined'] of an end
    that is [undefined]. *)
Definition endName (v : option string) : string := default "undefined" v.

(** The node identities of the returned graph, as a set: the nodes that
    the builder sets and the two ends of every edge. *)
Definition nodeIds (g : Graph) : list string :=
  (fst <$> g_nodes g)
  ++ flat_map (λ e, [endName (parent e); endName (child e)]) (g_edges g).

(** ** Node phases

    The phase constants come from the status utilities of the front end,
    which the parser imports; the parser only compares and returns
    them. *)
Class NodePhaseEnum := {
  PENDING : string;
  CONDITIONCHECKFAILED : string;
  COMPLETED : string;
  SUCCEEDED : string;
}.

(** ** The graph builder *)
Section Builder.

Context {NodePhase : NodePhaseEnum}.

(** Run [f] on each element in turn and concatenate what it yields. *)
Fixpoint collect {A B : Type} (f : A → Result (list B)) (l : list A)
  : Result (list B) :=
  match l with
  | [] => Ok []
  | a :: rest => bs ← f a; bs' ← collect f rest; Ok (bs ++ bs')
  end.

(** [record.status.taskSpec.params = params]. *)
Definition with_params (rec : RunRecord) (s : RunStatus)
    (params : list NameValue) : RunRecord :=
  {| pipelineTaskName := pipelineTaskName rec;
     rr_status := Some {| podName := podName s;
                          conditions := conditions s;
                          taskResults := taskResults s;
                          taskSpec := Some {| sts_params := Some params |};
                          startTime := startTime s;
                          completionTime := completionTime s |};
     taskRunId := taskRunId rec |}.

(** The loops of the form [for (x of l) if (x.name === name) v = x.value]. *)
Definition resolveFrom (l : list NameValue) (name : option string)
    (v : option string) : option string :=
  foldl (λ v x, if decide (Some (nv_name x) = name) then nv_value x else v) v l.

(** The identity of a component: the pod name of its record when that is
    a non-empty string, else the component's own name. *)
Definition componentIdOf (statusMap : gmap string RunRef) (st : Status)
    (name : option string) : Result (option string) :=
  match statusMap_get statusMap st name with
  | Some rec =>
      s ← must (rr_status rec);
      Ok (if Js.truthy (podName s) then podName s else name)
  | None => Ok name
  end.

(** The same expression at a task, whose name is a string. *)
Definition taskIdOf (statusMap : gmap string RunRef) (st : Status)
    (name : string) : Result string :=
  match statusMap_get statusMap st (Some name) with
  | Some rec =>
      s ← must (rr_status rec);
      Ok (match podName s with
          | Some p => if String.eqb p "" then name else p
          | None => name
          end)
  | None => Ok name
  end.

(** [record.status.podName || record.pipelineTaskName]. *)
Definition podOrTaskName (rec : RunRecord) : Result (option string) :=
  s ← must (rr_status rec);
  Ok (if Js.truthy (podName s) then podName s
      else Some (pipelineTaskName rec)).

(** The write-back at the end of the parameter loop: the value found for
    the parameter is recorded on the run of the component itself. *)
Definition writeBack (statusMap : gmap string RunRef) (component : Component)
    (p : NameValue) (paramValue : option string) (st : Status)
  : Result Status :=
  match statusMap_ref statusMap (c_name component) with
  | None => Ok st
  | Some ref =>
      match deref st ref with
      | None => Ok st
      | Some rec =>
          s ← must (rr_status rec);
          match taskSpec s with
          | None => Ok st
          | Some ts =>
              statusParams ← must (sts_params ts);
              Ok (store st ref
                    (with_params rec s
                       ((λ statusParam,
                           if String.eqb (nv_name statusParam) (nv_name p)
                           then {| nv_name := nv_name statusParam;
                                   nv_value := paramValue |}
                           else statusParam) <$> statusParams)))
          end
      end
  end.

(** The two branches on the decoded reference: a reference without a
    task takes the value of the pipeline parameter of that name; a
    reference to a task whose first condition is [Succeeded] yields an edge
    from the pod of that task and takes the value of its result. *)
Definition resolveParam (statusMap : gmap string RunRef)
    (pipelineParams : list NameValue) (edgeChild : option string)
    (paramValue : option string) (splitParam : ParamRef) (st : Status)
  : Result (list Edge * option string) :=
  if negb (Js.truthy (task splitParam)) then
    Ok ([], resolveFrom pipelineParams (param splitParam) paramValue)
  else
    match statusMap_get statusMap st (task splitParam) with
    | None => Ok ([], paramValue)
    | Some parentRec =>
        s ← must (rr_status parentRec);
        match conditions s with
        | None => Ok ([], paramValue)
        | Some cs =>
            c ← must (cs !! 0%nat);
            if String.eqb (cond_type c) "Succeeded" then
              Ok ([ {| parent := podName s; child := edgeChild |} ],
                  resolveFrom (default [] (taskResults s))
                    (param splitParam) paramValue)
            else Ok ([], paramValue)
        end
    end.

(** One round of the parameter loop of [checkParams]. *)
Definition checkParam (statusMap : gmap string RunRef)
    (pipelineParams : list NameValue) (component : Component)
    (edgeChild : option string) (p : NameValue) (st : Status)
  : Result (list Edge * Status) :=
  let paramValue := if Js.truthy (nv_value p) then nv_value p else Some "" in
  paramString ← must (nv_value p);
  splitParam ← decodeParam paramString;
  '(edges, paramValue) ←
    resolveParam statusMap pipelineParams edgeChild paramValue splitParam st;
  st' ← writeBack statusMap component p paramValue st;
  Ok (edges, st').

Fixpoint checkParamsLoop (statusMap : gmap string RunRef)
    (pipelineParams : list NameValue) (component : Component)
    (edgeChild : option string) (ps : list NameValue) (st : Status)
  : Result (list Edge * Status) :=
  match ps with
  | [] => Ok ([], st)
  | p :: rest =>
      '(edges, st1) ←
        checkParam statusMap pipelineParams component edgeChild p st;
      '(edges', st2) ←
        checkParamsLoop statusMap pipelineParams component edgeChild rest st1;
      Ok (edges ++ edges', st2)
  end.

Definition checkParams (statusMap : gmap string RunRef)
    (pipelineParams : list NameValue) (component : Component)
    (ownerTask : string) (st : Status) : Result (list Edge * Status) :=
  componentId ←
    (if negb (String.eqb ownerTask "") then Ok (conditionRef component)
     else componentIdOf statusMap st (c_name component));
  checkParamsLoop statusMap pipelineParams component
    (if String.eqb ownerTask "" then componentId else Some ownerTask)
    (default [] (c_params component)) st.

Definition getStatus (execStatus : option RunRecord) : Result string :=
  match execStatus with
  | Some rec =>
      match rr_status rec with
      | Some s =>
          match conditions s with
          | Some cs => c ← must (cs !! 0%nat); Ok (cond_reason c)
          | None => Ok PENDING
          end
      | None => Ok PENDING
      end
  | None => Ok PENDING
  end.

(** The record a when-guard refers to: its input decodes to a reference
    with a task, and that task is in the index. *)
Definition whenParent (statusMap : gmap string RunRef) (st : Status)
    (condition : WhenExpression) : Result (option RunRecord) :=
  prm ← decodeParam (when_input condition);
  Ok (if Js.truthy (task prm) then statusMap_get statusMap st (task prm)
      else None).

(** The inner loop of the condition-task scan, which stops at the first
    guard that refers to an indexed task. *)
Fixpoint guardedByIndexedTask (statusMap : gmap string RunRef) (st : Status)
    (whens : list WhenExpression) : Result bool :=
  match whens with
  | [] => Ok false
  | condition :: rest =>
      r ← whenParent statusMap st condition;
      if Js.has r then Ok true else guardedByIndexedTask statusMap st rest
  end.

Fixpoint conditionTasksOf (statusMap : gmap string RunRef) (st : Status)
    (ts : list Task) : Result (list string) :=
  match ts with
  | [] => Ok []
  | t :: rest =>
      guarded ←
        (if Js.has (statusMap_get statusMap st (Some (t_name t))) then Ok false
         else guardedByIndexedTask statusMap st (default [] (t_when t)));
      names ← conditionTasksOf statusMap st rest;
      Ok (if (guarded : bool) then t_name t :: names else names)
  end.

(** The edge from an indexed parent, whatever its outcome. *)
Definition edgeFromRecord (taskId : string) (r : option RunRecord)
  : Result (list Edge) :=
  match r with
  | Some rec =>
      parentId ← podOrTaskName rec;
      Ok [ {| parent := parentId; child := Some taskId |} ]
  | None => Ok []
  end.

Definition whenEdges (statusMap : gmap string RunRef) (st : Status)
    (taskId : string) (whens : list WhenExpression) : Result (list Edge) :=
  collect (λ condition,
             r ← whenParent statusMap st condition;
             edgeFromRecord taskId r) whens.

(** The arguments of the first step when the task is an any-sequencer. *)
Definition anyTaskArgs (t : Task) : option (list string) :=
  ts ← t_taskSpec t;
  steps ← ts_steps ts;
  step0 ← steps !! 0%nat;
  args ← step_args step0;
  command ← step_command step0;
  command0 ← command !! 0%nat;
  if String.eqb command0 "any-task" then Some args else None.

(** The task named in a condition argument, between [results_] and
    [_output]. *)
Definition conditionArgTask (arg : string) : string :=
  Js.substring arg (Js.indexOf arg "results_" + 8) (Js.indexOf arg "_output").

Fixpoint anyTaskEdges (statusMap : gmap string RunRef) (st : Status)
    (taskId : string) (args : list string)
    (isNextTaskList isNextCondition : bool) : Result (list Edge) :=
  match args with
  | [] => Ok []
  | arg :: rest =>
      if String.eqb arg "--taskList" then
        anyTaskEdges statusMap st taskId rest true isNextCondition
      else if String.eqb arg "-c" then
        anyTaskEdges statusMap st taskId rest isNextTaskList true
      else if isNextTaskList then
        es ← collect (λ parentTask,
                        edgeFromRecord taskId
                          (statusMap_get statusMap st (Some parentTask)))
                     (Js.split "," arg);
        es' ← anyTaskEdges statusMap st taskId rest false isNextCondition;
        Ok (es ++ es')
      else if isNextCondition then
        es ← edgeFromRecord taskId
                (statusMap_get statusMap st (Some (conditionArgTask arg)));
        es' ← anyTaskEdges statusMap st taskId rest isNextTaskList false;
        Ok (es ++ es')
      else anyTaskEdges statusMap st taskId rest isNextTaskList isNextCondition
  end.

Definition runAfterEdge (statusMap : gmap string RunRef) (st : Status)
    (taskId : string) (parentTask : string) : Result (list Edge) :=
  match statusMap_get statusMap st (Some parentTask) with
  | Some rec =>
      s ← must (rr_status rec);
      cs ← must (conditions s);
      c ← must (cs !! 0%nat);
      Ok (if String.eqb (cond_type c) "Succeeded"
          then [ {| parent := podName s; child := Some taskId |} ]
          else [])
  | None => Ok []
  end.

Definition runAfterEdges (statusMap : gmap string RunRef) (st : Status)
    (taskId : string) (t : Task) : Result (list Edge) :=
  collect (runAfterEdge statusMap st taskId) (default [] (runAfter t)).

(** [checkParams] over the condition objects of a task, the task being
    the owner of their edges. *)
Fixpoint conditionsEdges (statusMap : gmap string RunRef)
    (pipelineParams : list NameValue) (taskId : string)
    (conds : list Component) (st : Status) : Result (list Edge * Status) :=
  match conds with
  | [] => Ok ([], st)
  | condition :: rest =>
      '(edges, st1) ← checkParams statusMap pipelineParams condition taskId st;
      '(edges', st2) ←
        conditionsEdges statusMap pipelineParams taskId rest st1;
      Ok (edges ++ edges', st2)
  end.

(** What the builder needs of the document besides the task at hand. *)
Record BuildContext := {
  statusMap : gmap string RunRef;
  pipelineParams : list NameValue;
  conditionTasks : list string;
  skipped : list string;
  exitHandlers : list string;
}.

(** A task is drawn when it has a record or is a condition task. *)
Definition materialized (ctx : BuildContext) (st : Status) (t : Task) : bool :=
  Js.has (statusMap_get (statusMap ctx) st (Some (t_name t)))
  || bool_decide (t_name t ∈ conditionTasks ctx).

(** What one task contributes: the edges set directly by the any-sequencer
    scan, the edges gathered in [edges], and the node. *)
Record TaskOutput := {
  out_anyTaskEdges : list Edge;
  out_paramEdges : list Edge;
  out_conditionEdges : list Edge;
  out_whenEdges : list Edge;
  out_runAfterEdges : list Edge;
  out_node : string * NodeLabel;
}.

Definition out_edges (o : TaskOutput) : list Edge :=
  out_anyTaskEdges o ++ out_paramEdges o ++ out_conditionEdges o
  ++ out_whenEdges o ++ out_runAfterEdges o.

(** The rest of the loop body once the parameter edges are known: the
    edges of the when-guards, of the any-sequencer scan and of [runAfter],
    and the node. It only reads the document. *)
Definition drawTask (ctx : BuildContext) (t : Task) (taskId : string)
    (edges1 edges2 : list Edge) (st : Status) : Result TaskOutput :=
  edges3 ← whenEdges (statusMap ctx) st taskId (default [] (t_when t));
  direct ←
    match anyTaskArgs t with
    | Some args => anyTaskEdges (statusMap ctx) st taskId args false false
    | None => Ok []
    end;
  edges4 ← runAfterEdges (statusMap ctx) st taskId t;
  status ←
    (if negb (bool_decide (t_name t ∈ conditionTasks ctx)) then
       getStatus (statusMap_get (statusMap ctx) st (Some (t_name t)))
     else if bool_decide (t_name t ∈ skipped ctx) then Ok CONDITIONCHECKFAILED
     else Ok PENDING);
  '(start, completion) ←
    match statusMap_get (statusMap ctx) st (Some (t_name t)) with
    | Some rec =>
        s ← must (rr_status rec); Ok (startTime s, completionTime s)
    | None => Ok (Some "", Some "")
    end;
  Ok {| out_anyTaskEdges := direct;
        out_paramEdges := edges1;
        out_conditionEdges := edges2;
        out_whenEdges := edges3;
        out_runAfterEdges := edges4;
        out_node :=
          (taskId,
           {| nl_status := status;
              nl_exitHandler := bool_decide (t_name t ∈ exitHandlers ctx);
              nl_startTime := start;
              nl_completionTime := completion |}) |}.

(** The body of the main loop for a task that is drawn. *)
Definition taskOutput (ctx : BuildContext) (t : Task) (st : Status)
  : Result (TaskOutput * Status) :=
  taskId ← taskIdOf (statusMap ctx) st (t_name t);
  '(edges1, st1) ←
    checkParams (statusMap ctx) (pipelineParams ctx) (task_component t) "" st;
  '(edges2, st2) ←
    conditionsEdges (statusMap ctx) (pipelineParams ctx) taskId
      (default [] (t_conditions t)) st1;
  o ← drawTask ctx t taskId edges1 edges2 st2;
  Ok (o, st2).

Definition commit (graph : Graph) (o : TaskOutput) : Graph :=
  let graph1 := setEdges graph (out_anyTaskEdges o) in
  let graph2 :=
    setEdges graph1
      (out_paramEdges o ++ out_conditionEdges o ++ out_whenEdges o
       ++ out_runAfterEdges o) in
  setNode graph2 (fst (out_node o)) (snd (out_node o)).

Fixpoint addTasks (ctx : BuildContext) (ts : list Task) (graph : Graph)
    (st : Status) : Result (Graph * Status) :=
  match ts with
  | [] => Ok (graph, st)
  | t :: rest =>
      if materialized ctx st t then
        '(o, st1) ← taskOutput ctx t st;
        addTasks ctx rest (commit graph o) st1
      else addTasks ctx rest graph st
  end.

(** The test that returns the empty graph at once. *)
Definition noStatusYet (workflow : Workflow) : bool :=
  match status workflow with
  | Some st => (status_keys st =? 0)%nat || negb (Js.has (taskRuns st))
  | None => false
  end.

Definition allTasks (workflow : Workflow) : list Task :=
  default [] (tasks (pipelineSpec (spec workflow)))
  ++ default [] (finally (pipelineSpec (spec workflow))).

Definition stamped (st : Status) : Status :=
  {| taskRuns := stampRunIds <$> taskRuns st;
     runs := stampRunIds <$> runs st;
     skippedTasks := skippedTasks st;
     st_others := st_others st |}.

Definition buildStatusMap (st : Status) : gmap string RunRef :=
  indexRuns CustomRunRef 0 (records_of (runs st))
    (indexRuns TaskRunRef 0 (records_of (taskRuns st)) ∅).

(** The constants that the builder takes from the document before its
    main loop. *)
Definition contextOf (workflow : Workflow) (st : Status)
    (conditionTasks : list string) : BuildContext :=
  {| statusMap := buildStatusMap st;
     pipelineParams := default [] (sp_params (spec workflow));
     conditionTasks := conditionTasks;
     skipped := default [] (skippedTasks st);
     exitHandlers :=
       t_name <$> default [] (finally (pipelineSpec (spec workflow))) |}.

Definition with_status (workflow : Workflow) (st : Status) : Workflow :=
  {| metadata := metadata workflow; spec := spec workflow; status := Some st |}.

(** [createRuntimeGraph(workflow, executions)]. The result is the graph
    together with the document as the call leaves it. The executions only
    feed the icon of a node, which is not modelled. *)
Definition createRuntimeGraph (workflow : Workflow)
  : Result (Graph * Workflow) :=
  if noStatusYet workflow then Ok (emptyGraph, workflow)
  else
    let ts := allTasks workflow in
    st ← must (status workflow);
    let st0 := stamped st in
    let sm := buildStatusMap st in
    conditionTasks ← conditionTasksOf sm st0 ts;
    '(graph, st') ←
      addTasks (contextOf workflow st conditionTasks) ts emptyGraph st0;
    Ok (graph, with_status workflow st').

End Builder.

(** ** Members that an object inherits

    [object[name]] finds the member that the object itself has under the
    name and, when it has none, the member that it inherits under that name
    from its prototype: a plain object has a [constructor] and a
    [toString], an array has a [map] as well. The parser looks the artifact
    annotations up by task name, on the object that [JSON.parse] returns
    for an annotation or on the array literal that stands in for a missing
    one. What these two inherit is the engine's. Of an inherited member the
    parser tells three kinds apart: none, or one that is falsy, as the
    [length] of the array literal; an array, which is the prototype of the
    arrays when the array literal is asked for its [__proto__], and has no
    elements; anything else, a function or an object, on which the array
    methods are not defined. *)
Inductive Inherited :=
  | NotInherited
  | InheritedArray
  | InheritedOther.

Class Prototypes := {
  ofObject : string → Inherited;
  ofArray : string → Inherited;
}.

(** The value of a lookup by task name. *)
Inductive Member (A : Type) :=
  | Undefined
  | ArrayOf (l : list A)
  | NotAnArray.
Arguments Undefined {A}.
Arguments ArrayOf {A} l.
Arguments NotAnArray {A}.

Definition inherited {A : Type} (i : Inherited) : Member A :=
  match i with
  | NotInherited => Undefined
  | InheritedArray => ArrayOf []
  | InheritedOther => NotAnArray
  end.

(** [raw[name]], where [raw] is a parsed annotation, or the array literal
    when there is no annotation. *)
Definition member {A : Type} `{Prototypes}
    (raw : option (gmap string (list A))) (name : string) : Member A :=
  match raw with
  | Some parsed =>
      match parsed !! name with
      | Some l => ArrayOf l
      | None => inherited (ofObject name)
      end
  | None => inherited (ofArray name)
  end.

(** ** Artifact locations *)

Record SecretKeySelector := {
  secret_name : string;
  secret_key : string;
  optional : bool;
}.

Record S3Artifact := {
  endpoint : option string;
  s3_bucket : option string;
  insecure : bool;
  accessKeySecret : SecretKeySelector;
  secretKeySecret : SecretKeySelector;
  s3_key : string;
}.

Section Artifacts.

Context {NodePhase : NodePhaseEnum} {Inheritance : Prototypes}.

(** [f] on each element in turn, in a call that may throw. *)
Fixpoint mapR {A B : Type} (f : A → Result B) (l : list A) : Result (list B) :=
  match l with
  | [] => Ok []
  | a :: rest => b ← f a; bs ← mapR f rest; Ok (b :: bs)
  end.

(** The value of the cache label of a task, through the chain of
    [|| {}] defaults, with ['false'] for a missing or empty label. *)
Definition cacheLabel (t : Task) : string :=
  match ts ← t_taskSpec t; md ← ts_metadata ts; l ← labels md;
        (l : gmap string string) !! "pipelines.kubeflow.org/cache_enabled" with
  | Some v => if String.eqb v "" then "false" else v
  | None => "false"
  end.

(** The [forEach] over the declared tasks that picks the run whose
    storage holds an artifact: [producer] is the task that stored it. *)
Definition pipelineRunIDFor (workflowName : option string) (ts : list Task)
    (producer : option string) (cachedPipelineRun : option string) : string :=
  foldl (λ pipelineRunID t,
           if bool_decide (producer = Some (t_name t))
              && String.eqb (cacheLabel t) "true"
              && Js.truthy cachedPipelineRun
           then default pipelineRunID cachedPipelineRun
           else pipelineRunID)
        (if Js.truthy workflowName then default "" workflowName else "") ts.

Definition artifactTemplate (a : Annotations) (key : string) : S3Artifact :=
  {| endpoint := artifact_endpoint a;
     s3_bucket := artifact_bucket a;
     insecure := bool_decide (artifact_endpoint_scheme a = Some "http://");
     accessKeySecret := {| secret_name := "mlpipeline-minio-artifact";
                           secret_key := "accesskey"; optional := false |};
     secretKeySecret := {| secret_name := "mlpipeline-minio-artifact";
                           secret_key := "secretkey"; optional := false |};
     s3_key := key |}.

Definition inputArtifactKey (pipelineRunID : string) (artifact : InputArtifact)
  : string :=
  "artifacts/" +:+ pipelineRunID +:+ "/" +:+ parent_task artifact +:+ "/"
  +:+ Js.substring_from (ia_name artifact)
        (Js.length (parent_task artifact) + 1)
  +:+ ".tgz".

Definition inputArtifact (workflow : Workflow) (md : Metadata)
    (a : Annotations) (cachedPipelineRun : option string)
    (artifact : InputArtifact) : Result (string * S3Artifact) :=
  ts ← must (tasks (pipelineSpec (spec workflow)));
  let pipelineRunID :=
    pipelineRunIDFor (md_name md) ts (Some (parent_task artifact))
      cachedPipelineRun in
  Ok (ia_name artifact,
      artifactTemplate a (inputArtifactKey pipelineRunID artifact)).

Definition outputArtifact (workflow : Workflow) (md : Metadata)
    (a : Annotations) (cachedPipelineRun : option string)
    (artifact : OutputArtifact) : Result (string * S3Artifact) :=
  key ← must (oa_key artifact);
  let split := Js.split "/" key in
  let taskName := split !! 2%nat in
  ts ← must (tasks (pipelineSpec (spec workflow)));
  let pipelineRunID :=
    pipelineRunIDFor (md_name md) ts taskName cachedPipelineRun in
  Ok (oa_name artifact,
      artifactTemplate a (Js.replace key "$PIPELINERUN" pipelineRunID)).

(** The two loops that find the task of a node and its status. *)
Fixpoint findTaskRun (nodeId : option string)
    (records : list (string * RunRecord)) (found : string * string)
  : Result (string * string) :=
  match records with
  | [] => Ok found
  | (_, taskRun) :: rest =>
      match rr_status taskRun with
      | Some s =>
          if bool_decide (podName s = nodeId) then
            taskStatus ← getStatus (Some taskRun);
            findTaskRun nodeId rest (pipelineTaskName taskRun, taskStatus)
          else findTaskRun nodeId rest found
      | None => findTaskRun nodeId rest found
      end
  end.

Fixpoint findRun (nodeId : option string)
    (records : list (string * RunRecord)) (found : string * string)
  : Result (string * string) :=
  match records with
  | [] => Ok found
  | (_, run) :: rest =>
      if Js.has (rr_status run)
         && bool_decide (Some (pipelineTaskName run) = nodeId) then
        taskStatus ← getStatus (Some run);
        findRun nodeId rest (pipelineTaskName run, taskStatus)
      else findRun nodeId rest found
  end.

Definition getNodeInputOutputArtifacts (workflow : Workflow)
    (nodeId : option string) (cachedPipelineRun : option string)
  : Result (list (string * S3Artifact) * list (string * S3Artifact)) :=
  match metadata workflow, status workflow with
  | Some md, Some st =>
      match annotations md with
      | Some a =>
          if negb (Js.has (taskRuns st) || Js.has (runs st)) then Ok ([], [])
          else
            found ← findTaskRun nodeId (records_of (taskRuns st)) ("", SUCCEEDED);
            '(taskName, taskStatus) ← findRun nodeId (records_of (runs st)) found;
            if String.eqb taskName "" then Ok ([], [])
            else
              let rawInputArtifacts := input_artifacts a in
              let rawOutputArtifacts := output_artifacts a in
              inputArtifacts ←
                match member rawInputArtifacts taskName with
                | ArrayOf artifacts =>
                    mapR (inputArtifact workflow md a cachedPipelineRun)
                         artifacts
                | Undefined => Ok []
                | NotAnArray => Throw TypeError
                end;
              match member rawOutputArtifacts taskName with
              | ArrayOf (first :: rest) =>
                  if negb (Js.truthy (oa_key first))
                     || (negb (String.eqb taskStatus COMPLETED)
                         && negb (String.eqb taskStatus SUCCEEDED))
                  then Ok (inputArtifacts, [])
                  else
                    outputArtifacts ←
                      mapR (outputArtifact workflow md a cachedPipelineRun)
                           (first :: rest);
                    Ok (inputArtifacts, outputArtifacts)
              | _ => Ok (inputArtifacts, [])
              end
      | None => Ok ([], [])
      end
  | _, _ => Ok ([], [])
  end.

End Artifacts.

(** ** Vocabulary of the statements *)

(** [s] has [needle] as a contiguous substring. *)
Definition contains (s needle : string) : Prop :=
  ∃ a b, s = a +:+ needle +:+ b.

(** The character [c] does not occur in [s]. *)
Fixpoint free_of (c : ascii) (s : string) : Prop :=
  match s with
  | EmptyString => True
  | String d s' => d ≠ c ∧ free_of c s'
  end.

(** The decoder's first test. *)
Definition is_pipeline_param (s : string) : bool :=
  String.eqb (Js.substring s 0 9) "$(params."
  && String.eqb (Js.substring_from s (Js.length s - 1)) ")".

(** The decoder's second test. *)
Definition has_both_delimiters (s : string) : bool :=
  negb (Js.indexOf s "$(" =? -1) && negb (Js.indexOf s ")" =? -1).

(** The pipeline-parameter shape: the fixed prefix, a name, the closing
    delimiter. *)
Definition pipeline_param_shape (s : string) : Prop :=
  ∃ name, s = "$(params." +:+ name +:+ ")".

(** The upstream-result shape as the decoder recognises it: both delimiters
    occur somewhere and the string is not a pipeline-parameter reference. *)
Definition upstream_result_shape (s : string) : Prop :=
  contains s "$(" ∧ contains s ")" ∧ ¬ pipeline_param_shape s.

(** [s] without its final character. *)
Definition drop_last (s : string) : string :=
  Js.take (String.length s - 1) s.

Definition is_delimiter (c : ascii) : bool :=
  Ascii.eqb c "$" || Ascii.eqb c "(" || Ascii.eqb c ")".

(** A segment with the delimiter characters of the reference syntax
    stripped, as the specification words the decoded result name. *)
Fixpoint strip_delimiters (s : string) : string :=
  match s with
  | EmptyString => EmptyString
  | String c s' =>
      if is_delimiter c then strip_delimiters s'
      else String c (strip_delimiters s')
  end.

(** The specification's reading of an upstream-result reference: second
    segment as the task, last segment stripped of delimiters as the result
    name. *)
Definition decodes_with_delimiters_stripped (s : string) : Prop :=
  ∃ lastseg,
    last (Js.split "." s) = Some lastseg ∧
    decodeParam s = Ok {| task := Js.split "." s !! 1%nat;
                          param := Some (strip_delimiters lastseg) |}.

(** The literal URI prefix of each storage service. *)
Definition scheme_prefix (svc : StorageService) : string :=
  match svc with
  | GCS => "gs://"
  | MINIO => "minio://"
  | S3 => "s3://"
  | HTTP => "http://"
  | HTTPS => "https://"
  | VOLUME => "volume://"
  end.

(** *** What the builder reads of a run record

    The builder writes two things into the document: the [taskRunId] of
    each record and the values of the parameters recorded on a run. The
    erasure of a document forgets exactly these. *)
Definition eraseParam (p : NameValue) : NameValue :=
  {| nv_name := nv_name p; nv_value := None |}.

Definition eraseTaskSpec (ts : StatusTaskSpec) : StatusTaskSpec :=
  {| sts_params := (λ ps : list NameValue, eraseParam <$> ps)
                   <$> sts_params ts |}.

Definition eraseStatus (s : RunStatus) : RunStatus :=
  {| podName := podName s;
     conditions := conditions s;
     taskResults := taskResults s;
     taskSpec := eraseTaskSpec <$> taskSpec s;
     startTime := startTime s;
     completionTime := completionTime s |}.

Definition eraseRecord (rec : RunRecord) : RunRecord :=
  {| pipelineTaskName := pipelineTaskName rec;
     rr_status := eraseStatus <$> rr_status rec;
     taskRunId := None |}.

Definition eraseRecords (l : list (string * RunRecord))
  : list (string * RunRecord) :=
  (λ kv, (fst kv, eraseRecord (snd kv))) <$> l.

Definition eraseDoc (st : Status) : Status :=
  {| taskRuns := eraseRecords <$> taskRuns st;
     runs := eraseRecords <$> runs st;
     skippedTasks := skippedTasks st;
     st_others := st_others st |}.

(** Two states of the status object that the builder cannot tell apart. *)
Definition same_reads (st st' : Status) : Prop := eraseDoc st = eraseDoc st'.

(** Two outcomes of a step that may write to the document: the same
    exception, or the same value in states that read the same. *)
Definition agree {A : Type} (x y : Result (A * Status)) : Prop :=
  match x, y with
  | Ok (a, st), Ok (a', st') => a = a' ∧ same_reads st st'
  | Throw e, Throw e' => e = e'
  | _, _ => False
  end.

(** The value a step yields, its final state put aside. *)
Definition value_of {A : Type} (x : Result (A * Status)) : Result A :=
  match x with
  | Ok (a, _) => Ok a
  | Throw e => Throw e
  end.

(** The exception a call ends with, if any. *)
Definition thrown {A : Type} (x : Result A) : option Exception :=
  match x with
  | Ok _ => None
  | Throw e => Some e
  end.

(** What a task contributes when the builder reaches it with the
    document in state [st]. *)
Definition outputOf `{NodePhaseEnum} (ctx : BuildContext) (st : Status)
    (t : Task) : Result TaskOutput :=
  value_of (taskOutput ctx t st).

(** The contributions of the tasks that are drawn, in the order of the
    task list. *)
Definition outputsOf `{NodePhaseEnum} (ctx : BuildContext) (st : Status)
    (ts : list Task) : Result (list TaskOutput) :=
  mapR (outputOf ctx st) (List.filter (materialized ctx st) ts).

(** ** Vocabulary of the gating law *)

(** The task [p] is in the index with a first condition of type
    [Succeeded], and [pod] is the [podName] field of its status. *)
Definition succeeded_parent (sm : gmap string RunRef) (st : Status)
    (p : string) (pod : option string) : Prop :=
  ∃ rec s c cs,
    statusMap_get sm st (Some p) = Some rec
    ∧ rr_status rec = Some s
    ∧ conditions s = Some (c :: cs)
    ∧ cond_type c = "Succeeded"
    ∧ podName s = pod.

(** A parameter binding of the list refers to a result of task [p]. *)
Definition param_refers (ps : option (list NameValue)) (p : string) : Prop :=
  ∃ nv v ref,
    nv ∈ default [] ps ∧ nv_value nv = Some v
    ∧ decodeParam v = Ok ref ∧ task ref = Some p.

(** A when-guard of the list refers to a result of task [p]. *)
Definition when_refers (whens : option (list WhenExpression)) (p : string)
  : Prop :=
  ∃ condition ref,
    condition ∈ default [] whens
    ∧ decodeParam (when_input condition) = Ok ref
    ∧ task ref = Some p ∧ p ≠ "".

(** The task names that the argument scan of an any-sequencer looks up:
    the comma-separated names of an argument in task-list position and the
    name inside an argument in condition position. *)
Fixpoint anyTaskParents (args : list string)
    (isNextTaskList isNextCondition : bool) : list string :=
  match args with
  | [] => []
  | arg :: rest =>
      if String.eqb arg "--taskList" then
        anyTaskParents rest true isNextCondition
      else if String.eqb arg "-c" then
        anyTaskParents rest isNextTaskList true
      else if isNextTaskList then
        Js.split "," arg ++ anyTaskParents rest false isNextCondition
      else if isNextCondition then
        conditionArgTask arg :: anyTaskParents rest isNextTaskList false
      else anyTaskParents rest isNextTaskList isNextCondition
  end.

(** The identity under which a task of the name [name] is drawn, [found]
    being what the index holds under that name: the pod name of the record
    when that is a non-empty string, and the name otherwise. *)
Definition identity_of (found : option RunRecord) (name : string) : string :=
  match rec ← found; s ← rr_status rec; podName s with
  | Some pod => if String.eqb pod "" then name else pod
  | None => name
  end.

(** The task is an any-sequencer with the arguments [args]: the command of
    the first step of its specification starts with [any-task], and [args]
    are the arguments of that step. *)
Definition any_task_step (t : Task) (args : list string) : Prop :=
  ∃ ts step steps command,
    t_taskSpec t = Some ts ∧ ts_steps ts = Some (step :: steps)
    ∧ step_command step = Some ("any-task" :: command)
    ∧ step_args step = Some args.

(** [s] is [before], then [needle], then something, and [needle] does not
    occur in [s] any earlier. *)
Definition first_occurrence (s needle before : string) : Prop :=
  (∃ after, s = before +:+ needle +:+ after)
  ∧ ∀ before' after', s = before' +:+ needle +:+ after' →
                      (String.length before ≤ String.length before')%nat.

(** The condition names a result of the task [p]: [p] is what stands
    between the first [results_] and the first [_output] of the
    condition. *)
Definition names_result_of (condition p : string) : Prop :=
  ∃ before,
    first_occurrence condition "results_" before
    ∧ first_occurrence condition "_output" (before +:+ "results_" +:+ p).

(** An argument that is neither of the two options of the scan. *)
Definition is_value (arg : string) : Prop := arg ≠ "--taskList" ∧ arg ≠ "-c".

(** The arguments of an any-sequencer refer to the task [p]: [p] is one of
    the comma-separated names of the value that follows [--taskList], or
    the task named by the condition that follows [-c], the [-c] standing
    first or after a value. *)
Definition step_refers (args : list string) (p : string) : Prop :=
  (∃ pre names post,
     args = pre ++ "--taskList" :: names :: post
     ∧ is_value names ∧ p ∈ Js.split "," names)
  ∨ (∃ pre condition post,
       args = pre ++ "-c" :: condition :: post
       ∧ (pre = [] ∨ ∃ pre' value, pre = pre' ++ [value] ∧ is_value value)
       ∧ is_value condition ∧ names_result_of condition p).

(** The task [t] is drawn and contributes [o] to the graph of the
    document. *)
Definition contribution `{NodePhaseEnum} (workflow : Workflow) (t : Task)
    (o : TaskOutput) : Prop :=
  ∃ st cts,
    status workflow = Some st
    ∧ noStatusYet workflow = false
    ∧ conditionTasksOf (buildStatusMap st) (stamped st) (allTasks workflow)
      = Ok cts
    ∧ t ∈ allTasks workflow
    ∧ materialized (contextOf workflow st cts) (stamped st) t = true
    ∧ outputOf (contextOf workflow st cts) (stamped st) t = Ok o.

(** The gating law as the specification words it for an any-sequencer:
    whenever a task that the arguments of the step refer to is in the
    index, the graph has an edge from it. *)
Definition aggregator_edges_whenever_indexed `{NodePhaseEnum}
    (workflow : Workflow) : Prop :=
  ∀ st graph workflow' t args p rec,
    status workflow = Some st →
    createRuntimeGraph workflow = Ok (graph, workflow') →
    t ∈ allTasks workflow → any_task_step t args → step_refers args p →
    statusMap_get (buildStatusMap st) (stamped st) (Some p) = Some rec →
    ∃ e, e ∈ g_edges graph ∧ parent e = Some (identity_of (Some rec) p).

(** The edge is gathered for the task [t] from a reference to the task
    [p]: a parameter binding of [t] or of one of its condition objects
    refers to a result of [p], or [p] is a [runAfter] entry of [t]. *)
Definition gated_reference (t : Task) (p : string) : Prop :=
  param_refers (t_params t) p
  ∨ (∃ condition, condition ∈ default [] (t_conditions t)
                  ∧ param_refers (c_params condition) p)
  ∨ p ∈ default [] (runAfter t).

(** The consequence as the specification words it: the parent end of an
    edge gathered from a reference to a succeeded parent without a pod
    name is not the identity of the parent's node. *)
Definition gated_parent_end_differs `{NodePhaseEnum} (workflow : Workflow)
  : Prop :=
  ∀ st graph workflow' t o e p rec s,
    status workflow = Some st →
    createRuntimeGraph workflow = Ok (graph, workflow') →
    contribution workflow t o →
    e ∈ out_paramEdges o ∨ e ∈ out_conditionEdges o ∨ e ∈ out_runAfterEdges o →
    gated_reference t p →
    statusMap_get (buildStatusMap st) (stamped st) (Some p) = Some rec →
    rr_status rec = Some s → parent e = podName s →
    Js.truthy (podName s) = false →
    endName (parent e) ≠ identity_of (Some rec) p.

(** ** Vocabulary of order independence *)

(** Two graphs with the same set of node identities and the same set of
    edges. *)
Definition same_graph (g g' : Graph) : Prop :=
  (∀ id, id ∈ (fst <$> g_nodes g) ↔ id ∈ (fst <$> g_nodes g'))
  ∧ (∀ e, e ∈ g_edges g ↔ e ∈ g_edges g').

(** The document with its two task lists replaced. *)
Definition with_tasks (workflow : Workflow) (ts fs : list Task) : Workflow :=
  {| metadata := metadata workflow;
     spec := {| sp_params := sp_params (spec workflow);
                pipelineSpec := {| tasks := Some ts; finally := Some fs |} |};
     status := status workflow |}.

(** Two calls that both throw, or return graphs that are the same sets. *)
Definition same_outcome (x y : Result (Graph * Workflow)) : Prop :=
  match x, y with
  | Ok (g, _), Ok (g', _) => same_graph g g'
  | Throw _, Throw _ => True
  | _, _ => False
  end.

(** Two results that both throw, or hold lists that are permutations of
    each other. *)
Definition perm_results {B : Type} (x y : Result (list B)) : Prop :=
  match x, y with
  | Ok bs, Ok bs' => bs ≡ₚ bs'
  | Throw _, Throw _ => True
  | _, _ => False
  end.

(** Two contexts that answer every question of the builder alike. *)
Definition ctx_equiv (ctx ctx' : BuildContext) : Prop :=
  statusMap ctx = statusMap ctx'
  ∧ pipelineParams ctx = pipelineParams ctx'
  ∧ skipped ctx = skipped ctx'
  ∧ (∀ n, n ∈ conditionTasks ctx ↔ n ∈ conditionTasks ctx')
  ∧ (∀ n, n ∈ exitHandlers ctx ↔ n ∈ exitHandlers ctx').

(** The scan for condition tasks never throws, and its result is a
    filter of the task list. *)
Definition isConditionTask (sm : gmap string RunRef) (st : Status) (t : Task)
  : bool :=
  negb (Js.has (statusMap_get sm st (Some (t_name t))))
  && match guardedByIndexedTask sm st (default [] (t_when t)) with
     | Ok b => b
     | Throw _ => false
     end.

(** ** Vocabulary of the cache substitution *)

(** The task that stored an artifact is declared with the cache label set
    to ['true']. *)
Definition cacheEnabledProducer (ts : list Task) (producer : option string)
  : Prop :=
  ∃ t, t ∈ ts ∧ producer = Some (t_name t) ∧ cacheLabel t = "true".

(** [workflow.metadata.name || ''] *)
Definition runNameOf (workflowName : option string) : string :=
  if Js.truthy workflowName then default "" workflowName else "".





(** ** Example documents *)

(** Modelled from the spec: the four phase constants of the status
    utilities (pending, condition-check-failed, completed, succeeded),
    spelled as the front end spells them; they are used to evaluate the
    parser on the documents below and no property depends on the
    spelling. *)
Definition kfpNodePhase : NodePhaseEnum :=
  {| PENDING := "Pending";
     CONDITIONCHECKFAILED := "ConditionCheckFailed";
     COMPLETED := "Completed";
     SUCCEEDED := "Succeeded" |}.

(** The members that a plain object and an empty array inherit, after the
    language standard; they are used to evaluate the parser on the
    documents below. *)
Definition objectPrototype : list string :=
  [ "constructor"; "__defineGetter__"; "__defineSetter__"; "hasOwnProperty";
    "__lookupGetter__"; "__lookupSetter__"; "isPrototypeOf";
    "propertyIsEnumerable"; "toString"; "valueOf"; "__proto__";
    "toLocaleString" ].

Definition arrayPrototype : list string :=
  [ "at"; "concat"; "copyWithin"; "entries"; "every"; "fill"; "filter";
    "find"; "findIndex"; "findLast"; "findLastIndex"; "flat"; "flatMap";
    "forEach"; "includes"; "indexOf"; "join"; "keys"; "lastIndexOf"; "map";
    "pop"; "push"; "reduce"; "reduceRight"; "reverse"; "shift"; "slice";
    "some"; "sort"; "splice"; "unshift"; "values" ].

Definition standardPrototypes : Prototypes :=
  {| ofObject name :=
       if bool_decide (name ∈ objectPrototype) then InheritedOther
       else NotInherited;
     ofArray name :=
       if String.eqb name "__proto__" then InheritedArray
       else if bool_decide (name ∈ arrayPrototype ++ objectPrototype)
            then InheritedOther
            else NotInherited |}.

Definition exampleTask (name : string) (params : option (list NameValue))
    (whens : option (list WhenExpression)) (after : option (list string))
  : Task :=
  {| t_name := name; t_params := params; t_conditions := None;
     t_when := whens; t_taskSpec := None; runAfter := after |}.

Definition exampleStatus (pod : option string) (condType reason : string)
    (results : option (list NameValue)) : RunStatus :=
  {| podName := pod;
     conditions := Some [ {| cond_type := condType; cond_reason := reason |} ];
     taskResults := results;
     taskSpec := None;
     startTime := Some "2021-01-01T00:00:00Z";
     completionTime := Some "2021-01-01T00:01:00Z" |}.

Definition exampleRecord (name : string) (s : option RunStatus) : RunRecord :=
  {| pipelineTaskName := name; rr_status := s; taskRunId := None |}.

Definition exampleWorkflow (ts : list Task) (st : option Status) : Workflow :=
  {| metadata := None;
     spec := {| sp_params := None;
                pipelineSpec := {| tasks := Some ts; finally := None |} |};
     status := st |}.

(** A run whose only records are custom run records. *)
Definition customRunsOnly : Workflow :=
  exampleWorkflow
    [ exampleTask "any" None None None ]
    (Some {| taskRuns := None;
             runs := Some [ ("run-any",
                             exampleRecord "any"
                               (Some (exampleStatus None "Succeeded"
                                        "Succeeded" None))) ];
             skippedTasks := None;
             st_others := 1 |}).

(** A run that has started no task. *)
Definition notStarted : Workflow :=
  exampleWorkflow
    [ exampleTask "A" None None None;
      exampleTask "B" (Some [ {| nv_name := "x";
                                 nv_value := Some "$(tasks.A.results.out)" |} ])
        (Some [ {| when_input := "$(tasks.A.results.out)" |} ]) (Some ["A"]) ]
    (Some {| taskRuns := Some []; runs := None; skippedTasks := None;
             st_others := 2 |}).

(** A run of two tasks in which [B] takes a result of [A], is guarded by
    it and is ordered after it; both have run and succeeded. *)
Definition producerTask : Task := exampleTask "A" None None None.

Definition consumerTask : Task :=
  exampleTask "B"
    (Some [ {| nv_name := "x"; nv_value := Some "$(tasks.A.results.out)" |} ])
    (Some [ {| when_input := "$(tasks.A.results.out)" |} ]) (Some ["A"]).

Definition resultPassing : Workflow :=
  exampleWorkflow [ producerTask; consumerTask ]
    (Some {| taskRuns :=
               Some [ ("run-a",
                       exampleRecord "A"
                         (Some (exampleStatus (Some "pod-a") "Succeeded"
                                  "Succeeded"
                                  (Some [ {| nv_name := "out";
                                             nv_value := Some "42" |} ]))));
                      ("run-b",
                       exampleRecord "B"
                         (Some {| podName := Some "pod-b";
                                  conditions :=
                                    Some [ {| cond_type := "Succeeded";
                                              cond_reason := "Succeeded" |} ];
                                  taskResults := None;
                                  taskSpec :=
                                    Some {| sts_params :=
                                      Some [ {| nv_name := "x";
                                                nv_value :=
                                                  Some "$(tasks.A.results.out)" |} ] |};
                                  startTime := None;
                                  completionTime := None |})) ];
             runs := None; skippedTasks := None; st_others := 0 |}).

(** The same two tasks when [A] has failed and [B] has not run. *)
Definition failedParent : Workflow :=
  exampleWorkflow [ producerTask; consumerTask ]
    (Some {| taskRuns :=
               Some [ ("run-a",
                       exampleRecord "A"
                         (Some (exampleStatus (Some "pod-a") "Failed"
                                  "Failed" None))) ];
             runs := None; skippedTasks := Some ["B"]; st_others := 0 |}).

(** A run in which [B] is ordered after a custom task [any], whose record
    is a custom run record without a pod name. *)
Definition orderedAfterAny : Task := exampleTask "B" None None (Some ["any"]).

Definition customParentStatus : Status :=
  {| taskRuns :=
       Some [ ("run-b",
               exampleRecord "B"
                 (Some (exampleStatus (Some "pod-b") "Succeeded"
                          "Succeeded" None))) ];
     runs :=
       Some [ ("run-any",
               exampleRecord "any"
                 (Some (exampleStatus None "Succeeded" "Succeeded" None))) ];
     skippedTasks := None; st_others := 0 |}.

Definition customParent : Workflow :=
  exampleWorkflow [ exampleTask "any" None None None; orderedAfterAny ]
    (Some customParentStatus).

(** A run whose tasks are cache-enabled: [B] reads an artifact stored by
    [A] and stores one itself. *)
Definition cacheEnabledTask (name : string) : Task :=
  {| t_name := name; t_params := None; t_conditions := None; t_when := None;
     t_taskSpec :=
       Some {| ts_steps := None;
               ts_metadata :=
                 Some {| labels :=
                   Some {[ "pipelines.kubeflow.org/cache_enabled" := "true" ]} |} |};
     runAfter := None |}.

Definition cachedRunMetadata : Metadata :=
  {| md_name := Some "run-2";
     annotations :=
       Some {| input_artifacts :=
                 Some {[ "B" := [ {| ia_name := "A-out";
                                     parent_task := "A" |} ] ]};
               output_artifacts :=
                 Some {[ "B" :=
                         [ {| oa_name := "B-model";
                              oa_key :=
                                Some "artifacts/$PIPELINERUN/B/model.tgz" |} ] ]};
               artifact_endpoint := Some "minio-service:9000";
               artifact_bucket := Some "mlpipeline";
               artifact_endpoint_scheme := Some "http://" |} |}.

Definition cachedRunRecord : RunRecord :=
  exampleRecord "B"
    (Some (exampleStatus (Some "pod-b") "Succeeded" "Succeeded" None)).

Definition cachedRunStatus : Status :=
  {| taskRuns := Some [ ("run-2-b", cachedRunRecord) ];
     runs := None; skippedTasks := None; st_others := 0 |}.

Definition cachedRun : Workflow :=
  {| metadata := Some cachedRunMetadata;
     spec := {| sp_params := None;
                pipelineSpec :=
                  {| tasks := Some [ cacheEnabledTask "A"; cacheEnabledTask "B" ];
                     finally := None |} |};
     status := Some cachedRunStatus |}.

(** The same run while [B] is running. *)
Definition runningRecord : RunRecord :=
  exampleRecord "B"
    (Some (exampleStatus (Some "pod-b") "Succeeded" "Running" None)).

Definition runningStatus : Status :=
  {| taskRuns := Some [ ("run-2-b", runningRecord) ];
     runs := None; skippedTasks := None; st_others := 0 |}.

Definition runningRun : Workflow :=
  {| metadata := Some cachedRunMetadata;
     spec := spec cachedRun;
     status := Some runningStatus |}.

(** The same run with a task run of a task named [constructor], for which
    the annotations declare no artifact. *)
Definition constructorStatus : Status :=
  {| taskRuns :=
       Some [ ("run-2-c",
               exampleRecord "constructor"
                 (Some (exampleStatus (Some "pod-c") "Succeeded" "Succeeded"
                          None))) ];
     runs := None; skippedTasks := None; st_others := 0 |}.

Definition constructorRun : Workflow :=
  {| metadata := Some cachedRunMetadata;
     spec := spec cachedRun;
     status := Some constructorStatus |}.

(** What the task [B] of [customParent] contributes. *)
Definition customParentOutputB : TaskOutput :=
  {| out_anyTaskEdges := [];
     out_paramEdges := [];
     out_conditionEdges := [];
     out_whenEdges := [];
     out_runAfterEdges := [ {| parent := None; child := Some "pod-b" |} ];
     out_node :=
       ("pod-b",
        {| nl_status := "Succeeded"; nl_exitHandler := false;
           nl_startTime := Some "2021-01-01T00:00:00Z";
           nl_completionTime := Some "2021-01-01T00:01:00Z" |}) |}.

(** ** Vocabulary of the index *)

(** The record is filed in the index under the name [n]: it has a status
    and [n] is its task name. *)
Definition filed_under (n : string) (rec : RunRecord) : bool :=
  Js.has (rr_status rec) && String.eqb (pipelineTaskName rec) n.

(** The position of the last record of a collection that is filed under
    [n]. *)
Fixpoint lastFiled (n : string) (records : list (string * RunRecord))
  : option nat :=
  match records with
  | [] => None
  | (_, rec) :: rest =>
      match lastFiled n rest with
      | Some j => Some (S j)
      | None => if filed_under n rec then Some 0%nat else None
      end
  end.

(** ** Vocabulary of the writes *)

(** A record without the values of its recorded parameters. *)
Definition forgetValues (rec : RunRecord) : RunRecord :=
  {| pipelineTaskName := pipelineTaskName rec;
     rr_status := eraseStatus <$> rr_status rec;
     taskRunId := taskRunId rec |}.

Definition forgetValuesOf (l : list (string * RunRecord))
  : list (string * RunRecord) :=
  (λ kv, (fst kv, forgetValues (snd kv))) <$> l.

Definition forgetValuesDoc (st : Status) : Status :=
  {| taskRuns := forgetValuesOf <$> taskRuns st;
     runs := forgetValuesOf <$> runs st;
     skippedTasks := skippedTasks st;
     st_others := st_others st |}.

(** Two states of the status object that differ at most in the values of
    the parameters recorded on the runs. *)
Definition values_only (st st' : Status) : Prop :=
  forgetValuesDoc st = forgetValuesDoc st'.

(** ** Vocabulary of the drawn tasks *)

(** A when-guard of the task refers to a task that is in the index. *)
Definition guarded_by_indexed (sm : gmap string RunRef) (st : Status)
    (t : Task) : Prop :=
  ∃ p, when_refers (t_when t) p ∧ is_Some (statusMap_get sm st (Some p)).

(** The task is drawn: it is in the index, or a task of its name is not
    and is guarded by one that is. *)
Definition drawn (workflow : Workflow) (st : Status) (t : Task) : Prop :=
  is_Some (statusMap_get (buildStatusMap st) (stamped st) (Some (t_name t)))
  ∨ ∃ t2, t2 ∈ allTasks workflow ∧ t_name t2 = t_name t
          ∧ guarded_by_indexed (buildStatusMap st) (stamped st) t2.

(** ** Vocabulary of the artifact lookups *)

(** The record is one that the lookup of a node matches: a task run whose
    status has the node identity for pod name, or a custom run with a
    status whose task name is the node identity. *)
Definition node_record (st : Status) (nodeId : option string)
    (rec : RunRecord) : Prop :=
  (∃ k s, (k, rec) ∈ records_of (taskRuns st)
          ∧ rr_status rec = Some s ∧ podName s = nodeId)
  ∨ (∃ k, (k, rec) ∈ records_of (runs st)
          ∧ is_Some (rr_status rec) ∧ Some (pipelineTaskName rec) = nodeId).

(** The record is the one that the lookup of the node matches, and the
    only one. *)
Definition only_record_of (st : Status) (nodeId : option string)
    (rec : RunRecord) : Prop :=
  node_record st nodeId rec ∧ ∀ rec', node_record st nodeId rec' → rec' = rec.

(** ** Output paths

    [loadNodeOutputPaths], [loadAllOutputPathsWithStepNames] and
    [loadAllOutputPaths]. The annotation of the output artifacts is held
    parsed, as for the artifacts of a node, and what is found under the
    task name may be a member that the parsed object inherits, on which
    [filter] is not defined; the selected node is a run record. *)

Record StepOutputPath := {
  stepName : string;
  path : StoragePath;
}.

Definition loadNodeOutputPaths `{Prototypes}
    (selectedWorkflowNode : RunRecord) (workflow : Workflow)
  : Result (list StoragePath) :=
  match metadata workflow with
  | Some md =>
      match annotations md with
      | Some a =>
          if negb (Js.truthy (md_name md)) then Ok []
          else
            let artifacts :=
              match output_artifacts a with
              | Some parsed =>
                  member (Some parsed) (pipelineTaskName selectedWorkflowNode)
              | None => ArrayOf []
              end in
            let bucket :=
              if Js.truthy (artifact_bucket a)
              then default "" (artifact_bucket a) else "" in
            let source :=
              if Js.truthy (artifact_endpoint a)
              then default "" (artifact_endpoint a) else "" in
            match artifacts with
            | Undefined => Ok []
            | NotAnArray => Throw TypeError
            | ArrayOf declared =>
                Ok (foldl
                      (λ outputPaths art,
                         match oa_key art with
                         | Some k =>
                             if String.eqb k "" then outputPaths
                             else
                               outputPaths
                               ++ [ {| bucket := Some bucket;
                                       key :=
                                         Js.replace k "$PIPELINERUN"
                                           (if Js.truthy (md_name md)
                                            then default "" (md_name md)
                                            else "");
                                       source :=
                                         if negb (Js.indexOf source "minio"
                                                  =? -1)
                                         then MINIO else S3 |} ]
                         | None => outputPaths
                         end)
                      []
                      (List.filter
                         (λ art,
                            String.eqb (oa_name art) "mlpipeline-ui-metadata")
                         declared))
            end
      | None => Ok []
      end
  | None => Ok []
  end.

Definition loadAllOutputPathsWithStepNames `{Prototypes} (workflow : Workflow)
  : Result (list StepOutputPath) :=
  match status workflow with
  | Some st =>
      match taskRuns st with
      | Some records =>
          collect (λ n,
                     paths ← loadNodeOutputPaths (snd n) workflow;
                     Ok ((λ p, {| stepName := pipelineTaskName (snd n);
                                  path := p |}) <$> (paths : list StoragePath)))
                  records
      | None => Ok []
      end
  | None => Ok []
  end.

Definition loadAllOutputPaths `{Prototypes} (workflow : Workflow)
  : Result (list StoragePath) :=
  entries ← loadAllOutputPathsWithStepNames workflow;
  Ok (path <$> (entries : list StepOutputPath)).

(** The path that the run's annotations give to an artifact key. *)
Definition is_ui_metadata_path (md : Metadata) (a : Annotations)
    (artifactKey : string) (p : StoragePath) : Prop :=
  key p = Js.replace artifactKey "$PIPELINERUN" (runNameOf (md_name md))
  ∧ bucket p = Some (default "" (artifact_bucket a))
  ∧ (source p = MINIO ∧ contains (default "" (artifact_endpoint a)) "minio"
     ∨ source p = S3 ∧ ¬ contains (default "" (artifact_endpoint a)) "minio").

(** The artifact is declared for the task under the name of the UI
    metadata, with a non-empty key. *)
Definition ui_metadata_of (a : Annotations) (taskName : string)
    (artifact : OutputArtifact) (artifactKey : string) : Prop :=
  ∃ declared,
    default ∅ (output_artifacts a) !! taskName = Some declared
    ∧ artifact ∈ declared
    ∧ oa_name artifact = "mlpipeline-ui-metadata"
    ∧ oa_key artifact = Some artifactKey ∧ artifactKey ≠ "".

(** The lookup of the output annotation by the task name [name] finds a
    member that the parsed annotation inherits and that is not an array. *)
Definition finds_inherited_member `{Prototypes} (workflow : Workflow)
    (name : string) : Prop :=
  ∃ md a parsed,
    metadata workflow = Some md ∧ annotations md = Some a
    ∧ Js.truthy (md_name md) = true
    ∧ output_artifacts a = Some parsed
    ∧ parsed !! name = None ∧ ofObject name = InheritedOther.

(** ... for the task name of some task run of the document. *)
Definition task_run_finds_inherited_member `{Prototypes} (workflow : Workflow)
  : Prop :=
  ∃ st records k rec,
    status workflow = Some st ∧ taskRuns st = Some records
    ∧ (k, rec) ∈ records
    ∧ finds_inherited_member workflow (pipelineTaskName rec).

(** The run has a non-empty name and annotations, a task run of it has
    the task name [name], and [p] is the path of a UI metadata artifact
    that the annotations declare for that task with a non-empty key. *)
Definition output_path_of (workflow : Workflow) (name : string)
    (p : StoragePath) : Prop :=
  ∃ md a st records k rec artifact artifactKey,
    metadata workflow = Some md ∧ annotations md = Some a
    ∧ Js.truthy (md_name md) = true
    ∧ status workflow = Some st ∧ taskRuns st = Some records
    ∧ (k, rec) ∈ records
    ∧ name = pipelineTaskName rec
    ∧ ui_metadata_of a (pipelineTaskName rec) artifact artifactKey
    ∧ is_ui_metadata_path md a artifactKey p.

(** ** Vocabulary of well-formed runs *)

(** The records of both collections, task runs first. *)
Definition all_records (st : Status) : list (string * RunRecord) :=
  records_of (taskRuns st) ++ records_of (runs st).

(** The run records that a document carries: those of its status object,
    and none when it has no status object. *)
Definition run_records (workflow : Workflow) : list (string * RunRecord) :=
  match status workflow with
  | Some st => all_records st
  | None => []
  end.

(** A status, when the record has one, does not hold an empty list of
    conditions, and a recorded task specification holds a list of
    parameters. *)
Definition well_formed_record (rec : RunRecord) : Prop :=
  ∀ s, rr_status rec = Some s →
       conditions s ≠ Some []
       ∧ ∀ ts, taskSpec s = Some ts → is_Some (sts_params ts).

(** Every binding of the list has a value. *)
Definition bindings_have_values (ps : option (list NameValue)) : Prop :=
  Forall (λ p, is_Some (nv_value p)) (default [] ps).

(** The records of the task [p] that have a status have conditions. *)
Definition has_conditions (st : Status) (p : string) : Prop :=
  Forall (λ kv, pipelineTaskName (snd kv) = p →
                ∀ s, rr_status (snd kv) = Some s → conditions s ≠ None)
         (all_records st).

(** A run whose records are well formed, in which the records of every
    task that another is ordered after have conditions, and in which every
    parameter binding of a task or of one of its condition objects has a
    value. *)
Definition well_formed_run (workflow : Workflow) (st : Status) : Prop :=
  Forall (λ kv, well_formed_record (snd kv)) (all_records st)
  ∧ Forall (λ t, Forall (has_conditions st) (default [] (runAfter t)))
           (allTasks workflow)
  ∧ Forall (λ t, bindings_have_values (t_params t)
                 ∧ Forall (λ c, bindings_have_values (c_params c))
                          (default [] (t_conditions t)))
           (allTasks workflow).

(** A record with a status that is well formed. *)
Definition readable_record (rec : RunRecord) : Prop :=
  ∃ s, rr_status rec = Some s ∧ conditions s ≠ Some []
       ∧ ∀ ts, taskSpec s = Some ts → is_Some (sts_params ts).

(** Every record that the index reaches in this state of the document is
    readable. *)
Definition readable_index (sm : gmap string RunRef) (st : Status) : Prop :=
  ∀ name rec, statusMap_get sm st name = Some rec → readable_record rec.

(** The record of [p], when the index has one, has a first condition. *)
Definition first_condition_defined (sm : gmap string RunRef) (st : Status)
    (p : string) : Prop :=
  ∀ rec, statusMap_get sm st (Some p) = Some rec →
         ∃ s c cs, rr_status rec = Some s ∧ conditions s = Some (c :: cs).

(** ** The task run of a pod

    [getTaskRunStatusFromPodName]: the first task run, in the order of
    the document, whose status has the pod name; [None] is the
    [undefined] that the function returns when its loop ends. *)
Fixpoint firstTaskRunOfPod (pod : string)
    (records : list (string * RunRecord)) : option RunRecord :=
  match records with
  | [] => None
  | (_, taskRun) :: rest =>
      match rr_status taskRun with
      | Some s =>
          if bool_decide (podName s = Some pod) then Some taskRun
          else firstTaskRunOfPod pod rest
      | None => firstTaskRunOfPod pod rest
      end
  end.

Definition getTaskRunStatusFromPodName (workflow : Workflow) (pod : string)
  : Result (option RunRecord) :=
  st ← must (status workflow);
  Ok (firstTaskRunOfPod pod (records_of (taskRuns st))).

(** ** Outbound nodes

    [getOutboundNodes] reads a workflow of the older shape, whose status
    holds a map of nodes; of a node it reads the identity, the type and the
    outbound nodes. A member that the map inherits has neither a type nor
    outbound nodes, and gives no outbound node, as a missing node does. The
    function calls itself on the outbound nodes and has no guard against a
    cycle, so the embedding takes the depth of the calls it may make:
    [None] is a run that needs more. *)
Record NodeStatus := {
  ns_id : string;
  ns_type : string;
  outboundNodes : option (list string);
}.

Record NodesStatus := { nodes : option (gmap string NodeStatus) }.

Record NodesWorkflow := { nw_status : option NodesStatus }.

Fixpoint getOutboundNodes (depth : nat) (graph : NodesWorkflow)
    (nodeId : string) : option (list string) :=
  match depth with
  | O => None
  | S depth' =>
      match nw_status graph ≫= nodes with
      | None => Some []
      | Some ns =>
          match ns !! nodeId with
          | None => Some []
          | Some node =>
              if String.eqb (ns_type node) "Pod" then Some [ns_id node]
              else
                foldl (λ outbound outboundNodeID,
                         acc ← outbound;
                         match ns !! outboundNodeID with
                         | Some outNode =>
                             if String.eqb (ns_type outNode) "Pod"
                             then Some (acc ++ [outboundNodeID])
                             else
                               more ← getOutboundNodes depth' graph
                                        outboundNodeID;
                               Some (acc ++ more)
                         | None =>
                             more ← getOutboundNodes depth' graph
                                      outboundNodeID;
                             Some (acc ++ more)
                         end)
                      (Some []) (default [] (outboundNodes node))
          end
      end
  end.

(** The node [m] is an outbound node of [n], and neither is a pod. *)
Definition descends (ns : gmap string NodeStatus) (n m : string) : Prop :=
  ∃ node out,
    ns !! n = Some node ∧ ns_type node ≠ "Pod"
    ∧ m ∈ default [] (outboundNodes node)
    ∧ ns !! m = Some out ∧ ns_type out ≠ "Pod".

(** The key [id] names a pod. *)
Definition is_pod (ns : gmap string NodeStatus) (id : string) : Prop :=
  ∃ node, ns !! id = Some node ∧ ns_type node = "Pod".

(** ** The parameters of a node

    [getNodeInputOutputParams]. The status of a custom run has a field
    [results] that the builder never reads and the run records above do not
    hold; the embedding takes it from a table indexed by the key of the
    custom run. A parameter is returned as the pair of its name and its
    value. *)
Section NodeParams.

Variable results : string → option (list NameValue).

Definition keyValues (l : list NameValue) : list (string * option string) :=
  (λ p, (nv_name p, nv_value p)) <$> l.

(** The loop over the task runs. *)
Fixpoint taskRunParams (nodeId : option string)
    (records : list (string * RunRecord))
    (found : list (string * option string) * list (string * option string))
  : Result (list (string * option string) * list (string * option string)) :=
  match records with
  | [] => Ok found
  | (_, taskRun) :: rest =>
      match rr_status taskRun with
      | Some s =>
          if bool_decide (podName s = nodeId) then
            ts ← must (taskSpec s);
            let inputParams :=
              match sts_params ts with
              | Some ps => keyValues ps
              | None => fst found
              end in
            let outputParams :=
              match taskResults s with
              | Some rs => keyValues rs
              | None => snd found
              end in
            taskRunParams nodeId rest (inputParams, outputParams)
          else taskRunParams nodeId rest found
      | None => taskRunParams nodeId rest found
      end
  end.

(** The loop over the custom runs. *)
Fixpoint customRunParams (nodeId : option string)
    (records : list (string * RunRecord))
    (outputParams : list (string * option string))
  : list (string * option string) :=
  match records with
  | [] => outputParams
  | (runId, run) :: rest =>
      if Js.has (rr_status run)
         && bool_decide (Some (pipelineTaskName run) = nodeId)
      then customRunParams nodeId rest
             match results runId with
             | Some rs => keyValues rs
             | None => outputParams
             end
      else customRunParams nodeId rest outputParams
  end.

Definition getNodeInputOutputParams (workflow : Workflow)
    (nodeId : option string)
  : Result (list (string * option string) * list (string * option string)) :=
  if negb (Js.truthy nodeId) then Ok ([], [])
  else
    match status workflow with
    | Some st =>
        if negb (Js.has (taskRuns st)) then Ok ([], [])
        else
          '(inputParams, outputParams) ←
            taskRunParams nodeId (records_of (taskRuns st)) ([], []);
          Ok (inputParams,
              customRunParams nodeId (records_of (runs st)) outputParams)
    | None => Ok ([], [])
    end.

End NodeParams.

(** The record is the only task run of the pod: every task run whose
    status has the pod name is this record. *)
Definition only_task_run_of (st : Status) (pod : string) (rec : RunRecord)
  : Prop :=
  ∀ k rec' s', (k, rec') ∈ records_of (taskRuns st) →
               rr_status rec' = Some s' → podName s' = Some pod →
               rec' = rec.

(** No custom run with a status has the name for task name. *)
Definition no_custom_run_of (st : Status) (name : string) : Prop :=
  ∀ k run, (k, run) ∈ records_of (runs st) → is_Some (rr_status run) →
           pipelineTaskName run ≠ name.

(** ** Further example documents *)

(** A run whose task [B] has stored its UI metadata. *)
Definition uiMetadataAnnotations : Annotations :=
  {| input_artifacts :=
       Some {[ "B" := [ {| ia_name := "A-out"; parent_task := "A" |} ] ]};
     output_artifacts :=
       Some {[ "B" :=
               [ {| oa_name := "mlpipeline-ui-metadata";
                    oa_key :=
                      Some "artifacts/$PIPELINERUN/B/mlpipeline-ui-metadata.tgz" |} ] ]};
     artifact_endpoint := Some "minio-service.kubeflow:9000";
     artifact_bucket := Some "mlpipeline";
     artifact_endpoint_scheme := Some "http://" |}.

Definition uiMetadataMetadata : Metadata :=
  {| md_name := Some "run-3"; annotations := Some uiMetadataAnnotations |}.

Definition uiMetadataRecord : RunRecord :=
  exampleRecord "B"
    (Some (exampleStatus (Some "pod-b") "Succeeded" "Succeeded" None)).

Definition uiMetadataStatus : Status :=
  {| taskRuns := Some [ ("run-3-b", uiMetadataRecord) ];
     runs := None; skippedTasks := None; st_others := 0 |}.

Definition uiMetadataRun : Workflow :=
  {| metadata := Some uiMetadataMetadata;
     spec := {| sp_params := None;
                pipelineSpec :=
                  {| tasks := Some [ cacheEnabledTask "A"; cacheEnabledTask "B" ];
                     finally := None |} |};
     status := Some uiMetadataStatus |}.

(** A run in which [B] is ordered after [A], whose task run has a status
    that holds no conditions yet. *)
Definition unfinishedStatus : RunStatus :=
  {| podName := Some "pod-a"; conditions := None; taskResults := None;
     taskSpec := None; startTime := None; completionTime := None |}.

Definition unfinishedRecord : RunRecord :=
  {| pipelineTaskName := "A"; rr_status := Some unfinishedStatus;
     taskRunId := Some "run-a" |}.

Definition unfinishedParentStatus : Status :=
  {| taskRuns :=
       Some [ ("run-a", exampleRecord "A" (Some unfinishedStatus));
              ("run-b",
               exampleRecord "B"
                 (Some (exampleStatus (Some "pod-b") "Succeeded" "Running"
                          None))) ];
     runs := None; skippedTasks := None; st_others := 0 |}.

Definition orderedAfterA : Task := exampleTask "B" None None (Some ["A"]).

Definition unfinishedParent : Workflow :=
  exampleWorkflow [ exampleTask "A" None None None; orderedAfterA ]
    (Some unfinishedParentStatus).

(** A group of steps whose outbound node is a pod, and a group that is
    its own outbound node. *)
Definition stepsNodes : gmap string NodeStatus :=
  {[ "root" := {| ns_id := "root"; ns_type := "Steps";
                  outboundNodes := Some ["pod-1"] |};
     "pod-1" := {| ns_id := "pod-1"; ns_type := "Pod";
                   outboundNodes := None |} ]}.

Definition stepsWorkflow : NodesWorkflow :=
  {| nw_status := Some {| nodes := Some stepsNodes |} |}.

Definition loopNode : NodeStatus :=
  {| ns_id := "g"; ns_type := "DAG"; outboundNodes := Some ["g"] |}.

Definition loopNodes : gmap string NodeStatus := {[ "g" := loopNode ]}.

Definition loopWorkflow : NodesWorkflow :=
  {| nw_status := Some {| nodes := Some loopNodes |} |}.

(** A run in which [B] is guarded by a result of [A] and has not started. *)
Definition guardedStatus : Status :=
  {| taskRuns :=
       Some [ ("run-a",
               exampleRecord "A"
                 (Some (exampleStatus (Some "pod-a") "Succeeded" "Succeeded"
                          None))) ];
     runs := None; skippedTasks := None; st_others := 0 |}.

Definition guardedTask : Task :=
  exampleTask "B" None
    (Some [ {| when_input := "$(tasks.A.results.out)" |} ]) None.

Definition guardedRun : Workflow :=
  exampleWorkflow [ producerTask; guardedTask ] (Some guardedStatus).

(** What the task [B] of [guardedRun] contributes. *)
Definition guardedOutputB : TaskOutput :=
  {| out_anyTaskEdges := [];
     out_paramEdges := [];
     out_conditionEdges := [];
     out_whenEdges := [ {| parent := Some "pod-a"; child := Some "B" |} ];
     out_runAfterEdges := [];
     out_node :=
       ("B",
        {| nl_status := "Pending"; nl_exitHandler := false;
           nl_startTime := Some ""; nl_completionTime := Some "" |}) |}.

(** A run that has no status object yet. *)
Definition noStatusRun : Workflow :=
  exampleWorkflow [ producerTask; consumerTask ] None.

(** An any-sequencer. *)
Definition anySequencer (name : string) (args : list string) : Task :=
  {| t_name := name; t_params := None; t_conditions := None; t_when := None;
     t_taskSpec :=
       Some {| ts_steps :=
                 Some [ {| step_args := Some args;
                           step_command := Some [ "any-task" ] |} ];
               ts_metadata := None |};
     runAfter := None |}.

(** A run in which [A] has failed, [B] is guarded by it and an
    any-sequencer that has run waits for it. *)
Definition sequencerArgs : list string :=
  [ "--namespace"; "kubeflow"; "--taskList"; "A";
    "-c"; "results_A_output == 'heads'" ].

Definition sequencerTask : Task := anySequencer "any" sequencerArgs.

Definition failedRecord : RunRecord :=
  {| pipelineTaskName := "A";
     rr_status := Some (exampleStatus (Some "pod-a") "Failed" "Failed" None);
     taskRunId := Some "run-a" |}.

Definition sequencerStatus : Status :=
  {| taskRuns :=
       Some [ ("run-a",
               exampleRecord "A"
                 (Some (exampleStatus (Some "pod-a") "Failed" "Failed"
                          None)));
              ("run-any",
               exampleRecord "any"
                 (Some (exampleStatus (Some "pod-any") "Succeeded"
                          "Succeeded" None))) ];
     runs := None; skippedTasks := Some ["B"]; st_others := 0 |}.

Definition sequencerRun : Workflow :=
  exampleWorkflow [ producerTask; consumerTask; sequencerTask ]
    (Some sequencerStatus).

(** A run in which [A] has succeeded and the any-sequencer that waits for
    it has no record. *)
Definition waitingSequencer : Task := anySequencer "any" [ "--taskList"; "A" ].

Definition waitingSequencerStatus : Status :=
  {| taskRuns :=
       Some [ ("run-a",
               exampleRecord "A"
                 (Some (exampleStatus (Some "pod-a") "Succeeded" "Succeeded"
                          None))) ];
     runs := None; skippedTasks := None; st_others := 0 |}.

Definition waitingSequencerRun : Workflow :=
  exampleWorkflow [ producerTask; waitingSequencer ]
    (Some waitingSequencerStatus).

(** A run in which [B] is ordered after a custom task that is named
    [undefined], whose record has no pod name. *)
Definition orderedAfterUndefined : Task :=
  exampleTask "B" None None (Some ["undefined"]).

Definition undefinedParentStatus : Status :=
  {| taskRuns :=
       Some [ ("run-b",
               exampleRecord "B"
                 (Some (exampleStatus (Some "pod-b") "Succeeded"
                          "Succeeded" None))) ];
     runs :=
       Some [ ("run-u",
               exampleRecord "undefined"
                 (Some (exampleStatus None "Succeeded" "Succeeded" None))) ];
     skippedTasks := None; st_others := 0 |}.

Definition undefinedParent : Workflow :=
  exampleWorkflow [ exampleTask "undefined" None None None;
                    orderedAfterUndefined ]
    (Some undefinedParentStatus).

(** * Properties *)

Example parseStoragePath_gs :
  parseStoragePath "gs://bucket/a/b"
  = Ok {| source := GCS; bucket := Some "bucket"; key := "a/b" |}.
Proof. reflexivity. Qed.

Example decodeParam_result :
  decodeParam "$(tasks.A.results.out)"
  = Ok {| task := Some "A"; param := Some "out" |}.
Proof. reflexivity. Qed.

Example decodeParam_param :
  decodeParam "$(params.x)" = Ok {| task := Some ""; param := Some "x" |}.
Proof. reflexivity. Qed.

(** ** Facts about the string primitives *)
Section JsStringFacts.

Lemma append_nil_r (s : string) : s +:+ "" = s.
Proof. induction s as [|c s IH]; simpl; [reflexivity | now rewrite IH]. Qed.

Lemma append_assoc (a b c : string) : (a +:+ b) +:+ c = a +:+ (b +:+ c).
Proof. induction a as [|x a IH]; simpl; [reflexivity | now rewrite IH]. Qed.

Lemma append_length (a b : string) :
  String.length (a +:+ b) = (String.length a + String.length b)%nat.
Proof. induction a as [|x a IH]; simpl; [reflexivity | now rewrite IH]. Qed.

Lemma take_drop (n : nat) (s : string) : Js.take n s +:+ Js.drop n s = s.
Proof.
  revert s; induction n as [|n IH]; intros [|c s]; simpl; try reflexivity.
  now rewrite IH.
Qed.

Lemma take_length (n : nat) (s : string) :
  String.length (Js.take n s) = Nat.min n (String.length s).
Proof.
  revert s; induction n as [|n IH]; intros [|c s]; simpl; try reflexivity.
  now rewrite IH.
Qed.

Lemma drop_app (a b : string) : Js.drop (String.length a) (a +:+ b) = b.
Proof. induction a as [|x a IH]; simpl; [now destruct b | exact IH]. Qed.

Lemma take_app (a b : string) : Js.take (String.length a) (a +:+ b) = a.
Proof.
  induction a as [|x a IH]; simpl; [now destruct b | now rewrite IH].
Qed.

Lemma take_all (s : string) : Js.take (String.length s) s = s.
Proof. rewrite <- (append_nil_r s) at 2. apply take_app. Qed.

Lemma drop_drop (n m : nat) (s : string) :
  Js.drop n (Js.drop m s) = Js.drop (m + n) s.
Proof.
  revert s; induction m as [|m IH]; intros s; simpl; [reflexivity|].
  destruct s as [|c s]; [now destruct n | apply IH].
Qed.

Lemma prefix_app (p s : string) : String.prefix p (p +:+ s) = true.
Proof.
  induction p as [|c p IH]; simpl; [now destruct s|].
  destruct (ascii_dec c c); [exact IH | congruence].
Qed.

Lemma prefix_inv (p s : string) :
  String.prefix p s = true → s = p +:+ Js.drop (String.length p) s.
Proof.
  revert s; induction p as [|c p IH]; intros s H; simpl.
  - now destruct s.
  - destruct s as [|d s]; simpl in H; [discriminate|].
    destruct (ascii_dec c d) as [->|]; [|discriminate].
    f_equal. now apply IH.
Qed.

Lemma startsWith_iff (s p : string) :
  Js.startsWith s p = true ↔ ∃ rest, s = p +:+ rest.
Proof.
  unfold Js.startsWith; split.
  - intros H; eexists; now apply prefix_inv.
  - intros [rest ->]; apply prefix_app.
Qed.

Lemma indexOf_from_found (s needle : string) (i : Z) :
  Js.indexOf_from s needle i ≠ -1 → 0 ≤ i → contains s needle.
Proof.
  revert i; induction s as [|c s IH]; intros i H Hi; cbn [Js.indexOf_from] in H.
  - destruct (String.prefix needle "") eqn:E; [|congruence].
    apply prefix_inv in E. exists "", (Js.drop (String.length needle) "").
    exact E.
  - destruct (String.prefix needle (String c s)) eqn:E.
    + apply prefix_inv in E. exists "". eexists. exact E.
    + destruct (IH (i + 1) H ltac:(lia)) as (a & b & ->).
      exists (String c a), b. reflexivity.
Qed.

Lemma indexOf_from_app (a needle b : string) (i : Z) :
  0 ≤ i → Js.indexOf_from (a +:+ needle +:+ b) needle i ≠ -1.
Proof.
  revert i; induction a as [|c a IH]; intros i Hi;
    cbn [String.append Js.indexOf_from].
  - assert (E : String.prefix needle (needle +:+ b) = true) by apply prefix_app.
    destruct (needle +:+ b) eqn:Eb; cbn [Js.indexOf_from]; rewrite E; lia.
  - destruct (String.prefix needle (String c (a +:+ needle +:+ b))); [lia|].
    apply IH; lia.
Qed.

Lemma indexOf_contains (s needle : string) :
  Js.indexOf s needle ≠ -1 ↔ contains s needle.
Proof.
  split.
  - intros H; now apply (indexOf_from_found s needle 0).
  - intros (a & b & ->). now apply indexOf_from_app.
Qed.

Lemma split_nonempty (sep : ascii) (s : string) : Js.split sep s ≠ [].
Proof.
  induction s as [|c s IH]; simpl; [discriminate|].
  destruct (Ascii.eqb c sep); [discriminate|].
  destruct (Js.split sep s); discriminate.
Qed.

Lemma split_join (sep : ascii) (s : string) :
  Js.join (String sep "") (Js.split sep s) = s.
Proof.
  induction s as [|c s IH]; simpl; [reflexivity|].
  destruct (Ascii.eqb c sep) eqn:E.
  - apply Ascii.eqb_eq in E as ->.
    pose proof (split_nonempty sep s) as Hne.
    destruct (Js.split sep s) as [|seg rest]; [congruence|].
    simpl. now rewrite <- IH.
  - destruct (Js.split sep s) as [|seg rest] eqn:Es; simpl in *.
    + now rewrite <- IH.
    + destruct rest; simpl in *; now rewrite <- IH.
Qed.

Lemma split_head_free (sep : ascii) (s : string) :
  ∀ seg rest, Js.split sep s = seg :: rest → free_of sep seg.
Proof.
  induction s as [|c s IH]; simpl; intros seg rest H.
  - injection H as <- <-. exact I.
  - destruct (Ascii.eqb c sep) eqn:E.
    + injection H as <- <-. exact I.
    + destruct (Js.split sep s) as [|seg' rest'] eqn:Es.
      * injection H as <- <-. simpl. split; [|exact I].
        now apply Ascii.eqb_neq.
      * injection H as <- <-. simpl. split; [now apply Ascii.eqb_neq|].
        now apply (IH seg' rest').
Qed.

End JsStringFacts.

(** ** The parameter-reference decoder *)
Section DecodeParam.

Lemma drop_length (n : nat) (s : string) :
  String.length (Js.drop n s) = (String.length s - n)%nat.
Proof.
  revert s; induction n as [|n IH]; intros [|c s]; simpl;
    first [reflexivity | apply IH].
Qed.

Lemma clamp_in_range (s : string) (i : Z) :
  0 ≤ i ≤ Js.length s → Js.clamp s i = Z.to_nat i.
Proof. unfold Js.clamp; intros H; f_equal; lia. Qed.

Lemma substring_ordered (s : string) (a b : Z) :
  0 ≤ a ≤ b → b ≤ Js.length s →
  Js.substring s a b
  = Js.take (Z.to_nat b - Z.to_nat a) (Js.drop (Z.to_nat a) s).
Proof.
  intros Ha Hb. unfold Js.substring.
  rewrite !clamp_in_range by lia.
  rewrite Nat.max_r, Nat.min_l by lia. reflexivity.
Qed.

Lemma substring_middle (a m b : string) :
  Js.substring (a +:+ m +:+ b) (Js.length a) (Js.length a + Js.length m) = m.
Proof.
  unfold Js.length. rewrite substring_ordered.
  - rewrite <- Nat2Z.inj_add, !Nat2Z.id, drop_app.
    replace (String.length a + String.length m - String.length a)%nat
      with (String.length m) by lia.
    apply take_app.
  - lia.
  - unfold Js.length. rewrite !append_length. lia.
Qed.

Lemma substring_init (s : string) :
  Js.substring s 0 (Js.length s - 1) = drop_last s.
Proof.
  unfold drop_last, Js.length. destruct s as [|c s].
  - reflexivity.
  - rewrite substring_ordered.
    + change (Z.to_nat 0) with 0%nat. rewrite Nat.sub_0_r.
      cbn [Js.drop String.length]. f_equal. lia.
    + cbn [String.length]. lia.
    + unfold Js.length. lia.
Qed.

Lemma drop_last_app (p : string) : drop_last (p +:+ ")") = p.
Proof.
  unfold drop_last. rewrite append_length. simpl.
  replace (String.length p + 1 - 1)%nat with (String.length p) by lia.
  apply take_app.
Qed.

Lemma pipeline_param_pieces (name : string) :
  let s := "$(params." +:+ name +:+ ")" in
  Js.substring s 0 9 = "$(params."
  ∧ Js.substring_from s (Js.length s - 1) = ")"
  ∧ Js.substring s 9 (Js.length s - 1) = name.
Proof.
  intros s.
  assert (Hlen : Js.length s = 10 + Js.length name).
  { subst s; unfold Js.length; rewrite !append_length.
    cbn [String.length]. lia. }
  repeat split.
  - exact (substring_middle "" "$(params." (name +:+ ")")).
  - unfold Js.substring_from.
    pose proof (substring_middle ("$(params." +:+ name) ")" "") as H.
    rewrite append_nil_r, append_assoc in H.
    etransitivity; [|exact H]. rewrite Hlen. subst s.
    f_equal; unfold Js.length; rewrite !append_length;
      cbn [String.length]; lia.
  - pose proof (substring_middle "$(params." name ")") as H.
    etransitivity; [|exact H]. rewrite Hlen. subst s.
    f_equal; unfold Js.length; cbn [String.length]; lia.
Qed.

Lemma is_pipeline_param_iff (s : string) :
  is_pipeline_param s = true ↔ pipeline_param_shape s.
Proof.
  unfold is_pipeline_param, pipeline_param_shape. split.
  - intros H. apply andb_prop in H as [H1 H2].
    apply String.eqb_eq in H1, H2.
    (* the first nine characters *)
    assert (Hlen : (9 ≤ String.length s)%nat).
    { apply (f_equal String.length) in H1. unfold Js.substring in H1.
      rewrite take_length, drop_length in H1. simpl in H1.
      unfold Js.clamp, Js.length in H1. lia. }
    assert (Hpre : Js.take 9 s = "$(params.").
    { rewrite <- H1. rewrite substring_ordered; unfold Js.length; try lia.
      reflexivity. }
    (* the last character *)
    assert (Hsuf : Js.drop (String.length s - 1) s = ")").
    { rewrite <- H2. unfold Js.substring_from.
      rewrite substring_ordered; unfold Js.length; try lia.
      rewrite <- (take_all (Js.drop (String.length s - 1) s)) at 1.
      rewrite drop_length. f_equal; [lia | f_equal; lia]. }
    pose proof (take_drop 9 s) as Hs. rewrite Hpre in Hs.
    set (r := Js.drop 9 s) in *.
    assert (Hr : String.length s = (9 + String.length r)%nat).
    { rewrite <- Hs at 1. now rewrite append_length. }
    destruct (String.length r) as [|n] eqn:En.
    + destruct r; [|discriminate]. rewrite <- Hs in Hsuf.
      vm_compute in Hsuf. discriminate Hsuf.
    + exists (Js.take n r). rewrite <- Hs at 1. f_equal.
      rewrite <- (take_drop n r) at 1. f_equal.
      rewrite <- Hsuf. rewrite Hr. subst r. rewrite drop_drop.
      f_equal; lia.
  - intros [name ->].
    destruct (pipeline_param_pieces name) as (-> & -> & _). reflexivity.
Qed.

Lemma has_both_delimiters_iff (s : string) :
  has_both_delimiters s = true ↔ contains s "$(" ∧ contains s ")".
Proof.
  unfold has_both_delimiters.
  rewrite andb_true_iff, !negb_true_iff, !Z.eqb_neq, !indexOf_contains.
  reflexivity.
Qed.

Lemma last_segment_defined (s : string) :
  ∃ lastseg,
    Js.split "." s !! (List.length (Js.split "." s) - 1)%nat = Some lastseg
    ∧ last (Js.split "." s) = Some lastseg.
Proof.
  pose proof (split_nonempty "." s) as Hne.
  destruct (last (Js.split "." s)) as [x|] eqn:E.
  - exists x. split; [|reflexivity]. rewrite last_lookup in E.
    rewrite <- E. f_equal. lia.
  - apply last_None in E. congruence.
Qed.

Lemma decodeParam_unfold (s : string) :
  decodeParam s =
  if is_pipeline_param s then
    Ok {| task := Some ""; param := Some (Js.substring s 9 (Js.length s - 1)) |}
  else if has_both_delimiters s then
    lastseg ← must (Js.split "." s !! (List.length (Js.split "." s) - 1)%nat);
    Ok {| task := Js.split "." s !! 1%nat;
          param := Some (Js.substring lastseg 0 (Js.length lastseg - 1)) |}
  else Ok {| task := None; param := None |}.
Proof. reflexivity. Qed.

Lemma decodeParam_total (s : string) : ∃ r, decodeParam s = Ok r.
Proof.
  rewrite decodeParam_unfold.
  destruct (is_pipeline_param s); [eauto|].
  destruct (has_both_delimiters s); [|eauto].
  destruct (last_segment_defined s) as (x & -> & _). simpl. eauto.
Qed.

(** C4. A string that has neither the pipeline-parameter shape nor the
    upstream-result shape decodes to the empty reference, with both fields
    absent; and the decoder returns a reference on every string, it never
    raises. *)
Theorem decodeParam_literal (s : string) :
  (∃ r, decodeParam s = Ok r)
  ∧ (¬ pipeline_param_shape s → ¬ upstream_result_shape s →
     decodeParam s = Ok {| task := None; param := None |}).
Proof.
  split; [apply decodeParam_total|].
  intros Hpp Hur. rewrite decodeParam_unfold.
  destruct (is_pipeline_param s) eqn:E1.
  { apply is_pipeline_param_iff in E1. contradiction. }
  destruct (has_both_delimiters s) eqn:E2; [|reflexivity].
  apply has_both_delimiters_iff in E2 as [H1 H2].
  exfalso. apply Hur. repeat split; assumption.
Qed.

Lemma not_pipeline_param (s : string) :
  is_pipeline_param s = false → ¬ pipeline_param_shape s.
Proof. intros E H. apply is_pipeline_param_iff in H. congruence. Qed.

Lemma not_upstream_result (s : string) :
  has_both_delimiters s = false → ¬ upstream_result_shape s.
Proof.
  intros E (H1 & H2 & _).
  assert (has_both_delimiters s = true) by now apply has_both_delimiters_iff.
  congruence.
Qed.

Lemma decodeParam_literal_witness :
  ¬ pipeline_param_shape "gs://bucket/data.csv"
  ∧ ¬ upstream_result_shape "gs://bucket/data.csv"
  ∧ decodeParam "gs://bucket/data.csv" = Ok {| task := None; param := None |}.
Proof.
  assert (H1 : ¬ pipeline_param_shape "gs://bucket/data.csv")
    by (apply not_pipeline_param; reflexivity).
  assert (H2 : ¬ upstream_result_shape "gs://bucket/data.csv")
    by (apply not_upstream_result; reflexivity).
  split; [exact H1 | split; [exact H2 |]].
  exact (proj2 (decodeParam_literal "gs://bucket/data.csv") H1 H2).
Defined.

(** C5. A pipeline-parameter reference decodes to a reference whose task
    field is the empty string, which every consumer tests as falsy: the
    field is present, not absent as in the empty reference. Its param is
    exactly the name between the delimiters. *)
Theorem decodeParam_pipeline_param (name : string) :
  decodeParam ("$(params." +:+ name +:+ ")")
  = Ok {| task := Some ""; param := Some name |}
  ∧ Js.truthy (Some "") = false.
Proof.
  split; [|reflexivity].
  rewrite decodeParam_unfold.
  assert (E : is_pipeline_param ("$(params." +:+ name +:+ ")") = true).
  { apply is_pipeline_param_iff. now exists name. }
  rewrite E. destruct (pipeline_param_pieces name) as (_ & _ & ->).
  reflexivity.
Qed.

(** C5, the claim as worded: the reference that [$(params.x)] decodes to
    is not the one with the task field unset. *)
Lemma decodeParam_pipeline_param_task_is_set :
  pipeline_param_shape "$(params.x)"
  ∧ decodeParam "$(params.x)" ≠ Ok {| task := None; param := Some "x" |}
  ∧ decodeParam "$(params.x)" = Ok {| task := Some ""; param := Some "x" |}.
Proof.
  split; [now exists "x"|]. split; [|reflexivity].
  vm_compute. discriminate.
Qed.

Lemma upstream_result_shape_intro (s : string) :
  is_pipeline_param s = false → has_both_delimiters s = true →
  upstream_result_shape s.
Proof.
  intros E1 E2. apply has_both_delimiters_iff in E2 as [H1 H2].
  repeat split; try assumption. now apply not_pipeline_param.
Qed.

(** C6, as amended. A string that holds both delimiters and is not a
    pipeline-parameter reference decodes to the second dot-separated
    segment as the task (absent when there is no dot) and to the last
    segment without its final character as the param; that character is
    the closing delimiter exactly when the last segment ends with it. *)
Theorem decodeParam_upstream_result (s : string) :
  upstream_result_shape s →
  ∃ lastseg,
    last (Js.split "." s) = Some lastseg
    ∧ decodeParam s = Ok {| task := Js.split "." s !! 1%nat;
                              param := Some (drop_last lastseg) |}
    ∧ ∀ p, lastseg = p +:+ ")" → drop_last lastseg = p.
Proof.
  intros (H1 & H2 & Hpp).
  destruct (last_segment_defined s) as (lastseg & Hidx & Hlast).
  exists lastseg. split; [exact Hlast|]. split.
  - rewrite decodeParam_unfold.
    destruct (is_pipeline_param s) eqn:E1.
    { apply is_pipeline_param_iff in E1. contradiction. }
    assert (E2 : has_both_delimiters s = true)
      by now apply has_both_delimiters_iff.
    rewrite E2, Hidx. simpl. now rewrite substring_init.
  - intros p ->. apply drop_last_app.
Qed.

Lemma decodeParam_upstream_result_witness :
  upstream_result_shape "$(tasks.A.results.out)"
  ∧ ∃ lastseg,
      last (Js.split "." "$(tasks.A.results.out)") = Some lastseg
      ∧ decodeParam "$(tasks.A.results.out)"
        = Ok {| task := Js.split "." "$(tasks.A.results.out)" !! 1%nat;
                  param := Some (drop_last lastseg) |}
      ∧ ∀ p, lastseg = p +:+ ")" → drop_last lastseg = p.
Proof.
  assert (H : upstream_result_shape "$(tasks.A.results.out)")
    by (apply upstream_result_shape_intro; reflexivity).
  split; [exact H|].
  exact (decodeParam_upstream_result "$(tasks.A.results.out)" H).
Defined.

(** C6, as stated, fails on a reference followed by more text: the string
    has the upstream-result shape, its last segment is [out)/x], and the
    decoded param is [out)/], which still holds the closing delimiter and
    has lost a character that is no delimiter. *)
Lemma decodeParam_strips_last_character_only :
  upstream_result_shape "$(tasks.A.results.out)/x"
  ∧ decodeParam "$(tasks.A.results.out)/x"
    = Ok {| task := Some "A"; param := Some "out)/" |}
  ∧ strip_delimiters "out)/x" = "out/x"
  ∧ ¬ decodes_with_delimiters_stripped "$(tasks.A.results.out)/x".
Proof.
  split; [apply upstream_result_shape_intro; reflexivity|].
  split; [reflexivity|]. split; [reflexivity|].
  intros (lastseg & Hl & Hd).
  vm_compute in Hl. injection Hl as <-.
  vm_compute in Hd. discriminate Hd.
Qed.

End DecodeParam.

(** ** The storage-path parser *)
Section ParseStoragePath.

Lemma storagePathOf_prefix (svc : StorageService) (rest : string) :
  storagePathOf svc (scheme_prefix svc) (scheme_prefix svc +:+ rest)
  = {| source := svc;
       bucket := Js.split "/" rest !! 0%nat;
       key := Js.join "/" (tail (Js.split "/" rest)) |}.
Proof.
  unfold storagePathOf, Js.substr, Js.slice1. now rewrite drop_app.
Qed.

Lemma parseStoragePath_prefix (svc : StorageService) (rest : string) :
  parseStoragePath (scheme_prefix svc +:+ rest)
  = Ok (storagePathOf svc (scheme_prefix svc) (scheme_prefix svc +:+ rest)).
Proof. destruct svc, rest; reflexivity. Qed.

Lemma parseStoragePath_unsupported (s : string) :
  (∀ svc rest, s ≠ scheme_prefix svc +:+ rest) →
  parseStoragePath s = Throw (Error ("Unsupported storage path: " +:+ s)).
Proof.
  intros H. unfold parseStoragePath.
  repeat match goal with
  | |- context [Js.startsWith s ?p] =>
      let E := fresh "E" in
      destruct (Js.startsWith s p) eqn:E;
      [apply startsWith_iff in E as [rest E]; exfalso;
       first [ exact (H GCS _ E) | exact (H MINIO _ E) | exact (H S3 _ E)
             | exact (H HTTP _ E) | exact (H HTTPS _ E)
             | exact (H VOLUME _ E) ]
      |]
  end.
  reflexivity.
Qed.

(** C7. A string that begins with one of the six literal prefixes parses
    to the storage path of the corresponding service whose bucket is the
    first '/'-separated segment after the prefix and whose key is the
    remaining segments joined by '/'; [gs://bucket/a/b] parses to gcs,
    [bucket], [a/b]; a string that begins with none of the six prefixes,
    such as [ftp://x], raises the unsupported-scheme error. *)
Theorem parseStoragePath_spec (svc : StorageService) (rest s : string) :
  (∃ b segs,
     Js.split "/" rest = b :: segs
     ∧ parseStoragePath (scheme_prefix svc +:+ rest)
       = Ok {| source := svc; bucket := Some b; key := Js.join "/" segs |}
     ∧ free_of "/" b
     ∧ (segs = [] → rest = b)
     ∧ (segs ≠ [] → rest = b +:+ "/" +:+ Js.join "/" segs))
  ∧ parseStoragePath "gs://bucket/a/b"
    = Ok {| source := GCS; bucket := Some "bucket"; key := "a/b" |}
  ∧ ((∀ svc' rest', s ≠ scheme_prefix svc' +:+ rest') →
     parseStoragePath s = Throw (Error ("Unsupported storage path: " +:+ s)))
  ∧ parseStoragePath "ftp://x" = Throw (Error "Unsupported storage path: ftp://x").
Proof.
  split; [|split; [reflexivity | split; [|reflexivity]]].
  - pose proof (split_nonempty "/" rest) as Hne.
    destruct (Js.split "/" rest) as [|b segs] eqn:Es; [congruence|].
    exists b, segs. split; [reflexivity|].
    split.
    { rewrite parseStoragePath_prefix, storagePathOf_prefix, Es.
      reflexivity. }
    split; [exact (split_head_free "/" rest b segs Es)|].
    pose proof (split_join "/" rest) as Hj. rewrite Es in Hj.
    split.
    + intros ->. now rewrite <- Hj.
    + intros Hs. destruct segs as [|x segs]; [congruence|].
      now rewrite <- Hj.
  - apply parseStoragePath_unsupported.
Qed.

Lemma parseStoragePath_spec_witness :
  (∀ svc' rest', "ftp://x" ≠ scheme_prefix svc' +:+ rest')
  ∧ parseStoragePath "ftp://x" = Throw (Error ("Unsupported storage path: " +:+ "ftp://x")).
Proof.
  assert (H : ∀ svc' rest', "ftp://x" ≠ scheme_prefix svc' +:+ rest')
    by (intros [] rest' E; simpl in E; discriminate E).
  split; [exact H|].
  exact (proj1 (proj2 (proj2 (parseStoragePath_spec GCS "" "ftp://x"))) H).
Defined.

End ParseStoragePath.

(** ** Reads and writes of the status document *)
Section Erasure.

Context {NodePhase : NodePhaseEnum}.

Lemma same_reads_refl (st : Status) : same_reads st st.
Proof. reflexivity. Qed.

Lemma same_reads_sym (st st' : Status) : same_reads st st' → same_reads st' st.
Proof. unfold same_reads; congruence. Qed.

Lemma same_reads_trans (st1 st2 st3 : Status) :
  same_reads st1 st2 → same_reads st2 st3 → same_reads st1 st3.
Proof. unfold same_reads; congruence. Qed.

Lemma eraseRecord_idemp (rec : RunRecord) :
  eraseRecord (eraseRecord rec) = eraseRecord rec.
Proof.
  destruct rec as [n [s|] id]; [|reflexivity].
  destruct s as [pod cs rs [[[ps|]]|] t1 t2]; try reflexivity.
  unfold eraseRecord, eraseStatus, eraseTaskSpec; simpl.
  do 4 f_equal. rewrite <- list_fmap_compose. reflexivity.
Qed.

Lemma eraseDoc_idemp (st : Status) : eraseDoc (eraseDoc st) = eraseDoc st.
Proof.
  assert (H : ∀ l, eraseRecords (eraseRecords l) = eraseRecords l).
  { intros l. unfold eraseRecords. rewrite <- list_fmap_compose.
    apply list_fmap_ext. intros i [k v] _. simpl.
    now rewrite eraseRecord_idemp. }
  destruct st as [[trs|] [rs|] sk n]; unfold eraseDoc; simpl;
    now rewrite ?H.
Qed.

Lemma same_reads_erase (st : Status) : same_reads (eraseDoc st) st.
Proof. apply eraseDoc_idemp. Qed.

Lemma records_of_erase (o : option (list (string * RunRecord))) :
  records_of (eraseRecords <$> o) = eraseRecords (records_of o).
Proof. now destruct o. Qed.

Lemma deref_erase (st : Status) (r : RunRef) :
  deref (eraseDoc st) r = eraseRecord <$> deref st r.
Proof.
  destruct r as [i|i]; simpl; rewrite records_of_erase;
    unfold eraseRecords; rewrite list_lookup_fmap;
    now destruct (_ !! i) as [[k v]|].
Qed.

Lemma statusMap_get_erase (sm : gmap string RunRef) (st : Status)
    (name : option string) :
  statusMap_get sm (eraseDoc st) name = eraseRecord <$> statusMap_get sm st name.
Proof.
  unfold statusMap_get. destruct (statusMap_ref sm name) as [r|]; simpl;
    [apply deref_erase | reflexivity].
Qed.

Lemma statusMap_get_same (sm : gmap string RunRef) (st st' : Status)
    (name : option string) :
  same_reads st st' →
  eraseRecord <$> statusMap_get sm st name
  = eraseRecord <$> statusMap_get sm st' name.
Proof. intros H. rewrite <- !statusMap_get_erase. now rewrite H. Qed.

(** A computation on a record found through the index that does not
    look at the erased fields gives the same result in the erased
    document. *)
Lemma through_index {X : Type} (G : option RunRecord → X)
    (sm : gmap string RunRef) (st : Status) (name : option string) :
  (∀ o, G (eraseRecord <$> o) = G o) →
  G (statusMap_get sm (eraseDoc st) name) = G (statusMap_get sm st name).
Proof. intros HG. now rewrite statusMap_get_erase, HG. Qed.

Lemma erasure_invariant_same {X : Type} (V : Status → X) (st st' : Status) :
  (∀ s, V (eraseDoc s) = V s) → same_reads st st' → V st = V st'.
Proof. intros HV H. rewrite <- (HV st), <- (HV st'). now rewrite H. Qed.

Ltac by_record :=
  let o := fresh "o" in
  intros o; destruct o as [[? [[]|] ?]|]; reflexivity.

Lemma componentIdOf_erase sm st name :
  componentIdOf sm (eraseDoc st) name = componentIdOf sm st name.
Proof.
  unfold componentIdOf.
  apply (through_index (λ o, match o with
                             | Some rec => _
                             | None => _
                             end)).
  by_record.
Qed.

Lemma taskIdOf_erase sm st name :
  taskIdOf sm (eraseDoc st) name = taskIdOf sm st name.
Proof.
  unfold taskIdOf.
  apply (through_index (λ o, match o with
                             | Some rec => _
                             | None => _
                             end)).
  by_record.
Qed.

Lemma edgeFromRecord_erase taskId :
  ∀ o, edgeFromRecord taskId (eraseRecord <$> o) = edgeFromRecord taskId o.
Proof. by_record. Qed.

Lemma getStatus_erase :
  ∀ o, getStatus (eraseRecord <$> o) = getStatus o.
Proof. by_record. Qed.

Lemma has_erase : ∀ o : option RunRecord, Js.has (eraseRecord <$> o) = Js.has o.
Proof. now intros [|]. Qed.

Lemma collect_ext {A B : Type} (f g : A → Result (list B)) (l : list A) :
  (∀ a, f a = g a) → collect f l = collect g l.
Proof.
  intros H. induction l as [|a l IH]; simpl; [reflexivity|].
  now rewrite H, IH.
Qed.

Lemma whenParent_erase sm st (condition : WhenExpression) {X : Type}
    (G : option RunRecord → Result X) :
  (∀ o, G (eraseRecord <$> o) = G o) →
  (r ← whenParent sm (eraseDoc st) condition; G r)
  = (r ← whenParent sm st condition; G r).
Proof.
  intros HG. unfold whenParent.
  destruct (decodeParam (when_input condition)) as [prm|e]; [|reflexivity].
  simpl. destruct (Js.truthy (task prm)); [|reflexivity].
  now rewrite statusMap_get_erase, HG.
Qed.

Lemma whenEdges_erase sm st taskId whens :
  whenEdges sm (eraseDoc st) taskId whens = whenEdges sm st taskId whens.
Proof.
  unfold whenEdges. apply collect_ext. intros condition.
  apply whenParent_erase, edgeFromRecord_erase.
Qed.

Lemma guardedByIndexedTask_erase sm st whens :
  guardedByIndexedTask sm (eraseDoc st) whens
  = guardedByIndexedTask sm st whens.
Proof.
  induction whens as [|condition rest IH]; simpl; [reflexivity|].
  rewrite <- IH.
  apply (whenParent_erase sm st condition
           (λ r, if Js.has r then Ok true
                 else guardedByIndexedTask sm (eraseDoc st) rest)).
  intros o. now rewrite has_erase.
Qed.

Lemma conditionTasksOf_erase sm st ts :
  conditionTasksOf sm (eraseDoc st) ts = conditionTasksOf sm st ts.
Proof.
  induction ts as [|t rest IH]; simpl; [reflexivity|].
  now rewrite IH, statusMap_get_erase, has_erase,
    guardedByIndexedTask_erase.
Qed.

Lemma anyTaskEdges_erase sm st taskId args b1 b2 :
  anyTaskEdges sm (eraseDoc st) taskId args b1 b2
  = anyTaskEdges sm st taskId args b1 b2.
Proof.
  revert b1 b2. induction args as [|arg rest IH]; intros b1 b2; simpl;
    [reflexivity|].
  rewrite !IH.
  rewrite (collect_ext _ (λ parentTask,
             edgeFromRecord taskId (statusMap_get sm st (Some parentTask)))).
  2:{ intros a. now rewrite statusMap_get_erase, edgeFromRecord_erase. }
  now rewrite statusMap_get_erase, edgeFromRecord_erase.
Qed.

Lemma runAfterEdge_erase sm st taskId parentTask :
  runAfterEdge sm (eraseDoc st) taskId parentTask
  = runAfterEdge sm st taskId parentTask.
Proof.
  unfold runAfterEdge.
  apply (through_index (λ o, match o with
                             | Some rec => _
                             | None => _
                             end)).
  by_record.
Qed.

Lemma runAfterEdges_erase sm st taskId t :
  runAfterEdges sm (eraseDoc st) taskId t = runAfterEdges sm st taskId t.
Proof. apply collect_ext. intros a. apply runAfterEdge_erase. Qed.

Lemma materialized_erase ctx st t :
  materialized ctx (eraseDoc st) t = materialized ctx st t.
Proof. unfold materialized. now rewrite statusMap_get_erase, has_erase. Qed.

(** *** Writes *)

Lemma eraseRecords_alter (l : list (string * RunRecord)) (i : nat)
    (rec' : RunRecord) :
  (∀ kv, l !! i = Some kv → eraseRecord rec' = eraseRecord (snd kv)) →
  eraseRecords (alter (λ kv, (fst kv, rec')) i l) = eraseRecords l.
Proof.
  revert i; induction l as [|[k v] l IH]; intros i H; [reflexivity|].
  destruct i as [|i]; simpl.
  - unfold eraseRecords; simpl. f_equal. f_equal. exact (H (k, v) eq_refl).
  - unfold eraseRecords in *; simpl. f_equal. apply IH. exact H.
Qed.

Lemma store_same (st : Status) (ref : RunRef) (rec rec' : RunRecord) :
  deref st ref = Some rec → eraseRecord rec' = eraseRecord rec →
  eraseDoc (store st ref rec') = eraseDoc st.
Proof.
  intros Hd He. destruct ref as [i|i]; unfold store, eraseDoc; simpl in *;
    f_equal.
  - destruct (taskRuns st) as [l|]; simpl in *; [|reflexivity].
    f_equal. apply eraseRecords_alter. intros kv Hkv.
    rewrite Hkv in Hd. simpl in Hd. congruence.
  - destruct (runs st) as [l|]; simpl in *; [|reflexivity].
    f_equal. apply eraseRecords_alter. intros kv Hkv.
    rewrite Hkv in Hd. simpl in Hd. congruence.
Qed.

Lemma writeBack_preserve sm component p v st st1 :
  writeBack sm component p v st = Ok st1 → same_reads st st1.
Proof.
  unfold writeBack, same_reads.
  destruct (statusMap_ref sm (c_name component)) as [ref|]; [|congruence].
  destruct (deref st ref) as [rec|] eqn:Hd; [|congruence].
  destruct (rr_status rec) as [s|] eqn:Hs; simpl; [|discriminate].
  destruct (taskSpec s) as [ts|] eqn:Hts; [|congruence].
  destruct (sts_params ts) as [ps|] eqn:Hps; simpl; [|discriminate].
  intros [= <-]. symmetry. apply (store_same st ref rec); [exact Hd|].
  destruct rec as [n o id], s as [pod cs rs o' t1 t2], ts as [o''].
  simpl in *. subst. unfold eraseRecord, eraseStatus, eraseTaskSpec; simpl.
  do 6 f_equal. rewrite <- list_fmap_compose. apply list_fmap_ext.
  intros i x _. simpl. now destruct (String.eqb (nv_name x) (nv_name p)).
Qed.

Lemma writeBack_thrown_erase sm component p v st :
  thrown (writeBack sm component p v (eraseDoc st))
  = thrown (writeBack sm component p v st).
Proof.
  unfold writeBack.
  destruct (statusMap_ref sm (c_name component)) as [ref|]; [|reflexivity].
  rewrite deref_erase.
  now destruct (deref st ref) as [[n [[pod cs rs [[[ps|]]|] t1 t2]|] id]|].
Qed.

Lemma resolveParam_erase sm pps edgeChild v splitParam st :
  resolveParam sm pps edgeChild v splitParam (eraseDoc st)
  = resolveParam sm pps edgeChild v splitParam st.
Proof.
  unfold resolveParam. destruct (negb (Js.truthy (task splitParam)));
    [reflexivity|].
  apply (through_index (λ o, match o with
                             | Some rec => _
                             | None => _
                             end)).
  by_record.
Qed.

Lemma checkParam_preserve sm pps component edgeChild p st es st1 :
  checkParam sm pps component edgeChild p st = Ok (es, st1) →
  same_reads st st1.
Proof.
  unfold checkParam.
  destruct (nv_value p) as [v|]; simpl; [|discriminate].
  destruct (decodeParam v) as [sp|]; simpl; [|discriminate].
  destruct (resolveParam _ _ _ _ _ _) as [[es' v']|]; simpl; [|discriminate].
  destruct (writeBack _ _ _ _ _) as [s|] eqn:Hw; simpl; [|discriminate].
  intros [= <- <-]. exact (writeBack_preserve _ _ _ _ _ _ Hw).
Qed.

Lemma checkParam_value_erase sm pps component edgeChild p st :
  value_of (checkParam sm pps component edgeChild p (eraseDoc st))
  = value_of (checkParam sm pps component edgeChild p st).
Proof.
  unfold checkParam.
  destruct (nv_value p) as [v|]; simpl; [|reflexivity].
  destruct (decodeParam v) as [sp|]; simpl; [|reflexivity].
  rewrite resolveParam_erase.
  destruct (resolveParam _ _ _ _ _ _) as [[es' v']|]; simpl; [|reflexivity].
  pose proof (writeBack_thrown_erase sm component p v' st) as Hw.
  destruct (writeBack _ _ _ _ (eraseDoc st)), (writeBack _ _ _ _ st);
    simpl in *; congruence.
Qed.

Lemma checkParamsLoop_preserve sm pps component edgeChild ps st es st1 :
  checkParamsLoop sm pps component edgeChild ps st = Ok (es, st1) →
  same_reads st st1.
Proof.
  revert st es; induction ps as [|p rest IH]; intros st es; simpl.
  - intros [= <- <-]. apply same_reads_refl.
  - destruct (checkParam _ _ _ _ _ _) as [[e1 s1]|] eqn:E1; simpl;
      [|discriminate].
    destruct (checkParamsLoop _ _ _ _ _ s1) as [[e2 s2]|] eqn:E2; simpl;
      [|discriminate].
    intros [= <- <-].
    eapply same_reads_trans; [eapply checkParam_preserve, E1|].
    eapply IH, E2.
Qed.

Lemma checkParamsLoop_value_erase sm pps component edgeChild ps st :
  value_of (checkParamsLoop sm pps component edgeChild ps (eraseDoc st))
  = value_of (checkParamsLoop sm pps component edgeChild ps st).
Proof.
  revert st; induction ps as [|p rest IH]; intros st; simpl; [reflexivity|].
  pose proof (checkParam_value_erase sm pps component edgeChild p st) as Hv.
  destruct (checkParam _ _ _ _ _ (eraseDoc st)) as [[e1 s1]|] eqn:E1,
           (checkParam _ _ _ _ _ st) as [[e2 s2]|] eqn:E2;
    simpl in Hv; try discriminate; [|exact Hv].
  injection Hv as ->. simpl.
  assert (Hs : same_reads s1 s2).
  { apply checkParam_preserve in E1, E2.
    eapply same_reads_trans; [apply same_reads_sym, E1|].
    eapply same_reads_trans; [apply same_reads_erase | exact E2]. }
  pose proof (erasure_invariant_same
                (λ s, value_of (checkParamsLoop sm pps component edgeChild rest s))
                s1 s2 IH Hs) as Hr. simpl in Hr.
  destruct (checkParamsLoop _ _ _ _ _ s1) as [[]|],
           (checkParamsLoop _ _ _ _ _ s2) as [[]|];
    simpl in *; congruence.
Qed.

Lemma checkParams_preserve sm pps component ownerTask st es st1 :
  checkParams sm pps component ownerTask st = Ok (es, st1) →
  same_reads st st1.
Proof.
  unfold checkParams.
  destruct (if negb (String.eqb ownerTask "") then _ else _) as [cid|];
    simpl; [|discriminate].
  apply checkParamsLoop_preserve.
Qed.

Lemma checkParams_value_erase sm pps component ownerTask st :
  value_of (checkParams sm pps component ownerTask (eraseDoc st))
  = value_of (checkParams sm pps component ownerTask st).
Proof.
  unfold checkParams. rewrite componentIdOf_erase.
  destruct (if negb (String.eqb ownerTask "") then _ else _) as [cid|];
    simpl; [|reflexivity].
  apply checkParamsLoop_value_erase.
Qed.

Lemma conditionsEdges_preserve sm pps taskId conds st es st1 :
  conditionsEdges sm pps taskId conds st = Ok (es, st1) → same_reads st st1.
Proof.
  revert st es; induction conds as [|c rest IH]; intros st es; simpl.
  - intros [= <- <-]. apply same_reads_refl.
  - destruct (checkParams _ _ _ _ _) as [[e1 s1]|] eqn:E1; simpl;
      [|discriminate].
    destruct (conditionsEdges _ _ _ _ s1) as [[e2 s2]|] eqn:E2; simpl;
      [|discriminate].
    intros [= <- <-].
    eapply same_reads_trans; [eapply checkParams_preserve, E1|].
    eapply IH, E2.
Qed.

Lemma conditionsEdges_value_erase sm pps taskId conds st :
  value_of (conditionsEdges sm pps taskId conds (eraseDoc st))
  = value_of (conditionsEdges sm pps taskId conds st).
Proof.
  revert st; induction conds as [|c rest IH]; intros st; simpl;
    [reflexivity|].
  pose proof (checkParams_value_erase sm pps c taskId st) as Hv.
  destruct (checkParams _ _ _ _ (eraseDoc st)) as [[e1 s1]|] eqn:E1,
           (checkParams _ _ _ _ st) as [[e2 s2]|] eqn:E2;
    simpl in Hv; try discriminate; [|exact Hv].
  injection Hv as ->. simpl.
  assert (Hs : same_reads s1 s2).
  { apply checkParams_preserve in E1, E2.
    eapply same_reads_trans; [apply same_reads_sym, E1|].
    eapply same_reads_trans; [apply same_reads_erase | exact E2]. }
  pose proof (erasure_invariant_same
                (λ s, value_of (conditionsEdges sm pps taskId rest s))
                s1 s2 IH Hs) as Hr. simpl in Hr.
  destruct (conditionsEdges _ _ _ _ s1) as [[]|],
           (conditionsEdges _ _ _ _ s2) as [[]|];
    simpl in *; congruence.
Qed.

Lemma taskOutput_preserve ctx t st o st1 :
  taskOutput ctx t st = Ok (o, st1) → same_reads st st1.
Proof.
  unfold taskOutput.
  destruct (taskIdOf _ _ _) as [tid|]; simpl; [|discriminate].
  destruct (checkParams _ _ _ _ _) as [[e1 s1]|] eqn:E1; simpl;
    [|discriminate].
  destruct (conditionsEdges _ _ _ _ _) as [[e2 s2]|] eqn:E2; simpl;
    [|discriminate].
  destruct (drawTask _ _ _ _ _ _) as [o'|]; simpl; [|discriminate].
  intros [= <- <-].
  eapply same_reads_trans; [eapply checkParams_preserve, E1|].
  eapply conditionsEdges_preserve, E2.
Qed.

Lemma drawTask_erase ctx t taskId e1 e2 st :
  drawTask ctx t taskId e1 e2 (eraseDoc st) = drawTask ctx t taskId e1 e2 st.
Proof.
  unfold drawTask.
  rewrite whenEdges_erase, runAfterEdges_erase.
  rewrite (through_index getStatus _ _ _ getStatus_erase).
  assert (Ha : match anyTaskArgs t with
               | Some args =>
                   anyTaskEdges (statusMap ctx) (eraseDoc st) taskId args
                     false false
               | None => Ok []
               end
               = match anyTaskArgs t with
                 | Some args =>
                     anyTaskEdges (statusMap ctx) st taskId args false false
                 | None => Ok []
                 end).
  { destruct (anyTaskArgs t); [apply anyTaskEdges_erase | reflexivity]. }
  rewrite Ha.
  assert (Ht : match statusMap_get (statusMap ctx) (eraseDoc st)
                       (Some (t_name t)) with
               | Some rec =>
                   s ← must (rr_status rec);
                   Ok (startTime s, completionTime s)
               | None => Ok (Some "", Some "")
               end
               = match statusMap_get (statusMap ctx) st (Some (t_name t)) with
                 | Some rec =>
                     s ← must (rr_status rec);
                     Ok (startTime s, completionTime s)
                 | None => Ok (Some "", Some "")
                 end).
  { apply (through_index (λ o, match o with
                               | Some rec => _
                               | None => _
                               end)).
    by_record. }
  now rewrite Ht.
Qed.

Lemma taskOutput_value_erase ctx t st :
  value_of (taskOutput ctx t (eraseDoc st)) = value_of (taskOutput ctx t st).
Proof.
  unfold taskOutput. rewrite taskIdOf_erase.
  destruct (taskIdOf _ _ _) as [tid|]; simpl; [|reflexivity].
  pose proof (checkParams_value_erase (statusMap ctx) (pipelineParams ctx)
                (task_component t) "" st) as Hv.
  destruct (checkParams _ _ _ _ (eraseDoc st)) as [[e1 s1]|] eqn:E1,
           (checkParams _ _ _ _ st) as [[e1' s1']|] eqn:E1';
    simpl in Hv; try discriminate; [|simpl; congruence].
  injection Hv as ->. simpl.
  assert (Hs : same_reads s1 s1').
  { apply checkParams_preserve in E1, E1'.
    eapply same_reads_trans; [apply same_reads_sym, E1|].
    eapply same_reads_trans; [apply same_reads_erase | exact E1']. }
  pose proof (erasure_invariant_same
                (λ s, value_of (conditionsEdges (statusMap ctx)
                                  (pipelineParams ctx) tid
                                  (default [] (t_conditions t)) s))
                s1 s1' (conditionsEdges_value_erase _ _ _ _) Hs) as Hc.
  simpl in Hc.
  destruct (conditionsEdges _ _ _ _ s1) as [[e2 s2]|] eqn:E2,
           (conditionsEdges _ _ _ _ s1') as [[e2' s2']|] eqn:E2';
    simpl in Hc; try discriminate; [|simpl; congruence].
  injection Hc as ->. simpl.
  assert (Hs2 : same_reads s2 s2').
  { apply conditionsEdges_preserve in E2, E2'.
    eapply same_reads_trans; [apply same_reads_sym, E2|].
    eapply same_reads_trans; [exact Hs | exact E2']. }
  rewrite (erasure_invariant_same (drawTask ctx t tid e1' e2') s2 s2'
             (drawTask_erase _ _ _ _ _) Hs2).
  now destruct (drawTask _ _ _ _ _ s2').
Qed.

Lemma outputOf_same ctx t st st' :
  same_reads st st' → outputOf ctx st t = outputOf ctx st' t.
Proof.
  apply (erasure_invariant_same (λ s, outputOf ctx s t)).
  intros s. apply taskOutput_value_erase.
Qed.

Lemma materialized_same ctx t st st' :
  same_reads st st' → materialized ctx st t = materialized ctx st' t.
Proof.
  apply (erasure_invariant_same (λ s, materialized ctx s t)).
  intros s. apply materialized_erase.
Qed.

(** The builder's loop yields the contributions that each drawn task
    makes on the document as it was when the loop started, committed in
    the order of the task list. *)
Lemma addTasks_outputs ctx st0 ts :
  ∀ graph st, same_reads st st0 →
  match addTasks ctx ts graph st with
  | Ok (graph', st') =>
      ∃ outs, outputsOf ctx st0 ts = Ok outs
              ∧ graph' = foldl commit graph outs
              ∧ same_reads st' st0
  | Throw e => outputsOf ctx st0 ts = Throw e
  end.
Proof.
  unfold outputsOf.
  induction ts as [|t rest IH]; intros graph st Hst; simpl.
  - exists []. split; [reflexivity|]. split; [reflexivity | exact Hst].
  - rewrite (materialized_same ctx t st st0 Hst).
    destruct (materialized ctx st0 t); [|apply IH, Hst].
    simpl.
    assert (Ho : outputOf ctx st0 t = value_of (taskOutput ctx t st))
      by (now rewrite <- (outputOf_same ctx t st st0 Hst)).
    rewrite Ho.
    destruct (taskOutput ctx t st) as [[o st1]|e] eqn:E; simpl;
      [|reflexivity].
    assert (Hst1 : same_reads st1 st0).
    { eapply same_reads_trans; [|exact Hst].
      apply same_reads_sym. eapply taskOutput_preserve, E. }
    specialize (IH (commit graph o) st1 Hst1).
    destruct (addTasks ctx rest (commit graph o) st1) as [[g' s']|e].
    + destruct IH as (outs & -> & -> & Hs'). exists (o :: outs).
      split; [reflexivity|]. split; [reflexivity | exact Hs'].
    + now rewrite IH.
Qed.

End Erasure.

(** ** The graph *)
Section GraphFacts.

Lemma setEdge_edges (g : Graph) (e' e : Edge) :
  e ∈ g_edges (setEdge g e') ↔ e ∈ g_edges g ∨ e = e'.
Proof.
  unfold setEdge. case_bool_decide as H; simpl.
  - split; [now left | intros [?| ->]; assumption].
  - rewrite elem_of_app, list_elem_of_singleton. reflexivity.
Qed.

Lemma setEdge_nodes (g : Graph) (e : Edge) : g_nodes (setEdge g e) = g_nodes g.
Proof. unfold setEdge. now case_bool_decide. Qed.

Lemma setEdges_edges (es : list Edge) (g : Graph) (e : Edge) :
  e ∈ g_edges (setEdges g es) ↔ e ∈ g_edges g ∨ e ∈ es.
Proof.
  unfold setEdges. revert g; induction es as [|e' es IH]; intros g; simpl.
  - rewrite elem_of_nil. tauto.
  - rewrite IH, setEdge_edges, elem_of_cons. tauto.
Qed.

Lemma setEdges_nodes (es : list Edge) (g : Graph) :
  g_nodes (setEdges g es) = g_nodes g.
Proof.
  unfold setEdges. revert g; induction es as [|e' es IH]; intros g; simpl;
    [reflexivity|]. now rewrite IH, setEdge_nodes.
Qed.

Lemma setLabel_ids (id' : string) (l : NodeLabel)
    (nodes : list (string * NodeLabel)) (id : string) :
  id ∈ (fst <$> setLabel id' l nodes) ↔ id ∈ (fst <$> nodes) ∨ id = id'.
Proof.
  induction nodes as [|[k v] nodes IH]; simpl.
  - rewrite list_elem_of_singleton, elem_of_nil. tauto.
  - destruct (String.eqb k id') eqn:E; simpl.
    + apply String.eqb_eq in E as ->. rewrite !elem_of_cons. tauto.
    + rewrite !elem_of_cons, IH. tauto.
Qed.

Lemma nodeIds_spec (g : Graph) (id : string) :
  id ∈ nodeIds g
  ↔ id ∈ (fst <$> g_nodes g)
    ∨ ∃ e, e ∈ g_edges g
           ∧ (id = endName (parent e) ∨ id = endName (child e)).
Proof.
  unfold nodeIds. rewrite elem_of_app. apply or_iff_compat_l.
  rewrite list_elem_of_In, in_flat_map. split.
  - intros (e & He & Hid). exists e. apply list_elem_of_In in He.
    split; [exact He|]. simpl in Hid. destruct Hid as [?|[?|[]]]; auto.
  - intros (e & He & Hid). exists e. apply list_elem_of_In in He.
    split; [exact He|]. simpl. destruct Hid as [->| ->]; auto.
Qed.

(** Setting an edge gives the returned graph a node for each end, and
    setting a node gives it that node. *)
Lemma nodeIds_setEdge (g : Graph) (e : Edge) (id : string) :
  id ∈ nodeIds (setEdge g e)
  ↔ id ∈ nodeIds g ∨ id = endName (parent e) ∨ id = endName (child e).
Proof.
  rewrite !nodeIds_spec, setEdge_nodes. split.
  - intros [H|(e' & He' & Hid)]; [now left; left|].
    apply setEdge_edges in He' as [He'| ->]; [|now right].
    left. right. now exists e'.
  - intros [[H|(e' & He' & Hid)]|Hid]; [now left | |].
    + right. exists e'. split; [|exact Hid]. apply setEdge_edges. now left.
    + right. exists e. split; [|exact Hid]. apply setEdge_edges. now right.
Qed.

Lemma nodeIds_setNode (g : Graph) (n : string) (l : NodeLabel) (id : string) :
  id ∈ nodeIds (setNode g n l) ↔ id ∈ nodeIds g ∨ id = n.
Proof.
  rewrite !nodeIds_spec. unfold setNode. simpl. rewrite setLabel_ids. tauto.
Qed.

Lemma commit_edges (g : Graph) (o : TaskOutput) (e : Edge) :
  e ∈ g_edges (commit g o) ↔ e ∈ g_edges g ∨ e ∈ out_edges o.
Proof.
  unfold commit, setNode, out_edges; simpl.
  rewrite !setEdges_edges, !elem_of_app. tauto.
Qed.

Lemma commit_ids (g : Graph) (o : TaskOutput) (id : string) :
  id ∈ (fst <$> g_nodes (commit g o))
  ↔ id ∈ (fst <$> g_nodes g) ∨ id = fst (out_node o).
Proof.
  unfold commit, setNode; simpl.
  now rewrite setLabel_ids, !setEdges_nodes.
Qed.

Lemma commits_edges (outs : list TaskOutput) (g : Graph) (e : Edge) :
  e ∈ g_edges (foldl commit g outs)
  ↔ e ∈ g_edges g ∨ ∃ o, o ∈ outs ∧ e ∈ out_edges o.
Proof.
  revert g; induction outs as [|o outs IH]; intros g; simpl.
  - split; [now left | intros [?|(o & Ho & _)]; [assumption|]].
    now apply elem_of_nil in Ho.
  - rewrite IH, commit_edges. split.
    + intros [[?|?]|(o' & Ho' & He)]; [now left | right | right].
      * exists o. split; [apply list_elem_of_here | assumption].
      * exists o'. split; [now apply list_elem_of_further | assumption].
    + intros [?|(o' & Ho' & He)]; [now left; left|].
      apply elem_of_cons in Ho' as [->|Ho']; [now left; right|].
      right. now exists o'.
Qed.

Lemma commits_ids (outs : list TaskOutput) (g : Graph) (id : string) :
  id ∈ (fst <$> g_nodes (foldl commit g outs))
  ↔ id ∈ (fst <$> g_nodes g) ∨ ∃ o, o ∈ outs ∧ id = fst (out_node o).
Proof.
  revert g; induction outs as [|o outs IH]; intros g; simpl.
  - split; [now left | intros [?|(o & Ho & _)]; [assumption|]].
    now apply elem_of_nil in Ho.
  - rewrite IH, commit_ids. split.
    + intros [[?|?]|(o' & Ho' & He)]; [now left | right | right].
      * exists o. split; [apply list_elem_of_here | assumption].
      * exists o'. split; [now apply list_elem_of_further | assumption].
    + intros [?|(o' & Ho' & He)]; [now left; left|].
      apply elem_of_cons in Ho' as [->|Ho']; [now left; right|].
      right. now exists o'.
Qed.

End GraphFacts.

(** ** Documents without run records *)
Section EmptyGraph.

Context {NodePhase : NodePhaseEnum}.

Lemma whenParent_total sm st (condition : WhenExpression) :
  ∃ r, whenParent sm st condition = Ok r.
Proof.
  unfold whenParent.
  destruct (decodeParam_total (when_input condition)) as [prm ->].
  simpl. eauto.
Qed.

Lemma statusMap_get_empty st name : statusMap_get ∅ st name = None.
Proof.
  unfold statusMap_get, statusMap_ref. destruct name as [n|]; simpl;
    [|reflexivity].
  now rewrite lookup_empty.
Qed.

Lemma whenParent_empty st (condition : WhenExpression) :
  whenParent ∅ st condition = Ok None.
Proof.
  unfold whenParent.
  destruct (decodeParam_total (when_input condition)) as [prm ->].
  simpl. rewrite statusMap_get_empty. now destruct (Js.truthy (task prm)).
Qed.

Lemma guardedByIndexedTask_empty st whens :
  guardedByIndexedTask ∅ st whens = Ok false.
Proof.
  induction whens as [|condition rest IH]; simpl; [reflexivity|].
  now rewrite whenParent_empty.
Qed.

Lemma conditionTasksOf_empty st ts : conditionTasksOf ∅ st ts = Ok [].
Proof.
  induction ts as [|t rest IH]; simpl; [reflexivity|].
  rewrite statusMap_get_empty, guardedByIndexedTask_empty, IH.
  reflexivity.
Qed.

Lemma addTasks_nothing_drawn ctx ts graph st :
  statusMap ctx = ∅ → conditionTasks ctx = [] →
  addTasks ctx ts graph st = Ok (graph, st).
Proof.
  intros Hsm Hct. induction ts as [|t rest IH]; simpl; [reflexivity|].
  unfold materialized. rewrite Hsm, Hct, statusMap_get_empty. exact IH.
Qed.

Lemma createRuntimeGraph_empty_index (workflow : Workflow) (st : Status) :
  status workflow = Some st → buildStatusMap st = ∅ →
  ∃ workflow', createRuntimeGraph workflow = Ok (emptyGraph, workflow').
Proof.
  intros Hst Hsm. unfold createRuntimeGraph.
  destruct (noStatusYet workflow); [eauto|].
  rewrite Hst. simpl. rewrite Hsm, conditionTasksOf_empty. simpl.
  rewrite addTasks_nothing_drawn by (simpl; auto). simpl. eauto.
Qed.

(** C2. A document that carries no run records, neither task runs nor
    custom runs, gives a graph with no node and no edge when it has a
    status object. When it has none, the guard that returns the empty
    graph does not fire and the builder throws a [TypeError] on reading the
    task runs of the missing status. *)
Theorem createRuntimeGraph_no_run_records (workflow : Workflow) :
  run_records workflow = [] →
  match status workflow with
  | Some _ =>
      ∃ graph workflow',
        createRuntimeGraph workflow = Ok (graph, workflow')
        ∧ g_nodes graph = [] ∧ g_edges graph = []
  | None =>
      noStatusYet workflow = false
      ∧ createRuntimeGraph workflow = Throw TypeError
  end.
Proof.
  unfold run_records, all_records. intros Hnone.
  destruct (status workflow) as [st|] eqn:Hst.
  - apply app_eq_nil in Hnone as [Htr Hr].
    destruct (createRuntimeGraph_empty_index workflow st Hst) as [w' Hw'].
    + unfold buildStatusMap. now rewrite Htr, Hr.
    + exists emptyGraph, w'. split; [exact Hw'|]. split; reflexivity.
  - unfold createRuntimeGraph, noStatusYet. rewrite Hst. now split.
Qed.

(** C9. When the status object has no [taskRuns] field, or is the empty
    object, the graph has no node and no edge and the document is left as
    it is, whatever custom run records [runs] holds. *)
Theorem createRuntimeGraph_without_taskRuns (workflow : Workflow) (st : Status) :
  status workflow = Some st →
  status_keys st = 0%nat ∨ taskRuns st = None →
  ∃ graph,
    createRuntimeGraph workflow = Ok (graph, workflow)
    ∧ g_nodes graph = [] ∧ g_edges graph = [].
Proof.
  intros Hst H. exists emptyGraph. split; [|split; reflexivity].
  unfold createRuntimeGraph, noStatusYet. rewrite Hst.
  destruct H as [-> | ->]; [reflexivity|].
  now rewrite orb_true_r.
Qed.

End EmptyGraph.

Lemma createRuntimeGraph_no_run_records_witness :
  run_records noStatusRun = []
  ∧ noStatusYet noStatusRun = false
  ∧ @createRuntimeGraph kfpNodePhase noStatusRun = Throw TypeError.
Proof.
  split; [reflexivity|].
  exact (@createRuntimeGraph_no_run_records kfpNodePhase noStatusRun eq_refl).
Defined.

(** A run that has started no task, with a status object. *)
Example notStarted_graph :
  run_records notStarted = []
  ∧ ∃ workflow',
      @createRuntimeGraph kfpNodePhase notStarted = Ok (emptyGraph, workflow').
Proof. split; [reflexivity|]. eexists. vm_compute. reflexivity. Qed.

Lemma createRuntimeGraph_without_taskRuns_witness :
  ∃ graph,
    @createRuntimeGraph kfpNodePhase customRunsOnly = Ok (graph, customRunsOnly)
    ∧ g_nodes graph = [] ∧ g_edges graph = [].
Proof.
  eapply (@createRuntimeGraph_without_taskRuns kfpNodePhase customRunsOnly).
  - reflexivity.
  - right. reflexivity.
Defined.

(** ** Where the edges of a task come from *)
Section EdgeOrigins.

Context {NodePhase : NodePhaseEnum}.

Lemma eraseRecord_status_inv (rec rec' : RunRecord) (s : RunStatus) :
  eraseRecord rec' = eraseRecord rec → rr_status rec = Some s →
  ∃ s', rr_status rec' = Some s'
        ∧ podName s' = podName s ∧ conditions s' = conditions s.
Proof.
  destruct rec as [n o id], rec' as [n' [s'|] id']; simpl; intros He ->;
    [|discriminate].
  exists s'. split; [reflexivity|].
  destruct s, s'. simpl in *. now simplify_eq.
Qed.

Lemma succeeded_parent_same sm st st' p pod :
  same_reads st st' → succeeded_parent sm st p pod →
  succeeded_parent sm st' p pod.
Proof.
  intros Hs (rec & s & c & cs & Hg & Hst & Hc & Ht & Hp).
  pose proof (statusMap_get_same sm st st' (Some p) Hs) as He.
  rewrite Hg in He. simpl in He.
  destruct (statusMap_get sm st' (Some p)) as [rec'|] eqn:Hg';
    [|discriminate].
  simpl in He.
  assert (He' : eraseRecord rec' = eraseRecord rec) by congruence.
  destruct (eraseRecord_status_inv rec rec' s He' Hst)
    as (s' & Hst' & Hp' & Hc').
  exists rec', s', c, cs. repeat split; congruence.
Qed.

Lemma truthy_inv (v : option string) :
  Js.truthy v = true → ∃ s, v = Some s ∧ s ≠ "".
Proof.
  destruct v as [s|]; simpl; [|discriminate]. intros H. exists s.
  split; [reflexivity|]. intros ->. discriminate.
Qed.

Lemma resolveParam_edges sm pps edgeChild v sp st es v' :
  resolveParam sm pps edgeChild v sp st = Ok (es, v') →
  ∀ e, e ∈ es →
  ∃ p pod, task sp = Some p ∧ succeeded_parent sm st p pod
           ∧ e = {| parent := pod; child := edgeChild |}.
Proof.
  unfold resolveParam.
  destruct (Js.truthy (task sp)) eqn:Et; simpl.
  2:{ intros [= <- _] e He. now apply elem_of_nil in He. }
  apply truthy_inv in Et as (p & Ep & _). rewrite Ep.
  destruct (statusMap_get sm st (Some p)) as [rec|] eqn:Hg.
  2:{ intros [= <- _] e He. now apply elem_of_nil in He. }
  destruct (rr_status rec) as [s|] eqn:Hs; simpl; [|discriminate].
  destruct (conditions s) as [[|c cs]|] eqn:Hc; simpl.
  - discriminate.
  - destruct (String.eqb (cond_type c) "Succeeded") eqn:Ec.
    + intros [= <- _] e He. apply list_elem_of_singleton in He as ->.
      exists p, (podName s). split; [reflexivity|]. split; [|reflexivity].
      exists rec, s, c, cs. apply String.eqb_eq in Ec. now repeat split.
    + intros [= <- _] e He. now apply elem_of_nil in He.
  - intros [= <- _] e He. now apply elem_of_nil in He.
Qed.

Lemma checkParam_edges sm pps component edgeChild nv st es st1 :
  checkParam sm pps component edgeChild nv st = Ok (es, st1) →
  ∀ e, e ∈ es →
  ∃ p pod, param_refers (Some [nv]) p ∧ succeeded_parent sm st p pod
           ∧ e = {| parent := pod; child := edgeChild |}.
Proof.
  unfold checkParam.
  destruct (nv_value nv) as [v|] eqn:Hv; simpl; [|discriminate].
  destruct (decodeParam v) as [sp|] eqn:Hd; simpl; [|discriminate].
  destruct (resolveParam _ _ _ _ _ _) as [[es' v']|] eqn:Hr; simpl;
    [|discriminate].
  destruct (writeBack _ _ _ _ _) as [s|]; simpl; [|discriminate].
  intros [= <- <-] e He.
  destruct (resolveParam_edges _ _ _ _ _ _ _ _ Hr e He)
    as (p & pod & Hp & Hs & ->).
  exists p, pod. split; [|now split].
  exists nv, v, sp. split; [apply list_elem_of_here|]. now repeat split.
Qed.

Lemma param_refers_cons nv ps p :
  param_refers (Some [nv]) p ∨ param_refers (Some ps) p →
  param_refers (Some (nv :: ps)) p.
Proof.
  intros [(x & v & ref & Hx & H)|(x & v & ref & Hx & H)]; exists x, v, ref;
    (split; [|exact H]); simpl in *.
  - apply list_elem_of_singleton in Hx as ->. apply list_elem_of_here.
  - now apply list_elem_of_further.
Qed.

Lemma checkParamsLoop_edges sm pps component edgeChild st0 ps :
  ∀ st es st1, same_reads st st0 →
  checkParamsLoop sm pps component edgeChild ps st = Ok (es, st1) →
  ∀ e, e ∈ es →
  ∃ p pod, param_refers (Some ps) p ∧ succeeded_parent sm st0 p pod
           ∧ e = {| parent := pod; child := edgeChild |}.
Proof.
  induction ps as [|nv rest IH]; intros st es st1 Hst; simpl.
  - intros [= <- _] e He. now apply elem_of_nil in He.
  - destruct (checkParam _ _ _ _ _ _) as [[e1 s1]|] eqn:E1; simpl;
      [|discriminate].
    destruct (checkParamsLoop _ _ _ _ _ s1) as [[e2 s2]|] eqn:E2; simpl;
      [|discriminate].
    intros [= <- <-] e He. apply elem_of_app in He as [He|He].
    + destruct (checkParam_edges _ _ _ _ _ _ _ _ E1 e He)
        as (p & pod & Hp & Hs & ->).
      exists p, pod. split; [apply param_refers_cons; now left|].
      split; [|reflexivity]. eapply succeeded_parent_same; eassumption.
    + assert (Hs1 : same_reads s1 st0).
      { eapply same_reads_trans; [|exact Hst].
        apply same_reads_sym. eapply checkParam_preserve, E1. }
      destruct (IH s1 e2 s2 Hs1 E2 e He) as (p & pod & Hp & Hs & ->).
      exists p, pod. split; [apply param_refers_cons; now right|].
      now split.
Qed.

Lemma checkParams_edges sm pps component ownerTask st0 st es st1 :
  same_reads st st0 →
  checkParams sm pps component ownerTask st = Ok (es, st1) →
  ∀ e, e ∈ es →
  ∃ p pod, param_refers (c_params component) p
           ∧ succeeded_parent sm st0 p pod ∧ parent e = pod.
Proof.
  intros Hst. unfold checkParams.
  destruct (if negb (String.eqb ownerTask "") then _ else _) as [cid|];
    simpl; [|discriminate].
  intros H e He.
  destruct (checkParamsLoop_edges _ _ _ _ st0 _ _ _ _ Hst H e He)
    as (p & pod & Hp & Hs & ->).
  exists p, pod. split; [|now split].
  destruct Hp as (nv & v & ref & Hnv & Hrest). exists nv, v, ref.
  split; [|exact Hrest]. now destruct (c_params component).
Qed.

Lemma conditionsEdges_edges sm pps taskId st0 conds :
  ∀ st es st1, same_reads st st0 →
  conditionsEdges sm pps taskId conds st = Ok (es, st1) →
  ∀ e, e ∈ es →
  ∃ condition p pod,
    condition ∈ conds ∧ param_refers (c_params condition) p
    ∧ succeeded_parent sm st0 p pod ∧ parent e = pod.
Proof.
  induction conds as [|c rest IH]; intros st es st1 Hst; simpl.
  - intros [= <- _] e He. now apply elem_of_nil in He.
  - destruct (checkParams _ _ _ _ _) as [[e1 s1]|] eqn:E1; simpl;
      [|discriminate].
    destruct (conditionsEdges _ _ _ _ s1) as [[e2 s2]|] eqn:E2; simpl;
      [|discriminate].
    intros [= <- <-] e He. apply elem_of_app in He as [He|He].
    + destruct (checkParams_edges _ _ _ _ st0 _ _ _ Hst E1 e He)
        as (p & pod & Hp & Hs & Hpar).
      exists c, p, pod. split; [apply list_elem_of_here | now repeat split].
    + assert (Hs1 : same_reads s1 st0).
      { eapply same_reads_trans; [|exact Hst].
        apply same_reads_sym. eapply checkParams_preserve, E1. }
      destruct (IH s1 e2 s2 Hs1 E2 e He) as (c' & p & pod & Hc & H).
      exists c', p, pod. split; [now apply list_elem_of_further | exact H].
Qed.

Lemma collect_elem {A B : Type} (f : A → Result (list B)) (l : list A)
    (bs : list B) :
  collect f l = Ok bs →
  ∀ b, b ∈ bs ↔ ∃ a bs', a ∈ l ∧ f a = Ok bs' ∧ b ∈ bs'.
Proof.
  revert bs; induction l as [|a l IH]; intros bs; simpl.
  - intros [= <-] b. split; [intros H; now apply elem_of_nil in H|].
    intros (a & bs' & Ha & _). now apply elem_of_nil in Ha.
  - destruct (f a) as [b1|] eqn:Ea; simpl; [|discriminate].
    destruct (collect f l) as [b2|]; simpl; [|discriminate].
    intros [= <-] b. rewrite elem_of_app, (IH b2 eq_refl b). split.
    + intros [Hb|(a' & bs' & Ha' & Hf & Hb)].
      * exists a, b1. split; [apply list_elem_of_here | now split].
      * exists a', bs'. split; [now apply list_elem_of_further | now split].
    + intros (a' & bs' & Ha' & Hf & Hb).
      apply elem_of_cons in Ha' as [->|Ha'].
      * left. congruence.
      * right. now exists a', bs'.
Qed.

Lemma collect_defined {A B : Type} (f : A → Result (list B)) (l : list A)
    (bs : list B) (a : A) :
  collect f l = Ok bs → a ∈ l → ∃ bs', f a = Ok bs'.
Proof.
  revert bs; induction l as [|a' l IH]; intros bs; simpl.
  - intros _ Ha. now apply elem_of_nil in Ha.
  - destruct (f a') as [b1|] eqn:Ea; simpl; [|discriminate].
    destruct (collect f l) as [b2|]; simpl; [|discriminate].
    intros _ Ha. apply elem_of_cons in Ha as [->|Ha]; [eauto|].
    now apply (IH b2).
Qed.

Lemma runAfterEdges_edges sm st taskId t es :
  runAfterEdges sm st taskId t = Ok es →
  ∀ e, e ∈ es →
  ∃ p pod, p ∈ default [] (runAfter t) ∧ succeeded_parent sm st p pod
           ∧ e = {| parent := pod; child := Some taskId |}.
Proof.
  intros H e He. unfold runAfterEdges in H.
  apply (collect_elem _ _ _ H) in He as (p & es' & Hp & Hf & He).
  exists p. unfold runAfterEdge in Hf.
  destruct (statusMap_get sm st (Some p)) as [rec|] eqn:Hg.
  2:{ injection Hf as <-. now apply elem_of_nil in He. }
  destruct (rr_status rec) as [s|] eqn:Hs; simpl in Hf; [|discriminate].
  destruct (conditions s) as [[|c cs]|] eqn:Hc; simpl in Hf;
    try discriminate.
  destruct (String.eqb (cond_type c) "Succeeded") eqn:Ec;
    injection Hf as <-; [|now apply elem_of_nil in He].
  apply list_elem_of_singleton in He as ->.
  exists (podName s). split; [exact Hp|]. split; [|reflexivity].
  exists rec, s, c, cs. apply String.eqb_eq in Ec. now repeat split.
Qed.

Lemma whenEdges_complete sm st taskId whens es p rec :
  whenEdges sm st taskId whens = Ok es →
  when_refers (Some whens) p →
  statusMap_get sm st (Some p) = Some rec →
  ∃ parentId, podOrTaskName rec = Ok parentId
              ∧ {| parent := parentId; child := Some taskId |} ∈ es.
Proof.
  intros H (condition & ref & Hc & Hd & Ht & Hne) Hg. simpl in Hc.
  unfold whenEdges in H.
  destruct (collect_defined _ _ _ _ H Hc) as [es' Hf].
  assert (Hin : ∀ e, e ∈ es' → e ∈ es).
  { intros e He. apply (collect_elem _ _ _ H). now exists condition, es'. }
  unfold whenParent in Hf. rewrite Hd in Hf. simpl in Hf.
  assert (Etr : Js.truthy (task ref) = true).
  { rewrite Ht. simpl. destruct (String.eqb p "") eqn:E; [|reflexivity].
    apply String.eqb_eq in E. contradiction. }
  rewrite Etr, Ht, Hg in Hf. simpl in Hf.
  destruct (podOrTaskName rec) as [pid|]; simpl in Hf; [|discriminate].
  injection Hf as <-. exists pid. split; [reflexivity|].
  apply Hin, list_elem_of_here.
Qed.

Lemma anyTaskEdges_complete sm st taskId args :
  ∀ b1 b2 es p rec,
  anyTaskEdges sm st taskId args b1 b2 = Ok es →
  p ∈ anyTaskParents args b1 b2 →
  statusMap_get sm st (Some p) = Some rec →
  ∃ parentId, podOrTaskName rec = Ok parentId
              ∧ {| parent := parentId; child := Some taskId |} ∈ es.
Proof.
  induction args as [|arg rest IH]; intros b1 b2 es p rec; simpl.
  - intros _ Hp. now apply elem_of_nil in Hp.
  - destruct (String.eqb arg "--taskList"); [apply IH|].
    destruct (String.eqb arg "-c"); [apply IH|].
    destruct b1.
    + destruct (collect _ (Js.split "," arg)) as [es1|] eqn:E1; simpl;
        [|discriminate].
      destruct (anyTaskEdges sm st taskId rest false b2) as [es2|] eqn:E2;
        simpl; [|discriminate].
      intros [= <-] Hp Hg. apply elem_of_app in Hp as [Hp|Hp].
      * destruct (collect_defined _ _ _ _ E1 Hp) as [es' Hf].
        assert (Hin : ∀ e, e ∈ es' → e ∈ es1).
        { intros e He. apply (collect_elem _ _ _ E1). now exists p, es'. }
        rewrite Hg in Hf. simpl in Hf.
        destruct (podOrTaskName rec) as [pid|]; simpl in Hf; [|discriminate].
        injection Hf as <-. exists pid. split; [reflexivity|].
        apply elem_of_app. left. apply Hin, list_elem_of_here.
      * destruct (IH _ _ _ _ _ E2 Hp Hg) as (pid & Hpid & He).
        exists pid. split; [exact Hpid|]. apply elem_of_app. now right.
    + destruct b2; [|apply IH].
      destruct (edgeFromRecord _ _) as [es1|] eqn:E1; simpl; [|discriminate].
      destruct (anyTaskEdges sm st taskId rest false false) as [es2|] eqn:E2;
        simpl; [|discriminate].
      intros [= <-] Hp Hg. apply elem_of_cons in Hp as [->|Hp].
      * rewrite Hg in E1. simpl in E1.
        destruct (podOrTaskName rec) as [pid|]; simpl in E1; [|discriminate].
        injection E1 as <-. exists pid. split; [reflexivity|].
        apply elem_of_app. left. apply list_elem_of_here.
      * destruct (IH _ _ _ _ _ E2 Hp Hg) as (pid & Hpid & He).
        exists pid. split; [exact Hpid|]. apply elem_of_app. now right.
Qed.

End EdgeOrigins.

(** ** The graph as the sum of the contributions *)
Section Contributions.

Context {NodePhase : NodePhaseEnum}.

Lemma mapR_elem {A B : Type} (f : A → Result B) (l : list A) (bs : list B) :
  mapR f l = Ok bs → ∀ b, b ∈ bs ↔ ∃ a, a ∈ l ∧ f a = Ok b.
Proof.
  revert bs; induction l as [|a l IH]; intros bs; simpl.
  - intros [= <-] b. split; [intros H; now apply elem_of_nil in H|].
    intros (a & Ha & _). now apply elem_of_nil in Ha.
  - destruct (f a) as [b1|] eqn:Ea; simpl; [|discriminate].
    destruct (mapR f l) as [b2|]; simpl; [|discriminate].
    intros [= <-] b. rewrite elem_of_cons, (IH b2 eq_refl b). split.
    + intros [->|(a' & Ha' & Hf)].
      * exists a. split; [apply list_elem_of_here | assumption].
      * exists a'. split; [now apply list_elem_of_further | assumption].
    + intros (a' & Ha' & Hf). apply elem_of_cons in Ha' as [->|Ha'].
      * left. congruence.
      * right. now exists a'.
Qed.

Lemma mapR_defined {A B : Type} (f : A → Result B) (l : list A)
    (bs : list B) (a : A) :
  mapR f l = Ok bs → a ∈ l → ∃ b, f a = Ok b ∧ b ∈ bs.
Proof.
  intros H Ha.
  assert (Hd : ∃ b, f a = Ok b).
  { revert bs H; induction l as [|a' l IH]; intros bs; simpl.
    - now apply elem_of_nil in Ha.
    - destruct (f a') as [b1|] eqn:Ea; simpl; [|discriminate].
      destruct (mapR f l) as [b2|]; simpl; [|discriminate].
      intros _. apply elem_of_cons in Ha as [->|Ha]; [eauto|].
      now apply (IH Ha b2). }
  destruct Hd as [b Hb]. exists b. split; [exact Hb|].
  apply (mapR_elem f l bs H). now exists a.
Qed.

Lemma elem_of_filter_bool {A : Type} (f : A → bool) (l : list A) (a : A) :
  a ∈ List.filter f l ↔ a ∈ l ∧ f a = true.
Proof. rewrite !list_elem_of_In. apply filter_In. Qed.

Lemma outputsOf_elem ctx st ts outs :
  outputsOf ctx st ts = Ok outs →
  ∀ o, o ∈ outs ↔
       ∃ t, t ∈ ts ∧ materialized ctx st t = true ∧ outputOf ctx st t = Ok o.
Proof.
  intros H o. unfold outputsOf in H. rewrite (mapR_elem _ _ _ H o).
  split; intros (t & Ht & Ho); exists t.
  - apply elem_of_filter_bool in Ht as [Ht Hm]. now repeat split.
  - destruct Ho as [Hm Ho]. split; [|exact Ho].
    now apply elem_of_filter_bool.
Qed.

Lemma outputsOf_defined ctx st ts outs t :
  outputsOf ctx st ts = Ok outs → t ∈ ts → materialized ctx st t = true →
  ∃ o, outputOf ctx st t = Ok o ∧ o ∈ outs.
Proof.
  intros H Ht Hm. unfold outputsOf in H.
  apply (mapR_defined _ _ _ t H). now apply elem_of_filter_bool.
Qed.

Lemma stamped_same_reads (st : Status) : same_reads (stamped st) st.
Proof.
  assert (H : ∀ l, eraseRecords (stampRunIds l) = eraseRecords l).
  { intros l. unfold eraseRecords, stampRunIds.
    rewrite <- list_fmap_compose. apply list_fmap_ext.
    now intros i [k [n s id]] _. }
  unfold same_reads, eraseDoc, stamped. simpl.
  destruct (taskRuns st), (runs st); simpl; now rewrite ?H.
Qed.

(** What a successful call of the builder past its guard amounts to. *)
Lemma createRuntimeGraph_inv workflow st graph workflow' :
  status workflow = Some st → noStatusYet workflow = false →
  createRuntimeGraph workflow = Ok (graph, workflow') →
  ∃ cts outs st',
    conditionTasksOf (buildStatusMap st) (stamped st) (allTasks workflow)
    = Ok cts
    ∧ outputsOf (contextOf workflow st cts) (stamped st) (allTasks workflow)
      = Ok outs
    ∧ graph = foldl commit emptyGraph outs
    ∧ workflow' = with_status workflow st'
    ∧ same_reads st' (stamped st).
Proof.
  intros Hst Hno. unfold createRuntimeGraph. rewrite Hno, Hst. simpl.
  destruct (conditionTasksOf _ _ _) as [cts|]; simpl; [|discriminate].
  pose proof (addTasks_outputs (contextOf workflow st cts) (stamped st)
                (allTasks workflow) emptyGraph (stamped st)
                (same_reads_refl _)) as H.
  destruct (addTasks _ _ _ _) as [[g s']|]; simpl; [|discriminate].
  intros [= <- <-]. destruct H as (outs & Ho & -> & Hs).
  exists cts, outs, s'. now repeat split.
Qed.

Lemma outputOf_inv ctx st t o :
  outputOf ctx st t = Ok o →
  ∃ taskId e1 e2 s1 s2,
    taskIdOf (statusMap ctx) st (t_name t) = Ok taskId
    ∧ checkParams (statusMap ctx) (pipelineParams ctx) (task_component t) "" st
      = Ok (e1, s1)
    ∧ conditionsEdges (statusMap ctx) (pipelineParams ctx) taskId
        (default [] (t_conditions t)) s1 = Ok (e2, s2)
    ∧ same_reads s1 st
    ∧ drawTask ctx t taskId e1 e2 st = Ok o.
Proof.
  unfold outputOf, taskOutput.
  destruct (taskIdOf _ _ _) as [tid|]; simpl; [|discriminate].
  destruct (checkParams _ _ _ _ _) as [[e1 s1]|] eqn:E1; simpl;
    [|discriminate].
  destruct (conditionsEdges _ _ _ _ _) as [[e2 s2]|] eqn:E2; simpl;
    [|discriminate].
  destruct (drawTask _ _ _ _ _ _) as [o'|] eqn:E3; simpl; [|discriminate].
  intros [= <-]. exists tid, e1, e2, s1, s2.
  assert (H1 : same_reads s1 st)
    by (apply same_reads_sym; eapply checkParams_preserve, E1).
  assert (H2 : same_reads s2 st).
  { eapply same_reads_trans; [|exact H1].
    apply same_reads_sym. eapply conditionsEdges_preserve, E2. }
  repeat split; try assumption; try reflexivity.
  rewrite <- E3. symmetry.
  apply (erasure_invariant_same (drawTask ctx t tid e1 e2));
    [apply drawTask_erase | exact H2].
Qed.

Lemma drawTask_inv ctx t taskId e1 e2 st o :
  drawTask ctx t taskId e1 e2 st = Ok o →
  whenEdges (statusMap ctx) st taskId (default [] (t_when t))
  = Ok (out_whenEdges o)
  ∧ match anyTaskArgs t with
    | Some args => anyTaskEdges (statusMap ctx) st taskId args false false
    | None => Ok []
    end = Ok (out_anyTaskEdges o)
  ∧ runAfterEdges (statusMap ctx) st taskId t = Ok (out_runAfterEdges o)
  ∧ out_paramEdges o = e1 ∧ out_conditionEdges o = e2
  ∧ fst (out_node o) = taskId.
Proof.
  unfold drawTask.
  destruct (whenEdges _ _ _ _) as [e3|]; simpl; [|discriminate].
  destruct (match anyTaskArgs t with Some _ => _ | None => _ end) as [d|];
    simpl; [|discriminate].
  destruct (runAfterEdges _ _ _ _) as [e4|]; simpl; [|discriminate].
  destruct (if negb _ then _ else _) as [status|]; simpl; [|discriminate].
  destruct (match statusMap_get _ _ _ with Some _ => _ | None => _ end)
    as [[start completion]|]; simpl; [|discriminate].
  intros [= <-]. simpl. now repeat split.
Qed.

Lemma guardedByIndexedTask_true sm st whens p rec :
  when_refers (Some whens) p → statusMap_get sm st (Some p) = Some rec →
  guardedByIndexedTask sm st whens = Ok true.
Proof.
  intros (condition & ref & Hc & Hd & Ht & Hne) Hg. simpl in Hc.
  induction whens as [|w rest IH]; [now apply elem_of_nil in Hc|].
  simpl. destruct (whenParent_total sm st w) as [r Hr]. rewrite Hr. simpl.
  destruct r as [r|]; [reflexivity|]. simpl.
  apply elem_of_cons in Hc as [->|Hc]; [|now apply IH].
  unfold whenParent in Hr. rewrite Hd in Hr. simpl in Hr.
  rewrite Ht in Hr. simpl in Hr.
  destruct (String.eqb p "") eqn:E; [apply String.eqb_eq in E; contradiction|].
  simpl in Hr. rewrite Hg in Hr. discriminate.
Qed.

Lemma conditionTasksOf_elem sm st ts cts t p rec :
  conditionTasksOf sm st ts = Ok cts → t ∈ ts →
  when_refers (t_when t) p → statusMap_get sm st (Some p) = Some rec →
  Js.has (statusMap_get sm st (Some (t_name t))) = true ∨ t_name t ∈ cts.
Proof.
  intros H Ht Hw Hg. revert cts H.
  induction ts as [|t' rest IH]; intros cts; [now apply elem_of_nil in Ht|].
  simpl.
  destruct (if Js.has (statusMap_get sm st (Some (t_name t'))) then _ else _)
    as [b|] eqn:Eb; simpl; [|discriminate].
  destruct (conditionTasksOf sm st rest) as [names|]; simpl; [|discriminate].
  intros [= <-]. apply elem_of_cons in Ht as [<-|Ht].
  - destruct (Js.has (statusMap_get sm st (Some (t_name t)))); [now left|].
    right.
    assert (Hw' : when_refers (Some (default [] (t_when t))) p).
    { destruct Hw as (c & ref & Hc & H). exists c, ref. split; [|exact H].
      exact Hc. }
    rewrite (guardedByIndexedTask_true sm st _ p rec Hw' Hg) in Eb.
    injection Eb as <-. apply list_elem_of_here.
  - destruct (IH Ht names eq_refl) as [?|?]; [now left|].
    right. destruct b; [now apply list_elem_of_further | assumption].
Qed.

End Contributions.

(** ** What a drawn task contributes *)
Section GatingLaw.

Context {NodePhase : NodePhaseEnum}.

Variables (workflow : Workflow) (st : Status) (graph : Graph)
  (workflow' : Workflow).
Hypothesis Hstatus : status workflow = Some st.
Hypothesis Hpast : noStatusYet workflow = false.
Hypothesis Hrun : createRuntimeGraph workflow = Ok (graph, workflow').

Lemma contribution_inv t o :
  contribution workflow t o →
  ∃ cts outs,
    conditionTasksOf (buildStatusMap st) (stamped st) (allTasks workflow)
    = Ok cts
    ∧ outputsOf (contextOf workflow st cts) (stamped st) (allTasks workflow)
      = Ok outs
    ∧ graph = foldl commit emptyGraph outs
    ∧ t ∈ allTasks workflow
    ∧ outputOf (contextOf workflow st cts) (stamped st) t = Ok o
    ∧ o ∈ outs.
Proof.
  intros (st_ & cts_ & Hst_ & _ & Hcts_ & Ht & Hm & Ho).
  assert (st_ = st) as -> by congruence.
  destruct (createRuntimeGraph_inv workflow st graph workflow' Hstatus Hpast
              Hrun) as (cts & outs & st' & Hcts & Houts & Hg & _).
  assert (cts_ = cts) as -> by congruence.
  exists cts, outs. repeat split; try assumption.
  apply (outputsOf_elem _ _ _ _ Houts). now exists t.
Qed.

Lemma contribution_in_graph t o e :
  contribution workflow t o → e ∈ out_edges o → e ∈ g_edges graph.
Proof.
  intros Hc He.
  destruct (contribution_inv t o Hc) as (cts & outs & _ & _ & -> & _ & _ & Ho).
  apply commits_edges. right. now exists o.
Qed.

Lemma drawn_task_contributes t :
  t ∈ allTasks workflow →
  (∀ cts, materialized (contextOf workflow st cts) (stamped st) t = true
          ∨ conditionTasksOf (buildStatusMap st) (stamped st)
              (allTasks workflow) ≠ Ok cts) →
  ∃ o, contribution workflow t o.
Proof.
  intros Ht Hm.
  destruct (createRuntimeGraph_inv workflow st graph workflow' Hstatus Hpast
              Hrun) as (cts & outs & st' & Hcts & Houts & Hg & _).
  destruct (Hm cts) as [Hm'|]; [|contradiction].
  destruct (outputsOf_defined _ _ _ _ t Houts Ht Hm') as (o & Ho & _).
  exists o, st, cts. now repeat split.
Qed.

(** An edge gathered from a parameter binding or a [runAfter] entry comes
    from a parent in the index whose first condition is [Succeeded], and
    its parent end is the [podName] field of that parent's status. *)
Lemma gated_edge_origin t o e :
  contribution workflow t o →
  e ∈ out_paramEdges o ∨ e ∈ out_conditionEdges o ∨ e ∈ out_runAfterEdges o →
  ∃ p pod,
    (param_refers (t_params t) p
     ∨ (∃ condition, condition ∈ default [] (t_conditions t)
                     ∧ param_refers (c_params condition) p)
     ∨ p ∈ default [] (runAfter t))
    ∧ succeeded_parent (buildStatusMap st) (stamped st) p pod
    ∧ parent e = pod.
Proof.
  intros Hc He.
  destruct (contribution_inv t o Hc)
    as (cts & outs & _ & _ & _ & Ht & Ho & _).
  destruct (outputOf_inv _ _ _ _ Ho)
    as (tid & e1 & e2 & s1 & s2 & Htid & H1 & H2 & Hs1 & Hd).
  destruct (drawTask_inv _ _ _ _ _ _ _ Hd) as (_ & _ & H4 & <- & <- & _).
  destruct He as [He|[He|He]].
  - destruct (checkParams_edges _ _ _ _ (stamped st) _ _ _
                (same_reads_refl _) H1 e He) as (p & pod & Hp & Hs & Hpar).
    exists p, pod. split; [now left | now split].
  - destruct (conditionsEdges_edges _ _ _ (stamped st) _ _ _ _ Hs1 H2 e He)
      as (c & p & pod & Hcin & Hp & Hs & Hpar).
    exists p, pod. split; [right; left; now exists c | now split].
  - destruct (runAfterEdges_edges _ _ _ _ _ H4 e He)
      as (p & pod & Hp & Hs & ->).
    exists p, pod. split; [now right; right | now split].
Qed.

End GatingLaw.

(** ** Order independence and repeated calls *)
Section OrderIndependence.

Context {NodePhase : NodePhaseEnum}.

Lemma perm_results_trans {B : Type} (x y z : Result (list B)) :
  perm_results x y → perm_results y z → perm_results x z.
Proof.
  destruct x, y, z; simpl; try tauto. intros H1 H2. now rewrite H1.
Qed.

Lemma mapR_perm {A B : Type} (f : A → Result B) (l l' : list A) :
  l ≡ₚ l' → perm_results (mapR f l) (mapR f l').
Proof.
  induction 1 as [|a l l' Hp IH|a b l|l1 l2 l3 H1 IH1 H2 IH2]; simpl.
  - reflexivity.
  - destruct (f a); simpl; [|exact I].
    destruct (mapR f l), (mapR f l'); simpl in *; try tauto.
    now constructor.
  - destruct (f a), (f b), (mapR f l); simpl; try exact I. apply perm_swap.
  - eapply perm_results_trans; eassumption.
Qed.

Lemma filter_bool_perm {A : Type} (f : A → bool) (l l' : list A) :
  l ≡ₚ l' → List.filter f l ≡ₚ List.filter f l'.
Proof.
  induction 1 as [|a l l' Hp IH|a b l|l1 l2 l3 H1 IH1 H2 IH2]; simpl.
  - reflexivity.
  - destruct (f a); [now constructor | assumption].
  - destruct (f a), (f b); try reflexivity. apply perm_swap.
  - now rewrite IH1.
Qed.

Lemma materialized_ctx_equiv ctx ctx' st t :
  ctx_equiv ctx ctx' → materialized ctx st t = materialized ctx' st t.
Proof.
  intros (Hsm & _ & _ & Hct & _). unfold materialized. rewrite Hsm.
  f_equal. apply bool_decide_ext, Hct.
Qed.

Lemma taskOutput_ctx_equiv ctx ctx' st t :
  ctx_equiv ctx ctx' → taskOutput ctx t st = taskOutput ctx' t st.
Proof.
  intros (Hsm & Hpp & Hsk & Hct & Hex). unfold taskOutput, drawTask.
  rewrite Hsm, Hpp, Hsk.
  rewrite (bool_decide_ext _ _ (Hct (t_name t))).
  rewrite (bool_decide_ext _ _ (Hex (t_name t))).
  reflexivity.
Qed.

Lemma outputsOf_perm ctx ctx' st ts ts' :
  ctx_equiv ctx ctx' → ts ≡ₚ ts' →
  perm_results (outputsOf ctx st ts) (outputsOf ctx' st ts').
Proof.
  intros Hctx Hp. unfold outputsOf.
  assert (Hf : List.filter (materialized ctx' st) ts'
               = List.filter (materialized ctx st) ts').
  { apply filter_ext. intros t. symmetry.
    now apply materialized_ctx_equiv. }
  rewrite Hf.
  assert (Ho : ∀ t, outputOf ctx' st t = outputOf ctx st t).
  { intros t. unfold outputOf.
    now rewrite (taskOutput_ctx_equiv ctx ctx' st t Hctx). }
  assert (Hm : ∀ l, mapR (outputOf ctx' st) l = mapR (outputOf ctx st) l).
  { induction l as [|t l IH]; [reflexivity|].
    cbn [mapR]. now rewrite IH, Ho. }
  rewrite Hm. apply mapR_perm, filter_bool_perm, Hp.
Qed.

Lemma guardedByIndexedTask_total sm st whens :
  ∃ b, guardedByIndexedTask sm st whens = Ok b.
Proof.
  induction whens as [|w rest IH]; simpl; [eauto|].
  destruct (whenParent_total sm st w) as [r ->]. simpl.
  destruct (Js.has r); eauto.
Qed.

Lemma conditionTasksOf_filter sm st ts :
  conditionTasksOf sm st ts
  = Ok (t_name <$> List.filter (isConditionTask sm st) ts).
Proof.
  induction ts as [|t rest IH]; simpl; [reflexivity|].
  rewrite IH. unfold isConditionTask.
  destruct (Js.has (statusMap_get sm st (Some (t_name t)))); simpl;
    [reflexivity|].
  destruct (guardedByIndexedTask_total sm st (default [] (t_when t)))
    as [b ->]. simpl. now destruct b.
Qed.

(** A call past the guard, in terms of the contributions. *)
Lemma createRuntimeGraph_outputs workflow st st1 :
  status workflow = Some st1 → noStatusYet workflow = false →
  buildStatusMap st1 = buildStatusMap st →
  skippedTasks st1 = skippedTasks st →
  same_reads (stamped st1) (stamped st) →
  let cts := t_name <$> List.filter
               (isConditionTask (buildStatusMap st) (stamped st))
               (allTasks workflow) in
  match createRuntimeGraph workflow with
  | Ok (graph, workflow') =>
      ∃ outs,
        outputsOf (contextOf workflow st cts) (stamped st) (allTasks workflow)
        = Ok outs
        ∧ graph = foldl commit emptyGraph outs
  | Throw e =>
      outputsOf (contextOf workflow st cts) (stamped st) (allTasks workflow)
      = Throw e
  end.
Proof.
  intros Hst Hno Hsm Hsk Hsame cts. unfold createRuntimeGraph.
  rewrite Hno, Hst. simpl. rewrite Hsm.
  rewrite (erasure_invariant_same
             (λ s, conditionTasksOf (buildStatusMap st) s (allTasks workflow))
             _ _ (λ s, conditionTasksOf_erase _ s _) Hsame).
  rewrite conditionTasksOf_filter. simpl. fold cts.
  assert (Hctx : contextOf workflow st1 cts = contextOf workflow st cts).
  { unfold contextOf. now rewrite Hsm, Hsk. }
  rewrite Hctx.
  pose proof (addTasks_outputs (contextOf workflow st cts) (stamped st)
                (allTasks workflow) emptyGraph (stamped st1) Hsame) as H.
  destruct (addTasks _ _ _ _) as [[g s']|]; simpl; [|exact H].
  destruct H as (outs & Ho & -> & _). now exists outs.
Qed.

Lemma same_graph_commits (outs outs' : list TaskOutput) :
  outs ≡ₚ outs' →
  same_graph (foldl commit emptyGraph outs) (foldl commit emptyGraph outs').
Proof.
  intros Hp. split.
  - intros id. rewrite !commits_ids.
    split; (intros [?|(o & Ho & H)]; [now left | right; exists o]);
      (split; [|exact H]); [now rewrite <- Hp | now rewrite Hp].
  - intros e. rewrite !commits_edges.
    split; (intros [?|(o & Ho & H)]; [now left | right; exists o]);
      (split; [|exact H]); [now rewrite <- Hp | now rewrite Hp].
Qed.

Lemma indexRuns_erase mk l :
  ∀ i sm, indexRuns mk i (eraseRecords l) sm = indexRuns mk i l sm.
Proof.
  induction l as [|[k [n s id]] l IH]; intros i sm; simpl; [reflexivity|].
  unfold eraseRecords in IH. rewrite IH. now destruct s.
Qed.

Lemma buildStatusMap_same st st' :
  same_reads st st' → buildStatusMap st = buildStatusMap st'.
Proof.
  assert (H : ∀ s, buildStatusMap (eraseDoc s) = buildStatusMap s).
  { intros s. unfold buildStatusMap, eraseDoc. simpl.
    now rewrite !records_of_erase, !indexRuns_erase. }
  apply (erasure_invariant_same buildStatusMap _ _ H).
Qed.

Lemma same_reads_fields st st' :
  same_reads st st' →
  skippedTasks st = skippedTasks st'
  ∧ status_keys st = status_keys st'
  ∧ Js.has (taskRuns st) = Js.has (taskRuns st').
Proof.
  unfold same_reads, eraseDoc, status_keys. intros H.
  injection H as H1 H2 H3 H4. rewrite H3, H4.
  assert (Ht : Js.has (taskRuns st) = Js.has (taskRuns st'))
    by (destruct (taskRuns st), (taskRuns st'); simpl in *; congruence).
  assert (Hr : Js.has (runs st) = Js.has (runs st'))
    by (destruct (runs st), (runs st'); simpl in *; congruence).
  now rewrite Ht, Hr.
Qed.

Lemma stamped_same st st' :
  same_reads st st' → same_reads (stamped st) (stamped st').
Proof.
  intros H. eapply same_reads_trans; [apply stamped_same_reads|].
  eapply same_reads_trans; [exact H|].
  apply same_reads_sym, stamped_same_reads.
Qed.

Lemma same_graph_refl g : same_graph g g.
Proof. split; intros; reflexivity. Qed.

(** C3. The set of node identities and the set of edges of the graph do
    not change when the declared task list and the list of exit handlers
    are permuted (the call throws for one order exactly when it throws for
    the other); and calling the builder again on the document as the first
    call left it gives the same graph. *)
Theorem createRuntimeGraph_order_independent (workflow : Workflow)
    (ts fs : list Task) :
  default [] (tasks (pipelineSpec (spec workflow))) ≡ₚ ts →
  default [] (finally (pipelineSpec (spec workflow))) ≡ₚ fs →
  same_outcome (createRuntimeGraph workflow)
               (createRuntimeGraph (with_tasks workflow ts fs))
  ∧ ∀ graph workflow',
      createRuntimeGraph workflow = Ok (graph, workflow') →
      ∃ workflow'', createRuntimeGraph workflow' = Ok (graph, workflow'').
Proof.
  intros Hts Hfs. split.
  - destruct (status workflow) as [st|] eqn:Hst.
    2:{ unfold createRuntimeGraph, noStatusYet. simpl. now rewrite Hst. }
    destruct (noStatusYet workflow) eqn:Hno.
    { unfold createRuntimeGraph.
      assert (Hno' : noStatusYet (with_tasks workflow ts fs) = true)
        by exact Hno.
      rewrite Hno, Hno'. apply same_graph_refl. }
    pose proof (createRuntimeGraph_outputs workflow st st Hst Hno eq_refl
                  eq_refl (same_reads_refl _)) as H1.
    pose proof (createRuntimeGraph_outputs (with_tasks workflow ts fs) st st
                  Hst Hno eq_refl eq_refl (same_reads_refl _)) as H2.
    cbv zeta in H1, H2.
    assert (Hall : allTasks workflow ≡ₚ allTasks (with_tasks workflow ts fs)).
    { unfold allTasks. simpl. now rewrite Hts, Hfs. }
    set (cts := t_name <$> List.filter
                  (isConditionTask (buildStatusMap st) (stamped st))
                  (allTasks workflow)) in *.
    set (cts2 := t_name <$> List.filter
                   (isConditionTask (buildStatusMap st) (stamped st))
                   (allTasks (with_tasks workflow ts fs))) in *.
    assert (Hctx : ctx_equiv (contextOf workflow st cts)
                     (contextOf (with_tasks workflow ts fs) st cts2)).
    { unfold ctx_equiv, contextOf. simpl.
      split; [reflexivity|]. split; [reflexivity|]. split; [reflexivity|].
      split; intros n.
      - assert (Hp : cts ≡ₚ cts2)
          by apply fmap_Permutation, filter_bool_perm, Hall.
        now rewrite Hp.
      - now rewrite Hfs. }
    pose proof (outputsOf_perm _ _ (stamped st) _ _ Hctx Hall) as Hp.
    unfold same_outcome.
    destruct (createRuntimeGraph workflow) as [[g w']|e],
             (createRuntimeGraph (with_tasks workflow ts fs)) as [[g2 w2]|e2].
    + destruct H1 as (outs & Ho & ->), H2 as (outs2 & Ho2 & ->).
      rewrite Ho, Ho2 in Hp. now apply same_graph_commits.
    + destruct H1 as (outs & Ho & _). now rewrite Ho, H2 in Hp.
    + destruct H2 as (outs2 & Ho2 & _). now rewrite H1, Ho2 in Hp.
    + exact I.
  - intros graph workflow' Hrun.
    destruct (status workflow) as [st|] eqn:Hst.
    2:{ unfold createRuntimeGraph, noStatusYet in Hrun. rewrite Hst in Hrun.
        discriminate. }
    destruct (noStatusYet workflow) eqn:Hno.
    { unfold createRuntimeGraph in Hrun. rewrite Hno in Hrun.
      injection Hrun as <- <-. exists workflow.
      unfold createRuntimeGraph. now rewrite Hno. }
    destruct (createRuntimeGraph_inv workflow st graph workflow' Hst Hno Hrun)
      as (cts & outs & st' & Hcts & Houts & -> & -> & Hs').
    rewrite conditionTasksOf_filter in Hcts. injection Hcts as <-.
    assert (Hst' : same_reads st' st)
      by (eapply same_reads_trans; [exact Hs' | apply stamped_same_reads]).
    destruct (same_reads_fields st' st Hst') as (Hsk & Hk & Ht).
    assert (Hno' : noStatusYet (with_status workflow st') = false).
    { unfold noStatusYet in *. simpl. rewrite Hst in Hno.
      now rewrite Hk, Ht. }
    pose proof (createRuntimeGraph_outputs (with_status workflow st') st st'
                  eq_refl Hno' (buildStatusMap_same _ _ Hst') Hsk
                  (stamped_same _ _ Hst')) as H.
    cbv zeta in H.
    change (allTasks (with_status workflow st')) with (allTasks workflow) in H.
    change (contextOf (with_status workflow st') st) with (contextOf workflow st)
      in H.
    destruct (createRuntimeGraph (with_status workflow st')) as [[g w'']|e].
    + destruct H as (outs' & Ho' & ->). exists w''.
      rewrite Houts in Ho'. now injection Ho' as <-.
    + rewrite Houts in H. discriminate.
Qed.

End OrderIndependence.

(** ** Artifact locations *)
Section ArtifactFacts.

Context {NodePhase : NodePhaseEnum}.

Lemma pipelineRunIDFor_fold (ts : list Task) (producer cached : option string)
    (c : string) :
  cached = Some c → c ≠ "" →
  ∀ start,
    foldl (λ pipelineRunID t,
             if bool_decide (producer = Some (t_name t))
                && String.eqb (cacheLabel t) "true"
                && Js.truthy cached
             then default pipelineRunID cached
             else pipelineRunID) start ts
    = c ∧ cacheEnabledProducer ts producer
    ∨ foldl (λ pipelineRunID t,
               if bool_decide (producer = Some (t_name t))
                  && String.eqb (cacheLabel t) "true"
                  && Js.truthy cached
               then default pipelineRunID cached
               else pipelineRunID) start ts
      = start ∧ ¬ cacheEnabledProducer ts producer.
Proof.
  intros -> Hc.
  assert (Htr : Js.truthy (Some c) = true).
  { simpl. destruct (String.eqb c "") eqn:E; [|reflexivity].
    apply String.eqb_eq in E. contradiction. }
  induction ts as [|t rest IH] using rev_ind; intros start.
  - right. split; [reflexivity|]. intros (t & Ht & _).
    now apply elem_of_nil in Ht.
  - rewrite foldl_app. cbn [foldl].
    destruct (bool_decide (producer = Some (t_name t))
              && String.eqb (cacheLabel t) "true"
              && Js.truthy (Some c)) eqn:E.
    + left. split; [reflexivity|]. apply andb_prop in E as [E _].
      apply andb_prop in E as [E1 E2].
      apply bool_decide_eq_true in E1. apply String.eqb_eq in E2.
      exists t. split; [|now split]. apply elem_of_app. right.
      apply list_elem_of_here.
    + rewrite Htr, andb_true_r in E.
      destruct (IH start) as [[Hf Hp]|[Hf Hp]].
      * left. split; [exact Hf|]. destruct Hp as (t' & Ht' & H).
        exists t'. split; [|exact H]. apply elem_of_app. now left.
      * right. split; [exact Hf|]. intros (t' & Ht' & H1 & H2).
        apply elem_of_app in Ht' as [Ht'|Ht'].
        { apply Hp. now exists t'. }
        apply list_elem_of_singleton in Ht' as ->.
        apply andb_false_iff in E as [E|E].
        -- apply bool_decide_eq_false in E. contradiction.
        -- rewrite H2 in E. discriminate.
Qed.

(** The run whose storage holds an artifact: the cached run when its
    producer is cache-enabled and a cached run is supplied, the run of the
    document otherwise. *)
Lemma pipelineRunIDFor_spec (workflowName : option string) (ts : list Task)
    (producer cached : option string) :
  (∀ c, cacheEnabledProducer ts producer → cached = Some c → c ≠ "" →
        pipelineRunIDFor workflowName ts producer cached = c)
  ∧ (cached = None ∨ cached = Some "" ∨ ¬ cacheEnabledProducer ts producer →
     pipelineRunIDFor workflowName ts producer cached
     = runNameOf workflowName).
Proof.
  unfold pipelineRunIDFor. fold (runNameOf workflowName). split.
  - intros c Hp Hc Hne.
    destruct (pipelineRunIDFor_fold ts producer cached c Hc Hne
                (runNameOf workflowName)) as [[H _]|[_ H]];
      [exact H | contradiction].
  - intros H.
    assert (Hfalse : Js.truthy cached = false →
            foldl (λ pipelineRunID t,
                     if bool_decide (producer = Some (t_name t))
                        && String.eqb (cacheLabel t) "true"
                        && Js.truthy cached
                     then default pipelineRunID cached
                     else pipelineRunID) (runNameOf workflowName) ts
            = runNameOf workflowName).
    { clear H. intros ->. generalize (runNameOf workflowName).
      induction ts as [|t rest IH]; intros start; simpl; [reflexivity|].
      rewrite andb_false_r. apply IH. }
    destruct H as [->|[->|H]]; [now apply Hfalse | now apply Hfalse|].
    destruct cached as [c|]; [|now apply Hfalse].
    destruct (String.eqb c "") eqn:E.
    { apply Hfalse. simpl. now rewrite E. }
    assert (Hne : c ≠ "") by (intros ->; discriminate).
    destruct (pipelineRunIDFor_fold ts producer (Some c) c eq_refl Hne
                (runNameOf workflowName)) as [[_ Hp]|[Hf _]];
      [contradiction | exact Hf].
Qed.

Lemma inputArtifact_inv workflow md a cached artifact n art :
  inputArtifact workflow md a cached artifact = Ok (n, art) →
  ∃ ts, tasks (pipelineSpec (spec workflow)) = Some ts
        ∧ n = ia_name artifact
        ∧ s3_key art
          = inputArtifactKey
              (pipelineRunIDFor (md_name md) ts (Some (parent_task artifact))
                 cached) artifact.
Proof.
  unfold inputArtifact.
  destruct (tasks (pipelineSpec (spec workflow))) as [ts|]; simpl;
    [|discriminate].
  intros [= <- <-]. exists ts. now repeat split.
Qed.

Lemma outputArtifact_inv workflow md a cached artifact n art :
  outputArtifact workflow md a cached artifact = Ok (n, art) →
  ∃ ts key, tasks (pipelineSpec (spec workflow)) = Some ts
            ∧ oa_key artifact = Some key
            ∧ n = oa_name artifact
            ∧ s3_key art
              = Js.replace key "$PIPELINERUN"
                  (pipelineRunIDFor (md_name md) ts (Js.split "/" key !! 2%nat)
                     cached).
Proof.
  unfold outputArtifact.
  destruct (oa_key artifact) as [key|]; simpl; [|discriminate].
  destruct (tasks (pipelineSpec (spec workflow))) as [ts|]; simpl;
    [|discriminate].
  intros [= <- <-]. exists ts, key. now repeat split.
Qed.

End ArtifactFacts.

(** ** The properties on the example documents *)
Section Examples.

Let run := @createRuntimeGraph kfpNodePhase.

(** The end-to-end scenario: two nodes, the edge from [A] to [B], and the
    parameter of [B] recorded with the result of [A]. *)
Example resultPassing_graph :
  match run resultPassing with
  | Ok (graph, workflow') =>
      fst <$> g_nodes graph = ["pod-a"; "pod-b"]
      ∧ g_edges graph = [ {| parent := Some "pod-a"; child := Some "pod-b" |} ]
      ∧ (st ← status workflow';
         rec ← snd <$> records_of (taskRuns st) !! 1%nat;
         s ← rr_status rec;
         ts ← taskSpec s;
         sts_params ts)
        = Some [ {| nv_name := "x"; nv_value := Some "42" |} ]
  | Throw _ => False
  end.
Proof. vm_compute. repeat split. Qed.

(** After a failed parent the guarded task is still drawn, with the
    edge of its when-guard and without the edges of its parameter and of
    its [runAfter] entry. *)
Example failedParent_graph :
  match run failedParent with
  | Ok (graph, _) =>
      (λ n, (fst n, nl_status (snd n))) <$> g_nodes graph
      = [ ("pod-a", "Failed"); ("B", "ConditionCheckFailed") ]
      ∧ g_edges graph = [ {| parent := Some "pod-a"; child := Some "B" |} ]
  | Throw _ => False
  end.
Proof. vm_compute. repeat split. Qed.

(** The parent end of the edge into [B] is undefined, while the custom
    task is drawn under its name. *)
Example customParent_graph :
  match run customParent with
  | Ok (graph, _) =>
      fst <$> g_nodes graph = ["any"; "pod-b"]
      ∧ g_edges graph = [ {| parent := None; child := Some "pod-b" |} ]
  | Throw _ => False
  end.
Proof. vm_compute. repeat split. Qed.

(** The names that the scan of an any-sequencer's arguments looks up. *)
Example anyTaskParents_args :
  anyTaskParents
    [ "--namespace"; "kubeflow"; "--taskList"; "flip-a,flip-b";
      "-c"; "results_flip-c_output == 'heads'" ] false false
  = [ "flip-a"; "flip-b"; "flip-c" ].
Proof. reflexivity. Qed.

Example cachedRun_artifacts :
  match @getNodeInputOutputArtifacts kfpNodePhase standardPrototypes cachedRun (Some "pod-b")
          (Some "run-1") with
  | Ok (inputs, outputs) =>
      (λ x, (fst x, s3_key (snd x))) <$> inputs
      = [ ("A-out", "artifacts/run-1/A/out.tgz") ]
      ∧ (λ x, (fst x, s3_key (snd x))) <$> outputs
        = [ ("B-model", "artifacts/run-1/B/model.tgz") ]
  | Throw _ => False
  end.
Proof. vm_compute. repeat split. Qed.

Example cachedRun_artifacts_without_cache :
  match @getNodeInputOutputArtifacts kfpNodePhase standardPrototypes cachedRun (Some "pod-b")
          None with
  | Ok (inputs, outputs) =>
      (λ x, (fst x, s3_key (snd x))) <$> inputs
      = [ ("A-out", "artifacts/run-2/A/out.tgz") ]
      ∧ (λ x, (fst x, s3_key (snd x))) <$> outputs
        = [ ("B-model", "artifacts/run-2/B/model.tgz") ]
  | Throw _ => False
  end.
Proof. vm_compute. repeat split. Qed.

End Examples.

Lemma createRuntimeGraph_order_independent_witness :
  default [] (tasks (pipelineSpec (spec resultPassing)))
    ≡ₚ [ consumerTask; producerTask ]
  ∧ default [] (finally (pipelineSpec (spec resultPassing))) ≡ₚ []
  ∧ same_outcome
      (@createRuntimeGraph kfpNodePhase resultPassing)
      (@createRuntimeGraph kfpNodePhase
         (with_tasks resultPassing [ consumerTask; producerTask ] [])).
Proof.
  assert (H1 : default [] (tasks (pipelineSpec (spec resultPassing)))
               ≡ₚ [ consumerTask; producerTask ]) by apply perm_swap.
  assert (H2 : default [] (finally (pipelineSpec (spec resultPassing))) ≡ₚ [])
    by reflexivity.
  split; [exact H1 | split; [exact H2|]].
  exact (proj1 (@createRuntimeGraph_order_independent kfpNodePhase
                  resultPassing [ consumerTask; producerTask ] [] H1 H2)).
Defined.

(** * Further properties of the parser *)

(** ** The status index *)
Section IndexFacts.

Context {NodePhase : NodePhaseEnum}.

Lemma lastFiled_Some n l j :
  lastFiled n l = Some j ↔
  (∃ k rec, l !! j = Some (k, rec) ∧ filed_under n rec = true)
  ∧ (∀ j' k rec, (j < j')%nat → l !! j' = Some (k, rec) →
                 filed_under n rec = false).
Proof.
  revert j; induction l as [|[k rec] l IH]; intros j; simpl.
  - split; [discriminate|]. intros [(k & rec & H & _) _]. discriminate.
  - destruct (lastFiled n l) as [j0|] eqn:E.
    + split.
      * intros [= <-]. destruct (proj1 (IH j0) eq_refl) as [Hq Hl].
        split; [exact Hq|]. intros [|j'] k' rec' Hlt; [lia|].
        simpl. apply Hl. lia.
      * intros [(k' & rec' & Hj & Hq) Hl]. destruct j as [|j].
        -- destruct (proj1 (IH j0) eq_refl) as [(k0 & rec0 & H0 & Hq0) _].
           rewrite (Hl (S j0) k0 rec0) in Hq0; [discriminate | lia | exact H0].
        -- assert (Hj0 : Some j0 = Some j); [|now injection Hj0 as ->].
           apply IH. split; [now exists k', rec'|].
           intros j' k0 rec0 Hlt. apply (Hl (S j')). lia.
    + assert (Hnone : ∀ j' k' rec', l !! j' = Some (k', rec') →
                        filed_under n rec' = false).
      { intros j' k' rec' Hj'. destruct (filed_under n rec') eqn:Hq;
          [|reflexivity].
        assert (Hex : ∃ j, lastFiled n l = Some j); [|destruct Hex; congruence].
        clear IH E. revert j' Hj'.
        induction l as [|[k1 r1] l IHl]; intros j' Hj'; [discriminate|].
        simpl. destruct (lastFiled n l) as [j1|] eqn:E1; [eauto|].
        destruct j' as [|j']; simpl in Hj'.
        - injection Hj' as <- <-. rewrite Hq. eauto.
        - destruct (IHl j' Hj') as [? ?]. discriminate. }
      destruct (filed_under n rec) eqn:Hq.
      * split.
        -- intros [= <-]. split; [now exists k, rec|].
           intros [|j'] k' rec' Hlt; [lia|]. simpl. apply Hnone.
        -- intros [(k' & rec' & Hj & Hq') _]. destruct j as [|j];
             [reflexivity|]. simpl in Hj.
           rewrite (Hnone j k' rec' Hj) in Hq'. discriminate.
      * split; [discriminate|].
        intros [(k' & rec' & Hj & Hq') _]. destruct j as [|j]; simpl in Hj.
        -- injection Hj as <- <-. congruence.
        -- rewrite (Hnone j k' rec' Hj) in Hq'. discriminate.
Qed.

Lemma lastFiled_None n l :
  lastFiled n l = None ↔
  ∀ j k rec, l !! j = Some (k, rec) → filed_under n rec = false.
Proof.
  split.
  - intros E j k rec Hj. destruct (filed_under n rec) eqn:Hq; [|reflexivity].
    exfalso. revert j Hj E.
    induction l as [|[k1 r1] l IHl]; intros j Hj; [discriminate|].
    simpl. destruct (lastFiled n l) as [j1|] eqn:E1; [discriminate|].
    destruct j as [|j]; simpl in Hj.
    + injection Hj as <- <-. rewrite Hq. discriminate.
    + intros _. now apply (IHl j).
  - intros H. destruct (lastFiled n l) as [j|] eqn:E; [|reflexivity].
    apply lastFiled_Some in E as [(k & rec & Hj & Hq) _].
    rewrite (H j k rec Hj) in Hq. discriminate.
Qed.

Lemma indexRuns_lookup mk l :
  ∀ i sm n,
    indexRuns mk i l sm !! n
    = match lastFiled n l with
      | Some j => Some (mk (i + j)%nat)
      | None => sm !! n
      end.
Proof.
  induction l as [|[k rec] l IH]; intros i sm n; simpl; [reflexivity|].
  rewrite IH. destruct (lastFiled n l) as [j|].
  - do 2 f_equal. lia.
  - unfold filed_under. destruct (Js.has (rr_status rec)); simpl;
      [|reflexivity].
    destruct (String.eqb (pipelineTaskName rec) n) eqn:E.
    + apply String.eqb_eq in E as ->. rewrite lookup_insert_eq.
      do 2 f_equal. lia.
    + apply String.eqb_neq in E. now rewrite lookup_insert_ne.
Qed.

Lemma buildStatusMap_lookup (st : Status) (n : string) :
  buildStatusMap st !! n
  = match lastFiled n (records_of (runs st)) with
    | Some j => Some (CustomRunRef j)
    | None =>
        match lastFiled n (records_of (taskRuns st)) with
        | Some j => Some (TaskRunRef j)
        | None => None
        end
    end.
Proof.
  unfold buildStatusMap. rewrite !indexRuns_lookup.
  destruct (lastFiled n (records_of (runs st))); [reflexivity|].
  destruct (lastFiled n (records_of (taskRuns st))); [reflexivity|].
  apply lookup_empty.
Qed.

(** X2. The index holds, under a task name, the last custom run record
    that has a status and that name; when there is none, the last task
    run record that has; and nothing when there is none either. *)
Theorem buildStatusMap_last_write_wins (st : Status) (n : string) :
  buildStatusMap st !! n
  = match lastFiled n (records_of (runs st)) with
    | Some j => Some (CustomRunRef j)
    | None =>
        match lastFiled n (records_of (taskRuns st)) with
        | Some j => Some (TaskRunRef j)
        | None => None
        end
    end
  ∧ (∀ l j, lastFiled n l = Some j ↔
       (∃ k rec, l !! j = Some (k, rec) ∧ filed_under n rec = true)
       ∧ (∀ j' k rec, (j < j')%nat → l !! j' = Some (k, rec) →
                      filed_under n rec = false))
  ∧ (∀ l, lastFiled n l = None ↔
       ∀ j k rec, l !! j = Some (k, rec) → filed_under n rec = false).
Proof.
  split; [apply buildStatusMap_lookup|].
  split; [apply lastFiled_Some | apply lastFiled_None].
Qed.

Lemma stamped_lookup l j k rec :
  l !! j = Some (k, rec) →
  stampRunIds l !! j
  = Some (k, {| pipelineTaskName := pipelineTaskName rec;
                rr_status := rr_status rec; taskRunId := Some k |}).
Proof. intros H. unfold stampRunIds. now rewrite list_lookup_fmap, H. Qed.

Lemma filed_under_inv n rec :
  filed_under n rec = true →
  pipelineTaskName rec = n ∧ ∃ s, rr_status rec = Some s.
Proof.
  unfold filed_under. intros H. apply andb_prop in H as [H1 H2].
  apply String.eqb_eq in H2. split; [exact H2|].
  destruct (rr_status rec) as [s|]; [eauto | discriminate].
Qed.

(** Every reference of the index names a record of the document, and
    that record has a status and the task name it is filed under. *)
Lemma buildStatusMap_deref st n ref :
  buildStatusMap st !! n = Some ref →
  ∃ k rec s,
    deref (stamped st) ref = Some rec
    ∧ pipelineTaskName rec = n ∧ rr_status rec = Some s
    ∧ taskRunId rec = Some k.
Proof.
  rewrite (buildStatusMap_lookup st n).
  destruct (lastFiled n (records_of (runs st))) as [j|] eqn:E1.
  - intros [= <-]. apply lastFiled_Some in E1 as [(k & rec & Hj & Hq) _].
    destruct (filed_under_inv n rec Hq) as [Hn [s Hs]].
    exists k, {| pipelineTaskName := pipelineTaskName rec;
                 rr_status := rr_status rec; taskRunId := Some k |}, s.
    split; [|now repeat split]. unfold deref, stamped. simpl.
    destruct (runs st) as [l|]; simpl in *; [|discriminate].
    now rewrite (stamped_lookup l j k rec Hj).
  - destruct (lastFiled n (records_of (taskRuns st))) as [j|] eqn:E2;
      [|discriminate].
    intros [= <-]. apply lastFiled_Some in E2 as [(k & rec & Hj & Hq) _].
    destruct (filed_under_inv n rec Hq) as [Hn [s Hs]].
    exists k, {| pipelineTaskName := pipelineTaskName rec;
                 rr_status := rr_status rec; taskRunId := Some k |}, s.
    split; [|now repeat split]. unfold deref, stamped. simpl.
    destruct (taskRuns st) as [l|]; simpl in *; [|discriminate].
    now rewrite (stamped_lookup l j k rec Hj).
Qed.

(** X1. Whatever state of the document the builder reads the index in,
    a record found under a task name has a status and that task name, so
    neither the identity of a task nor the parent end of a when-guard edge
    is ever computed through an undefined status. *)
Theorem index_records_have_status (st st' : Status) (n : string) :
  same_reads st' (stamped st) →
  (∀ rec, statusMap_get (buildStatusMap st) st' (Some n) = Some rec →
          pipelineTaskName rec = n ∧ ∃ s, rr_status rec = Some s)
  ∧ (is_Some (buildStatusMap st !! n)
     ↔ is_Some (statusMap_get (buildStatusMap st) st' (Some n)))
  ∧ (∃ taskId, taskIdOf (buildStatusMap st) st' n = Ok taskId)
  ∧ (∀ rec, statusMap_get (buildStatusMap st) st' (Some n) = Some rec →
            ∃ parentId, podOrTaskName rec = Ok parentId).
Proof.
  intros Hs.
  assert (Hget : ∀ rec,
            statusMap_get (buildStatusMap st) st' (Some n) = Some rec →
            pipelineTaskName rec = n ∧ ∃ s, rr_status rec = Some s).
  { intros rec Hg.
    pose proof (statusMap_get_same (buildStatusMap st) st' (stamped st)
                  (Some n) Hs) as He.
    rewrite Hg in He. unfold statusMap_get, statusMap_ref in He, Hg.
    simpl in He, Hg.
    destruct (buildStatusMap st !! n) as [ref|] eqn:Er; [|discriminate].
    destruct (buildStatusMap_deref st n ref Er)
      as (k & rec0 & s0 & Hd & Hn & Hs0 & _).
    simpl in He. rewrite Hd in He. simpl in He. injection He as He1 He2.
    split; [congruence|]. rewrite Hs0 in He2.
    destruct (rr_status rec) as [s|]; [eauto | discriminate]. }
  split; [exact Hget|]. split; [|split].
  - unfold statusMap_get, statusMap_ref. simpl.
    destruct (buildStatusMap st !! n) as [ref|] eqn:Er; simpl.
    + split; [intros _ | eauto].
      destruct (buildStatusMap_deref st n ref Er) as (k & rec0 & s0 & Hd & _).
      pose proof (f_equal (λ d, deref d ref) Hs) as He. simpl in He.
      rewrite !deref_erase, Hd in He.
      destruct (deref st' ref); [eauto | discriminate].
    + split; intros [x Hx]; discriminate.
  - unfold taskIdOf.
    destruct (statusMap_get (buildStatusMap st) st' (Some n)) as [rec|] eqn:Hg;
      [|eauto].
    destruct (Hget rec eq_refl) as [_ [s ->]]. simpl. eauto.
  - intros rec Hg. destruct (Hget rec Hg) as [_ [s Hst]].
    unfold podOrTaskName. rewrite Hst. simpl. eauto.
Qed.

End IndexFacts.

(** ** What the builder writes *)

(** Every write of the builder after the index is built goes through the
    write-back of [checkParams]: a relation between states of the document
    that the write-back respects holds between the document the loop
    starts with and the one it ends with. *)
Section Writes.

Context {NodePhase : NodePhaseEnum}.

Variable R : Status → Status → Prop.
Hypothesis R_refl : ∀ st, R st st.
Hypothesis R_trans : ∀ st1 st2 st3, R st1 st2 → R st2 st3 → R st1 st3.
Hypothesis R_writeBack :
  ∀ sm component p v st st1,
    writeBack sm component p v st = Ok st1 → R st st1.

Lemma checkParam_writes sm pps component edgeChild p st es st1 :
  checkParam sm pps component edgeChild p st = Ok (es, st1) → R st st1.
Proof.
  unfold checkParam.
  destruct (nv_value p) as [v|]; simpl; [|discriminate].
  destruct (decodeParam v) as [sp|]; simpl; [|discriminate].
  destruct (resolveParam _ _ _ _ _ _) as [[es' v']|]; simpl; [|discriminate].
  destruct (writeBack _ _ _ _ _) as [s|] eqn:Hw; simpl; [|discriminate].
  intros [= <- <-]. exact (R_writeBack _ _ _ _ _ _ Hw).
Qed.

Lemma checkParamsLoop_writes sm pps component edgeChild ps :
  ∀ st es st1,
    checkParamsLoop sm pps component edgeChild ps st = Ok (es, st1) →
    R st st1.
Proof.
  induction ps as [|p rest IH]; intros st es st1; simpl.
  - intros [= <- <-]. apply R_refl.
  - destruct (checkParam _ _ _ _ _ _) as [[e1 s1]|] eqn:E1; simpl;
      [|discriminate].
    destruct (checkParamsLoop _ _ _ _ _ s1) as [[e2 s2]|] eqn:E2; simpl;
      [|discriminate].
    intros [= <- <-].
    eapply R_trans; [eapply checkParam_writes, E1 | eapply IH, E2].
Qed.

Lemma checkParams_writes sm pps component ownerTask st es st1 :
  checkParams sm pps component ownerTask st = Ok (es, st1) → R st st1.
Proof.
  unfold checkParams.
  destruct (if negb (String.eqb ownerTask "") then _ else _) as [cid|];
    simpl; [|discriminate].
  apply checkParamsLoop_writes.
Qed.

Lemma conditionsEdges_writes sm pps taskId conds :
  ∀ st es st1,
    conditionsEdges sm pps taskId conds st = Ok (es, st1) → R st st1.
Proof.
  induction conds as [|c rest IH]; intros st es st1; simpl.
  - intros [= <- <-]. apply R_refl.
  - destruct (checkParams _ _ _ _ _) as [[e1 s1]|] eqn:E1; simpl;
      [|discriminate].
    destruct (conditionsEdges _ _ _ _ s1) as [[e2 s2]|] eqn:E2; simpl;
      [|discriminate].
    intros [= <- <-].
    eapply R_trans; [eapply checkParams_writes, E1 | eapply IH, E2].
Qed.

Lemma taskOutput_writes ctx t st o st1 :
  taskOutput ctx t st = Ok (o, st1) → R st st1.
Proof.
  unfold taskOutput.
  destruct (taskIdOf _ _ _) as [tid|]; simpl; [|discriminate].
  destruct (checkParams _ _ _ _ _) as [[e1 s1]|] eqn:E1; simpl;
    [|discriminate].
  destruct (conditionsEdges _ _ _ _ _) as [[e2 s2]|] eqn:E2; simpl;
    [|discriminate].
  destruct (drawTask _ _ _ _ _ _) as [o'|]; simpl; [|discriminate].
  intros [= <- <-].
  eapply R_trans; [eapply checkParams_writes, E1|].
  eapply conditionsEdges_writes, E2.
Qed.

Lemma addTasks_writes ctx ts :
  ∀ graph st graph' st',
    addTasks ctx ts graph st = Ok (graph', st') → R st st'.
Proof.
  induction ts as [|t rest IH]; intros graph st graph' st'; simpl.
  - intros [= <- <-]. apply R_refl.
  - destruct (materialized ctx st t); [|apply IH].
    destruct (taskOutput ctx t st) as [[o s1]|] eqn:E; simpl; [|discriminate].
    intros H. eapply R_trans; [eapply taskOutput_writes, E | eapply IH, H].
Qed.

Lemma createRuntimeGraph_writes workflow graph workflow' :
  createRuntimeGraph workflow = Ok (graph, workflow') →
  if noStatusYet workflow then workflow' = workflow
  else ∃ st st', status workflow = Some st
                 ∧ workflow' = with_status workflow st'
                 ∧ R (stamped st) st'.
Proof.
  unfold createRuntimeGraph. destruct (noStatusYet workflow).
  - now intros [= <- <-].
  - destruct (status workflow) as [st|]; simpl; [|discriminate].
    destruct (conditionTasksOf _ _ _) as [cts|]; simpl; [|discriminate].
    destruct (addTasks _ _ _ _) as [[g st']|] eqn:E; simpl; [|discriminate].
    intros [= <- <-]. exists st, st'. split; [reflexivity|].
    split; [reflexivity|]. eapply addTasks_writes, E.
Qed.

End Writes.

Section WrittenDocument.

Context {NodePhase : NodePhaseEnum}.

Lemma forgetValuesOf_alter (l : list (string * RunRecord)) (i : nat)
    (rec' : RunRecord) :
  (∀ kv, l !! i = Some kv → forgetValues rec' = forgetValues (snd kv)) →
  forgetValuesOf (alter (λ kv, (fst kv, rec')) i l) = forgetValuesOf l.
Proof.
  revert i; induction l as [|[k v] l IH]; intros i H; [reflexivity|].
  destruct i as [|i]; simpl.
  - unfold forgetValuesOf; simpl. f_equal. f_equal. exact (H (k, v) eq_refl).
  - unfold forgetValuesOf in *; simpl. f_equal. apply IH. exact H.
Qed.

Lemma store_values_only (st : Status) (ref : RunRef) (rec rec' : RunRecord) :
  deref st ref = Some rec → forgetValues rec' = forgetValues rec →
  forgetValuesDoc (store st ref rec') = forgetValuesDoc st.
Proof.
  intros Hd He. destruct ref as [i|i]; unfold store, forgetValuesDoc;
    simpl in *; f_equal.
  - destruct (taskRuns st) as [l|]; simpl in *; [|reflexivity].
    f_equal. apply forgetValuesOf_alter. intros kv Hkv.
    rewrite Hkv in Hd. simpl in Hd. congruence.
  - destruct (runs st) as [l|]; simpl in *; [|reflexivity].
    f_equal. apply forgetValuesOf_alter. intros kv Hkv.
    rewrite Hkv in Hd. simpl in Hd. congruence.
Qed.

Lemma writeBack_values_only sm component p v st st1 :
  writeBack sm component p v st = Ok st1 → values_only st st1.
Proof.
  unfold writeBack, values_only.
  destruct (statusMap_ref sm (c_name component)) as [ref|]; [|congruence].
  destruct (deref st ref) as [rec|] eqn:Hd; [|congruence].
  destruct (rr_status rec) as [s|] eqn:Hs; simpl; [|discriminate].
  destruct (taskSpec s) as [ts|] eqn:Hts; [|congruence].
  destruct (sts_params ts) as [ps|] eqn:Hps; simpl; [|discriminate].
  intros [= <-]. symmetry. apply (store_values_only st ref rec); [exact Hd|].
  destruct rec as [n o id], s as [pod cs rs o' t1 t2], ts as [o''].
  simpl in *. subst. unfold forgetValues, eraseStatus, eraseTaskSpec; simpl.
  do 6 f_equal. rewrite <- list_fmap_compose. apply list_fmap_ext.
  intros i x _. simpl. now destruct (String.eqb (nv_name x) (nv_name p)).
Qed.

Lemma forgetValuesOf_lookup l l' i k' rec' :
  forgetValuesOf l = forgetValuesOf l' → l' !! i = Some (k', rec') →
  ∃ rec, l !! i = Some (k', rec) ∧ forgetValues rec = forgetValues rec'.
Proof.
  intros He Hi. pose proof (f_equal (λ x, x !! i) He) as H. simpl in H.
  unfold forgetValuesOf in H. rewrite !list_lookup_fmap, Hi in H.
  destruct (l !! i) as [[k rec]|]; simpl in H; [|discriminate].
  injection H as Hk H1 H2 H3. subst k. exists rec. split; [reflexivity|].
  unfold forgetValues. congruence.
Qed.

(** The records of a collection after the writes, position by position:
    the key, the task name and the status without the values of its
    recorded parameters are those of the record before, and [taskRunId] is
    the key. *)
Lemma values_only_lookup (o o' : option (list (string * RunRecord)))
    (i : nat) (k : string) :
  forgetValuesOf <$> (stampRunIds <$> o) = forgetValuesOf <$> o' →
  (∀ rec', records_of o' !! i = Some (k, rec') →
     ∃ rec, records_of o !! i = Some (k, rec)
            ∧ taskRunId rec' = Some k
            ∧ pipelineTaskName rec' = pipelineTaskName rec
            ∧ eraseStatus <$> rr_status rec' = eraseStatus <$> rr_status rec)
  ∧ (∀ rec, records_of o !! i = Some (k, rec) →
       ∃ rec', records_of o' !! i = Some (k, rec')
               ∧ taskRunId rec' = Some k
               ∧ pipelineTaskName rec' = pipelineTaskName rec
               ∧ eraseStatus <$> rr_status rec'
                 = eraseStatus <$> rr_status rec).
Proof.
  intros He. split.
  - intros rec' Hi.
    destruct o' as [l'|]; simpl in Hi; [|discriminate].
    destruct o as [l|]; simpl in He; [|discriminate].
    injection He as He.
    destruct (forgetValuesOf_lookup _ _ i k rec' He Hi) as (r & Hr' & Hf).
    unfold stampRunIds in Hr'. rewrite list_lookup_fmap in Hr'.
    destruct (l !! i) as [[k0 rec]|] eqn:Hl; simpl in Hr'; [|discriminate].
    injection Hr' as -> <-. exists rec. simpl.
    unfold forgetValues in Hf. simpl in Hf. injection Hf as H1 H2 H3.
    now repeat split.
  - intros rec Hi.
    destruct o as [l|]; simpl in Hi; [|discriminate].
    destruct o' as [l'|]; simpl in He; [|discriminate].
    injection He as He.
    assert (Hs : stampRunIds l !! i
                 = Some (k, {| pipelineTaskName := pipelineTaskName rec;
                               rr_status := rr_status rec;
                               taskRunId := Some k |})).
    { unfold stampRunIds. now rewrite list_lookup_fmap, Hi. }
    destruct (forgetValuesOf_lookup _ _ i k _ (eq_sym He) Hs)
      as (rec' & Hr' & Hf).
    exists rec'. simpl. split; [exact Hr'|].
    unfold forgetValues in Hf. simpl in Hf. injection Hf as H1 H2 H3.
    now repeat split.
Qed.

Lemma written_document workflow st graph workflow' :
  status workflow = Some st → noStatusYet workflow = false →
  createRuntimeGraph workflow = Ok (graph, workflow') →
  ∃ st', workflow' = with_status workflow st'
         ∧ values_only (stamped st) st'
         ∧ forgetValuesOf <$> (stampRunIds <$> taskRuns st)
           = forgetValuesOf <$> taskRuns st'
         ∧ forgetValuesOf <$> (stampRunIds <$> runs st)
           = forgetValuesOf <$> runs st'
         ∧ skippedTasks st' = skippedTasks st.
Proof.
  intros Hst Hpast Hrun.
  pose proof (createRuntimeGraph_writes values_only
                (λ st, eq_refl)
                (λ st1 st2 st3 H1 H2, eq_trans H1 H2)
                writeBack_values_only workflow graph workflow' Hrun) as H.
  rewrite Hpast in H. destruct H as (st0 & st' & Hst0 & -> & HR).
  rewrite Hst in Hst0. injection Hst0 as <-.
  exists st'. split; [reflexivity|]. split; [exact HR|].
  unfold values_only, forgetValuesDoc, stamped in HR. simpl in HR.
  injection HR as Ht Hr Hsk _. now repeat split.
Qed.

(** X3. A call that returns leaves the metadata and the specification of
    its argument alone. Of the status it changes at most two things: each
    record carries its own key as [taskRunId], and the parameters recorded
    on a run may have new values. Keys, order, task names, pod names,
    conditions, results, times and the names of recorded parameters are
    those of the argument, in each of the two collections. *)
Theorem createRuntimeGraph_writes_values_only (workflow : Workflow)
    (graph : Graph) (workflow' : Workflow) :
  createRuntimeGraph workflow = Ok (graph, workflow') →
  metadata workflow' = metadata workflow
  ∧ spec workflow' = spec workflow
  ∧ (noStatusYet workflow = true → workflow' = workflow)
  ∧ (noStatusYet workflow = false →
     ∃ st st',
       status workflow = Some st ∧ status workflow' = Some st'
       ∧ values_only (stamped st) st'
       ∧ skippedTasks st' = skippedTasks st
       ∧ Js.has (taskRuns st') = Js.has (taskRuns st)
       ∧ Js.has (runs st') = Js.has (runs st)
       ∧ ∀ collection, collection = taskRuns ∨ collection = runs →
         ∀ i k rec',
           records_of (collection st') !! i = Some (k, rec') →
           ∃ rec,
             records_of (collection st) !! i = Some (k, rec)
             ∧ taskRunId rec' = Some k
             ∧ pipelineTaskName rec' = pipelineTaskName rec
             ∧ eraseStatus <$> rr_status rec' = eraseStatus <$> rr_status rec).
Proof.
  intros Hrun.
  destruct (noStatusYet workflow) eqn:Hpast.
  - unfold createRuntimeGraph in Hrun. rewrite Hpast in Hrun.
    injection Hrun as _ <-. split; [reflexivity|]. split; [reflexivity|].
    split; [reflexivity | discriminate].
  - destruct (status workflow) as [st|] eqn:Hst.
    2:{ unfold createRuntimeGraph in Hrun. rewrite Hpast, Hst in Hrun.
        discriminate. }
    destruct (written_document workflow st graph workflow' Hst Hpast Hrun)
      as (st' & -> & HR & Ht & Hr & Hsk).
    split; [reflexivity|]. split; [reflexivity|]. split; [discriminate|].
    intros _. exists st, st'. split; [reflexivity|]. split; [reflexivity|].
    split; [exact HR|]. split; [exact Hsk|].
    split; [destruct (taskRuns st), (taskRuns st'); simpl in *;
            congruence|].
    split; [destruct (runs st), (runs st'); simpl in *; congruence|].
    intros collection [->| ->] i k rec' Hi.
    + exact (proj1 (values_only_lookup _ _ i k Ht) rec' Hi).
    + exact (proj1 (values_only_lookup _ _ i k Hr) rec' Hi).
Qed.

End WrittenDocument.

(** ** The nodes of the graph *)
Section DrawnNodes.

Context {NodePhase : NodePhaseEnum}.

Lemma guardedByIndexedTask_inv sm st whens :
  guardedByIndexedTask sm st whens = Ok true →
  ∃ p rec, when_refers (Some whens) p
           ∧ statusMap_get sm st (Some p) = Some rec.
Proof.
  induction whens as [|w rest IH]; simpl; [discriminate|].
  unfold whenParent at 1.
  destruct (decodeParam (when_input w)) as [prm|] eqn:Ed; simpl;
    [|discriminate].
  assert (Hrest : guardedByIndexedTask sm st rest = Ok true →
                  ∃ p rec, when_refers (Some (w :: rest)) p
                           ∧ statusMap_get sm st (Some p) = Some rec).
  { intros H. destruct (IH H) as (p & rec & (c & ref & Hc & Hr) & Hg).
    exists p, rec. split; [|exact Hg]. exists c, ref.
    split; [now apply list_elem_of_further | exact Hr]. }
  destruct (Js.truthy (task prm)) eqn:Et; [|exact Hrest].
  destruct (statusMap_get sm st (task prm)) as [rec|] eqn:Eg; simpl;
    [|exact Hrest].
  intros _. destruct (truthy_inv _ Et) as (p & Hp & Hne).
  exists p, rec. rewrite Hp in Eg. split; [|exact Eg].
  exists w, prm. split; [apply list_elem_of_here|]. now repeat split.
Qed.

Lemma when_refers_default whens p :
  when_refers (Some (default [] whens)) p ↔ when_refers whens p.
Proof. now destruct whens. Qed.

Lemma isConditionTask_iff sm st t :
  isConditionTask sm st t = true
  ↔ statusMap_get sm st (Some (t_name t)) = None ∧ guarded_by_indexed sm st t.
Proof.
  unfold isConditionTask, guarded_by_indexed. split.
  - intros H. apply andb_prop in H as [H1 H2].
    destruct (statusMap_get sm st (Some (t_name t))); [discriminate|].
    split; [reflexivity|].
    destruct (guardedByIndexedTask sm st (default [] (t_when t)))
      as [b|] eqn:Eg; [|discriminate]. subst b.
    destruct (guardedByIndexedTask_inv _ _ _ Eg) as (p & rec & Hw & Hg).
    exists p. split; [now apply when_refers_default | now rewrite Hg].
  - intros [H1 (p & Hw & [rec Hg])]. rewrite H1. simpl.
    now rewrite (guardedByIndexedTask_true sm st _ p rec
                   (proj2 (when_refers_default _ _) Hw) Hg).
Qed.

Lemma has_is_Some {A : Type} (o : option A) : Js.has o = true ↔ is_Some o.
Proof.
  destruct o; simpl; split; eauto; try discriminate.
  intros [x Hx]. discriminate.
Qed.

(** The condition tasks are the names of the tasks that are not in the
    index and are guarded by one that is. *)
Lemma conditionTasks_spec workflow st n :
  n ∈ t_name <$> List.filter
        (isConditionTask (buildStatusMap st) (stamped st)) (allTasks workflow)
  ↔ statusMap_get (buildStatusMap st) (stamped st) (Some n) = None
    ∧ ∃ t2, t2 ∈ allTasks workflow ∧ t_name t2 = n
            ∧ guarded_by_indexed (buildStatusMap st) (stamped st) t2.
Proof.
  rewrite list_elem_of_fmap. split.
  - intros (t2 & -> & Hin). apply elem_of_filter_bool in Hin as [Hin Hc].
    apply isConditionTask_iff in Hc as [Hn Hg]. split; [exact Hn|].
    now exists t2.
  - intros [Hn (t2 & Hin & <- & Hg)]. exists t2. split; [reflexivity|].
    apply elem_of_filter_bool. split; [exact Hin|].
    now apply isConditionTask_iff.
Qed.

Lemma materialized_drawn workflow st t :
  materialized
    (contextOf workflow st
       (t_name <$> List.filter
          (isConditionTask (buildStatusMap st) (stamped st))
          (allTasks workflow)))
    (stamped st) t = true
  ↔ drawn workflow st t.
Proof.
  unfold materialized, drawn. cbn [statusMap conditionTasks contextOf].
  rewrite orb_true_iff, has_is_Some, bool_decide_eq_true, conditionTasks_spec.
  split.
  - intros [H|[_ H]]; [now left | now right].
  - intros [H|H]; [now left|].
    destruct (statusMap_get (buildStatusMap st) (stamped st)
                (Some (t_name t))) as [rec|] eqn:E.
    + left. eauto.
    + right. now split.
Qed.

Lemma setLabel_elem (id : string) (l : NodeLabel)
    (nodes : list (string * NodeLabel)) (x : string * NodeLabel) :
  x ∈ setLabel id l nodes → x = (id, l) ∨ x ∈ nodes.
Proof.
  induction nodes as [|[id' l'] rest IH]; simpl.
  - intros H. apply list_elem_of_singleton in H. now left.
  - destruct (String.eqb id' id).
    + intros H. apply elem_of_cons in H as [H|H]; [now left|].
      right. now apply list_elem_of_further.
    + intros H. apply elem_of_cons in H as [H|H].
      * right. subst. apply list_elem_of_here.
      * destruct (IH H) as [?|?]; [now left|].
        right. now apply list_elem_of_further.
Qed.

Lemma commits_nodes (outs : list TaskOutput) :
  ∀ (g : Graph) (x : string * NodeLabel),
    x ∈ g_nodes (foldl commit g outs) →
    x ∈ g_nodes g ∨ ∃ o, o ∈ outs ∧ out_node o = x.
Proof.
  induction outs as [|o outs IH]; intros g x; simpl; [now left|].
  intros H. destruct (IH _ _ H) as [Hg|(o' & Ho' & Hx)].
  - unfold commit, setNode in Hg. simpl in Hg.
    rewrite !setEdges_nodes in Hg.
    apply setLabel_elem in Hg as [Hg|Hg]; [|now left].
    right. exists o. split; [apply list_elem_of_here|].
    subst x. now destruct (out_node o).
  - right. exists o'. split; [now apply list_elem_of_further | exact Hx].
Qed.

Lemma drawTask_label ctx t taskId e1 e2 st o :
  drawTask ctx t taskId e1 e2 st = Ok o →
  nl_exitHandler (snd (out_node o)) = bool_decide (t_name t ∈ exitHandlers ctx)
  ∧ (if bool_decide (t_name t ∈ conditionTasks ctx)
     then nl_status (snd (out_node o))
          = (if bool_decide (t_name t ∈ skipped ctx)
             then CONDITIONCHECKFAILED else PENDING)
     else getStatus (statusMap_get (statusMap ctx) st (Some (t_name t)))
          = Ok (nl_status (snd (out_node o))))
  ∧ match statusMap_get (statusMap ctx) st (Some (t_name t)) with
    | Some rec =>
        ∃ s, rr_status rec = Some s
             ∧ nl_startTime (snd (out_node o)) = startTime s
             ∧ nl_completionTime (snd (out_node o)) = completionTime s
    | None =>
        nl_startTime (snd (out_node o)) = Some ""
        ∧ nl_completionTime (snd (out_node o)) = Some ""
    end.
Proof.
  unfold drawTask.
  destruct (whenEdges _ _ _ _) as [e3|]; simpl; [|discriminate].
  destruct (match anyTaskArgs t with Some _ => _ | None => _ end) as [d|];
    simpl; [|discriminate].
  destruct (runAfterEdges _ _ _ _) as [e4|]; simpl; [|discriminate].
  destruct (if negb _ then _ else _) as [status|] eqn:Es; simpl;
    [|discriminate].
  destruct (statusMap_get (statusMap ctx) st (Some (t_name t)))
    as [rec|] eqn:Eg.
  - destruct (rr_status rec) as [s|] eqn:Er; simpl; [|discriminate].
    intros [= <-]. simpl. split; [reflexivity|]. split.
    + destruct (bool_decide (t_name t ∈ conditionTasks ctx)); simpl in *.
      * destruct (bool_decide (t_name t ∈ skipped ctx)); congruence.
      * exact Es.
    + now exists s.
  - simpl. intros [= <-]. simpl. split; [reflexivity|]. split.
    + destruct (bool_decide (t_name t ∈ conditionTasks ctx)); simpl in *.
      * destruct (bool_decide (t_name t ∈ skipped ctx)); congruence.
      * exact Es.
    + now split.
Qed.

Variables (workflow : Workflow) (st : Status) (graph : Graph)
  (workflow' : Workflow).
Hypothesis Hstatus : status workflow = Some st.
Hypothesis Hpast : noStatusYet workflow = false.
Hypothesis Hrun : createRuntimeGraph workflow = Ok (graph, workflow').

Let sm := buildStatusMap st.
Let st0 := stamped st.
Let cts :=
  t_name <$> List.filter (isConditionTask sm st0) (allTasks workflow).

Lemma run_outputs :
  ∃ outs,
    outputsOf (contextOf workflow st cts) st0 (allTasks workflow) = Ok outs
    ∧ graph = foldl commit emptyGraph outs.
Proof.
  destruct (createRuntimeGraph_inv workflow st graph workflow'
              Hstatus Hpast Hrun) as (cts' & outs & st' & Hc & Ho & Hg & _).
  rewrite conditionTasksOf_filter in Hc. injection Hc as <-.
  now exists outs.
Qed.

(** X5. The label of every node of the graph comes from a task of that
    identity. A task that is in the index shows the reason of the first
    condition of its record, or the pending phase when the record has no
    conditions, and the times of its record. A task that is not in the
    index shows the condition-check-failed phase when the document lists it
    as skipped and the pending phase otherwise, with empty times. *)
Theorem node_labels (id : string) (l : NodeLabel) :
  (id, l) ∈ g_nodes graph →
  ∃ t,
    t ∈ allTasks workflow
    ∧ taskIdOf (buildStatusMap st) (stamped st) (t_name t) = Ok id
    ∧ nl_exitHandler l
      = bool_decide
          (t_name t
           ∈ t_name <$> default [] (finally (pipelineSpec (spec workflow))))
    ∧ match statusMap_get (buildStatusMap st) (stamped st)
              (Some (t_name t)) with
      | Some rec =>
          ∃ s, rr_status rec = Some s
               ∧ match conditions s with
                 | Some (c :: _) => nl_status l = cond_reason c
                 | Some [] => False
                 | None => nl_status l = PENDING
                 end
               ∧ nl_startTime l = startTime s
               ∧ nl_completionTime l = completionTime s
      | None =>
          nl_status l
          = (if bool_decide (t_name t ∈ default [] (skippedTasks st))
             then CONDITIONCHECKFAILED else PENDING)
          ∧ nl_startTime l = Some "" ∧ nl_completionTime l = Some ""
      end.
Proof.
  destruct run_outputs as (outs & Ho & ->).
  intros H. apply commits_nodes in H as [H|(o & Hin & Hx)];
    [now apply elem_of_nil in H|].
  apply (outputsOf_elem _ _ _ _ Ho) in Hin as (t & Ht & Hm & Hout).
  exists t. split; [exact Ht|].
  apply outputOf_inv in Hout
    as (tid & e1 & e2 & s1 & s2 & Htid & _ & _ & _ & Hd).
  pose proof (drawTask_inv _ _ _ _ _ _ _ Hd) as (_ & _ & _ & _ & _ & Hid).
  apply drawTask_label in Hd as (Hex & Hst & Htimes).
  rewrite Hx in Hid, Hex, Hst, Htimes. simpl in Hid, Hex, Hst, Htimes.
  subst tid. split; [exact Htid|]. split; [exact Hex|].
  cbn [statusMap conditionTasks skipped contextOf] in Hst, Htimes.
  fold sm st0 in Hst, Htimes |- *.
  destruct (statusMap_get sm st0 (Some (t_name t))) as [rec|] eqn:Eg.
  - destruct Htimes as (s & Hs & Ht1 & Ht2). exists s.
    split; [exact Hs|]. split; [|now split].
    destruct (bool_decide (t_name t ∈ cts)) eqn:Eb.
    + apply bool_decide_eq_true in Eb.
      apply conditionTasks_spec in Eb as [Hn _].
      fold sm st0 in Hn. congruence.
    + simpl in Hst. rewrite Hs in Hst.
      destruct (conditions s) as [[|c cs]|]; simpl in Hst;
        [discriminate | congruence | congruence].
  - split; [|exact Htimes].
    destruct (bool_decide (t_name t ∈ cts)) eqn:Eb; [exact Hst|].
    apply bool_decide_eq_false in Eb. exfalso.
    apply materialized_drawn in Hm as [[rec Hrec]|(t2 & Hin2 & Hn2 & Hg)].
    + fold sm st0 in Hrec. congruence.
    + apply Eb. apply conditionTasks_spec. split; [exact Eg|]. now exists t2.
Qed.

End DrawnNodes.

(** ** The ends of the edges *)
Section EdgeEnds.

Context {NodePhase : NodePhaseEnum}.

Lemma componentIdOf_taskIdOf sm st n cid tid :
  componentIdOf sm st (Some n) = Ok cid → taskIdOf sm st n = Ok tid →
  cid = Some tid.
Proof.
  unfold componentIdOf, taskIdOf.
  destruct (statusMap_get sm st (Some n)) as [rec|]; [|congruence].
  destruct (rr_status rec) as [s|]; simpl; [|discriminate].
  destruct (podName s) as [p|]; simpl; [|congruence].
  destruct (String.eqb p ""); simpl; congruence.
Qed.

Lemma checkParams_child_task sm pps t st es st1 tid :
  checkParams sm pps (task_component t) "" st = Ok (es, st1) →
  taskIdOf sm st (t_name t) = Ok tid →
  ∀ e, e ∈ es → child e = Some tid.
Proof.
  unfold checkParams. simpl.
  destruct (componentIdOf sm st (Some (t_name t))) as [cid|] eqn:Ec; simpl;
    [|discriminate].
  intros H Htid e He.
  destruct (checkParamsLoop_edges _ _ _ _ st _ _ _ _ (same_reads_refl st)
              H e He) as (p & pod & _ & _ & ->).
  simpl. exact (componentIdOf_taskIdOf _ _ _ _ _ Ec Htid).
Qed.

Lemma checkParams_child_owner sm pps component ownerTask st es st1 :
  ownerTask ≠ "" →
  checkParams sm pps component ownerTask st = Ok (es, st1) →
  ∀ e, e ∈ es → child e = Some ownerTask.
Proof.
  intros Hne. unfold checkParams.
  apply String.eqb_neq in Hne. rewrite Hne. simpl.
  intros H e He.
  destruct (checkParamsLoop_edges _ _ _ _ st _ _ _ _ (same_reads_refl st)
              H e He) as (p & pod & _ & _ & ->).
  reflexivity.
Qed.

Lemma conditionsEdges_child sm pps taskId conds :
  taskId ≠ "" →
  ∀ st es st1,
    conditionsEdges sm pps taskId conds st = Ok (es, st1) →
    ∀ e, e ∈ es → child e = Some taskId.
Proof.
  intros Hne. induction conds as [|c rest IH]; intros st es st1; simpl.
  - intros [= <- <-] e He. now apply elem_of_nil in He.
  - destruct (checkParams _ _ _ _ _) as [[e1 s1]|] eqn:E1; simpl;
      [|discriminate].
    destruct (conditionsEdges _ _ _ _ s1) as [[e2 s2]|] eqn:E2; simpl;
      [|discriminate].
    intros [= <- <-] e He. apply elem_of_app in He as [He|He].
    + exact (checkParams_child_owner _ _ _ _ _ _ _ Hne E1 e He).
    + exact (IH _ _ _ E2 e He).
Qed.

Lemma edgeFromRecord_child taskId r es :
  edgeFromRecord taskId r = Ok es → ∀ e, e ∈ es → child e = Some taskId.
Proof.
  unfold edgeFromRecord. destruct r as [rec|].
  - destruct (podOrTaskName rec) as [pid|]; simpl; [|discriminate].
    intros [= <-] e He. apply list_elem_of_singleton in He. now subst.
  - intros [= <-] e He. now apply elem_of_nil in He.
Qed.

Lemma whenEdges_child sm st taskId whens es :
  whenEdges sm st taskId whens = Ok es →
  ∀ e, e ∈ es → child e = Some taskId.
Proof.
  unfold whenEdges. intros H e He.
  apply (collect_elem _ _ _ H) in He as (w & bs & _ & Hw & He).
  destruct (whenParent sm st w) as [r|]; simpl in Hw; [|discriminate].
  exact (edgeFromRecord_child _ _ _ Hw e He).
Qed.

Lemma anyTaskEdges_child sm st taskId args :
  ∀ b1 b2 es,
    anyTaskEdges sm st taskId args b1 b2 = Ok es →
    ∀ e, e ∈ es → child e = Some taskId.
Proof.
  induction args as [|arg rest IH]; intros b1 b2 es; simpl.
  - intros [= <-] e He. now apply elem_of_nil in He.
  - destruct (String.eqb arg "--taskList"); [apply IH|].
    destruct (String.eqb arg "-c"); [apply IH|].
    destruct b1.
    + destruct (collect _ (Js.split "," arg)) as [es1|] eqn:E1; simpl;
        [|discriminate].
      destruct (anyTaskEdges sm st taskId rest false b2) as [es2|] eqn:E2;
        simpl; [|discriminate].
      intros [= <-] e He. apply elem_of_app in He as [He|He].
      * apply (collect_elem _ _ _ E1) in He as (p & bs & _ & Hp & He).
        exact (edgeFromRecord_child _ _ _ Hp e He).
      * exact (IH _ _ _ E2 e He).
    + destruct b2; [|apply IH].
      destruct (edgeFromRecord taskId _) as [es1|] eqn:E1; simpl;
        [|discriminate].
      destruct (anyTaskEdges sm st taskId rest false false) as [es2|] eqn:E2;
        simpl; [|discriminate].
      intros [= <-] e He. apply elem_of_app in He as [He|He].
      * exact (edgeFromRecord_child _ _ _ E1 e He).
      * exact (IH _ _ _ E2 e He).
Qed.

Lemma taskIdOf_nonempty sm st n tid :
  n ≠ "" → taskIdOf sm st n = Ok tid → tid ≠ "".
Proof.
  intros Hne. unfold taskIdOf.
  destruct (statusMap_get sm st (Some n)) as [rec|]; [|congruence].
  destruct (rr_status rec) as [s|]; simpl; [|discriminate].
  destruct (podName s) as [p|]; [|congruence].
  destruct (String.eqb p "") eqn:E; [congruence|].
  apply String.eqb_neq in E. congruence.
Qed.

(** The edges that a task contributes end at the task: the child end of
    each is the identity of its node. The edges of its condition objects
    do so when that identity is not the empty string. *)
Lemma output_edges_child ctx st t o e :
  outputOf ctx st t = Ok o → e ∈ out_edges o →
  (fst (out_node o) ≠ "" ∨ e ∉ out_conditionEdges o) →
  child e = Some (fst (out_node o)).
Proof.
  intros Hout He Hc.
  apply outputOf_inv in Hout
    as (tid & e1 & e2 & s1 & s2 & Htid & Hp & Hcs & _ & Hd).
  apply drawTask_inv in Hd as (Hw & Ha & Hr & H1 & H2 & Hid).
  rewrite Hid in *. unfold out_edges in He.
  rewrite H1, H2 in He. rewrite H2 in Hc.
  rewrite !elem_of_app in He. destruct He as [He|[He|[He|[He|He]]]].
  - destruct (anyTaskArgs t) as [args|].
    + exact (anyTaskEdges_child _ _ _ _ _ _ _ Ha e He).
    + injection Ha as Ha. rewrite <- Ha in He. now apply elem_of_nil in He.
  - exact (checkParams_child_task _ _ _ _ _ _ _ Hp Htid e He).
  - destruct Hc as [Hc|Hc]; [|contradiction].
    exact (conditionsEdges_child _ _ _ _ Hc _ _ _ Hcs e He).
  - exact (whenEdges_child _ _ _ _ _ Hw e He).
  - destruct (runAfterEdges_edges _ _ _ _ _ Hr e He) as (p & pod & _ & _ & ->).
    reflexivity.
Qed.

(** X6. When no task has the empty string for a name, every edge of the
    graph ends at a node of the graph: its child end is the identity of a
    drawn task, whichever of the five sources the edge comes from. *)
Theorem edges_end_at_nodes (workflow : Workflow) (st : Status)
    (graph : Graph) (workflow' : Workflow) :
  status workflow = Some st → noStatusYet workflow = false →
  createRuntimeGraph workflow = Ok (graph, workflow') →
  Forall (λ t, t_name t ≠ "") (allTasks workflow) →
  ∀ e, e ∈ g_edges graph →
  ∃ id, child e = Some id ∧ id ∈ (fst <$> g_nodes graph) ∧ id ≠ "".
Proof.
  intros Hstatus Hpast Hrun Hnames e He.
  destruct (createRuntimeGraph_inv workflow st graph workflow'
              Hstatus Hpast Hrun) as (cts & outs & st' & Hc & Ho & -> & _).
  apply commits_edges in He as [He|(o & Hin & He)];
    [now apply elem_of_nil in He|].
  pose proof Hin as Hin'.
  apply (outputsOf_elem _ _ _ _ Ho) in Hin as (t & Ht & Hm & Hout).
  assert (Hne : fst (out_node o) ≠ "").
  { pose proof (outputOf_inv _ _ _ _ Hout)
      as (tid & e1 & e2 & s1 & s2 & Htid & _ & _ & _ & Hd).
    apply drawTask_inv in Hd as (_ & _ & _ & _ & _ & ->).
    apply (taskIdOf_nonempty _ _ _ _) with (2 := Htid).
    rewrite Forall_forall in Hnames. apply Hnames. exact Ht. }
  exists (fst (out_node o)).
  split; [exact (output_edges_child _ _ _ _ _ Hout He (or_introl Hne))|].
  split; [|exact Hne].
  apply commits_ids. right. now exists o.
Qed.

Lemma collect_throws {A B : Type} (f : A → Result (list B)) (l : list A)
    (a : A) (x : Exception) :
  a ∈ l → f a = Throw x → ∃ y, collect f l = Throw y.
Proof.
  induction l as [|b rest IH]; intros Hin Hf; [now apply elem_of_nil in Hin|].
  simpl. destruct (f b) as [bs|y] eqn:Eb; simpl; [|eauto].
  apply elem_of_cons in Hin as [->|Hin]; [congruence|].
  destruct (IH Hin Hf) as [y ->]. simpl. eauto.
Qed.

(** X7. A task that is drawn and is ordered after a task whose record has
    a status without conditions, or with an empty list of them, makes the
    builder throw: unlike the parameter loop, the [runAfter] loop reads the
    first condition of the parent without testing that there is one. *)
Theorem runAfter_parent_without_conditions_throws (workflow : Workflow)
    (st : Status) (t : Task) (p : string) (rec : RunRecord) (s : RunStatus) :
  status workflow = Some st → noStatusYet workflow = false →
  t ∈ allTasks workflow → drawn workflow st t →
  p ∈ default [] (runAfter t) →
  statusMap_get (buildStatusMap st) (stamped st) (Some p) = Some rec →
  rr_status rec = Some s →
  conditions s = None ∨ conditions s = Some [] →
  ∃ x, createRuntimeGraph workflow = Throw x.
Proof.
  intros Hstatus Hpast Ht Hd Hp Hg Hs Hc.
  pose proof (createRuntimeGraph_outputs workflow st st Hstatus Hpast
                eq_refl eq_refl (same_reads_refl _)) as H.
  cbv zeta in H.
  destruct (createRuntimeGraph workflow) as [[graph workflow']|x]; [|eauto].
  exfalso. destruct H as (outs & Ho & _).
  apply materialized_drawn in Hd.
  destruct (outputsOf_defined _ _ _ _ t Ho Ht Hd) as (o & Hout & _).
  apply outputOf_inv in Hout
    as (tid & e1 & e2 & s1 & s2 & _ & _ & _ & _ & Hdraw).
  apply drawTask_inv in Hdraw as (_ & _ & Hr & _).
  unfold runAfterEdges in Hr.
  destruct (collect_defined _ _ _ p Hr Hp) as [bs Hbs].
  unfold runAfterEdge in Hbs. cbn [statusMap contextOf] in Hbs.
  rewrite Hg, Hs in Hbs. simpl in Hbs.
  destruct Hc as [Hc|Hc]; rewrite Hc in Hbs; discriminate.
Qed.

End EdgeEnds.

(** ** Round trips *)
Section RoundTrips.

Lemma split_app_sep (sep : ascii) (b k : string) :
  free_of sep b → Js.split sep (b +:+ String sep k) = b :: Js.split sep k.
Proof.
  induction b as [|c b IH]; simpl.
  - intros _. now rewrite Ascii.eqb_refl.
  - intros [Hc Hb]. apply Ascii.eqb_neq in Hc. rewrite Hc.
    now rewrite (IH Hb).
Qed.

Lemma split_free (sep : ascii) (b : string) :
  free_of sep b → Js.split sep b = [b].
Proof.
  induction b as [|c b IH]; simpl; [reflexivity|].
  intros [Hc Hb]. apply Ascii.eqb_neq in Hc. rewrite Hc.
  now rewrite (IH Hb).
Qed.

Lemma free_of_app (c : ascii) (a b : string) :
  free_of c a → free_of c b → free_of c (a +:+ b).
Proof.
  induction a as [|d a IH]; simpl; [tauto|].
  intros [Hd Ha] Hb. split; [exact Hd | now apply IH].
Qed.

(** X8. Parsing is the inverse of writing a location out: a scheme, a
    bucket without a slash and any key, joined by a slash, parse back to
    that service, bucket and key; a bucket alone parses to the empty key,
    as does a bucket followed by a slash. *)
Theorem parseStoragePath_round_trip (svc : StorageService) (b k : string) :
  free_of "/" b →
  parseStoragePath (scheme_prefix svc +:+ b +:+ "/" +:+ k)
  = Ok {| source := svc; bucket := Some b; key := k |}
  ∧ parseStoragePath (scheme_prefix svc +:+ b)
    = Ok {| source := svc; bucket := Some b; key := "" |}.
Proof.
  intros Hb. rewrite !parseStoragePath_prefix, !storagePathOf_prefix.
  change (b +:+ "/" +:+ k) with (b +:+ String "/" k).
  rewrite (split_app_sep "/" b k Hb), (split_free "/" b Hb). simpl.
  split; [|reflexivity]. do 2 f_equal. apply (split_join "/" k).
Qed.

Lemma tasks_reference_segments (t r : string) :
  free_of "." t → free_of "." r →
  Js.split "." ("$(tasks." +:+ t +:+ ".results." +:+ r +:+ ")")
  = [ "$(tasks"; t; "results"; r +:+ ")" ].
Proof.
  intros Ht Hr.
  change ("$(tasks." +:+ t +:+ ".results." +:+ r +:+ ")")
    with ("$(tasks" +:+ String "." (t +:+ String "." ("results" +:+
            String "." (r +:+ ")")))).
  rewrite split_app_sep by (simpl; repeat split; discriminate).
  rewrite (split_app_sep "." t _ Ht).
  rewrite split_app_sep by (simpl; repeat split; discriminate).
  rewrite split_free; [reflexivity|].
  apply free_of_app; [exact Hr|]. simpl. split; [discriminate | exact I].
Qed.

(** X9. A reference to a result of a task, written in the pipeline's
    syntax with a task name and a result name that hold no dot, decodes to
    that task and that result. *)
Theorem decodeParam_round_trip (t r : string) :
  free_of "." t → free_of "." r →
  decodeParam ("$(tasks." +:+ t +:+ ".results." +:+ r +:+ ")")
  = Ok {| task := Some t; param := Some r |}.
Proof.
  intros Ht Hr. rewrite decodeParam_unfold.
  destruct (is_pipeline_param _) eqn:E1.
  { apply is_pipeline_param_iff in E1 as [name Hn]. discriminate Hn. }
  destruct (has_both_delimiters _) eqn:E2.
  - rewrite (tasks_reference_segments t r Ht Hr). simpl.
    rewrite substring_init, drop_last_app. reflexivity.
  - exfalso. apply not_true_iff_false in E2. apply E2.
    apply has_both_delimiters_iff. split.
    + exists "", ("tasks." +:+ t +:+ ".results." +:+ r +:+ ")").
      reflexivity.
    + exists ("$(tasks." +:+ t +:+ ".results." +:+ r), "".
      now rewrite !append_assoc.
Qed.

End RoundTrips.

(** ** The artifacts of a node *)
Section ArtifactLookups.

Context {NodePhase : NodePhaseEnum} {Inheritance : Prototypes}.

(** An array with an element that a lookup finds is a member of the
    parsed annotation itself. *)
Lemma member_nonempty {A : Type} (raw : option (gmap string (list A)))
    (name : string) (x : A) (l : list A) :
  member raw name = ArrayOf (x :: l) → default ∅ raw !! name = Some (x :: l).
Proof.
  unfold member. destruct raw as [parsed|]; simpl.
  - destruct (parsed !! name) as [l'|]; [congruence|].
    destruct (ofObject name); discriminate.
  - destruct (ofArray name); discriminate.
Qed.

Lemma member_own {A : Type} (raw : option (gmap string (list A)))
    (parsed : gmap string (list A)) (name : string) (l : list A) :
  raw = Some parsed → parsed !! name = Some l → member raw name = ArrayOf l.
Proof. intros -> H. unfold member. now rewrite H. Qed.

Lemma findTaskRun_none nodeId l found :
  (∀ k rec s, (k, rec) ∈ l → rr_status rec = Some s → podName s ≠ nodeId) →
  findTaskRun nodeId l found = Ok found.
Proof.
  induction l as [|[k rec] l IH]; intros H; simpl; [reflexivity|].
  assert (IH' : findTaskRun nodeId l found = Ok found).
  { apply IH. intros k' rec' s' Hin. apply (H k').
    now apply list_elem_of_further. }
  destruct (rr_status rec) as [s|] eqn:Es; [|exact IH'].
  rewrite bool_decide_eq_false_2; [exact IH'|].
  exact (H k rec s (list_elem_of_here _ _) Es).
Qed.

Lemma findRun_none nodeId l found :
  (∀ k rec, (k, rec) ∈ l → is_Some (rr_status rec) →
            Some (pipelineTaskName rec) ≠ nodeId) →
  findRun nodeId l found = Ok found.
Proof.
  induction l as [|[k rec] l IH]; intros H; simpl; [reflexivity|].
  assert (IH' : findRun nodeId l found = Ok found).
  { apply IH. intros k' rec' Hin. apply (H k').
    now apply list_elem_of_further. }
  destruct (rr_status rec) as [s|] eqn:Es; simpl; [|exact IH'].
  rewrite bool_decide_eq_false_2; [exact IH'|].
  apply (H k rec (list_elem_of_here _ _)). rewrite Es. eauto.
Qed.

Lemma findTaskRun_inv nodeId l :
  ∀ found found',
    findTaskRun nodeId l found = Ok found' →
    found' = found
    ∨ ∃ k rec s reason,
        (k, rec) ∈ l ∧ rr_status rec = Some s ∧ podName s = nodeId
        ∧ getStatus (Some rec) = Ok reason
        ∧ found' = (pipelineTaskName rec, reason).
Proof.
  induction l as [|[k rec] l IH]; intros found found'; cbn [findTaskRun].
  - intros [= <-]. now left.
  - assert (Hrest : ∀ f, findTaskRun nodeId l f = Ok found' →
              found' = f
              ∨ ∃ k0 rec0 s reason,
                  (k0, rec0) ∈ (k, rec) :: l ∧ rr_status rec0 = Some s
                  ∧ podName s = nodeId ∧ getStatus (Some rec0) = Ok reason
                  ∧ found' = (pipelineTaskName rec0, reason)).
    { intros f Hf. destruct (IH _ _ Hf) as [?|(k0 & rec0 & s & r & Hin & Hr)];
        [now left|].
      right. exists k0, rec0, s, r.
      split; [now apply list_elem_of_further | exact Hr]. }
    destruct (rr_status rec) as [s|] eqn:Es; [|apply Hrest].
    destruct (bool_decide (podName s = nodeId)) eqn:Eb; [|apply Hrest].
    apply bool_decide_eq_true in Eb.
    destruct (getStatus (Some rec)) as [reason|] eqn:Eg; cbn [mbind Result_bind];
      [|discriminate].
    intros Hf. destruct (Hrest _ Hf) as [->|?]; [|now right].
    right. exists k, rec, s, reason.
    split; [apply list_elem_of_here | now repeat split].
Qed.

Lemma findRun_inv nodeId l :
  ∀ found found',
    findRun nodeId l found = Ok found' →
    found' = found
    ∨ ∃ k rec reason,
        (k, rec) ∈ l ∧ is_Some (rr_status rec)
        ∧ Some (pipelineTaskName rec) = nodeId
        ∧ getStatus (Some rec) = Ok reason
        ∧ found' = (pipelineTaskName rec, reason).
Proof.
  induction l as [|[k rec] l IH]; intros found found'; cbn [findRun].
  - intros [= <-]. now left.
  - assert (Hrest : ∀ f, findRun nodeId l f = Ok found' →
              found' = f
              ∨ ∃ k0 rec0 reason,
                  (k0, rec0) ∈ (k, rec) :: l ∧ is_Some (rr_status rec0)
                  ∧ Some (pipelineTaskName rec0) = nodeId
                  ∧ getStatus (Some rec0) = Ok reason
                  ∧ found' = (pipelineTaskName rec0, reason)).
    { intros f Hf. destruct (IH _ _ Hf) as [?|(k0 & rec0 & r & Hin & Hr)];
        [now left|].
      right. exists k0, rec0, r.
      split; [now apply list_elem_of_further | exact Hr]. }
    destruct (Js.has (rr_status rec)) eqn:Eh; cbn [andb]; [|apply Hrest].
    destruct (bool_decide (Some (pipelineTaskName rec) = nodeId)) eqn:Eb;
      [|apply Hrest].
    apply bool_decide_eq_true in Eb.
    destruct (getStatus (Some rec)) as [reason|] eqn:Eg; cbn [mbind Result_bind];
      [|discriminate].
    intros Hf. destruct (Hrest _ Hf) as [->|?]; [|now right].
    right. exists k, rec, reason.
    split; [apply list_elem_of_here|]. split; [|now repeat split].
    destruct (rr_status rec); [eauto | discriminate].
Qed.

(** X10. A node identity that no record matches has no artifacts, and
    asking for them does not throw: no task run with a status has it for
    pod name and no custom run with a status has it for task name. *)
Theorem getNodeInputOutputArtifacts_unknown_node (workflow : Workflow)
    (st : Status) (nodeId cached : option string) :
  status workflow = Some st →
  (∀ rec, ¬ node_record st nodeId rec) →
  getNodeInputOutputArtifacts workflow nodeId cached = Ok ([], []).
Proof.
  intros Hst Hnone. unfold getNodeInputOutputArtifacts. rewrite Hst.
  destruct (metadata workflow) as [md|]; [|reflexivity].
  destruct (annotations md) as [a|]; [|reflexivity].
  destruct (negb _); [reflexivity|].
  rewrite findTaskRun_none.
  - simpl. rewrite findRun_none; [reflexivity|].
    intros k rec Hin Hs Hn. apply (Hnone rec). right. now exists k.
  - intros k rec s Hin Hs Hn. apply (Hnone rec). left. now exists k, s.
Qed.

Lemma mapR_Forall2 {A B : Type} (f : A → Result B) (l : list A) :
  ∀ bs, mapR f l = Ok bs → Forall2 (λ a b, f a = Ok b) l bs.
Proof.
  induction l as [|a l IH]; intros bs; simpl.
  - intros [= <-]. constructor.
  - destruct (f a) as [b|] eqn:Ea; simpl; [|discriminate].
    destruct (mapR f l) as [bs'|]; simpl; [|discriminate].
    intros [= <-]. constructor; [exact Ea | now apply IH].
Qed.

Lemma getNodeInputOutputArtifacts_found workflow nodeId cached inputs outputs :
  getNodeInputOutputArtifacts workflow nodeId cached = Ok (inputs, outputs) →
  (inputs = [] ∧ outputs = [])
  ∨ ∃ md a st found taskName taskStatus,
      metadata workflow = Some md ∧ annotations md = Some a
      ∧ status workflow = Some st
      ∧ findTaskRun nodeId (records_of (taskRuns st)) ("", SUCCEEDED)
        = Ok found
      ∧ findRun nodeId (records_of (runs st)) found
        = Ok (taskName, taskStatus)
      ∧ taskName ≠ ""
      ∧ match member (input_artifacts a) taskName with
        | ArrayOf declared =>
            mapR (inputArtifact workflow md a cached) declared = Ok inputs
        | Undefined => inputs = []
        | NotAnArray => False
        end
      ∧ (outputs = []
         ∨ ∃ raw,
             default ∅ (output_artifacts a) !! taskName = Some raw
             ∧ (taskStatus = COMPLETED ∨ taskStatus = SUCCEEDED)
             ∧ mapR (outputArtifact workflow md a cached) raw = Ok outputs).
Proof.
  unfold getNodeInputOutputArtifacts.
  destruct (metadata workflow) as [md|], (status workflow) as [st|];
    try (intros [= <- <-]; now left).
  destruct (annotations md) as [a|] eqn:Ha; [|intros [= <- <-]; now left].
  destruct (negb _); [intros [= <- <-]; now left|].
  destruct (findTaskRun _ _ _) as [found|] eqn:Ef; cbn [mbind Result_bind];
    [|discriminate].
  destruct (findRun _ _ _) as [[taskName taskStatus]|] eqn:Er;
    cbn [mbind Result_bind]; [|discriminate].
  destruct (String.eqb taskName "") eqn:En; [intros [= <- <-]; now left|].
  apply String.eqb_neq in En. cbv zeta.
  match goal with
  | |- mbind _ ?m = _ → _ =>
      destruct m as [ins|] eqn:Ei; cbn [mbind Result_bind]; [|discriminate]
  end.
  assert (Hins : match member (input_artifacts a) taskName with
                 | ArrayOf declared =>
                     mapR (inputArtifact workflow md a cached) declared
                     = Ok ins
                 | Undefined => ins = []
                 | NotAnArray => False
                 end).
  { destruct (member (input_artifacts a) taskName);
      [congruence | exact Ei | discriminate]. }
  clear Ei.
  intros H. right. exists md, a, st, found, taskName, taskStatus.
  do 6 (split; [first [reflexivity | assumption]|]).
  destruct (member (output_artifacts a) taskName) as [|[|first rest]|] eqn:Eo.
  - injection H as <- <-. split; [exact Hins | now left].
  - injection H as <- <-. split; [exact Hins | now left].
  - destruct (negb (Js.truthy (oa_key first)) || _) eqn:Ec.
    + injection H as <- <-. split; [exact Hins | now left].
    + destruct (mapR (outputArtifact _ _ _ _) (first :: rest)) as [outs|]
        eqn:Em; cbn [mbind Result_bind] in H; [|discriminate].
      injection H as <- <-. split; [exact Hins|]. right.
      exists (first :: rest). split; [now apply member_nonempty|].
      split; [|exact Em].
      apply orb_false_elim in Ec as [_ Ec].
      apply andb_false_elim in Ec as [Ec|Ec];
        apply negb_false_iff, String.eqb_eq in Ec; [now left | now right].
  - injection H as <- <-. split; [exact Hins | now left].
Qed.

(** X11. The output artifacts of a node are all or nothing. When any is
    returned, a record matched the node, the reason of its first condition
    is the completed or the succeeded phase, every artifact declared for
    its task has a key and is returned, in the declared order and under its
    declared name, and each location has the endpoint, the bucket, the
    scheme flag and the two fixed secrets of the run's annotations. *)
Theorem output_artifacts_all_or_nothing (workflow : Workflow)
    (nodeId cached : option string)
    (inputs outputs : list (string * S3Artifact)) :
  getNodeInputOutputArtifacts workflow nodeId cached = Ok (inputs, outputs) →
  outputs ≠ [] →
  ∃ md a st rec reason raw,
    metadata workflow = Some md ∧ annotations md = Some a
    ∧ status workflow = Some st
    ∧ node_record st nodeId rec
    ∧ getStatus (Some rec) = Ok reason
    ∧ (reason = COMPLETED ∨ reason = SUCCEEDED)
    ∧ default ∅ (output_artifacts a) !! pipelineTaskName rec = Some raw
    ∧ fst <$> outputs = oa_name <$> raw
    ∧ (∀ artifact, artifact ∈ raw → is_Some (oa_key artifact))
    ∧ (∀ n art, (n, art) ∈ outputs → art = artifactTemplate a (s3_key art)).
Proof.
  intros H Hout.
  apply getNodeInputOutputArtifacts_found in H
    as [[_ ->]|(md & a & st & found & taskName & taskStatus & Hmd & Ha & Hst
                & Hf & Hr & Hne & _ & [->|(raw & Hraw & Hfin & Hm)])];
    try contradiction.
  assert (Hrec : ∃ rec, node_record st nodeId rec
                        ∧ getStatus (Some rec) = Ok taskStatus
                        ∧ pipelineTaskName rec = taskName).
  { apply findRun_inv in Hr as [Hr|(k & rec & r & Hin & Hs & Hn & Hg & Hr)].
    - subst found.
      apply findTaskRun_inv in Hf
        as [Hf|(k & rec & s & r & Hin & Hs & Hn & Hg & Hf)].
      + injection Hf as Hf _. contradiction.
      + injection Hf as -> ->. exists rec. split; [|now split].
        left. now exists k, s.
    - injection Hr as -> ->. exists rec. split; [|now split].
      right. now exists k. }
  destruct Hrec as (rec & Hnode & Hg & <-).
  exists md, a, st, rec, taskStatus, raw.
  do 7 (split; [assumption|]).
  apply mapR_Forall2 in Hm. clear Hraw Hout.
  induction Hm as [|artifact [n art] raw outs Hx Hm IH]; simpl.
  - split; [reflexivity|].
    split; [intros x He | intros n art He]; now apply elem_of_nil in He.
  - destruct IH as (IH1 & IH2 & IH3).
    unfold outputArtifact in Hx.
    destruct (oa_key artifact) as [key|] eqn:Ek; simpl in Hx; [|discriminate].
    destruct (tasks (pipelineSpec (spec workflow))) as [ts|]; simpl in Hx;
      [|discriminate].
    injection Hx as <- <-. split; [f_equal; exact IH1|]. split.
    + intros x Hin. apply elem_of_cons in Hin as [->|Hin];
        [rewrite Ek; eauto | now apply IH2].
    + intros n art Hin. apply elem_of_cons in Hin as [Hin|Hin];
        [|now apply (IH3 n)].
      injection Hin as -> ->. reflexivity.
Qed.

End ArtifactLookups.

(** ** Where artifacts are stored and read *)
Section ArtifactKeys.

Context {NodePhase : NodePhaseEnum}.

Lemma expand_free (repl matched before after : string) :
  free_of "$" repl → Js.expand repl matched before after = repl.
Proof.
  induction repl as [|c rest IH]; [reflexivity|].
  intros [Hc Hrest]. specialize (IH Hrest).
  destruct c as [[] [] [] [] [] [] [] []];
    try (exfalso; apply Hc; reflexivity);
    cbn [Js.expand]; now rewrite IH.
Qed.

Lemma replace_run_name (rest id : string) :
  free_of "$" id →
  Js.replace ("artifacts/$PIPELINERUN/" +:+ rest) "$PIPELINERUN" id
  = "artifacts/" +:+ id +:+ "/" +:+ rest.
Proof.
  intros Hid. unfold Js.replace, Js.indexOf. simpl.
  now rewrite (expand_free id _ _ _ Hid).
Qed.

Lemma substring_from_suffix (p x : string) (sep : ascii) :
  Js.substring_from (p +:+ String sep x) (Js.length p + 1) = x.
Proof.
  unfold Js.substring_from.
  pose proof (substring_middle (p +:+ String sep "") x "") as H.
  rewrite append_nil_r, append_assoc in H. simpl in H.
  assert (Hl : Js.length (p +:+ String sep "") = Js.length p + 1).
  { unfold Js.length. rewrite append_length. simpl. lia. }
  rewrite Hl in H. etransitivity; [|exact H]. f_equal.
  unfold Js.length. rewrite !append_length. simpl. lia.
Qed.

Lemma pipelineRunIDFor_cases (workflowName : option string) (ts : list Task)
    (producer cached : option string) :
  pipelineRunIDFor workflowName ts producer cached = runNameOf workflowName
  ∨ ∃ c, cached = Some c ∧ c ≠ ""
         ∧ pipelineRunIDFor workflowName ts producer cached = c.
Proof.
  unfold pipelineRunIDFor, runNameOf.
  generalize (if Js.truthy workflowName then default "" workflowName else "").
  induction ts as [|t ts IH] using rev_ind; intros start; [now left|].
  rewrite foldl_app. simpl.
  destruct (bool_decide (producer = Some (t_name t))
            && String.eqb (cacheLabel t) "true" && Js.truthy cached) eqn:E;
    [|apply IH].
  apply andb_prop in E as [_ E]. right.
  destruct (truthy_inv _ E) as (c & -> & Hc). now exists c.
Qed.

(** X12. A consumer reads an artifact where its producer stored it. When
    the producer's task name holds no slash and the names of the run and
    of the cached run hold no dollar sign, the location computed for an
    input artifact of the parent task is the location computed for the
    output artifact whose key follows the layout
    [artifacts/$PIPELINERUN/<task>/<artifact>.tgz], with or without a
    cached run. *)
Theorem consumer_reads_where_producer_writes (workflow : Workflow)
    (md : Metadata) (a : Annotations) (cached : option string)
    (ts : list Task) (producer x outputName : string) (sep : ascii) :
  tasks (pipelineSpec (spec workflow)) = Some ts →
  free_of "/" producer →
  free_of "$" (runNameOf (md_name md)) →
  (∀ c, cached = Some c → free_of "$" c) →
  ∃ art,
    inputArtifact workflow md a cached
      {| ia_name := producer +:+ String sep x; parent_task := producer |}
    = Ok (producer +:+ String sep x, art)
    ∧ outputArtifact workflow md a cached
        {| oa_name := outputName;
           oa_key := Some ("artifacts/$PIPELINERUN/" +:+ producer +:+ "/"
                           +:+ x +:+ ".tgz") |}
      = Ok (outputName, art)
    ∧ s3_key art
      = "artifacts/"
        +:+ pipelineRunIDFor (md_name md) ts (Some producer) cached
        +:+ "/" +:+ producer +:+ "/" +:+ x +:+ ".tgz".
Proof.
  intros Hts Hp Hname Hcached.
  set (id := pipelineRunIDFor (md_name md) ts (Some producer) cached).
  assert (Hid : free_of "$" id).
  { destruct (pipelineRunIDFor_cases (md_name md) ts (Some producer) cached)
      as [H|(c & Hc & _ & H)]; unfold id; rewrite H; eauto. }
  exists (artifactTemplate a
            ("artifacts/" +:+ id +:+ "/" +:+ producer +:+ "/" +:+ x
             +:+ ".tgz")).
  split; [|split; [|reflexivity]].
  - unfold inputArtifact. rewrite Hts. simpl. fold id.
    unfold inputArtifactKey. simpl. now rewrite substring_from_suffix.
  - unfold outputArtifact. cbn [oa_key oa_name must mbind Result_bind].
    rewrite Hts. cbn [must mbind Result_bind].
    assert (Hs : Js.split "/" ("artifacts/$PIPELINERUN/" +:+ producer +:+ "/"
                               +:+ x +:+ ".tgz") !! 2%nat = Some producer).
    { change ("artifacts/$PIPELINERUN/" +:+ producer +:+ "/" +:+ x +:+ ".tgz")
        with ("artifacts" +:+ String "/" ("$PIPELINERUN" +:+ String "/"
                (producer +:+ String "/" (x +:+ ".tgz")))).
      rewrite split_app_sep by (simpl; repeat split; discriminate).
      rewrite split_app_sep by (simpl; repeat split; discriminate).
      now rewrite (split_app_sep "/" producer _ Hp). }
    rewrite Hs. fold id. now rewrite (replace_run_name _ id Hid).
Qed.

End ArtifactKeys.

(** ** The output paths of a run *)
Section OutputPaths.

Context {NodePhase : NodePhaseEnum} {Inheritance : Prototypes}.

Lemma foldl_push_elem {A B : Type} (f : A → option B) (l : list A) :
  ∀ (acc : list B) (b : B),
    b ∈ foldl (λ out x, match f x with
                        | Some y => out ++ [y]
                        | None => out
                        end) acc l
    ↔ b ∈ acc ∨ ∃ x, x ∈ l ∧ f x = Some b.
Proof.
  induction l as [|x l IH]; intros acc b; simpl.
  - split; [now left|]. intros [H|(x & Hx & _)]; [exact H|].
    now apply elem_of_nil in Hx.
  - rewrite IH. split.
    + intros [H|(y & Hy & Hf)].
      * destruct (f x) as [z|] eqn:Ez; [|now left].
        apply elem_of_app in H as [H|H]; [now left|].
        apply list_elem_of_singleton in H as ->. right. exists x.
        split; [apply list_elem_of_here | exact Ez].
      * right. exists y. split; [now apply list_elem_of_further | exact Hf].
    + intros [H|(y & Hy & Hf)].
      * left. destruct (f x); [|exact H]. apply elem_of_app. now left.
      * apply elem_of_cons in Hy as [->|Hy].
        -- left. rewrite Hf. apply elem_of_app. right.
           apply list_elem_of_here.
        -- right. now exists y.
Qed.

Lemma foldl_concat_elem {A B : Type} (f : A → list B) (l : list A) :
  ∀ (acc : list B) (b : B),
    b ∈ foldl (λ out x, out ++ f x) acc l
    ↔ b ∈ acc ∨ ∃ x, x ∈ l ∧ b ∈ f x.
Proof.
  induction l as [|x l IH]; intros acc b; simpl.
  - split; [now left|]. intros [H|(x & Hx & _)]; [exact H|].
    now apply elem_of_nil in Hx.
  - rewrite IH, elem_of_app. split.
    + intros [[H|H]|(y & Hy & Hf)]; [now left | |].
      * right. exists x. split; [apply list_elem_of_here | exact H].
      * right. exists y. split; [now apply list_elem_of_further | exact Hf].
    + intros [H|(y & Hy & Hf)]; [now left; left|].
      apply elem_of_cons in Hy as [->|Hy]; [now left; right|].
      right. now exists y.
Qed.

Lemma collect_throw_inv {A B : Type} (f : A → Result (list B)) (l : list A)
    (x : Exception) :
  collect f l = Throw x → ∃ a, a ∈ l ∧ f a = Throw x.
Proof.
  induction l as [|a l IH]; simpl; [discriminate|].
  destruct (f a) as [bs|y] eqn:Ea; simpl.
  - destruct (collect f l) as [bs'|y]; simpl; [discriminate|].
    intros [= <-]. destruct (IH eq_refl) as (a' & Hin & Ha').
    exists a'. split; [now apply list_elem_of_further | exact Ha'].
  - intros [= <-]. exists a. split; [apply list_elem_of_here | exact Ea].
Qed.

(** The paths that the loop of [loadNodeOutputPaths] pushes for the
    artifacts declared for a task. *)
Lemma ui_metadata_paths (md : Metadata) (a : Annotations) (runName : string)
    (declared : list OutputArtifact) (p : StoragePath) :
  runName = runNameOf (md_name md) →
  p ∈ foldl (λ outputPaths art,
               match oa_key art with
               | Some k =>
                   if String.eqb k "" then outputPaths
                   else
                     outputPaths
                     ++ [ {| bucket :=
                               Some (if Js.truthy (artifact_bucket a)
                                     then default "" (artifact_bucket a)
                                     else "");
                             key := Js.replace k "$PIPELINERUN" runName;
                             source :=
                               if negb (Js.indexOf
                                          (if Js.truthy (artifact_endpoint a)
                                           then default "" (artifact_endpoint a)
                                           else "") "minio" =? -1)
                               then MINIO else S3 |} ]
               | None => outputPaths
               end)
            []
            (List.filter
               (λ art, String.eqb (oa_name art) "mlpipeline-ui-metadata")
               declared)
  ↔ ∃ artifact artifactKey,
      artifact ∈ declared
      ∧ oa_name artifact = "mlpipeline-ui-metadata"
      ∧ oa_key artifact = Some artifactKey ∧ artifactKey ≠ ""
      ∧ is_ui_metadata_path md a artifactKey p.
Proof.
  intros Hn.
  set (mk := λ k : string,
         {| source := if negb (Js.indexOf
                                 (if Js.truthy (artifact_endpoint a)
                                  then default "" (artifact_endpoint a)
                                  else "") "minio" =? -1)
                      then MINIO else S3;
            bucket := Some (if Js.truthy (artifact_bucket a)
                            then default "" (artifact_bucket a) else "");
            key := Js.replace k "$PIPELINERUN" runName |}).
  pose proof (foldl_push_elem
                (λ art, match oa_key art with
                        | Some k => if String.eqb k "" then None
                                    else Some (mk k)
                        | None => None
                        end)
                (List.filter
                   (λ art, String.eqb (oa_name art) "mlpipeline-ui-metadata")
                   declared) [] p) as Hfold.
  assert (Hsame : ∀ l acc,
            foldl (λ out art,
                     match oa_key art with
                     | Some k => if String.eqb k "" then out
                                 else out ++ [mk k]
                     | None => out
                     end) acc l
            = foldl (λ out art,
                       match match oa_key art with
                             | Some k => if String.eqb k "" then None
                                         else Some (mk k)
                             | None => None
                             end with
                       | Some y => out ++ [y]
                       | None => out
                       end) acc l).
  { induction l as [|x l IH]; intros acc; simpl; [reflexivity|].
    rewrite IH. f_equal. destruct (oa_key x) as [k|]; [|reflexivity].
    now destruct (String.eqb k ""). }
  fold mk. rewrite Hsame, Hfold. clear Hsame Hfold.
  assert (Hb : (if Js.truthy (artifact_bucket a)
                then default "" (artifact_bucket a) else "")
               = default "" (artifact_bucket a)).
  { destruct (artifact_bucket a) as [[|c b]|]; reflexivity. }
  assert (He : (if Js.truthy (artifact_endpoint a)
                then default "" (artifact_endpoint a) else "")
               = default "" (artifact_endpoint a)).
  { destruct (artifact_endpoint a) as [[|c b]|]; reflexivity. }
  assert (Hmk : ∀ k, is_ui_metadata_path md a k (mk k)).
  { intros k. unfold is_ui_metadata_path, mk. simpl.
    rewrite Hb, He, Hn.
    destruct (Js.indexOf (default "" (artifact_endpoint a)) "minio" =? -1)
      eqn:Ei; simpl.
    - apply Z.eqb_eq in Ei. repeat split; try discriminate.
      right. split; [reflexivity|]. intros Hc.
      now apply indexOf_contains in Hc.
    - apply Z.eqb_neq in Ei. repeat split; try discriminate.
      left. split; [reflexivity|]. now apply indexOf_contains. }
  split.
  - intros [H|(art & Hin & Hf)]; [now apply elem_of_nil in H|].
    apply elem_of_filter_bool in Hin as [Hin Hname].
    apply String.eqb_eq in Hname.
    destruct (oa_key art) as [k|] eqn:Ek; [|discriminate].
    destruct (String.eqb k "") eqn:Ee; [discriminate|].
    apply String.eqb_neq in Ee. injection Hf as <-.
    exists art, k. do 4 (split; [first [reflexivity | assumption]|]).
    apply Hmk.
  - intros (art & k & Hin & Hname & Hk & Hne & (Hp1 & Hp2 & Hp3)).
    right. exists art. split.
    + apply elem_of_filter_bool.
      split; [exact Hin | now apply String.eqb_eq].
    + rewrite Hk. apply String.eqb_neq in Hne. rewrite Hne. f_equal.
      destruct p as [src b ky]. unfold mk. simpl in *. subst b ky.
      rewrite Hb, He, Hn. f_equal.
      destruct Hp3 as [[-> Hc]|[-> Hc]].
      * apply indexOf_contains in Hc. apply Z.eqb_neq in Hc.
        now rewrite Hc.
      * destruct (Js.indexOf (default "" (artifact_endpoint a)) "minio"
                  =? -1) eqn:Ei; [reflexivity|].
        apply Z.eqb_neq in Ei. now apply indexOf_contains in Ei.
Qed.

(** What [loadNodeOutputPaths] does for a run record: it throws when the
    lookup by the record's task name finds an inherited member, and returns
    the paths of the task's UI metadata otherwise. *)
Lemma loadNodeOutputPaths_cases (node : RunRecord) (workflow : Workflow) :
  match loadNodeOutputPaths node workflow with
  | Ok paths =>
      ¬ finds_inherited_member workflow (pipelineTaskName node)
      ∧ ∀ p, p ∈ paths
             ↔ ∃ md a artifact artifactKey,
                 metadata workflow = Some md ∧ annotations md = Some a
                 ∧ Js.truthy (md_name md) = true
                 ∧ ui_metadata_of a (pipelineTaskName node) artifact
                     artifactKey
                 ∧ is_ui_metadata_path md a artifactKey p
  | Throw x =>
      x = TypeError ∧ finds_inherited_member workflow (pipelineTaskName node)
  end.
Proof.
  unfold loadNodeOutputPaths, finds_inherited_member.
  destruct (metadata workflow) as [md|].
  2:{ split; [now intros (? & ? & ? & ? & _)|]. intros p.
      split; [intros H; now apply elem_of_nil in H
             | now intros (? & ? & ? & ? & ? & _)]. }
  destruct (annotations md) as [a|] eqn:Ha.
  2:{ split; [intros (? & ? & ? & [= <-] & ? & _); congruence|]. intros p.
      split; [intros H; now apply elem_of_nil in H
             | intros (? & ? & ? & ? & [= <-] & ? & _); congruence]. }
  destruct (Js.truthy (md_name md)) eqn:Et; cbn [negb].
  2:{ split; [intros (? & ? & ? & [= <-] & ? & ? & _); congruence|].
      intros p.
      split; [intros H; now apply elem_of_nil in H
             | intros (? & ? & ? & ? & [= <-] & ? & ? & _); congruence]. }
  assert (Hnone : ∀ p,
            default ∅ (output_artifacts a) !! pipelineTaskName node = None →
            p ∈ @nil StoragePath
            ↔ ∃ md0 a0 artifact artifactKey,
                Some md = Some md0 ∧ annotations md0 = Some a0
                ∧ Js.truthy (md_name md0) = true
                ∧ ui_metadata_of a0 (pipelineTaskName node) artifact
                    artifactKey
                ∧ is_ui_metadata_path md0 a0 artifactKey p).
  { intros p Hn. split; [intros H; now apply elem_of_nil in H|].
    intros (md0 & a0 & art & k & [= <-] & Ha0 & _ & (d & Hd & _) & _).
    rewrite Ha in Ha0. injection Ha0 as <-. congruence. }
  cbv zeta.
  destruct (output_artifacts a) as [parsed|] eqn:Eo.
  - unfold member. destruct (parsed !! pipelineTaskName node) as [l|] eqn:El.
    + split; [intros (? & ? & ? & [= <-] & Ha0 & _ & Hp & Hl & _)|].
      { rewrite Ha in Ha0. injection Ha0 as <-. rewrite Eo in Hp.
        injection Hp as <-. congruence. }
      intros p.
      rewrite (ui_metadata_paths md a (default "" (md_name md)) l p)
        by (unfold runNameOf; now rewrite Et).
      split.
      * intros (art & k & Hin & Hname & Hk & Hne & Hpath).
        exists md, a, art, k.
        do 3 (split; [first [reflexivity | assumption]|]).
        split; [|exact Hpath]. exists l. rewrite Eo. simpl.
        now repeat split.
      * intros (md0 & a0 & art & k & [= <-] & Ha0 & _
                & (d & Hd & Hin & Hname & Hk & Hne) & Hpath).
        rewrite Ha in Ha0. injection Ha0 as <-. rewrite Eo in Hd.
        simpl in Hd. rewrite El in Hd. injection Hd as <-.
        now exists art, k.
    + destruct (ofObject (pipelineTaskName node)) eqn:Ei; simpl.
      * split; [intros (? & ? & ? & [= <-] & Ha0 & _ & Hp & _ & Hi)|].
        { rewrite Ha in Ha0. injection Ha0 as <-. congruence. }
        intros p. apply Hnone. exact El.
      * split; [intros (? & ? & ? & [= <-] & Ha0 & _ & Hp & _ & Hi)|].
        { rewrite Ha in Ha0. injection Ha0 as <-. congruence. }
        intros p. apply Hnone. exact El.
      * split; [reflexivity|]. exists md, a, parsed. now repeat split.
  - split; [intros (? & ? & ? & [= <-] & Ha0 & _ & Hp & _)|].
    { rewrite Ha in Ha0. injection Ha0 as <-. congruence. }
    intros p. apply Hnone. apply lookup_empty.
Qed.

(** X13. The output paths of a run are the paths of the UI metadata of
    its task runs. Listing them throws a [TypeError] exactly when the run
    has a non-empty name and the output annotation, and the task name of
    some task run is not a member of the parsed annotation but the name of
    a member that every object inherits, as [constructor]. Otherwise a step
    name with a path is listed exactly when the run has a non-empty name
    and annotations, some task run has that step name for task name, and
    an artifact declared for that task under the name of the UI metadata
    has a non-empty key, which the path holds with the run's name put in.
    The bucket is the annotated one, the empty string when there is none;
    the service is MinIO when the annotated endpoint contains [minio] and
    S3 otherwise. Custom runs add nothing. The list without the step names
    holds the same paths and throws on the same runs. *)
Theorem output_paths_of_a_run (workflow : Workflow) :
  match loadAllOutputPathsWithStepNames workflow with
  | Ok entries =>
      ¬ task_run_finds_inherited_member workflow
      ∧ ∀ e, e ∈ entries ↔ output_path_of workflow (stepName e) (path e)
  | Throw x => x = TypeError ∧ task_run_finds_inherited_member workflow
  end
  ∧ match loadAllOutputPaths workflow with
    | Ok paths =>
        ¬ task_run_finds_inherited_member workflow
        ∧ ∀ p, p ∈ paths ↔ ∃ name, output_path_of workflow name p
    | Throw x => x = TypeError ∧ task_run_finds_inherited_member workflow
    end.
Proof.
  assert (H1 : match loadAllOutputPathsWithStepNames workflow with
               | Ok entries =>
                   ¬ task_run_finds_inherited_member workflow
                   ∧ ∀ e, e ∈ entries
                          ↔ output_path_of workflow (stepName e) (path e)
               | Throw x =>
                   x = TypeError ∧ task_run_finds_inherited_member workflow
               end).
  { unfold loadAllOutputPathsWithStepNames, task_run_finds_inherited_member,
      output_path_of.
    destruct (status workflow) as [st|].
    2:{ split; [now intros (? & ? & ? & ? & ? & _)|]. intros e.
        split; [intros H; now apply elem_of_nil in H|].
        now intros (? & ? & ? & ? & ? & ? & ? & ? & ? & ? & ? & ? & _). }
    destruct (taskRuns st) as [records|] eqn:Hr.
    2:{ split; [intros (? & ? & ? & ? & [= <-] & ? & _); congruence|].
        intros e. split; [intros H; now apply elem_of_nil in H|].
        intros (? & ? & ? & ? & ? & ? & ? & ? & ? & ? & ? & [= <-] & ? & _).
        congruence. }
    destruct (collect _ records) as [entries|x] eqn:Ec.
    - split.
      + intros (st' & records' & k & rec & [= <-] & Hr' & Hin & Hf).
        rewrite Hr in Hr'. injection Hr' as <-.
        destruct (collect_defined _ _ _ (k, rec) Ec Hin) as [bs Hbs].
        simpl in Hbs.
        pose proof (loadNodeOutputPaths_cases rec workflow) as Hc.
        destruct (loadNodeOutputPaths rec workflow) as [paths|];
          [|discriminate]. now destruct Hc.
      + intros e. rewrite (collect_elem _ _ _ Ec e). split.
        * intros ([k rec] & bs & Hin & Hbs & He). simpl in Hbs.
          pose proof (loadNodeOutputPaths_cases rec workflow) as Hc.
          destruct (loadNodeOutputPaths rec workflow) as [paths|];
            [|discriminate]. simpl in Hbs. injection Hbs as <-.
          apply list_elem_of_fmap in He as (p & -> & Hp). simpl.
          apply (proj2 Hc) in Hp
            as (md & a & art & key & Hmd & Ha & Ht & Hui & Hpath).
          exists md, a, st, records, k, rec, art, key.
          do 8 (split; [first [reflexivity | assumption]|]). exact Hpath.
        * intros (md & a & st' & records' & k & rec & art & key & Hmd & Ha
                  & Ht & [= <-] & Hr' & Hin & Hstep & Hui & Hpath).
          rewrite Hr in Hr'. injection Hr' as <-.
          destruct (collect_defined _ _ _ (k, rec) Ec Hin) as [bs Hbs].
          exists (k, rec), bs. split; [exact Hin|]. split; [exact Hbs|].
          simpl in Hbs.
          pose proof (loadNodeOutputPaths_cases rec workflow) as Hc.
          destruct (loadNodeOutputPaths rec workflow) as [paths|];
            [|discriminate]. simpl in Hbs. injection Hbs as <-.
          apply list_elem_of_fmap. exists (path e).
          split; [destruct e; simpl in *; now subst|].
          apply (proj2 Hc). exists md, a, art, key.
          do 4 (split; [first [reflexivity | assumption]|]). exact Hpath.
    - apply collect_throw_inv in Ec as ([k rec] & Hin & Hf). simpl in Hf.
      pose proof (loadNodeOutputPaths_cases rec workflow) as Hc.
      destruct (loadNodeOutputPaths rec workflow) as [paths|y];
        [discriminate|]. simpl in Hf. injection Hf as <-.
      destruct Hc as [-> Hc]. split; [reflexivity|].
      now exists st, records, k, rec. }
  split; [exact H1|]. unfold loadAllOutputPaths.
  destruct (loadAllOutputPathsWithStepNames workflow) as [entries|x];
    simpl; [|exact H1].
  destruct H1 as [Hno He]. split; [exact Hno|]. intros p.
  rewrite list_elem_of_fmap. split.
  - intros (e & -> & Hin). exists (stepName e). now apply He.
  - intros (name & Hp). exists {| stepName := name; path := p |}.
    split; [reflexivity|]. now apply He.
Qed.

End OutputPaths.

(** ** Output paths and output artifacts *)
Section PathsAndArtifacts.

Context {NodePhase : NodePhaseEnum} {Inheritance : Prototypes}.

Lemma found_record nodeId st found taskName taskStatus :
  findTaskRun nodeId (records_of (taskRuns st)) ("", SUCCEEDED) = Ok found →
  findRun nodeId (records_of (runs st)) found = Ok (taskName, taskStatus) →
  taskName ≠ "" →
  ∃ rec, node_record st nodeId rec
         ∧ getStatus (Some rec) = Ok taskStatus
         ∧ pipelineTaskName rec = taskName.
Proof.
  intros Hf Hr Hne.
  apply findRun_inv in Hr as [Hr|(k & rec & r & Hin & Hs & Hn & Hg & Hr)].
  - subst found.
    apply findTaskRun_inv in Hf
      as [Hf|(k & rec & s & r & Hin & Hs & Hn & Hg & Hf)].
    + injection Hf as Hf _. contradiction.
    + injection Hf as -> ->. exists rec. split; [|now split].
      left. now exists k, s.
  - injection Hr as -> ->. exists rec. split; [|now split].
    right. now exists k.
Qed.

(** X14. Without a cached run, the path under which the UI metadata of a
    node is loaded is the location listed among the node's output
    artifacts: when the artifacts of a node are returned, the output paths
    of the matched record are loaded without an exception, and every one
    of them has the key, and the bucket, of an output artifact returned
    under the name of the UI metadata. *)
Theorem ui_metadata_path_is_an_output_artifact (workflow : Workflow)
    (nodeId cached : option string)
    (inputs outputs : list (string * S3Artifact)) :
  getNodeInputOutputArtifacts workflow nodeId cached = Ok (inputs, outputs) →
  outputs ≠ [] →
  cached = None ∨ cached = Some "" →
  ∃ st rec paths,
    status workflow = Some st ∧ node_record st nodeId rec
    ∧ loadNodeOutputPaths rec workflow = Ok paths
    ∧ ∀ p, p ∈ paths →
           ∃ art, ("mlpipeline-ui-metadata", art) ∈ outputs
                  ∧ s3_key art = key p
                  ∧ default "" (s3_bucket art) = default "" (bucket p).
Proof.
  intros H Hout Hcached.
  apply getNodeInputOutputArtifacts_found in H
    as [[_ ->]|(md & a & st & found & taskName & taskStatus & Hmd & Ha & Hst
                & Hf & Hr & Hne & _ & [->|(raw & Hraw & Hfin & Hm)])];
    try contradiction.
  destruct (found_record _ _ _ _ _ Hf Hr Hne) as (rec & Hnode & _ & <-).
  pose proof (loadNodeOutputPaths_cases rec workflow) as Hcases.
  destruct (loadNodeOutputPaths rec workflow) as [paths|x] eqn:El.
  2:{ destruct Hcases as (_ & md' & a' & parsed & Hmd' & Ha' & _ & Hp & Hn & _).
      rewrite Hmd in Hmd'. injection Hmd' as <-.
      rewrite Ha in Ha'. injection Ha' as <-.
      rewrite Hp in Hraw. simpl in Hraw. congruence. }
  exists st, rec, paths. split; [exact Hst|]. split; [exact Hnode|].
  split; [exact El|].
  intros p Hp. apply (proj2 Hcases) in Hp
    as (md' & a' & artifact & k & Hmd' & Ha' & Ht
        & (d & Hd & Hin & Hname & Hk & Hkne) & (Hp1 & Hp2 & _)).
  rewrite Hmd in Hmd'. injection Hmd' as <-.
  rewrite Ha in Ha'. injection Ha' as <-.
  rewrite Hraw in Hd. injection Hd as <-.
  destruct (mapR_defined _ _ _ artifact Hm Hin) as ([n art] & Hx & Hin').
  unfold outputArtifact in Hx. rewrite Hk in Hx. simpl in Hx.
  destruct (tasks (pipelineSpec (spec workflow))) as [ts|]; simpl in Hx;
    [|discriminate].
  injection Hx as <- <-. exists (artifactTemplate a
    (Js.replace k "$PIPELINERUN"
       (pipelineRunIDFor (md_name md) ts (Js.split "/" k !! 2%nat) cached))).
  rewrite Hname in Hin'. split; [exact Hin'|]. simpl.
  rewrite Hp1, Hp2. split; [|reflexivity]. f_equal.
  apply pipelineRunIDFor_spec. tauto.
Qed.

End PathsAndArtifacts.

(** ** Runs on which the builder does not throw *)
Section WellFormedRuns.

Context {NodePhase : NodePhaseEnum}.

Lemma readable_record_erase (rec rec' : RunRecord) :
  eraseRecord rec = eraseRecord rec' → readable_record rec →
  readable_record rec'.
Proof.
  intros He (s & Hs & Hc & Hp).
  destruct rec as [n o id], rec' as [n' o' id']. simpl in Hs. subst o.
  injection He as _ He. destruct o' as [s'|]; [|discriminate].
  injection He as H1 H2 H3 H4 H5 H6.
  exists s'. split; [reflexivity|]. split; [congruence|].
  intros ts' Hts'. rewrite Hts' in H4.
  destruct (taskSpec s) as [ts|] eqn:Ets; [|discriminate].
  destruct (Hp ts eq_refl) as [ps Hps].
  simpl in H4. unfold eraseTaskSpec in H4. injection H4 as H4.
  rewrite Hps in H4. destruct (sts_params ts'); [eauto | discriminate].
Qed.

Lemma statusMap_get_transfer sm st st' name rec' :
  same_reads st st' → statusMap_get sm st' name = Some rec' →
  ∃ rec, statusMap_get sm st name = Some rec
         ∧ eraseRecord rec = eraseRecord rec'.
Proof.
  intros Hs Hg. pose proof (statusMap_get_same sm st st' name Hs) as H.
  rewrite Hg in H. destruct (statusMap_get sm st name) as [rec|];
    [|discriminate].
  exists rec. split; [reflexivity|]. simpl in H. congruence.
Qed.

Lemma readable_index_same sm st st' :
  same_reads st st' → readable_index sm st → readable_index sm st'.
Proof.
  intros Hs H name rec' Hg.
  destruct (statusMap_get_transfer _ _ _ _ _ Hs Hg) as (rec & Hr & He).
  exact (readable_record_erase _ _ He (H name rec Hr)).
Qed.

Lemma first_condition_defined_same sm st st' p :
  same_reads st st' → first_condition_defined sm st p →
  first_condition_defined sm st' p.
Proof.
  intros Hs H rec' Hg.
  destruct (statusMap_get_transfer _ _ _ _ _ Hs Hg) as (rec & Hr & He).
  destruct (H rec Hr) as (s & c & cs & Hst & Hc).
  destruct (eraseRecord_status_inv rec rec' s (eq_sym He) Hst)
    as (s' & Hs' & _ & Hc').
  exists s', c, cs. split; [exact Hs' | congruence].
Qed.

Lemma taskIdOf_total sm st n :
  readable_index sm st → ∃ id, taskIdOf sm st n = Ok id.
Proof.
  intros H. unfold taskIdOf.
  destruct (statusMap_get sm st (Some n)) as [rec|] eqn:Eg; [|eauto].
  destruct (H _ _ Eg) as (s & -> & _). simpl. eauto.
Qed.

Lemma componentIdOf_total sm st name :
  readable_index sm st → ∃ id, componentIdOf sm st name = Ok id.
Proof.
  intros H. unfold componentIdOf.
  destruct (statusMap_get sm st name) as [rec|] eqn:Eg; [|eauto].
  destruct (H _ _ Eg) as (s & -> & _). simpl. eauto.
Qed.

Lemma resolveParam_total sm pps edgeChild v sp st :
  readable_index sm st → ∃ r, resolveParam sm pps edgeChild v sp st = Ok r.
Proof.
  intros H. unfold resolveParam.
  destruct (negb (Js.truthy (task sp))); [eauto|].
  destruct (statusMap_get sm st (task sp)) as [rec|] eqn:Eg; [|eauto].
  destruct (H _ _ Eg) as (s & Hs & Hc & _). rewrite Hs. simpl.
  destruct (conditions s) as [[|c cs]|]; [contradiction| |eauto].
  simpl. destruct (String.eqb (cond_type c) "Succeeded"); eauto.
Qed.

Lemma writeBack_total sm component p v st :
  readable_index sm st → ∃ st1, writeBack sm component p v st = Ok st1.
Proof.
  intros H. unfold writeBack.
  destruct (statusMap_ref sm (c_name component)) as [ref|] eqn:Er; [|eauto].
  destruct (deref st ref) as [rec|] eqn:Ed; [|eauto].
  assert (Hg : statusMap_get sm st (c_name component) = Some rec)
    by (unfold statusMap_get; now rewrite Er).
  destruct (H _ _ Hg) as (s & -> & _ & Hp). simpl.
  destruct (taskSpec s) as [ts|]; [|eauto].
  destruct (Hp ts eq_refl) as [ps ->]. simpl. eauto.
Qed.

Lemma checkParam_total sm pps component edgeChild p st :
  readable_index sm st → is_Some (nv_value p) →
  ∃ es st1, checkParam sm pps component edgeChild p st = Ok (es, st1).
Proof.
  intros H [v Hv]. unfold checkParam. rewrite Hv. simpl.
  destruct (decodeParam_total v) as [sp ->]. simpl.
  match goal with
  | |- context [resolveParam ?a ?b ?c ?d ?e ?f] =>
      destruct (resolveParam_total a b c d e f H) as [[es v'] ->]
  end.
  simpl.
  destruct (writeBack_total sm component p v' st H) as [st1 ->]. simpl.
  eauto.
Qed.

Lemma checkParamsLoop_total sm pps component edgeChild ps :
  ∀ st, readable_index sm st → Forall (λ p, is_Some (nv_value p)) ps →
        ∃ es st1,
          checkParamsLoop sm pps component edgeChild ps st = Ok (es, st1).
Proof.
  induction ps as [|p ps IH]; intros st H Hv; simpl; [eauto|].
  apply Forall_cons in Hv as [Hp Hv].
  destruct (checkParam_total sm pps component edgeChild p st H Hp)
    as (es & st1 & E). rewrite E. simpl.
  apply checkParam_preserve in E.
  destruct (IH st1 (readable_index_same _ _ _ E H) Hv) as (es' & st2 & ->).
  simpl. eauto.
Qed.

Lemma checkParams_total sm pps component ownerTask st :
  readable_index sm st → bindings_have_values (c_params component) →
  ∃ es st1, checkParams sm pps component ownerTask st = Ok (es, st1).
Proof.
  intros H Hv. unfold checkParams.
  destruct (componentIdOf_total sm st (c_name component) H) as [cid Ec].
  destruct (negb (String.eqb ownerTask "")); simpl.
  - now apply checkParamsLoop_total.
  - rewrite Ec. simpl. now apply checkParamsLoop_total.
Qed.

Lemma conditionsEdges_total sm pps taskId conds :
  ∀ st, readable_index sm st →
        Forall (λ c, bindings_have_values (c_params c)) conds →
        ∃ es st1, conditionsEdges sm pps taskId conds st = Ok (es, st1).
Proof.
  induction conds as [|c conds IH]; intros st H Hv; simpl; [eauto|].
  apply Forall_cons in Hv as [Hc Hv].
  destruct (checkParams_total sm pps c taskId st H Hc) as (es & st1 & E).
  rewrite E. simpl. apply checkParams_preserve in E.
  destruct (IH st1 (readable_index_same _ _ _ E H) Hv) as (es' & st2 & ->).
  simpl. eauto.
Qed.

Lemma collect_total {A B : Type} (f : A → Result (list B)) (l : list A) :
  (∀ a, a ∈ l → ∃ bs, f a = Ok bs) → ∃ bs, collect f l = Ok bs.
Proof.
  induction l as [|a l IH]; intros H; simpl; [eauto|].
  destruct (H a (list_elem_of_here _ _)) as [bs ->]. simpl.
  destruct IH as [bs' ->]; [|simpl; eauto].
  intros b Hb. apply H. now apply list_elem_of_further.
Qed.

Lemma edgeFromRecord_total sm st taskId name :
  readable_index sm st →
  ∃ es, edgeFromRecord taskId (statusMap_get sm st name) = Ok es.
Proof.
  intros H. unfold edgeFromRecord.
  destruct (statusMap_get sm st name) as [rec|] eqn:Eg; [|eauto].
  destruct (H _ _ Eg) as (s & Hs & _). unfold podOrTaskName. rewrite Hs.
  simpl. eauto.
Qed.

Lemma whenEdges_total sm st taskId whens :
  readable_index sm st → ∃ es, whenEdges sm st taskId whens = Ok es.
Proof.
  intros H. unfold whenEdges. apply collect_total. intros w _.
  unfold whenParent. destruct (decodeParam_total (when_input w)) as [prm ->].
  simpl. destruct (Js.truthy (task prm)); [|simpl; eauto].
  apply edgeFromRecord_total, H.
Qed.

Lemma anyTaskEdges_total sm st taskId args :
  readable_index sm st →
  ∀ b1 b2, ∃ es, anyTaskEdges sm st taskId args b1 b2 = Ok es.
Proof.
  intros H. induction args as [|arg rest IH]; intros b1 b2; simpl; [eauto|].
  destruct (String.eqb arg "--taskList"); [apply IH|].
  destruct (String.eqb arg "-c"); [apply IH|].
  destruct b1.
  - destruct (collect_total
                (λ parentTask,
                   edgeFromRecord taskId
                     (statusMap_get sm st (Some parentTask)))
                (Js.split "," arg)) as [es ->].
    { intros p _. apply edgeFromRecord_total, H. }
    simpl. destruct (IH false b2) as [es' ->]. simpl. eauto.
  - destruct b2; [|apply IH].
    destruct (edgeFromRecord_total sm st taskId
                (Some (conditionArgTask arg)) H) as [es ->].
    simpl. destruct (IH false false) as [es' ->]. simpl. eauto.
Qed.

Lemma runAfterEdges_total sm st taskId t :
  (∀ p, p ∈ default [] (runAfter t) → first_condition_defined sm st p) →
  ∃ es, runAfterEdges sm st taskId t = Ok es.
Proof.
  intros H. unfold runAfterEdges. apply collect_total. intros p Hp.
  unfold runAfterEdge.
  destruct (statusMap_get sm st (Some p)) as [rec|] eqn:Eg; [|eauto].
  destruct (H p Hp rec Eg) as (s & c & cs & Hs & Hc).
  rewrite Hs. simpl. rewrite Hc. simpl. eauto.
Qed.

Lemma getStatus_total sm st name :
  readable_index sm st →
  ∃ reason, getStatus (statusMap_get sm st name) = Ok reason.
Proof.
  intros H. unfold getStatus.
  destruct (statusMap_get sm st name) as [rec|] eqn:Eg; [|eauto].
  destruct (H _ _ Eg) as (s & -> & Hc & _).
  destruct (conditions s) as [[|c cs]|]; [contradiction| |eauto].
  simpl. eauto.
Qed.

Lemma drawTask_total ctx t taskId e1 e2 st :
  readable_index (statusMap ctx) st →
  (∀ p, p ∈ default [] (runAfter t) →
        first_condition_defined (statusMap ctx) st p) →
  ∃ o, drawTask ctx t taskId e1 e2 st = Ok o.
Proof.
  intros H Hr. unfold drawTask.
  destruct (whenEdges_total _ _ taskId (default [] (t_when t)) H) as [e3 ->].
  simpl.
  assert (Ha : ∃ d, match anyTaskArgs t with
                    | Some args =>
                        anyTaskEdges (statusMap ctx) st taskId args false false
                    | None => Ok []
                    end = Ok d).
  { destruct (anyTaskArgs t); [apply anyTaskEdges_total, H | eauto]. }
  destruct Ha as [d ->]. simpl.
  destruct (runAfterEdges_total _ _ taskId t Hr) as [e4 ->]. simpl.
  assert (Hs : ∃ status,
            (if negb (bool_decide (t_name t ∈ conditionTasks ctx))
             then getStatus (statusMap_get (statusMap ctx) st
                               (Some (t_name t)))
             else if bool_decide (t_name t ∈ skipped ctx)
                  then Ok CONDITIONCHECKFAILED else Ok PENDING) = Ok status).
  { destruct (negb _); [apply getStatus_total, H|].
    destruct (bool_decide _); eauto. }
  destruct Hs as [status ->]. simpl.
  destruct (statusMap_get (statusMap ctx) st (Some (t_name t)))
    as [rec|] eqn:Eg; [|simpl; eauto].
  destruct (H _ _ Eg) as (s & -> & _). simpl. eauto.
Qed.

Lemma taskOutput_total ctx t st :
  readable_index (statusMap ctx) st →
  (∀ p, p ∈ default [] (runAfter t) →
        first_condition_defined (statusMap ctx) st p) →
  bindings_have_values (t_params t) →
  Forall (λ c, bindings_have_values (c_params c))
         (default [] (t_conditions t)) →
  ∃ o, outputOf ctx st t = Ok o.
Proof.
  intros H Hr Hp Hc. unfold outputOf, taskOutput.
  destruct (taskIdOf_total _ _ (t_name t) H) as [tid ->]. simpl.
  destruct (checkParams_total _ (pipelineParams ctx) (task_component t) ""
              st H Hp) as (e1 & s1 & E1).
  rewrite E1. simpl. apply checkParams_preserve in E1.
  pose proof (readable_index_same _ _ _ E1 H) as H1.
  destruct (conditionsEdges_total _ (pipelineParams ctx) tid
              (default [] (t_conditions t)) s1 H1 Hc) as (e2 & s2 & E2).
  rewrite E2. simpl. apply conditionsEdges_preserve in E2.
  assert (H12 : same_reads st s2) by (eapply same_reads_trans; eassumption).
  destruct (drawTask_total ctx t tid e1 e2 s2
              (readable_index_same _ _ _ H12 H)) as [o ->]; [|simpl; eauto].
  intros p Hin. eapply first_condition_defined_same; [exact H12|].
  now apply Hr.
Qed.

Lemma mapR_total {A B : Type} (f : A → Result B) (l : list A) :
  (∀ a, a ∈ l → ∃ b, f a = Ok b) → ∃ bs, mapR f l = Ok bs.
Proof.
  induction l as [|a l IH]; intros H; simpl; [eauto|].
  destruct (H a (list_elem_of_here _ _)) as [b ->]. simpl.
  destruct IH as [bs ->]; [|simpl; eauto].
  intros x Hx. apply H. now apply list_elem_of_further.
Qed.

(** A record reached through the index is a record of the document with
    its key written in. *)
Lemma index_origin st name rec :
  statusMap_get (buildStatusMap st) (stamped st) name = Some rec →
  ∃ n k rec0,
    name = Some n ∧ (k, rec0) ∈ all_records st
    ∧ pipelineTaskName rec0 = n
    ∧ pipelineTaskName rec = n
    ∧ rr_status rec = rr_status rec0
    ∧ is_Some (rr_status rec0).
Proof.
  unfold statusMap_get, statusMap_ref. destruct name as [n|]; [|discriminate].
  simpl. rewrite (buildStatusMap_lookup st n).
  unfold all_records.
  destruct (lastFiled n (records_of (runs st))) as [j|] eqn:E1.
  - simpl. apply lastFiled_Some in E1 as [(k & rec0 & Hj & Hq) _].
    destruct (filed_under_inv n rec0 Hq) as [Hn [s Hs]].
    unfold stamped. simpl.
    destruct (runs st) as [l|]; simpl in *; [|discriminate].
    rewrite (stamped_lookup l j k rec0 Hj). simpl. intros [= <-].
    exists n, k, rec0. simpl. split; [reflexivity|].
    split; [apply elem_of_app; right; eapply list_elem_of_lookup_2, Hj|].
    rewrite Hs. repeat split; eauto.
  - destruct (lastFiled n (records_of (taskRuns st))) as [j|] eqn:E2;
      [|discriminate].
    simpl. apply lastFiled_Some in E2 as [(k & rec0 & Hj & Hq) _].
    destruct (filed_under_inv n rec0 Hq) as [Hn [s Hs]].
    unfold stamped. simpl.
    destruct (taskRuns st) as [l|]; simpl in *; [|discriminate].
    rewrite (stamped_lookup l j k rec0 Hj). simpl. intros [= <-].
    exists n, k, rec0. simpl. split; [reflexivity|].
    split; [apply elem_of_app; left; eapply list_elem_of_lookup_2, Hj|].
    rewrite Hs. repeat split; eauto.
Qed.

(** X16. On a well-formed run the builder does not throw: when the
    document has a status in which no record holds an empty list of
    conditions and every recorded task specification holds a list of
    parameters, the records of every task that another is ordered after
    have conditions, and every parameter binding has a value, the call
    returns a graph. *)
Theorem createRuntimeGraph_total_on_well_formed_runs (workflow : Workflow)
    (st : Status) :
  status workflow = Some st → well_formed_run workflow st →
  ∃ graph workflow', createRuntimeGraph workflow = Ok (graph, workflow').
Proof.
  intros Hst (Hrec & Hafter & Hvals).
  destruct (noStatusYet workflow) eqn:Hpast.
  { unfold createRuntimeGraph. rewrite Hpast. eauto. }
  pose proof (createRuntimeGraph_outputs workflow st st Hst Hpast
                eq_refl eq_refl (same_reads_refl _)) as H.
  cbv zeta in H.
  destruct (createRuntimeGraph workflow) as [[graph workflow']|x]; [eauto|].
  exfalso.
  assert (Hidx : readable_index (buildStatusMap st) (stamped st)).
  { intros name rec Hg.
    destruct (index_origin _ _ _ Hg) as (n & k & rec0 & _ & Hin & _ & _ & Hs
                                         & [s Hs0]).
    rewrite Forall_forall in Hrec.
    destruct (Hrec _ Hin s Hs0) as [Hc Hp].
    exists s. split; [congruence|]. now split. }
  assert (Hpar : ∀ t, t ∈ allTasks workflow →
            ∀ p, p ∈ default [] (runAfter t) →
                 first_condition_defined (buildStatusMap st) (stamped st) p).
  { intros t Ht p Hp rec Hg.
    destruct (index_origin _ _ _ Hg) as (n & k & rec0 & [= <-] & Hin & Hn & _
                                         & Hs & [s Hs0]).
    rewrite Forall_forall in Hafter. specialize (Hafter t Ht).
    rewrite Forall_forall in Hafter. specialize (Hafter p Hp).
    unfold has_conditions in Hafter. rewrite Forall_forall in Hafter.
    pose proof (Hafter _ Hin Hn s Hs0) as Hc.
    rewrite Forall_forall in Hrec. destruct (Hrec _ Hin s Hs0) as [Hne _].
    exists s. destruct (conditions s) as [[|c cs]|]; try contradiction.
    exists c, cs. split; [congruence | reflexivity]. }
  unfold outputsOf in H.
  destruct (mapR_total
              (outputOf
                 (contextOf workflow st
                    (t_name <$> List.filter
                       (isConditionTask (buildStatusMap st) (stamped st))
                       (allTasks workflow))) (stamped st))
              (List.filter
                 (materialized
                    (contextOf workflow st
                       (t_name <$> List.filter
                          (isConditionTask (buildStatusMap st) (stamped st))
                          (allTasks workflow))) (stamped st))
                 (allTasks workflow))) as [outs Ho]; [|congruence].
  intros t Ht. apply elem_of_filter_bool in Ht as [Ht _].
  rewrite Forall_forall in Hvals. destruct (Hvals t Ht) as [Hp Hc].
  apply taskOutput_total; [exact Hidx | now apply Hpar | exact Hp | exact Hc].
Qed.

End WellFormedRuns.

(** ** Looking a pod up after the graph is built *)
Section PodLookup.

Context {NodePhase : NodePhaseEnum}.

Lemma firstTaskRunOfPod_spec (pod : string)
    (records : list (string * RunRecord)) :
  match firstTaskRunOfPod pod records with
  | Some rec =>
      ∃ i k s, records !! i = Some (k, rec) ∧ rr_status rec = Some s
               ∧ podName s = Some pod
               ∧ ∀ j k' rec' s', (j < i)%nat → records !! j = Some (k', rec') →
                                 rr_status rec' = Some s' →
                                 podName s' ≠ Some pod
  | None =>
      ∀ i k rec s, records !! i = Some (k, rec) → rr_status rec = Some s →
                   podName s ≠ Some pod
  end.
Proof.
  induction records as [|[k rec] l IH]; simpl.
  - intros i k rec s Hi. discriminate.
  - assert (Hskip :
      (∀ s, rr_status rec = Some s → podName s ≠ Some pod) →
      match firstTaskRunOfPod pod l with
      | Some rec0 =>
          ∃ i k0 s, ((k, rec) :: l) !! i = Some (k0, rec0)
                    ∧ rr_status rec0 = Some s ∧ podName s = Some pod
                    ∧ ∀ j k' rec' s', (j < i)%nat →
                        ((k, rec) :: l) !! j = Some (k', rec') →
                        rr_status rec' = Some s' → podName s' ≠ Some pod
      | None =>
          ∀ i k0 rec0 s, ((k, rec) :: l) !! i = Some (k0, rec0) →
                         rr_status rec0 = Some s → podName s ≠ Some pod
      end).
    { intros Hrec. destruct (firstTaskRunOfPod pod l) as [rec0|].
      - destruct IH as (i & k0 & s & Hi & Hs & Hp & Hfirst).
        exists (S i), k0, s. split; [exact Hi|]. split; [exact Hs|].
        split; [exact Hp|]. intros [|j] k' rec' s' Hlt Hj Hs'.
        + injection Hj as <- <-. now apply Hrec.
        + apply (Hfirst j k' rec' s'); [lia | exact Hj | exact Hs'].
      - intros [|i] k0 rec0 s Hi Hs.
        + injection Hi as <- <-. now apply Hrec.
        + exact (IH i k0 rec0 s Hi Hs). }
    destruct (rr_status rec) as [s|] eqn:Es; [|apply Hskip; discriminate].
    destruct (bool_decide (podName s = Some pod)) eqn:Eb.
    + apply bool_decide_eq_true in Eb. exists 0%nat, k, s.
      split; [reflexivity|]. split; [exact Es|]. split; [exact Eb|].
      intros j k' rec' s' Hlt. lia.
    + apply bool_decide_eq_false in Eb. apply Hskip.
      intros s0 [= <-]. exact Eb.
Qed.

Lemma eraseStatus_podName (o o' : option RunStatus) (s : RunStatus) :
  eraseStatus <$> o' = eraseStatus <$> o → o = Some s →
  ∃ s', o' = Some s' ∧ podName s' = podName s.
Proof.
  intros He ->. destruct o' as [s'|]; [|discriminate].
  injection He as H _. now exists s'.
Qed.

(** X15. After the graph of a run is built, looking a pod up in the
    document the builder leaves does not throw. The record it returns is
    the first task run, in the order of the run's own document, whose
    status has that pod name, and it carries its key as [taskRunId]; it
    returns nothing exactly when no task run of the run has that pod name.
    Custom runs are never returned. *)
Theorem getTaskRunStatusFromPodName_after_build (workflow : Workflow)
    (st : Status) (graph : Graph) (workflow' : Workflow) (pod : string) :
  status workflow = Some st → noStatusYet workflow = false →
  createRuntimeGraph workflow = Ok (graph, workflow') →
  ∃ r,
    getTaskRunStatusFromPodName workflow' pod = Ok r
    ∧ match r with
      | Some rec' =>
          ∃ i k rec s,
            records_of (taskRuns st) !! i = Some (k, rec)
            ∧ rr_status rec = Some s ∧ podName s = Some pod
            ∧ (∀ j k0 rec0 s0, (j < i)%nat →
                 records_of (taskRuns st) !! j = Some (k0, rec0) →
                 rr_status rec0 = Some s0 → podName s0 ≠ Some pod)
            ∧ taskRunId rec' = Some k
            ∧ pipelineTaskName rec' = pipelineTaskName rec
            ∧ eraseStatus <$> rr_status rec' = eraseStatus <$> rr_status rec
      | None =>
          ∀ i k rec s,
            records_of (taskRuns st) !! i = Some (k, rec) →
            rr_status rec = Some s → podName s ≠ Some pod
      end.
Proof.
  intros Hst Hpast Hrun.
  destruct (written_document workflow st graph workflow' Hst Hpast Hrun)
    as (st' & -> & _ & Ht & _).
  unfold getTaskRunStatusFromPodName. simpl.
  exists (firstTaskRunOfPod pod (records_of (taskRuns st'))).
  split; [reflexivity|].
  pose proof (firstTaskRunOfPod_spec pod (records_of (taskRuns st'))) as H.
  destruct (firstTaskRunOfPod pod (records_of (taskRuns st'))) as [rec'|].
  - destruct H as (i & k & s' & Hi & Hs' & Hp & Hfirst).
    destruct (proj1 (values_only_lookup _ _ i k Ht) rec' Hi)
      as (rec & Hrec & Hid & Hn & He).
    destruct (eraseStatus_podName _ _ s' (eq_sym He) Hs') as (s & Hs & Hps).
    exists i, k, rec, s. split; [exact Hrec|]. split; [exact Hs|].
    split; [congruence|]. split; [|now repeat split].
    intros j k0 rec0 s0 Hlt Hj Hs0.
    destruct (proj2 (values_only_lookup _ _ j k0 Ht) rec0 Hj)
      as (rec0' & Hrec0' & _ & _ & He0).
    destruct (eraseStatus_podName _ _ s0 He0 Hs0) as (s0' & Hs0' & Hp0).
    rewrite <- Hp0. exact (Hfirst j k0 rec0' s0' Hlt Hrec0' Hs0').
  - intros i k rec s Hi Hs.
    destruct (proj2 (values_only_lookup _ _ i k Ht) rec Hi)
      as (rec' & Hrec' & _ & _ & He).
    destruct (eraseStatus_podName _ _ s He Hs) as (s' & Hs' & Hp).
    rewrite <- Hp. exact (H i k rec' s' Hrec' Hs').
Qed.

End PodLookup.

(** ** Outbound nodes *)
Section OutboundNodes.

Variables (graph : NodesWorkflow) (ns : gmap string NodeStatus).
Hypothesis Hnodes : nw_status graph ≫= nodes = Some ns.

Let visit (depth : nat) (outbound : option (list string))
    (outboundNodeID : string) : option (list string) :=
  acc ← outbound;
  match ns !! outboundNodeID with
  | Some outNode =>
      if String.eqb (ns_type outNode) "Pod"
      then Some (acc ++ [outboundNodeID])
      else more ← getOutboundNodes depth graph outboundNodeID;
           Some (acc ++ more)
  | None =>
      more ← getOutboundNodes depth graph outboundNodeID; Some (acc ++ more)
  end.

Lemma getOutboundNodes_unfold (depth : nat) (nodeId : string) :
  getOutboundNodes (S depth) graph nodeId
  = match ns !! nodeId with
    | None => Some []
    | Some node =>
        if String.eqb (ns_type node) "Pod" then Some [ns_id node]
        else foldl (visit depth) (Some []) (default [] (outboundNodes node))
    end.
Proof. simpl. now rewrite Hnodes. Qed.

Lemma visit_none depth l : foldl (visit depth) None l = None.
Proof. induction l as [|x l IH]; [reflexivity | exact IH]. Qed.

Lemma visit_elem depth l :
  (∀ m ids, getOutboundNodes depth graph m = Some ids →
            ns !! m = None ∨ (∃ out, ns !! m = Some out
                                     ∧ ns_type out ≠ "Pod") →
            ∀ id, id ∈ ids → is_pod ns id) →
  ∀ acc ids, foldl (visit depth) (Some acc) l = Some ids →
             (∀ id, id ∈ acc → is_pod ns id) →
             ∀ id, id ∈ ids → is_pod ns id.
Proof.
  intros Hrec. induction l as [|x l IH]; intros acc ids; simpl.
  - intros [= <-] Hacc. exact Hacc.
  - destruct (ns !! x) as [out|] eqn:Ex.
    + destruct (String.eqb (ns_type out) "Pod") eqn:Et.
      * intros H Hacc. apply (IH _ _ H). intros id Hid.
        apply elem_of_app in Hid as [Hid|Hid]; [now apply Hacc|].
        apply list_elem_of_singleton in Hid as ->. exists out.
        split; [exact Ex | now apply String.eqb_eq].
      * destruct (getOutboundNodes depth graph x) as [more|] eqn:Em; simpl.
        -- intros H Hacc. apply (IH _ _ H). intros id Hid.
           apply elem_of_app in Hid as [Hid|Hid]; [now apply Hacc|].
           apply (Hrec x more Em); [|exact Hid]. right. exists out.
           split; [exact Ex | now apply String.eqb_neq].
        -- rewrite visit_none. discriminate.
    + destruct (getOutboundNodes depth graph x) as [more|] eqn:Em; simpl.
      * intros H Hacc. apply (IH _ _ H). intros id Hid.
        apply elem_of_app in Hid as [Hid|Hid]; [now apply Hacc|].
        apply (Hrec x more Em); [now left | exact Hid].
      * rewrite visit_none. discriminate.
Qed.

Lemma getOutboundNodes_pods depth :
  ∀ n ids, getOutboundNodes depth graph n = Some ids →
           ns !! n = None ∨ (∃ node, ns !! n = Some node
                                     ∧ ns_type node ≠ "Pod") →
           ∀ id, id ∈ ids → is_pod ns id.
Proof.
  induction depth as [|depth IH]; intros n ids; [discriminate|].
  rewrite getOutboundNodes_unfold.
  intros H [Hn|(node & Hn & Ht)]; rewrite Hn in H.
  - injection H as <-. intros id Hid. now apply elem_of_nil in Hid.
  - apply String.eqb_neq in Ht. rewrite Ht in H.
    apply (visit_elem depth _ IH [] ids H).
    intros id Hid. now apply elem_of_nil in Hid.
Qed.

Lemma visit_mono depth depth' l :
  (∀ m ids, getOutboundNodes depth graph m = Some ids →
            getOutboundNodes depth' graph m = Some ids) →
  ∀ acc ids, foldl (visit depth) acc l = Some ids →
             foldl (visit depth') acc l = Some ids.
Proof.
  intros Hrec. induction l as [|x l IH]; intros acc ids; simpl;
    [trivial|].
  intros H. apply IH.
  assert (Hv : visit depth acc x = visit depth' acc x
               ∨ visit depth acc x = None).
  { unfold visit. destruct acc as [acc|]; simpl; [|now left].
    destruct (ns !! x) as [out|].
    - destruct (String.eqb (ns_type out) "Pod"); [now left|].
      destruct (getOutboundNodes depth graph x) as [more|] eqn:Em;
        [|now right].
      left. now rewrite (Hrec x more Em).
    - destruct (getOutboundNodes depth graph x) as [more|] eqn:Em;
        [|now right].
      left. now rewrite (Hrec x more Em). }
  destruct Hv as [Hv|Hv]; [now rewrite <- Hv|].
  rewrite Hv, visit_none in H. discriminate.
Qed.

Lemma getOutboundNodes_mono depth :
  ∀ depth' n ids, (depth ≤ depth')%nat →
    getOutboundNodes depth graph n = Some ids →
    getOutboundNodes depth' graph n = Some ids.
Proof.
  induction depth as [|depth IH]; intros depth' n ids Hle; [discriminate|].
  destruct depth' as [|depth']; [lia|].
  rewrite !getOutboundNodes_unfold.
  destruct (ns !! n) as [node|]; [|trivial].
  destruct (String.eqb (ns_type node) "Pod"); [trivial|].
  apply visit_mono. intros m ids'. apply IH. lia.
Qed.

Lemma visit_total depth l :
  (∀ m, m ∈ l → ns !! m = None ∨ is_pod ns m
                ∨ ∃ ids, getOutboundNodes depth graph m = Some ids) →
  (0 < depth)%nat →
  ∀ acc, ∃ ids, foldl (visit depth) (Some acc) l = Some ids.
Proof.
  intros H Hpos. induction l as [|x l IH]; intros acc; simpl; [eauto|].
  assert (Hx : ∃ acc', visit depth (Some acc) x = Some acc').
  { unfold visit. simpl.
    destruct (H x (list_elem_of_here _ _)) as [Hn|[(out & Hn & Ht)|[ids E]]].
    - rewrite Hn. destruct depth as [|d]; [lia|].
      rewrite getOutboundNodes_unfold, Hn. simpl. eauto.
    - rewrite Hn. apply String.eqb_eq in Ht. rewrite Ht. eauto.
    - destruct (ns !! x) as [out|].
      + destruct (String.eqb (ns_type out) "Pod"); [eauto|].
        rewrite E. simpl. eauto.
      + rewrite E. simpl. eauto. }
  destruct Hx as [acc' Hx]. unfold visit in Hx. simpl in Hx.
  rewrite Hx. apply IH. intros m Hm. apply H. now apply list_elem_of_further.
Qed.

(** X17. The outbound nodes of a node are pods: for a pod the call
    returns the identity the node records, and for any other node every
    identity it returns is the key of a pod. The result does not depend on
    the depth allowed once that is enough, and a depth of the rank of the
    node plus two is enough when a rank decreases from each node that is
    not a pod to its outbound nodes that are not pods. *)
Theorem getOutboundNodes_pods_only (rank : string → nat) (n : string) :
  (∀ depth ids,
     getOutboundNodes depth graph n = Some ids →
     (∀ node, ns !! n = Some node → ns_type node = "Pod" →
              ids = [ns_id node])
     ∧ ((∀ node, ns !! n = Some node → ns_type node ≠ "Pod") →
        ∀ id, id ∈ ids → is_pod ns id)
     ∧ ∀ depth', (depth ≤ depth')%nat →
                 getOutboundNodes depth' graph n = Some ids)
  ∧ ((∀ a b, descends ns a b → (rank b < rank a)%nat) →
     ∃ ids, getOutboundNodes (rank n + 2) graph n = Some ids).
Proof.
  split.
  - intros depth ids H. split; [|split].
    + intros node Hn Ht. destruct depth as [|depth]; [discriminate|].
      rewrite getOutboundNodes_unfold, Hn in H.
      apply String.eqb_eq in Ht. rewrite Ht in H. congruence.
    + intros Hnp. apply (getOutboundNodes_pods depth n ids H).
      destruct (ns !! n) as [node|] eqn:Hn; [|now left].
      right. exists node. split; [reflexivity | now apply Hnp].
    + intros depth' Hle. exact (getOutboundNodes_mono depth depth' n ids Hle H).
  - intros Hrank.
    assert (Hall : ∀ r m, (rank m ≤ r)%nat →
              ∃ ids, getOutboundNodes (r + 2) graph m = Some ids).
    { induction r as [r IH] using lt_wf_ind. intros m Hm.
      replace (r + 2)%nat with (S (r + 1)) by lia.
      rewrite getOutboundNodes_unfold.
      destruct (ns !! m) as [node|] eqn:Em; [|eauto].
      destruct (String.eqb (ns_type node) "Pod") eqn:Et; [eauto|].
      apply String.eqb_neq in Et.
      apply visit_total; [|lia]. intros x Hx.
      destruct (ns !! x) as [out|] eqn:Ex; [|now left]. right.
      destruct (String.eqb (ns_type out) "Pod") eqn:Eo.
      - left. exists out. split; [exact Ex | now apply String.eqb_eq].
      - right. apply String.eqb_neq in Eo.
        assert (Hd : descends ns m x) by (now exists node, out).
        apply Hrank in Hd.
        destruct (IH (rank x) ltac:(lia) x (le_n _)) as [ids Hids].
        exists ids. apply (getOutboundNodes_mono (rank x + 2)); [lia|].
        exact Hids. }
    exact (Hall (rank n) n (le_n _)).
Qed.

Lemma visit_stuck depth l m :
  m ∈ l → (∀ out, ns !! m = Some out → ns_type out ≠ "Pod") →
  getOutboundNodes depth graph m = None →
  ∀ acc, foldl (visit depth) acc l = None.
Proof.
  intros Hin Hnp Hm. induction l as [|x l IH]; intros acc;
    [now apply elem_of_nil in Hin|].
  simpl. apply elem_of_cons in Hin as [<-|Hin]; [|now apply IH].
  assert (Hv : visit depth acc m = None).
  { unfold visit. destruct acc as [acc|]; [|reflexivity]. simpl.
    destruct (ns !! m) as [out|] eqn:Eo.
    - specialize (Hnp out eq_refl). apply String.eqb_neq in Hnp.
      rewrite Hnp, Hm. reflexivity.
    - now rewrite Hm. }
  rewrite Hv. apply visit_none.
Qed.

(** X18. On a cycle the call does not return. When every node of a set
    descends to a node of the set, a node that is not a pod to an outbound
    node that is not a pod, no depth is enough for a node of the set. *)
Theorem getOutboundNodes_cycle (inCycle : string → Prop) (n : string) :
  (∀ a, inCycle a → ∃ b, inCycle b ∧ descends ns a b) →
  inCycle n →
  ∀ depth, getOutboundNodes depth graph n = None.
Proof.
  intros Hclosed Hn depth. revert n Hn.
  induction depth as [|depth IH]; intros n Hn; [reflexivity|].
  destruct (Hclosed n Hn) as (b & Hb & node & out & En & Et & Hin & Eb & Eo).
  rewrite getOutboundNodes_unfold, En.
  apply String.eqb_neq in Et. rewrite Et.
  apply (visit_stuck depth _ b Hin); [|now apply IH].
  intros out' Hout'. congruence.
Qed.

End OutboundNodes.

(** ** The parameters of a node *)
Section NodeParamFacts.

Variable results : string → option (list NameValue).

Lemma taskRunParams_throws nodeId l :
  ∀ found k rec s,
    (k, rec) ∈ l → rr_status rec = Some s → podName s = nodeId →
    taskSpec s = None →
    ∃ x, taskRunParams nodeId l found = Throw x.
Proof.
  induction l as [|[k0 rec0] l IH]; intros found k rec s Hin Hs Hp Hts;
    [now apply elem_of_nil in Hin|].
  simpl. apply elem_of_cons in Hin as [Hin|Hin].
  - injection Hin as _ <-. rewrite Hs.
    rewrite bool_decide_eq_true_2 by exact Hp. rewrite Hts. simpl. eauto.
  - destruct (rr_status rec0) as [s0|]; [|now apply (IH _ k rec s)].
    destruct (bool_decide (podName s0 = nodeId)); [|now apply (IH _ k rec s)].
    destruct (taskSpec s0) as [ts0|]; simpl; [|eauto].
    now apply (IH _ k rec s).
Qed.

(** X19. Asking for the parameters of a node throws when a task run of
    its pod has a status without a recorded task specification. *)
Theorem getNodeInputOutputParams_without_taskSpec_throws
    (workflow : Workflow) (st : Status) (pod k : string) (rec : RunRecord)
    (s : RunStatus) :
  status workflow = Some st → pod ≠ "" →
  (k, rec) ∈ records_of (taskRuns st) →
  rr_status rec = Some s → podName s = Some pod → taskSpec s = None →
  ∃ x, getNodeInputOutputParams results workflow (Some pod) = Throw x.
Proof.
  intros Hst Hpod Hin Hs Hp Hts. unfold getNodeInputOutputParams.
  simpl. apply String.eqb_neq in Hpod. rewrite Hpod. simpl. rewrite Hst.
  destruct (taskRuns st) as [l|] eqn:Hl; simpl in *;
    [|now apply elem_of_nil in Hin].
  destruct (taskRunParams_throws (Some pod) l ([], []) k rec s Hin Hs Hp Hts)
    as [x ->].
  simpl. eauto.
Qed.

Lemma taskRunParams_only (pod : string) (rec : RunRecord) (s : RunStatus)
    (ts : StatusTaskSpec) (l : list (string * RunRecord)) :
  rr_status rec = Some s → taskSpec s = Some ts →
  (∀ k rec' s', (k, rec') ∈ l → rr_status rec' = Some s' →
                podName s' = Some pod → rec' = rec) →
  let target := (keyValues (default [] (sts_params ts)),
                 keyValues (default [] (taskResults s))) in
  ∀ found, found = ([], []) ∨ found = target →
    (taskRunParams (Some pod) l found = Ok found
     ∧ ∀ k rec' s', (k, rec') ∈ l → rr_status rec' = Some s' →
                    podName s' ≠ Some pod)
    ∨ taskRunParams (Some pod) l found = Ok target.
Proof.
  intros Hs Hts Honly target.
  induction l as [|[k0 rec0] l IH]; intros found Hfound; simpl.
  - left. split; [reflexivity|]. intros k rec' s' Hin.
    now apply elem_of_nil in Hin.
  - assert (Hrest : ∀ k rec' s', (k, rec') ∈ l → rr_status rec' = Some s' →
              podName s' = Some pod → rec' = rec).
    { intros k rec' s' Hin. apply (Honly k). now apply list_elem_of_further. }
    specialize (IH Hrest).
    destruct (rr_status rec0) as [s0|] eqn:Es0.
    + destruct (bool_decide (podName s0 = Some pod)) eqn:Eb.
      * apply bool_decide_eq_true in Eb.
        assert (rec0 = rec)
          by exact (Honly k0 rec0 s0 (list_elem_of_here _ _) Es0 Eb).
        subst rec0. rewrite Hs in Es0. injection Es0 as <-.
        rewrite Hts. simpl.
        assert (Hnew : (match sts_params ts with
                        | Some ps => keyValues ps
                        | None => fst found
                        end,
                        match taskResults s with
                        | Some rs => keyValues rs
                        | None => snd found
                        end) = target).
        { unfold target.
          destruct Hfound as [-> | ->];
            destruct (sts_params ts), (taskResults s); reflexivity. }
        rewrite Hnew. right.
        destruct (IH target (or_intror eq_refl)) as [[H _]|H]; exact H.
      * apply bool_decide_eq_false in Eb.
        destruct (IH found Hfound) as [[H Hno]|H]; [|now right].
        left. split; [exact H|]. intros k rec' s' Hin Hs'.
        apply elem_of_cons in Hin as [Hin|Hin]; [|now apply (Hno k rec')].
        injection Hin as _ ->. congruence.
    + destruct (IH found Hfound) as [[H Hno]|H]; [|now right].
      left. split; [exact H|]. intros k rec' s' Hin Hs'.
      apply elem_of_cons in Hin as [Hin|Hin]; [|now apply (Hno k rec')].
      injection Hin as _ ->. congruence.
Qed.

Lemma customRunParams_none nodeId l outputParams :
  (∀ k run, (k, run) ∈ l → is_Some (rr_status run) →
            Some (pipelineTaskName run) ≠ nodeId) →
  customRunParams results nodeId l outputParams = outputParams.
Proof.
  induction l as [|[k run] l IH]; intros H; simpl; [reflexivity|].
  assert (IH' : customRunParams results nodeId l outputParams = outputParams).
  { apply IH. intros k' run' Hin. apply (H k').
    now apply list_elem_of_further. }
  destruct (rr_status run) as [s|] eqn:Es; simpl; [|exact IH'].
  rewrite bool_decide_eq_false_2; [exact IH'|].
  apply (H k run (list_elem_of_here _ _)). rewrite Es. eauto.
Qed.

(** X20. When a pod name identifies one task run, the parameters of the
    node are those of the record that the lookup by pod name returns: the
    input parameters are the parameters recorded on it, in order, and the
    output parameters are its results, unless a custom run has the pod
    name for task name. *)
Theorem getNodeInputOutputParams_of_the_task_run (workflow : Workflow)
    (st : Status) (pod : string) (rec : RunRecord) (s : RunStatus)
    (ts : StatusTaskSpec) :
  status workflow = Some st → pod ≠ "" →
  getTaskRunStatusFromPodName workflow pod = Ok (Some rec) →
  only_task_run_of st pod rec →
  rr_status rec = Some s → taskSpec s = Some ts →
  ∃ outputParams,
    getNodeInputOutputParams results workflow (Some pod)
    = Ok (keyValues (default [] (sts_params ts)), outputParams)
    ∧ (no_custom_run_of st pod →
       outputParams = keyValues (default [] (taskResults s))).
Proof.
  intros Hst Hpod Hget Honly Hs Hts.
  unfold getTaskRunStatusFromPodName in Hget. rewrite Hst in Hget.
  simpl in Hget. injection Hget as Hget.
  pose proof (firstTaskRunOfPod_spec pod (records_of (taskRuns st))) as Hf.
  rewrite Hget in Hf. destruct Hf as (i & k & s0 & Hi & Hs0 & Hp & _).
  rewrite Hs in Hs0. injection Hs0 as <-.
  unfold getNodeInputOutputParams. simpl.
  apply String.eqb_neq in Hpod. rewrite Hpod. simpl. rewrite Hst.
  unfold only_task_run_of in Honly.
  destruct (taskRuns st) as [l|] eqn:Hl; simpl in *; [|discriminate].
  destruct (taskRunParams_only pod rec s ts l Hs Hts Honly ([], [])
              (or_introl eq_refl)) as [[_ Hno]|H].
  - exfalso. apply (Hno k rec s); [|exact Hs|exact Hp].
    eapply list_elem_of_lookup_2, Hi.
  - rewrite H. simpl.
    exists (customRunParams results (Some pod) (records_of (runs st))
              (keyValues (default [] (taskResults s)))).
    split; [reflexivity|]. intros Hnone. apply customRunParams_none.
    intros k' run Hin Hsome [= Hn]. exact (Hnone k' run Hin Hsome Hn).
Qed.

End NodeParamFacts.

(** ** The edges that are not gated *)
Section UngatedEdges.

Context {NodePhase : NodePhaseEnum}.

Lemma whenEdges_sound sm st taskId whens es :
  whenEdges sm st taskId whens = Ok es →
  ∀ e, e ∈ es →
  ∃ p rec parentId,
    when_refers (Some whens) p
    ∧ statusMap_get sm st (Some p) = Some rec
    ∧ podOrTaskName rec = Ok parentId
    ∧ e = {| parent := parentId; child := Some taskId |}.
Proof.
  unfold whenEdges. intros H e He.
  apply (collect_elem _ _ _ H) in He as (w & bs & Hw & Hf & He).
  unfold whenParent in Hf.
  destruct (decodeParam (when_input w)) as [prm|] eqn:Ed; simpl in Hf;
    [|discriminate].
  destruct (Js.truthy (task prm)) eqn:Et;
    [|injection Hf as <-; now apply elem_of_nil in He].
  destruct (statusMap_get sm st (task prm)) as [rec|] eqn:Eg; simpl in Hf;
    [|injection Hf as <-; now apply elem_of_nil in He].
  destruct (podOrTaskName rec) as [parentId|] eqn:Ep; simpl in Hf;
    [|discriminate].
  injection Hf as <-. apply list_elem_of_singleton in He.
  destruct (truthy_inv _ Et) as (p & Hp & Hne). rewrite Hp in Eg.
  exists p, rec, parentId. split; [|now repeat split].
  exists w, prm. now repeat split.
Qed.

Lemma edgeFromRecord_sound sm st taskId p es :
  edgeFromRecord taskId (statusMap_get sm st (Some p)) = Ok es →
  ∀ e, e ∈ es →
  ∃ rec parentId,
    statusMap_get sm st (Some p) = Some rec
    ∧ podOrTaskName rec = Ok parentId
    ∧ e = {| parent := parentId; child := Some taskId |}.
Proof.
  unfold edgeFromRecord.
  destruct (statusMap_get sm st (Some p)) as [rec|];
    [|intros [= <-] e He; now apply elem_of_nil in He].
  destruct (podOrTaskName rec) as [parentId|] eqn:Ep; simpl; [|discriminate].
  intros [= <-] e He. apply list_elem_of_singleton in He.
  now exists rec, parentId.
Qed.

Lemma anyTaskEdges_sound sm st taskId args :
  ∀ b1 b2 es,
    anyTaskEdges sm st taskId args b1 b2 = Ok es →
    ∀ e, e ∈ es →
    ∃ p rec parentId,
      p ∈ anyTaskParents args b1 b2
      ∧ statusMap_get sm st (Some p) = Some rec
      ∧ podOrTaskName rec = Ok parentId
      ∧ e = {| parent := parentId; child := Some taskId |}.
Proof.
  induction args as [|arg rest IH]; intros b1 b2 es; simpl.
  - intros [= <-] e He. now apply elem_of_nil in He.
  - destruct (String.eqb arg "--taskList"); [apply IH|].
    destruct (String.eqb arg "-c"); [apply IH|].
    destruct b1.
    + destruct (collect _ (Js.split "," arg)) as [es1|] eqn:E1; simpl;
        [|discriminate].
      destruct (anyTaskEdges sm st taskId rest false b2) as [es2|] eqn:E2;
        simpl; [|discriminate].
      intros [= <-] e He. apply elem_of_app in He as [He|He].
      * apply (collect_elem _ _ _ E1) in He as (p & bs & Hp & Hf & He).
        destruct (edgeFromRecord_sound _ _ _ _ _ Hf e He)
          as (rec & parentId & Hg & Hpid & ->).
        exists p, rec, parentId. split; [|now repeat split].
        apply elem_of_app. now left.
      * destruct (IH _ _ _ E2 e He) as (p & rec & parentId & Hp & Hr).
        exists p, rec, parentId. split; [|exact Hr].
        apply elem_of_app. now right.
    + destruct b2; [|apply IH].
      destruct (edgeFromRecord taskId _) as [es1|] eqn:E1; simpl;
        [|discriminate].
      destruct (anyTaskEdges sm st taskId rest false false) as [es2|] eqn:E2;
        simpl; [|discriminate].
      intros [= <-] e He. apply elem_of_app in He as [He|He].
      * destruct (edgeFromRecord_sound _ _ _ _ _ E1 e He)
          as (rec & parentId & Hg & Hpid & ->).
        exists (conditionArgTask arg), rec, parentId.
        split; [apply list_elem_of_here | now repeat split].
      * destruct (IH _ _ _ E2 e He) as (p & rec & parentId & Hp & Hr).
        exists p, rec, parentId. split; [|exact Hr].
        now apply list_elem_of_further.
Qed.

Lemma podOrTaskName_taskIdOf sm st p rec parentId :
  statusMap_get sm st (Some p) = Some rec → pipelineTaskName rec = p →
  podOrTaskName rec = Ok parentId →
  ∃ id, taskIdOf sm st p = Ok id ∧ parentId = Some id.
Proof.
  intros Hg Hn. unfold podOrTaskName, taskIdOf. rewrite Hg.
  destruct (rr_status rec) as [s|]; simpl; [|discriminate].
  rewrite Hn. destruct (podName s) as [q|]; simpl.
  - destruct (String.eqb q ""); simpl; intros [= <-]; eauto.
  - intros [= <-]. eauto.
Qed.

Lemma indexed_task_node workflow st graph workflow' t id :
  status workflow = Some st → noStatusYet workflow = false →
  createRuntimeGraph workflow = Ok (graph, workflow') →
  t ∈ allTasks workflow →
  is_Some (statusMap_get (buildStatusMap st) (stamped st) (Some (t_name t))) →
  taskIdOf (buildStatusMap st) (stamped st) (t_name t) = Ok id →
  id ∈ (fst <$> g_nodes graph).
Proof.
  intros Hstatus Hpast Hrun Ht Hidx Hid.
  destruct (run_outputs workflow st graph workflow' Hstatus Hpast Hrun)
    as (outs & Ho & ->).
  assert (Hd : drawn workflow st t) by (now left).
  apply materialized_drawn in Hd.
  destruct (outputsOf_defined _ _ _ _ t Ho Ht Hd) as (o & Hout & Hin).
  apply commits_ids. right. exists o. split; [exact Hin|].
  apply outputOf_inv in Hout
    as (tid & e1 & e2 & s1 & s2 & Htid & _ & _ & _ & Hd').
  apply drawTask_inv in Hd' as (_ & _ & _ & _ & _ & ->).
  cbn [statusMap contextOf] in Htid. congruence.
Qed.

(** X21. The edges of the when-guards and of the any-sequencer scan have
    both ends defined: the parent end of each is the identity of the task
    that the guard or the argument refers to, which is in the index, and
    the child end is the identity of the task that contributes the edge.
    When the parent task is declared in the pipeline, the parent end is a
    node of the graph. *)
Theorem ungated_edges_join_nodes (workflow : Workflow) (st : Status)
    (graph : Graph) (workflow' : Workflow) (t : Task) (o : TaskOutput)
    (e : Edge) :
  status workflow = Some st → noStatusYet workflow = false →
  createRuntimeGraph workflow = Ok (graph, workflow') →
  contribution workflow t o →
  e ∈ out_whenEdges o ∨ e ∈ out_anyTaskEdges o →
  ∃ p id,
    (when_refers (t_when t) p
     ∨ ∃ args, anyTaskArgs t = Some args
               ∧ p ∈ anyTaskParents args false false)
    ∧ is_Some (statusMap_get (buildStatusMap st) (stamped st) (Some p))
    ∧ taskIdOf (buildStatusMap st) (stamped st) p = Ok id
    ∧ e = {| parent := Some id; child := Some (fst (out_node o)) |}
    ∧ (∀ tp, tp ∈ allTasks workflow → t_name tp = p →
             id ∈ (fst <$> g_nodes graph)).
Proof.
  intros Hstatus Hpast Hrun Hc He.
  destruct (contribution_inv workflow st graph workflow' Hstatus Hpast Hrun
              t o Hc) as (cts & outs & _ & _ & _ & _ & Hout & _).
  apply outputOf_inv in Hout
    as (tid & e1 & e2 & s1 & s2 & _ & _ & _ & _ & Hd).
  apply drawTask_inv in Hd as (Hw & Ha & _ & _ & _ & Hid).
  cbn [statusMap contextOf] in Hw, Ha. rewrite Hid.
  assert (Hfound : ∃ p rec parentId,
            (when_refers (t_when t) p
             ∨ ∃ args, anyTaskArgs t = Some args
                       ∧ p ∈ anyTaskParents args false false)
            ∧ statusMap_get (buildStatusMap st) (stamped st) (Some p)
              = Some rec
            ∧ podOrTaskName rec = Ok parentId
            ∧ e = {| parent := parentId; child := Some tid |}).
  { destruct He as [He|He].
    - destruct (whenEdges_sound _ _ _ _ _ Hw e He)
        as (p & rec & parentId & Hp & Hr).
      exists p, rec, parentId. split; [|exact Hr].
      left. now apply when_refers_default.
    - destruct (anyTaskArgs t) as [args|].
      + destruct (anyTaskEdges_sound _ _ _ _ _ _ _ Ha e He)
          as (p & rec & parentId & Hp & Hr).
        exists p, rec, parentId. split; [|exact Hr].
        right. now exists args.
      + injection Ha as Ha. rewrite <- Ha in He.
        now apply elem_of_nil in He. }
  destruct Hfound as (p & rec & parentId & Hp & Hg & Hpid & ->).
  destruct (index_origin _ _ _ Hg) as (n & k & rec0 & [= <-] & _ & _ & Hn & _).
  destruct (podOrTaskName_taskIdOf _ _ _ _ _ Hg Hn Hpid) as (id & Htid & ->).
  exists p, id. split; [exact Hp|]. split; [rewrite Hg; eauto|].
  split; [exact Htid|]. split; [reflexivity|].
  intros tp Htp Hname. rewrite <- Hname in Hg, Htid.
  apply (indexed_task_node workflow st graph workflow' tp id Hstatus Hpast
           Hrun Htp); [rewrite Hg; eauto | exact Htid].
Qed.

End UngatedEdges.

(** ** The any-sequencer scan *)
Section SequencerScan.

Context {NodePhase : NodePhaseEnum}.

Lemma indexOf_from_first (needle : string) :
  ∀ before s i,
    first_occurrence s needle before →
    Js.indexOf_from s needle i = i + Js.length before.
Proof.
  induction before as [|c before IH]; intros s i [[after Hs] Hmin].
  - assert (E : String.prefix needle s = true)
      by (rewrite Hs; cbn [String.append]; apply prefix_app).
    unfold Js.length. simpl.
    destruct s; cbn [Js.indexOf_from]; rewrite E; lia.
  - assert (E : String.prefix needle s = false).
    { destruct (String.prefix needle s) eqn:E; [|reflexivity].
      apply prefix_inv in E.
      specialize (Hmin "" (Js.drop (String.length needle) s) E).
      simpl in Hmin. lia. }
    rewrite Hs in E |- *. cbn [String.append Js.indexOf_from] in E |- *.
    rewrite E. rewrite (IH (before +:+ needle +:+ after) (i + 1)).
    + unfold Js.length. simpl String.length. lia.
    + split; [now exists after|].
      intros before' after' H.
      specialize (Hmin (String c before') after').
      rewrite Hs in Hmin. simpl in Hmin. rewrite H in Hmin.
      specialize (Hmin eq_refl). lia.
Qed.

Lemma indexOf_from_le (needle after : string) :
  ∀ before i,
    Js.indexOf_from (before +:+ needle +:+ after) needle i
    ≤ i + Js.length before.
Proof.
  induction before as [|c before IH]; intros i;
    cbn [String.append Js.indexOf_from].
  - assert (E : String.prefix needle (needle +:+ after) = true)
      by apply prefix_app.
    unfold Js.length. simpl.
    destruct (needle +:+ after); cbn [Js.indexOf_from]; rewrite E; lia.
  - destruct (String.prefix needle _).
    + unfold Js.length. simpl String.length. lia.
    + specialize (IH (i + 1)). unfold Js.length in *.
      simpl String.length. lia.
Qed.

(** The first occurrence is where [indexOf] finds the needle. *)
Lemma first_occurrence_indexOf (s needle before after : string) :
  s = before +:+ needle +:+ after →
  Js.indexOf s needle = Js.length before →
  first_occurrence s needle before.
Proof.
  intros Hs Hi. split; [now exists after|].
  intros before' after' H.
  pose proof (indexOf_from_le needle after' before' 0) as Hle.
  rewrite <- H in Hle. fold (Js.indexOf s needle) in Hle.
  rewrite Hi in Hle. unfold Js.length in Hle. lia.
Qed.

Lemma conditionArgTask_names (condition p : string) :
  names_result_of condition p → conditionArgTask condition = p.
Proof.
  intros (before & H1 & H2). unfold conditionArgTask, Js.indexOf.
  rewrite (indexOf_from_first _ _ _ 0 H1), (indexOf_from_first _ _ _ 0 H2).
  destruct H2 as [[after ->] _].
  rewrite <- (append_assoc before "results_" p).
  rewrite (append_assoc (before +:+ "results_") p).
  pose proof (substring_middle (before +:+ "results_") p ("_output" +:+ after))
    as H.
  assert (Hl : Js.length (before +:+ "results_") = 0 + Js.length before + 8).
  { unfold Js.length. rewrite append_length. simpl. lia. }
  assert (Hl' : 0 + Js.length ((before +:+ "results_") +:+ p)
                = Js.length (before +:+ "results_") + Js.length p).
  { unfold Js.length. rewrite !append_length. lia. }
  rewrite <- Hl, Hl'. exact H.
Qed.

Lemma anyTaskArgs_step (t : Task) (args : list string) :
  any_task_step t args → anyTaskArgs t = Some args.
Proof.
  intros (ts & step & steps & command & Hts & Hsteps & Hc & Ha).
  unfold anyTaskArgs. rewrite Hts. simpl. rewrite Hsteps. simpl.
  rewrite Ha. simpl. rewrite Hc. reflexivity.
Qed.

Lemma anyTaskParents_value (value : string) (rest : list string)
    (b1 b2 : bool) :
  is_value value →
  anyTaskParents (value :: rest) b1 b2
  = if b1 then Js.split "," value ++ anyTaskParents rest false b2
    else if b2 then conditionArgTask value :: anyTaskParents rest false false
         else anyTaskParents rest false false.
Proof.
  intros [H1 H2]. apply String.eqb_neq in H1, H2.
  cbn [anyTaskParents]. rewrite H1, H2. now destruct b1, b2.
Qed.

(** What the scan looks up in a suffix of the arguments, it looks up in
    the arguments. *)
Lemma anyTaskParents_suffix (pre rest : list string) :
  ∀ b1 b2, ∃ b1' b2',
    ∀ p, p ∈ anyTaskParents rest b1' b2' →
         p ∈ anyTaskParents (pre ++ rest) b1 b2.
Proof.
  induction pre as [|arg pre IH]; intros b1 b2; [now exists b1, b2|].
  cbn [app anyTaskParents].
  destruct (String.eqb arg "--taskList"); [apply IH|].
  destruct (String.eqb arg "-c"); [apply IH|].
  destruct b1.
  - destruct (IH false b2) as (b1' & b2' & H). exists b1', b2'.
    intros p Hp. apply elem_of_app. right. now apply H.
  - destruct b2; [|apply IH].
    destruct (IH false false) as (b1' & b2' & H). exists b1', b2'.
    intros p Hp. apply list_elem_of_further. now apply H.
Qed.

(** After a value, the scan does not wait for a task list. *)
Lemma anyTaskParents_after_value (pre : list string) (value : string)
    (rest : list string) :
  is_value value →
  ∀ b1 b2, ∃ b2',
    ∀ p, p ∈ anyTaskParents rest false b2' →
         p ∈ anyTaskParents ((pre ++ [value]) ++ rest) b1 b2.
Proof.
  intros Hv b1 b2. rewrite <- app_assoc. cbn [app].
  destruct (anyTaskParents_suffix pre (value :: rest) b1 b2)
    as (b1' & b2' & H).
  rewrite (anyTaskParents_value value rest b1' b2' Hv) in H.
  destruct b1'.
  - exists b2'. intros p Hp. apply H, elem_of_app. now right.
  - destruct b2'.
    + exists false. intros p Hp. now apply H, list_elem_of_further.
    + exists false. intros p Hp. now apply H.
Qed.

Lemma step_refers_looked_up (args : list string) (p : string) :
  step_refers args p → p ∈ anyTaskParents args false false.
Proof.
  intros [(pre & names & post & -> & Hv & Hp)
         |(pre & condition & post & -> & Hpre & Hv & Hp)].
  - destruct (anyTaskParents_suffix pre ("--taskList" :: names :: post)
                false false) as (b1' & b2' & H).
    apply H.
    change (anyTaskParents ("--taskList" :: names :: post) b1' b2')
      with (anyTaskParents (names :: post) true b2').
    rewrite (anyTaskParents_value names post true b2' Hv).
    apply elem_of_app. now left.
  - apply conditionArgTask_names in Hp.
    assert (Hc : ∀ b2, p ∈ anyTaskParents ("-c" :: condition :: post)
                           false b2).
    { intros b2.
      change (anyTaskParents ("-c" :: condition :: post) false b2)
        with (anyTaskParents (condition :: post) false true).
      rewrite (anyTaskParents_value condition post false true Hv), Hp.
      apply list_elem_of_here. }
    destruct Hpre as [->|(pre' & value & -> & Hvalue)]; [apply Hc|].
    destruct (anyTaskParents_after_value pre' value
                ("-c" :: condition :: post) Hvalue false false) as (b2' & H).
    apply H, Hc.
Qed.

End SequencerScan.

(** ** The gating law *)
Section Gating.

Context {NodePhase : NodePhaseEnum}.

Lemma taskIdOf_identity sm st n id :
  taskIdOf sm st n = Ok id →
  id = identity_of (statusMap_get sm st (Some n)) n.
Proof.
  unfold taskIdOf, identity_of.
  destruct (statusMap_get sm st (Some n)) as [rec|]; simpl; [|congruence].
  destruct (rr_status rec) as [s|]; simpl; [|discriminate].
  congruence.
Qed.

Lemma podOrTaskName_identity rec pid :
  podOrTaskName rec = Ok pid →
  pid = Some (identity_of (Some rec) (pipelineTaskName rec)).
Proof.
  unfold podOrTaskName, identity_of. simpl.
  destruct (rr_status rec) as [s|]; simpl; [|discriminate].
  destruct (podName s) as [q|]; simpl; [|congruence].
  destruct (String.eqb q ""); simpl; congruence.
Qed.

Variables (workflow : Workflow) (st : Status) (graph : Graph)
  (workflow' : Workflow).
Hypothesis Hstatus : status workflow = Some st.
Hypothesis Hpast : noStatusYet workflow = false.
Hypothesis Hrun : createRuntimeGraph workflow = Ok (graph, workflow').

Let sm := buildStatusMap st.
Let st0 := stamped st.

(** C1. Past the guard of the builder, every edge of the graph is
    contributed by a drawn task. An edge gathered from a parameter binding
    of the task, from a parameter binding of one of its condition objects,
    or from a [runAfter] entry is there only when the task referred to is
    in the index with a first condition of type [Succeeded]. An edge for a
    when-guard is in the graph whenever the task referred to is in the
    index, whatever its conditions, from the identity of that task to the
    identity of the guarded task. So is the edge for a task that the
    arguments of an any-sequencer refer to, to the identity of the
    any-sequencer, provided the any-sequencer is itself drawn: it is in the
    index, or a when-guard of a task of its name refers to a task in the
    index. The identity of a task is the pod name of its record when that
    is a non-empty string, and its name otherwise. An any-sequencer is a
    task whose first step has [any-task] for the first word of its
    command; its arguments refer to the comma-separated names after
    [--taskList] and to the name between [results_] and [_output] in the
    condition after [-c]. *)
Theorem gating_law :
  (∀ e, e ∈ g_edges graph ↔ ∃ t o, contribution workflow t o ∧ e ∈ out_edges o)
  ∧ (∀ t o e, contribution workflow t o → e ∈ out_paramEdges o →
       ∃ p pod, param_refers (t_params t) p
                ∧ succeeded_parent (buildStatusMap st) (stamped st) p pod
                ∧ parent e = pod)
  ∧ (∀ t o e, contribution workflow t o → e ∈ out_conditionEdges o →
       ∃ condition p pod,
         condition ∈ default [] (t_conditions t)
         ∧ param_refers (c_params condition) p
         ∧ succeeded_parent (buildStatusMap st) (stamped st) p pod
         ∧ parent e = pod)
  ∧ (∀ t o e, contribution workflow t o → e ∈ out_runAfterEdges o →
       ∃ p pod, p ∈ default [] (runAfter t)
                ∧ succeeded_parent (buildStatusMap st) (stamped st) p pod
                ∧ e = {| parent := pod; child := Some (fst (out_node o)) |})
  ∧ (∀ t p rec, t ∈ allTasks workflow → when_refers (t_when t) p →
       statusMap_get (buildStatusMap st) (stamped st) (Some p) = Some rec →
       ∃ taskId parentId,
         taskIdOf (buildStatusMap st) (stamped st) (t_name t) = Ok taskId
         ∧ podOrTaskName rec = Ok parentId
         ∧ taskId
           = identity_of
               (statusMap_get (buildStatusMap st) (stamped st)
                  (Some (t_name t)))
               (t_name t)
         ∧ parentId = Some (identity_of (Some rec) p)
         ∧ {| parent := parentId; child := Some taskId |} ∈ g_edges graph)
  ∧ (∀ t args p rec, t ∈ allTasks workflow → drawn workflow st t →
       any_task_step t args → step_refers args p →
       statusMap_get (buildStatusMap st) (stamped st) (Some p) = Some rec →
       {| parent := Some (identity_of (Some rec) p);
          child :=
            Some (identity_of
                    (statusMap_get (buildStatusMap st) (stamped st)
                       (Some (t_name t)))
                    (t_name t)) |}
       ∈ g_edges graph).
Proof.
  destruct (createRuntimeGraph_inv workflow st graph workflow' Hstatus Hpast
              Hrun) as (cts & outs & st' & Hcts & Houts & Hg & _).
  split; [|split; [|split; [|split; [|split]]]].
  - intros e. split.
    + rewrite Hg. intros He. apply commits_edges in He as [He|(o & Ho & He)].
      { now apply elem_of_nil in He. }
      apply (outputsOf_elem _ _ _ _ Houts) in Ho as (t & Ht & Hm & Ho).
      exists t, o. split; [|exact He]. exists st, cts. now repeat split.
    + intros (t & o & Hc & He).
      now apply (contribution_in_graph workflow st graph workflow'
                   Hstatus Hpast Hrun t o).
  - intros t o e Hc He.
    destruct (contribution_inv workflow st graph workflow' Hstatus Hpast Hrun
                t o Hc) as (cts' & outs' & _ & _ & _ & Ht & Ho & _).
    destruct (outputOf_inv _ _ _ _ Ho)
      as (tid & e1 & e2 & s1 & s2 & Htid & H1 & H2 & Hs1 & Hd).
    destruct (drawTask_inv _ _ _ _ _ _ _ Hd) as (_ & _ & _ & <- & _ & _).
    exact (checkParams_edges _ _ _ _ (stamped st) _ _ _
             (same_reads_refl _) H1 e He).
  - intros t o e Hc He.
    destruct (contribution_inv workflow st graph workflow' Hstatus Hpast Hrun
                t o Hc) as (cts' & outs' & _ & _ & _ & Ht & Ho & _).
    destruct (outputOf_inv _ _ _ _ Ho)
      as (tid & e1 & e2 & s1 & s2 & Htid & H1 & H2 & Hs1 & Hd).
    destruct (drawTask_inv _ _ _ _ _ _ _ Hd) as (_ & _ & _ & _ & <- & _).
    exact (conditionsEdges_edges _ _ _ (stamped st) _ _ _ _ Hs1 H2 e He).
  - intros t o e Hc He.
    destruct (contribution_inv workflow st graph workflow' Hstatus Hpast Hrun
                t o Hc) as (cts' & outs' & _ & _ & _ & Ht & Ho & _).
    destruct (outputOf_inv _ _ _ _ Ho)
      as (tid & e1 & e2 & s1 & s2 & Htid & H1 & H2 & Hs1 & Hd).
    destruct (drawTask_inv _ _ _ _ _ _ _ Hd) as (_ & _ & H4 & _ & _ & <-).
    exact (runAfterEdges_edges _ _ _ _ _ H4 e He).
  - intros t p rec Ht Hw Hrec.
    assert (Hm : materialized (contextOf workflow st cts) (stamped st) t
                 = true).
    { unfold materialized. simpl.
      destruct (conditionTasksOf_elem _ _ _ _ t p rec Hcts Ht Hw Hrec)
        as [->|Hin]; [reflexivity|].
      rewrite (bool_decide_eq_true_2 _ Hin). apply orb_true_r. }
    destruct (outputsOf_defined _ _ _ _ t Houts Ht Hm) as (o & Ho & Hin).
    destruct (outputOf_inv _ _ _ _ Ho)
      as (tid & e1 & e2 & s1 & s2 & Htid & H1 & H2 & Hs1 & Hd).
    destruct (drawTask_inv _ _ _ _ _ _ _ Hd) as (H3 & _ & _ & _ & _ & _).
    assert (Hw' : when_refers (Some (default [] (t_when t))) p).
    { destruct Hw as (c & ref & Hc & H). now exists c, ref. }
    destruct (whenEdges_complete _ _ _ _ _ p rec H3 Hw' Hrec)
      as (pid & Hpid & He).
    exists tid, pid. split; [exact Htid|]. split; [exact Hpid|].
    split; [now apply taskIdOf_identity in Htid|]. split.
    { destruct (index_origin _ _ _ Hrec)
        as (n & k & rec0 & [= <-] & _ & _ & Hn & _).
      apply podOrTaskName_identity in Hpid. now rewrite Hn in Hpid. }
    rewrite Hg. apply commits_edges. right. exists o. split; [exact Hin|].
    unfold out_edges. rewrite !elem_of_app. tauto.
  - intros t args p rec Ht Hd Ha Hp Hrec.
    rewrite conditionTasksOf_filter in Hcts. injection Hcts as <-.
    apply materialized_drawn in Hd.
    destruct (outputsOf_defined _ _ _ _ t Houts Ht Hd) as (o & Ho & Hin).
    destruct (outputOf_inv _ _ _ _ Ho)
      as (tid & e1 & e2 & s1 & s2 & Htid & H1 & H2 & Hs1 & Hdraw).
    destruct (drawTask_inv _ _ _ _ _ _ _ Hdraw) as (_ & H5 & _ & _ & _ & _).
    rewrite (anyTaskArgs_step t args Ha) in H5.
    destruct (anyTaskEdges_complete _ _ _ _ _ _ _ p rec H5
                (step_refers_looked_up args p Hp) Hrec)
      as (pid & Hpid & He).
    destruct (index_origin _ _ _ Hrec)
      as (n & k & rec0 & [= <-] & _ & _ & Hn & _).
    apply podOrTaskName_identity in Hpid. rewrite Hn in Hpid.
    apply taskIdOf_identity in Htid.
    cbn [statusMap contextOf] in Htid. rewrite <- Hpid, <- Htid.
    rewrite Hg. apply commits_edges. right. exists o. split; [exact Hin|].
    unfold out_edges. rewrite !elem_of_app. tauto.
Qed.

(** C10. The parent end of an edge gathered from a parameter binding or a
    [runAfter] entry is the [podName] field of the status of the task that
    the binding or the entry refers to, which is in the index with a first
    condition of type [Succeeded]; the task name is no fall-back. When that
    field is undefined or empty, the parent end is [undefined], which the
    graph keeps as a node named [undefined], or the empty string, whereas
    the parent's own node is drawn under its task name; the two differ
    unless the task is itself named [undefined], respectively has the
    empty string for a name. *)
Theorem gated_edge_parent_is_pod_name t o e :
  contribution workflow t o →
  e ∈ out_paramEdges o ∨ e ∈ out_conditionEdges o ∨ e ∈ out_runAfterEdges o →
  e ∈ g_edges graph
  ∧ ∃ p rec s c cs,
      gated_reference t p
      ∧ statusMap_get (buildStatusMap st) (stamped st) (Some p) = Some rec
      ∧ rr_status rec = Some s
      ∧ conditions s = Some (c :: cs) ∧ cond_type c = "Succeeded"
      ∧ parent e = podName s
      ∧ (Js.truthy (podName s) = false →
         (podName s = None ∧ endName (parent e) = "undefined"
          ∨ podName s = Some "" ∧ endName (parent e) = "")
         ∧ endName (parent e) ∈ nodeIds graph
         ∧ identity_of (Some rec) p = p
         ∧ (∀ tp, tp ∈ allTasks workflow → t_name tp = p →
                  p ∈ (fst <$> g_nodes graph))
         ∧ (endName (parent e) = p
            ↔ podName s = None ∧ p = "undefined"
              ∨ podName s = Some "" ∧ p = "")).
Proof.
  intros Hc He.
  assert (Hin : e ∈ g_edges graph).
  { apply (contribution_in_graph workflow st graph workflow' Hstatus Hpast
             Hrun t o e Hc).
    unfold out_edges. rewrite !elem_of_app. tauto. }
  split; [exact Hin|].
  destruct (gated_edge_origin workflow st graph workflow' Hstatus Hpast Hrun
              t o e Hc He)
    as (p & pod & Href & (rec & s & c & cs & Hg & Hs & Hcs & Hty & Hp) & Hpar).
  exists p, rec, s, c, cs.
  do 5 (split; [assumption|]). split; [congruence|]. intros Hf.
  assert (Hpod : podName s = None ∨ podName s = Some "").
  { destruct (podName s) as [q|]; [|now left]. right. simpl in Hf.
    destruct (String.eqb q "") eqn:E; [|discriminate].
    apply String.eqb_eq in E. now subst. }
  assert (Hend : endName (parent e) = endName (podName s)) by congruence.
  split; [|split; [|split; [|split]]].
  - rewrite Hend. destruct Hpod as [Hq|Hq]; rewrite Hq; [left | right];
      now split.
  - apply nodeIds_spec. right. exists e. split; [exact Hin | now left].
  - unfold identity_of. simpl. rewrite Hs. simpl.
    destruct Hpod as [Hq|Hq]; now rewrite Hq.
  - intros tp Htp Hname.
    destruct (drawn_task_contributes workflow st graph workflow' Hstatus
                Hpast Hrun tp Htp) as (op & Hcp).
    { intros cts. left. unfold materialized. simpl.
      now rewrite Hname, Hg. }
    destruct (contribution_inv workflow st graph workflow' Hstatus Hpast Hrun
                tp op Hcp) as (cts & outs & _ & _ & -> & _ & Ho & Hino).
    destruct (outputOf_inv _ _ _ _ Ho)
      as (tid & e1 & e2 & s1 & s2 & Htid' & _ & _ & _ & Hd).
    destruct (drawTask_inv _ _ _ _ _ _ _ Hd) as (_ & _ & _ & _ & _ & Hn).
    apply commits_ids. right. exists op. split; [exact Hino|].
    rewrite Hn. apply taskIdOf_identity in Htid'.
    cbn [statusMap contextOf] in Htid'. rewrite Hname, Hg in Htid'.
    rewrite Htid'. unfold identity_of. simpl. rewrite Hs. simpl.
    destruct Hpod as [Hq|Hq]; now rewrite Hq.
  - rewrite Hend. destruct Hpod as [Hq|Hq]; rewrite Hq; simpl; split.
    + intros <-. now left.
    + intros [[_ ->]|[Hx _]]; [reflexivity | discriminate].
    + intros <-. now right.
    + intros [[Hx _]|[_ ->]]; [discriminate | reflexivity].
Qed.

(** X4. The nodes that the builder sets are the tasks that are drawn, each
    under the pod name of its record when that is a non-empty string and
    under its own name otherwise; a task is drawn when it is in the index,
    or when a task of its name is not in the index and has a when-guard
    that refers to a task in the index. The returned graph has a node for
    every end of an edge as well: when no task has the empty string for a
    name, its nodes are the nodes that the builder sets and the parent
    ends of the edges, an undefined parent end being the node named
    [undefined]. *)
Theorem nodes_are_the_drawn_tasks (id : string) :
  (id ∈ (fst <$> g_nodes graph)
   ↔ ∃ t, t ∈ allTasks workflow ∧ drawn workflow st t
          ∧ id = identity_of
                   (statusMap_get (buildStatusMap st) (stamped st)
                      (Some (t_name t)))
                   (t_name t))
  ∧ (Forall (λ t, t_name t ≠ "") (allTasks workflow) →
     (id ∈ nodeIds graph
      ↔ id ∈ (fst <$> g_nodes graph)
        ∨ ∃ e, e ∈ g_edges graph ∧ id = endName (parent e))).
Proof.
  split.
  - destruct (run_outputs workflow st graph workflow' Hstatus Hpast Hrun)
      as (outs & Ho & ->).
    rewrite commits_ids. simpl. split.
    + intros [H|(o & Hin & ->)]; [now apply elem_of_nil in H|].
      apply (outputsOf_elem _ _ _ _ Ho) in Hin as (t & Ht & Hm & Hout).
      exists t. split; [exact Ht|].
      split; [now apply materialized_drawn|].
      apply outputOf_inv in Hout
        as (tid & e1 & e2 & s1 & s2 & Htid & _ & _ & _ & Hd).
      apply drawTask_inv in Hd as (_ & _ & _ & _ & _ & ->).
      now apply taskIdOf_identity in Htid.
    + intros (t & Ht & Hd & ->). right.
      apply materialized_drawn in Hd.
      destruct (outputsOf_defined _ _ _ _ t Ho Ht Hd) as (o & Hout & Hin).
      exists o. split; [exact Hin|].
      apply outputOf_inv in Hout
        as (tid & e1 & e2 & s1 & s2 & Htid' & _ & _ & _ & Hd').
      apply drawTask_inv in Hd' as (_ & _ & _ & _ & _ & ->).
      now apply taskIdOf_identity in Htid'.
  - intros Hnames. rewrite nodeIds_spec. split.
    + intros [H|(e & He & [->| ->])]; [now left | right; now exists e|].
      left.
      destruct (run_outputs workflow st graph workflow' Hstatus Hpast Hrun)
        as (outs & Ho & Hg).
      rewrite Hg in He |- *.
      apply commits_edges in He as [He|(o & Hin & He)];
        [now apply elem_of_nil in He|].
      pose proof Hin as Hin'.
      apply (outputsOf_elem _ _ _ _ Ho) in Hin as (t & Ht & Hm & Hout).
      assert (Hne : fst (out_node o) ≠ "").
      { pose proof (outputOf_inv _ _ _ _ Hout)
          as (tid & e1 & e2 & s1 & s2 & Htid & _ & _ & _ & Hd).
        apply drawTask_inv in Hd as (_ & _ & _ & _ & _ & ->).
        apply (taskIdOf_nonempty _ _ _ _) with (2 := Htid).
        rewrite Forall_forall in Hnames. apply Hnames. exact Ht. }
      rewrite (output_edges_child _ _ _ _ _ Hout He (or_introl Hne)).
      apply commits_ids. right. now exists o.
    + intros [H|(e & He & ->)]; [now left|].
      right. exists e. split; [exact He | now left].
Qed.

End Gating.

(** ** The artifacts of the record of a node *)
Section MatchedRecord.

Context {NodePhase : NodePhaseEnum} {Inheritance : Prototypes}.

Lemma findTaskRun_some nodeId l :
  ∀ found found',
    (∃ k rec s, (k, rec) ∈ l ∧ rr_status rec = Some s ∧ podName s = nodeId) →
    findTaskRun nodeId l found = Ok found' →
    ∃ k rec s reason,
      (k, rec) ∈ l ∧ rr_status rec = Some s ∧ podName s = nodeId
      ∧ getStatus (Some rec) = Ok reason
      ∧ found' = (pipelineTaskName rec, reason).
Proof.
  induction l as [|[k rec] l IH]; intros found found' (k0 & rec0 & s0 & Hin & H0).
  { now apply elem_of_nil in Hin. }
  cbn [findTaskRun].
  assert (Hrest : ∀ f, (∃ k1 rec1 s1, (k1, rec1) ∈ l ∧ rr_status rec1 = Some s1
                                      ∧ podName s1 = nodeId) →
            findTaskRun nodeId l f = Ok found' →
            ∃ k1 rec1 s1 reason,
              (k1, rec1) ∈ (k, rec) :: l ∧ rr_status rec1 = Some s1
              ∧ podName s1 = nodeId ∧ getStatus (Some rec1) = Ok reason
              ∧ found' = (pipelineTaskName rec1, reason)).
  { intros f Hex Hf.
    destruct (IH _ _ Hex Hf) as (k1 & rec1 & s1 & r & Hin1 & H1).
    exists k1, rec1, s1, r. split; [now apply list_elem_of_further | exact H1]. }
  assert (Hhere : ∀ s, rr_status rec = Some s → podName s ≠ nodeId →
            ∃ k1 rec1 s1, (k1, rec1) ∈ l ∧ rr_status rec1 = Some s1
                          ∧ podName s1 = nodeId).
  { intros s Hs Hn. apply elem_of_cons in Hin as [Hin|Hin].
    - injection Hin as -> ->. destruct H0 as [H0 H0']. congruence.
    - now exists k0, rec0, s0. }
  destruct (rr_status rec) as [s|] eqn:Es.
  - destruct (bool_decide (podName s = nodeId)) eqn:Eb.
    + apply bool_decide_eq_true in Eb.
      destruct (getStatus (Some rec)) as [reason|] eqn:Eg;
        cbn [mbind Result_bind]; [|discriminate].
      intros Hf.
      apply findTaskRun_inv in Hf
        as [->|(k1 & rec1 & s1 & r & Hin1 & H1)].
      * exists k, rec, s, reason.
        split; [apply list_elem_of_here | now repeat split].
      * exists k1, rec1, s1, r.
        split; [now apply list_elem_of_further | exact H1].
    + apply bool_decide_eq_false in Eb. apply Hrest. now apply (Hhere s).
  - apply Hrest. apply elem_of_cons in Hin as [Hin|Hin].
    + injection Hin as -> ->. destruct H0 as [H0 _]. congruence.
    + now exists k0, rec0, s0.
Qed.

Lemma findRun_some nodeId l :
  ∀ found found',
    (∃ k rec, (k, rec) ∈ l ∧ is_Some (rr_status rec)
              ∧ Some (pipelineTaskName rec) = nodeId) →
    findRun nodeId l found = Ok found' →
    ∃ k rec reason,
      (k, rec) ∈ l ∧ is_Some (rr_status rec)
      ∧ Some (pipelineTaskName rec) = nodeId
      ∧ getStatus (Some rec) = Ok reason
      ∧ found' = (pipelineTaskName rec, reason).
Proof.
  induction l as [|[k rec] l IH]; intros found found' (k0 & rec0 & Hin & H0).
  { now apply elem_of_nil in Hin. }
  cbn [findRun].
  assert (Hrest : ∀ f, (∃ k1 rec1, (k1, rec1) ∈ l ∧ is_Some (rr_status rec1)
                                   ∧ Some (pipelineTaskName rec1) = nodeId) →
            findRun nodeId l f = Ok found' →
            ∃ k1 rec1 reason,
              (k1, rec1) ∈ (k, rec) :: l ∧ is_Some (rr_status rec1)
              ∧ Some (pipelineTaskName rec1) = nodeId
              ∧ getStatus (Some rec1) = Ok reason
              ∧ found' = (pipelineTaskName rec1, reason)).
  { intros f Hex Hf.
    destruct (IH _ _ Hex Hf) as (k1 & rec1 & r & Hin1 & H1).
    exists k1, rec1, r. split; [now apply list_elem_of_further | exact H1]. }
  destruct (Js.has (rr_status rec)
            && bool_decide (Some (pipelineTaskName rec) = nodeId)) eqn:Eb.
  - apply andb_prop in Eb as [Eh Eb]. apply bool_decide_eq_true in Eb.
    apply has_is_Some in Eh.
    destruct (getStatus (Some rec)) as [reason|] eqn:Eg;
      cbn [mbind Result_bind]; [|discriminate].
    intros Hf.
    apply findRun_inv in Hf as [->|(k1 & rec1 & r & Hin1 & H1)].
    + exists k, rec, reason.
      split; [apply list_elem_of_here | now repeat split].
    + exists k1, rec1, r.
      split; [now apply list_elem_of_further | exact H1].
  - apply Hrest. apply elem_of_cons in Hin as [Hin|Hin].
    + injection Hin as -> ->. destruct H0 as [Hs Hn].
      apply has_is_Some in Hs. rewrite Hs in Eb. simpl in Eb.
      apply bool_decide_eq_false in Eb. contradiction.
    + now exists k0, rec0.
Qed.

(** When one record matches the node, the two loops end with its task
    name and the reason of its first condition. *)
Lemma found_only_record nodeId st rec found taskName taskStatus :
  only_record_of st nodeId rec →
  findTaskRun nodeId (records_of (taskRuns st)) ("", SUCCEEDED) = Ok found →
  findRun nodeId (records_of (runs st)) found = Ok (taskName, taskStatus) →
  taskName = pipelineTaskName rec ∧ getStatus (Some rec) = Ok taskStatus.
Proof.
  intros [Hnode Honly] Hf Hr.
  assert (Hrun : ∀ k1 rec1 reason,
            (k1, rec1) ∈ records_of (runs st) → is_Some (rr_status rec1) →
            Some (pipelineTaskName rec1) = nodeId →
            getStatus (Some rec1) = Ok reason →
            (taskName, taskStatus) = (pipelineTaskName rec1, reason) →
            taskName = pipelineTaskName rec
            ∧ getStatus (Some rec) = Ok taskStatus).
  { intros k1 rec1 r Hin Hs Hn Hg [= -> ->].
    assert (rec1 = rec) as -> by (apply Honly; right; now exists k1).
    now split. }
  destruct Hnode as [(k & s & Hin & Hs & Hn)|(k & Hin & Hs & Hn)].
  - destruct (findTaskRun_some _ _ _ _
                (ex_intro _ k (ex_intro _ rec (ex_intro _ s
                   (conj Hin (conj Hs Hn))))) Hf)
      as (k1 & rec1 & s1 & r & Hin1 & Hs1 & Hn1 & Hg1 & ->).
    assert (rec1 = rec) as -> by (apply Honly; left; now exists k1, s1).
    apply findRun_inv in Hr as [Hr|(k2 & rec2 & r2 & Hin2 & Hs2 & Hn2 & Hg2 & Hr)].
    + injection Hr as -> ->. now split.
    + exact (Hrun k2 rec2 r2 Hin2 Hs2 Hn2 Hg2 Hr).
  - destruct (findRun_some _ _ _ _
                (ex_intro _ k (ex_intro _ rec (conj Hin (conj Hs Hn)))) Hr)
      as (k2 & rec2 & r2 & Hin2 & Hs2 & Hn2 & Hg2 & Hr2).
    exact (Hrun k2 rec2 r2 Hin2 Hs2 Hn2 Hg2 Hr2).
Qed.

Lemma node_record_collections st nodeId rec :
  node_record st nodeId rec → Js.has (taskRuns st) || Js.has (runs st) = true.
Proof.
  intros [(k & s & Hin & _)|(k & Hin & _)].
  - destruct (taskRuns st); [reflexivity|]. now apply elem_of_nil in Hin.
  - destruct (runs st); [apply orb_true_r|]. now apply elem_of_nil in Hin.
Qed.

(** What a call returns for a node that one record matches. *)
Lemma getNodeInputOutputArtifacts_only workflow md a st rec nodeId cached
    inputs outputs :
  metadata workflow = Some md → annotations md = Some a →
  status workflow = Some st →
  only_record_of st nodeId rec → pipelineTaskName rec ≠ "" →
  getNodeInputOutputArtifacts workflow nodeId cached = Ok (inputs, outputs) →
  ∃ reason,
    getStatus (Some rec) = Ok reason
    ∧ match member (input_artifacts a) (pipelineTaskName rec) with
      | ArrayOf declared =>
          mapR (inputArtifact workflow md a cached) declared = Ok inputs
      | Undefined => inputs = []
      | NotAnArray => False
      end
    ∧ match member (output_artifacts a) (pipelineTaskName rec) with
      | ArrayOf (first :: rest) =>
          if negb (Js.truthy (oa_key first))
             || (negb (String.eqb reason COMPLETED)
                 && negb (String.eqb reason SUCCEEDED))
          then outputs = []
          else mapR (outputArtifact workflow md a cached) (first :: rest)
               = Ok outputs
      | _ => outputs = []
      end.
Proof.
  intros Hmd Ha Hst Honly Hne. unfold getNodeInputOutputArtifacts.
  rewrite Hmd, Hst, Ha.
  rewrite (node_record_collections st nodeId rec (proj1 Honly)).
  cbn [negb].
  destruct (findTaskRun _ _ _) as [found|] eqn:Ef; cbn [mbind Result_bind];
    [|discriminate].
  destruct (findRun _ _ _) as [[taskName taskStatus]|] eqn:Er;
    cbn [mbind Result_bind]; [|discriminate].
  destruct (found_only_record _ _ _ _ _ _ Honly Ef Er) as [-> Hg].
  apply String.eqb_neq in Hne. rewrite Hne. cbv zeta.
  match goal with
  | |- mbind _ ?m = _ → _ =>
      destruct m as [ins|] eqn:Ei; cbn [mbind Result_bind]; [|discriminate]
  end.
  assert (Hins : match member (input_artifacts a) (pipelineTaskName rec) with
                 | ArrayOf declared =>
                     mapR (inputArtifact workflow md a cached) declared
                     = Ok ins
                 | Undefined => ins = []
                 | NotAnArray => False
                 end).
  { destruct (member (input_artifacts a) (pipelineTaskName rec));
      [congruence | exact Ei | discriminate]. }
  clear Ei. intros H. exists taskStatus. split; [exact Hg|].
  destruct (member (output_artifacts a) (pipelineTaskName rec))
    as [|[|first rest]|].
  - injection H as <- <-. now split.
  - injection H as <- <-. now split.
  - destruct (negb (Js.truthy (oa_key first)) || _).
    + injection H as <- <-. now split.
    + destruct (mapR (outputArtifact _ _ _ _) (first :: rest)) as [outs|];
        cbn [mbind Result_bind] in H; [|discriminate].
      injection H as <- <-. now split.
  - injection H as <- <-. now split.
Qed.





(** X22. The input artifacts of a node do not wait for the node to
    finish, its output artifacts do. For a node that one record matches,
    under a non-empty task name, a call that returns lists every input
    artifact that the annotation declares for the task, in the declared
    order and under its declared name, whatever the conditions of the
    record; and it lists no output artifact unless the reason of the
    record's first condition is the completed or the succeeded phase, a
    record without conditions counting as pending. *)
Theorem input_artifacts_do_not_wait (workflow : Workflow) (md : Metadata)
    (a : Annotations) (st : Status) (rec : RunRecord)
    (nodeId cached : option string)
    (inputs outputs : list (string * S3Artifact)) :
  metadata workflow = Some md → annotations md = Some a →
  status workflow = Some st →
  only_record_of st nodeId rec → pipelineTaskName rec ≠ "" →
  getNodeInputOutputArtifacts workflow nodeId cached = Ok (inputs, outputs) →
  (∀ parsed declared,
     input_artifacts a = Some parsed →
     parsed !! pipelineTaskName rec = Some declared →
     fst <$> inputs = ia_name <$> declared)
  ∧ ∃ s, rr_status rec = Some s
         ∧ match conditions s with
           | Some (c :: _) =>
               cond_reason c ≠ COMPLETED → cond_reason c ≠ SUCCEEDED →
               outputs = []
           | Some [] => False
           | None =>
               PENDING ≠ COMPLETED → PENDING ≠ SUCCEEDED → outputs = []
           end.
Proof.
  intros Hmd Ha Hst Honly Hne H.
  destruct (getNodeInputOutputArtifacts_only _ _ _ _ _ _ _ _ _
              Hmd Ha Hst Honly Hne H) as (reason & Hg & Hin & Hout).
  split.
  - intros parsed declared Hp Hd.
    rewrite (member_own _ _ _ _ Hp Hd) in Hin.
    apply mapR_Forall2 in Hin. clear H Hout Hd.
    induction Hin as [|artifact [n art] raw ins Hx Hin IH]; [reflexivity|].
    simpl. unfold inputArtifact in Hx.
    destruct (tasks (pipelineSpec (spec workflow))) as [ts|]; simpl in Hx;
      [|discriminate].
    injection Hx as <- _. f_equal. exact IH.
  - assert (Hs : ∃ s, rr_status rec = Some s).
    { destruct Honly as [[(k & s & _ & Hs & _)|(k & _ & [s Hs] & _)] _];
        now exists s. }
    destruct Hs as [s Hs]. exists s. split; [exact Hs|].
    assert (Hwait : reason ≠ COMPLETED → reason ≠ SUCCEEDED → outputs = []).
    { intros H1 H2. apply String.eqb_neq in H1, H2.
      destruct (member (output_artifacts a) (pipelineTaskName rec))
        as [|[|first rest]|]; try exact Hout.
      now rewrite H1, H2, orb_true_r in Hout. }
    unfold getStatus in Hg. rewrite Hs in Hg.
    destruct (conditions s) as [[|c cs]|]; simpl in Hg.
    + discriminate.
    + injection Hg as <-. exact Hwait.
    + injection Hg as <-. exact Hwait.
Qed.

End MatchedRecord.

(** ** The further properties on the example documents *)

Example uiMetadataRun_output_paths :
  @loadAllOutputPathsWithStepNames standardPrototypes uiMetadataRun
  = Ok [ {| stepName := "B";
            path :=
              {| source := MINIO; bucket := Some "mlpipeline";
                 key := "artifacts/run-3/B/mlpipeline-ui-metadata.tgz" |} |} ].
Proof. vm_compute. reflexivity. Qed.

(** A task named [constructor]: the lookups by its name find the
    constructor that the parsed annotations inherit. *)
Example constructorRun_throws :
  @loadAllOutputPathsWithStepNames standardPrototypes constructorRun
  = Throw TypeError
  ∧ @loadAllOutputPaths standardPrototypes constructorRun = Throw TypeError
  ∧ @getNodeInputOutputArtifacts kfpNodePhase standardPrototypes
      constructorRun (Some "pod-c") None
    = Throw TypeError.
Proof. vm_compute. repeat split. Qed.

Example stepsWorkflow_outbound :
  getOutboundNodes 2 stepsWorkflow "root" = Some ["pod-1"]
  ∧ getOutboundNodes 1 stepsWorkflow "pod-1" = Some ["pod-1"]
  ∧ getOutboundNodes 1 stepsWorkflow "absent" = Some [].
Proof. vm_compute. repeat split. Qed.

Lemma index_records_have_status_witness :
  same_reads (stamped customParentStatus) (stamped customParentStatus)
  ∧ ∃ taskId,
      taskIdOf (buildStatusMap customParentStatus)
        (stamped customParentStatus) "any" = Ok taskId.
Proof.
  split; [reflexivity|].
  exact (proj1 (proj2 (proj2 (index_records_have_status customParentStatus
                                (stamped customParentStatus) "any"
                                eq_refl)))).
Defined.

Lemma createRuntimeGraph_writes_values_only_witness :
  match @createRuntimeGraph kfpNodePhase resultPassing with
  | Ok (graph, workflow') =>
      metadata workflow' = metadata resultPassing
      ∧ spec workflow' = spec resultPassing
  | Throw _ => False
  end.
Proof.
  destruct (@createRuntimeGraph kfpNodePhase resultPassing) as [[g w']|e]
    eqn:E.
  - pose proof (@createRuntimeGraph_writes_values_only kfpNodePhase
                  resultPassing g w' E) as H.
    exact (conj (proj1 H) (proj1 (proj2 H))).
  - vm_compute in E. discriminate E.
Defined.

Lemma node_labels_witness :
  match @createRuntimeGraph kfpNodePhase customParent with
  | Ok (graph, _) =>
      ∃ t, t ∈ allTasks customParent
           ∧ taskIdOf (buildStatusMap customParentStatus)
               (stamped customParentStatus) (t_name t) = Ok "any"
  | Throw _ => False
  end.
Proof.
  destruct (@createRuntimeGraph kfpNodePhase customParent) as [[g w']|e]
    eqn:E; [|vm_compute in E; discriminate E].
  assert (Hin : ("any",
                 {| nl_status := "Succeeded"; nl_exitHandler := false;
                    nl_startTime := Some "2021-01-01T00:00:00Z";
                    nl_completionTime := Some "2021-01-01T00:01:00Z" |})
                ∈ g_nodes g).
  { pose proof E as E'. vm_compute in E'. injection E' as Hg _.
    rewrite <- Hg. apply list_elem_of_here. }
  destruct (@node_labels kfpNodePhase customParent customParentStatus g w'
              eq_refl eq_refl E _ _ Hin) as (t & Ht & Hid & _).
  exists t. split; [exact Ht | exact Hid].
Defined.

Lemma edges_end_at_nodes_witness :
  match @createRuntimeGraph kfpNodePhase customParent with
  | Ok (graph, _) =>
      ∃ id, child {| parent := None; child := Some "pod-b" |} = Some id
            ∧ id ∈ (fst <$> g_nodes graph) ∧ id ≠ ""
  | Throw _ => False
  end.
Proof.
  destruct (@createRuntimeGraph kfpNodePhase customParent) as [[g w']|e]
    eqn:E; [|vm_compute in E; discriminate E].
  assert (Hin : {| parent := None; child := Some "pod-b" |} ∈ g_edges g).
  { pose proof E as E'. vm_compute in E'. injection E' as Hg _.
    rewrite <- Hg. apply list_elem_of_here. }
  assert (Hnames : Forall (λ t, t_name t ≠ "") (allTasks customParent))
    by (repeat constructor; discriminate).
  exact (@edges_end_at_nodes kfpNodePhase customParent customParentStatus
           g w' eq_refl eq_refl E Hnames _ Hin).
Defined.

Lemma runAfter_parent_without_conditions_throws_witness :
  ∃ x, @createRuntimeGraph kfpNodePhase unfinishedParent = Throw x.
Proof.
  apply (@runAfter_parent_without_conditions_throws kfpNodePhase
           unfinishedParent unfinishedParentStatus orderedAfterA "A"
           unfinishedRecord unfinishedStatus).
  - reflexivity.
  - reflexivity.
  - apply list_elem_of_further, list_elem_of_here.
  - left. exists {| pipelineTaskName := "B";
                    rr_status := Some (exampleStatus (Some "pod-b")
                                         "Succeeded" "Running" None);
                    taskRunId := Some "run-b" |}.
    vm_compute. reflexivity.
  - apply list_elem_of_here.
  - vm_compute. reflexivity.
  - reflexivity.
  - left. reflexivity.
Defined.

Lemma parseStoragePath_round_trip_witness :
  free_of "/" "mlpipeline"
  ∧ parseStoragePath
      (scheme_prefix MINIO +:+ "mlpipeline" +:+ "/" +:+ "artifacts/run/a.tgz")
    = Ok {| source := MINIO; bucket := Some "mlpipeline";
            key := "artifacts/run/a.tgz" |}.
Proof.
  assert (H : free_of "/" "mlpipeline") by (simpl; repeat split; discriminate).
  split; [exact H|].
  exact (proj1 (parseStoragePath_round_trip MINIO "mlpipeline"
                  "artifacts/run/a.tgz" H)).
Defined.

Lemma decodeParam_round_trip_witness :
  free_of "." "flip-coin" ∧ free_of "." "output"
  ∧ decodeParam ("$(tasks." +:+ "flip-coin" +:+ ".results." +:+ "output"
                 +:+ ")")
    = Ok {| task := Some "flip-coin"; param := Some "output" |}.
Proof.
  assert (H1 : free_of "." "flip-coin")
    by (simpl; repeat split; discriminate).
  assert (H2 : free_of "." "output") by (simpl; repeat split; discriminate).
  split; [exact H1|]. split; [exact H2|].
  exact (decodeParam_round_trip "flip-coin" "output" H1 H2).
Defined.

Lemma getNodeInputOutputArtifacts_unknown_node_witness :
  @getNodeInputOutputArtifacts kfpNodePhase standardPrototypes uiMetadataRun (Some "pod-x") None
  = Ok ([], []).
Proof.
  apply (@getNodeInputOutputArtifacts_unknown_node kfpNodePhase standardPrototypes
           uiMetadataRun
           uiMetadataStatus (Some "pod-x") None eq_refl).
  intros rec [(k & s & Hin & Hs & Hp)|(k & Hin & _)].
  - apply list_elem_of_singleton in Hin. injection Hin as _ ->.
    injection Hs as <-. discriminate Hp.
  - now apply elem_of_nil in Hin.
Defined.

Lemma output_artifacts_all_or_nothing_witness :
  match @getNodeInputOutputArtifacts kfpNodePhase standardPrototypes uiMetadataRun
          (Some "pod-b") None with
  | Ok (_, outputs) =>
      ∃ reason, (reason = @COMPLETED kfpNodePhase
                 ∨ reason = @SUCCEEDED kfpNodePhase)
                ∧ ∃ raw, fst <$> outputs = oa_name <$> raw
  | Throw _ => False
  end.
Proof.
  destruct (@getNodeInputOutputArtifacts kfpNodePhase standardPrototypes uiMetadataRun
              (Some "pod-b") None) as [[inputs outputs]|e] eqn:E;
    [|vm_compute in E; discriminate E].
  assert (Hne : outputs ≠ []).
  { pose proof E as E'. vm_compute in E'. injection E' as _ Ho.
    rewrite <- Ho. discriminate. }
  destruct (@output_artifacts_all_or_nothing kfpNodePhase standardPrototypes
              uiMetadataRun
              (Some "pod-b") None inputs outputs E Hne)
    as (md & a & st & rec & reason & raw & _ & _ & _ & _ & _ & Hfin & _
        & Hnames & _).
  exists reason. split; [exact Hfin|]. now exists raw.
Defined.

Lemma consumer_reads_where_producer_writes_witness :
  ∃ art,
    @inputArtifact uiMetadataRun uiMetadataMetadata uiMetadataAnnotations
      (Some "run-1") {| ia_name := "A" +:+ String "-" "out";
                        parent_task := "A" |}
    = Ok ("A" +:+ String "-" "out", art)
    ∧ @outputArtifact uiMetadataRun uiMetadataMetadata uiMetadataAnnotations
        (Some "run-1")
        {| oa_name := "A-out";
           oa_key := Some ("artifacts/$PIPELINERUN/" +:+ "A" +:+ "/" +:+ "out"
                           +:+ ".tgz") |}
      = Ok ("A-out", art)
    ∧ s3_key art
      = "artifacts/"
        +:+ pipelineRunIDFor (md_name uiMetadataMetadata)
              [ cacheEnabledTask "A"; cacheEnabledTask "B" ] (Some "A")
              (Some "run-1")
        +:+ "/" +:+ "A" +:+ "/" +:+ "out" +:+ ".tgz".
Proof.
  apply (consumer_reads_where_producer_writes uiMetadataRun uiMetadataMetadata
           uiMetadataAnnotations (Some "run-1")
           [ cacheEnabledTask "A"; cacheEnabledTask "B" ] "A" "out" "A-out"
           "-" eq_refl).
  - simpl. repeat split; discriminate.
  - simpl. repeat split; discriminate.
  - intros c [= <-]. simpl. repeat split; discriminate.
Defined.

Lemma ui_metadata_path_is_an_output_artifact_witness :
  match @getNodeInputOutputArtifacts kfpNodePhase standardPrototypes uiMetadataRun
          (Some "pod-b") None with
  | Ok (_, outputs) =>
      ∃ st rec paths,
        status uiMetadataRun = Some st ∧ node_record st (Some "pod-b") rec
        ∧ @loadNodeOutputPaths standardPrototypes rec uiMetadataRun = Ok paths
        ∧ ∀ p, p ∈ paths →
               ∃ art, ("mlpipeline-ui-metadata", art) ∈ outputs
                      ∧ s3_key art = key p
                      ∧ default "" (s3_bucket art) = default "" (bucket p)
  | Throw _ => False
  end.
Proof.
  destruct (@getNodeInputOutputArtifacts kfpNodePhase standardPrototypes uiMetadataRun
              (Some "pod-b") None) as [[inputs outputs]|e] eqn:E;
    [|vm_compute in E; discriminate E].
  assert (Hne : outputs ≠ []).
  { pose proof E as E'. vm_compute in E'. injection E' as _ Ho.
    rewrite <- Ho. discriminate. }
  exact (@ui_metadata_path_is_an_output_artifact kfpNodePhase
           standardPrototypes uiMetadataRun (Some "pod-b") None inputs outputs
           E Hne (or_introl eq_refl)).
Defined.

Lemma getTaskRunStatusFromPodName_after_build_witness :
  match @createRuntimeGraph kfpNodePhase customParent with
  | Ok (_, workflow') =>
      ∃ r, getTaskRunStatusFromPodName workflow' "pod-b" = Ok r
  | Throw _ => False
  end.
Proof.
  destruct (@createRuntimeGraph kfpNodePhase customParent) as [[g w']|e]
    eqn:E; [|vm_compute in E; discriminate E].
  destruct (@getTaskRunStatusFromPodName_after_build kfpNodePhase customParent
              customParentStatus g w' "pod-b" eq_refl eq_refl E)
    as (r & Hr & _).
  exists r. exact Hr.
Defined.

Lemma createRuntimeGraph_total_on_well_formed_runs_witness :
  well_formed_run customParent customParentStatus
  ∧ ∃ graph workflow',
      @createRuntimeGraph kfpNodePhase customParent = Ok (graph, workflow').
Proof.
  assert (H : well_formed_run customParent customParentStatus).
  { split; [|split].
    - unfold all_records. simpl.
      repeat apply Forall_cons_2; try apply Forall_nil_2;
        intros s [= <-]; simpl;
        (split; [discriminate | intros ts; discriminate]).
    - unfold has_conditions, all_records. simpl.
      repeat apply Forall_cons_2; try apply Forall_nil_2;
        intros Hn s Hs; simpl in Hn, Hs;
        first [discriminate Hn | injection Hs as <-; simpl; discriminate].
    - simpl. repeat apply Forall_cons_2; try apply Forall_nil_2;
        (split; apply Forall_nil_2). }
  split; [exact H|].
  exact (@createRuntimeGraph_total_on_well_formed_runs kfpNodePhase
           customParent customParentStatus eq_refl H).
Defined.

Lemma getOutboundNodes_pods_only_witness :
  getOutboundNodes 2 stepsWorkflow "root" = Some ["pod-1"]
  ∧ is_pod stepsNodes "pod-1"
  ∧ getOutboundNodes 5 stepsWorkflow "root" = Some ["pod-1"].
Proof.
  assert (H : getOutboundNodes 2 stepsWorkflow "root" = Some ["pod-1"])
    by (vm_compute; reflexivity).
  split; [exact H|].
  destruct (proj1 (getOutboundNodes_pods_only stepsWorkflow stepsNodes
                     eq_refl (λ _, 0%nat) "root") 2%nat ["pod-1"] H)
    as (_ & Hpods & Hmono).
  split.
  - apply Hpods; [|apply list_elem_of_here].
    intros node Hn. vm_compute in Hn. injection Hn as <-. discriminate.
  - apply Hmono. lia.
Defined.

Lemma getOutboundNodes_cycle_witness :
  getOutboundNodes 1000 loopWorkflow "g" = None.
Proof.
  apply (getOutboundNodes_cycle loopWorkflow loopNodes eq_refl
           (λ a, a = "g") "g"); [|reflexivity].
  intros a ->. exists "g". split; [reflexivity|].
  exists loopNode, loopNode.
  split; [vm_compute; reflexivity|]. split; [discriminate|].
  split; [apply list_elem_of_here|].
  split; [vm_compute; reflexivity | discriminate].
Defined.

Lemma getNodeInputOutputParams_without_taskSpec_throws_witness :
  ∃ x, getNodeInputOutputParams (λ _, None) unfinishedParent (Some "pod-a")
       = Throw x.
Proof.
  apply (getNodeInputOutputParams_without_taskSpec_throws (λ _, None)
           unfinishedParent unfinishedParentStatus "pod-a" "run-a"
           (exampleRecord "A" (Some unfinishedStatus)) unfinishedStatus).
  - reflexivity.
  - discriminate.
  - apply list_elem_of_here.
  - reflexivity.
  - reflexivity.
  - reflexivity.
Defined.

Lemma getNodeInputOutputParams_of_the_task_run_witness :
  ∃ outputParams,
    getNodeInputOutputParams (λ _, None) resultPassing (Some "pod-b")
    = Ok ([ ("x", Some "$(tasks.A.results.out)") ], outputParams).
Proof.
  destruct (status resultPassing) as [st|] eqn:Hst; [|discriminate Hst].
  assert (Hst' : Some st = status resultPassing) by (now rewrite Hst).
  vm_compute in Hst'. injection Hst' as Hst'.
  edestruct (getNodeInputOutputParams_of_the_task_run (λ _, None)
               resultPassing st "pod-b") as (outputParams & H & _).
  - exact Hst.
  - discriminate.
  - rewrite Hst'. vm_compute. reflexivity.
  - rewrite Hst'. intros k rec' s' Hin Hs' Hp.
    apply elem_of_cons in Hin as [Hin|Hin].
    + injection Hin as _ ->. injection Hs' as <-. discriminate Hp.
    + apply list_elem_of_singleton in Hin. injection Hin as _ ->.
      reflexivity.
  - reflexivity.
  - reflexivity.
  - exists outputParams. exact H.
Defined.

Lemma guardedRun_contribution :
  @contribution kfpNodePhase guardedRun guardedTask guardedOutputB.
Proof.
  exists guardedStatus, ["B"].
  split; [reflexivity|]. split; [reflexivity|].
  split; [vm_compute; reflexivity|].
  split; [apply list_elem_of_further, list_elem_of_here|].
  split; vm_compute; reflexivity.
Defined.

Lemma ungated_edges_join_nodes_witness :
  match @createRuntimeGraph kfpNodePhase guardedRun with
  | Ok (graph, _) =>
      ∃ p id,
        taskIdOf (buildStatusMap guardedStatus) (stamped guardedStatus) p
        = Ok id
        ∧ {| parent := Some "pod-a"; child := Some "B" |}
          = {| parent := Some id; child := Some "B" |}
  | Throw _ => False
  end.
Proof.
  destruct (@createRuntimeGraph kfpNodePhase guardedRun) as [[g w']|e] eqn:E;
    [|vm_compute in E; discriminate E].
  destruct (@ungated_edges_join_nodes kfpNodePhase guardedRun guardedStatus
              g w' guardedTask guardedOutputB
              {| parent := Some "pod-a"; child := Some "B" |}
              eq_refl eq_refl E guardedRun_contribution
              (or_introl (list_elem_of_here _ _)))
    as (p & id & _ & _ & Htid & He & _).
  exists p, id. split; [exact Htid | exact He].
Defined.



Lemma runningRun_only_record :
  only_record_of runningStatus (Some "pod-b") runningRecord.
Proof.
  split.
  - left. exists "run-2-b", (exampleStatus (Some "pod-b") "Succeeded"
                               "Running" None).
    split; [apply list_elem_of_here | now split].
  - intros rec' [(k & s & Hin & _)|(k & Hin & _)].
    + apply list_elem_of_singleton in Hin. now injection Hin as _ ->.
    + now apply elem_of_nil in Hin.
Defined.

Lemma input_artifacts_do_not_wait_witness :
  match @getNodeInputOutputArtifacts kfpNodePhase standardPrototypes
          runningRun (Some "pod-b") None with
  | Ok (inputs, outputs) => fst <$> inputs = [ "A-out" ] ∧ outputs = []
  | Throw _ => False
  end.
Proof.
  destruct (@getNodeInputOutputArtifacts kfpNodePhase standardPrototypes
              runningRun (Some "pod-b") None)
    as [[inputs outputs]|e] eqn:E; [|vm_compute in E; discriminate E].
  destruct (@input_artifacts_do_not_wait kfpNodePhase standardPrototypes
              runningRun cachedRunMetadata _ runningStatus runningRecord
              (Some "pod-b") None inputs outputs
              eq_refl eq_refl eq_refl runningRun_only_record
              ltac:(discriminate) E) as [Hin (s & Hs & Hout)].
  split.
  - apply (Hin _ [ {| ia_name := "A-out"; parent_task := "A" |} ] eq_refl).
    vm_compute. reflexivity.
  - injection Hs as <-. apply Hout; discriminate.
Defined.

Lemma customParent_contribution :
  @contribution kfpNodePhase customParent orderedAfterAny customParentOutputB.
Proof.
  exists customParentStatus, [].
  split; [reflexivity|]. split; [reflexivity|].
  split; [vm_compute; reflexivity|].
  split; [apply list_elem_of_further, list_elem_of_here|].
  split; vm_compute; reflexivity.
Defined.

Lemma undefinedParent_contribution :
  @contribution kfpNodePhase undefinedParent orderedAfterUndefined
    customParentOutputB.
Proof.
  exists undefinedParentStatus, [].
  split; [reflexivity|]. split; [reflexivity|].
  split; [vm_compute; reflexivity|].
  split; [apply list_elem_of_further, list_elem_of_here|].
  split; vm_compute; reflexivity.
Defined.

Lemma sequencerArgs_refer : step_refers sequencerArgs "A".
Proof.
  right.
  exists [ "--namespace"; "kubeflow"; "--taskList"; "A" ],
    "results_A_output == 'heads'", [].
  split; [reflexivity|]. split.
  { right. exists [ "--namespace"; "kubeflow"; "--taskList" ], "A".
    split; [reflexivity | split; discriminate]. }
  split; [split; discriminate|].
  exists "". split.
  - now apply (first_occurrence_indexOf _ _ _ "A_output == 'heads'").
  - now apply (first_occurrence_indexOf _ _ _ " == 'heads'").
Defined.

Lemma gating_law_witness :
  match @createRuntimeGraph kfpNodePhase sequencerRun with
  | Ok (graph, _) =>
      {| parent := Some "pod-a"; child := Some "B" |} ∈ g_edges graph
      ∧ {| parent := Some "pod-a"; child := Some "pod-any" |} ∈ g_edges graph
      ∧ ∀ o e, @contribution kfpNodePhase sequencerRun consumerTask o →
               e ∉ out_runAfterEdges o
  | Throw _ => False
  end.
Proof.
  destruct (@createRuntimeGraph kfpNodePhase sequencerRun) as [[g w']|x]
    eqn:E; [|vm_compute in E; discriminate E].
  pose proof (@gating_law kfpNodePhase sequencerRun sequencerStatus g w'
                eq_refl eq_refl E) as (_ & _ & _ & Hafter & Hwhen & Hany).
  split; [|split].
  - destruct (Hwhen consumerTask "A" failedRecord)
      as (taskId & parentId & Htid & Hpid & He).
    + apply list_elem_of_further, list_elem_of_here.
    + exists {| when_input := "$(tasks.A.results.out)" |},
        {| task := Some "A"; param := Some "out" |}.
      split; [apply list_elem_of_here|]. split; [reflexivity|].
      split; [reflexivity | discriminate].
    + vm_compute. reflexivity.
    + vm_compute in Htid. injection Htid as <-.
      vm_compute in Hpid. injection Hpid as <-. exact (proj2 (proj2 He)).
  - apply (Hany sequencerTask sequencerArgs "A" failedRecord).
    + do 2 apply list_elem_of_further. apply list_elem_of_here.
    + left. eexists. vm_compute. reflexivity.
    + do 4 eexists. repeat split.
    + exact sequencerArgs_refer.
    + vm_compute. reflexivity.
  - intros o e Hc He.
    destruct (Hafter consumerTask o e Hc He)
      as (p & pod & Hp & (rec & s & c & cs & Hg & Hs & Hcs & Hty & _) & _).
    apply list_elem_of_singleton in Hp. subst p.
    vm_compute in Hg. injection Hg as <-.
    injection Hs as <-. injection Hcs as <- _. discriminate Hty.
Defined.

(** C1, the claim as worded: the any-sequencer [any] waits for [A], which
    is in the index, and has no record itself; it is not drawn and the
    graph has no edge from [A]. *)
Lemma sequencer_without_record_has_no_edge :
  match @createRuntimeGraph kfpNodePhase waitingSequencerRun with
  | Ok (graph, _) => fst <$> g_nodes graph = [ "pod-a" ] ∧ g_edges graph = []
  | Throw _ => False
  end
  ∧ any_task_step waitingSequencer [ "--taskList"; "A" ]
  ∧ step_refers [ "--taskList"; "A" ] "A"
  ∧ is_Some (statusMap_get (buildStatusMap waitingSequencerStatus)
               (stamped waitingSequencerStatus) (Some "A"))
  ∧ ¬ @aggregator_edges_whenever_indexed kfpNodePhase waitingSequencerRun.
Proof.
  assert (Hstep : any_task_step waitingSequencer [ "--taskList"; "A" ])
    by (do 4 eexists; repeat split).
  assert (Hrefers : step_refers [ "--taskList"; "A" ] "A").
  { left. exists [], "A", [].
    split; [reflexivity|]. split; [split; discriminate|].
    apply list_elem_of_here. }
  split; [vm_compute; repeat split|]. split; [exact Hstep|].
  split; [exact Hrefers|]. split; [eexists; vm_compute; reflexivity|].
  intros H.
  destruct (@createRuntimeGraph kfpNodePhase waitingSequencerRun)
    as [[g w']|x] eqn:E; [|vm_compute in E; discriminate E].
  edestruct (H waitingSequencerStatus g w' waitingSequencer
               [ "--taskList"; "A" ] "A") as (e & He & _).
  - reflexivity.
  - exact E.
  - apply list_elem_of_further, list_elem_of_here.
  - exact Hstep.
  - exact Hrefers.
  - vm_compute. reflexivity.
  - vm_compute in E. injection E as <- _. now apply elem_of_nil in He.
Qed.

Lemma gated_edge_parent_is_pod_name_witness :
  match @createRuntimeGraph kfpNodePhase customParent with
  | Ok (graph, _) =>
      {| parent := None; child := Some "pod-b" |} ∈ g_edges graph
      ∧ "undefined" ∈ nodeIds graph
      ∧ "any" ∈ (fst <$> g_nodes graph)
  | Throw _ => False
  end.
Proof.
  destruct (@createRuntimeGraph kfpNodePhase customParent) as [[g w']|x]
    eqn:E; [|vm_compute in E; discriminate E].
  destruct (@gated_edge_parent_is_pod_name kfpNodePhase customParent
              customParentStatus g w' eq_refl eq_refl E orderedAfterAny
              customParentOutputB {| parent := None; child := Some "pod-b" |}
              customParent_contribution
              (or_intror (or_intror (list_elem_of_here _ _))))
    as (Hin & p & rec & s & c & cs & Href & Hg & Hs & _ & _ & Hpar & Hrest).
  split; [exact Hin|].
  assert (Hp : p = "any").
  { destruct Href as [(nv & _ & _ & Hnv & _)
                     |[(condition & Hc & _)|Hp]].
    - now apply elem_of_nil in Hnv.
    - now apply elem_of_nil in Hc.
    - now apply list_elem_of_singleton in Hp. }
  subst p. simpl in Hpar.
  destruct Hrest as (_ & Hnode & _ & Hdrawn & _).
  { now rewrite <- Hpar. }
  split; [exact Hnode|].
  apply (Hdrawn (exampleTask "any" None None None));
    [apply list_elem_of_here | reflexivity].
Defined.

(** C10, the claim as worded: [B] is ordered after a custom task named
    [undefined] that has succeeded and has no pod name. The parent end of
    the edge is undefined, which the graph keeps as the node [undefined],
    and that is the node of the parent. *)
Lemma parent_named_undefined_coincides :
  match @createRuntimeGraph kfpNodePhase undefinedParent with
  | Ok (graph, _) =>
      fst <$> g_nodes graph = [ "undefined"; "pod-b" ]
      ∧ g_edges graph = [ {| parent := None; child := Some "pod-b" |} ]
      ∧ endName (parent {| parent := None; child := Some "pod-b" |})
        = "undefined"
  | Throw _ => False
  end
  ∧ ¬ @gated_parent_end_differs kfpNodePhase undefinedParent.
Proof.
  split; [vm_compute; repeat split|].
  intros H.
  destruct (@createRuntimeGraph kfpNodePhase undefinedParent)
    as [[g w']|x] eqn:E; [|vm_compute in E; discriminate E].
  apply (H undefinedParentStatus g w' orderedAfterUndefined
           customParentOutputB {| parent := None; child := Some "pod-b" |}
           "undefined"
           {| pipelineTaskName := "undefined";
              rr_status :=
                Some (exampleStatus None "Succeeded" "Succeeded" None);
              taskRunId := Some "run-u" |}
           (exampleStatus None "Succeeded" "Succeeded" None)
           eq_refl E undefinedParent_contribution
           (or_intror (or_intror (list_elem_of_here _ _)))).
  - right; right. apply list_elem_of_here.
  - vm_compute. reflexivity.
  - reflexivity.
  - reflexivity.
  - reflexivity.
  - reflexivity.
Qed.

Lemma nodes_are_the_drawn_tasks_witness :
  match @createRuntimeGraph kfpNodePhase customParent with
  | Ok (graph, _) =>
      "any" ∈ (fst <$> g_nodes graph)
      ∧ "pod-b" ∈ (fst <$> g_nodes graph)
      ∧ "undefined" ∈ nodeIds graph
  | Throw _ => False
  end.
Proof.
  destruct (@createRuntimeGraph kfpNodePhase customParent) as [[g w']|x]
    eqn:E; [|vm_compute in E; discriminate E].
  assert (Hdrawn : ∀ t, t ∈ allTasks customParent →
            is_Some (statusMap_get (buildStatusMap customParentStatus)
                       (stamped customParentStatus) (Some (t_name t))) →
            identity_of
              (statusMap_get (buildStatusMap customParentStatus)
                 (stamped customParentStatus) (Some (t_name t)))
              (t_name t)
            ∈ (fst <$> g_nodes g)).
  { intros t Ht Hidx.
    apply (proj1 (@nodes_are_the_drawn_tasks kfpNodePhase customParent
                    customParentStatus g w' eq_refl eq_refl E _)).
    exists t. split; [exact Ht|]. split; [now left | reflexivity]. }
  split; [|split].
  - apply (Hdrawn (exampleTask "any" None None None));
      [apply list_elem_of_here | eexists; vm_compute; reflexivity].
  - apply (Hdrawn orderedAfterAny);
      [apply list_elem_of_further, list_elem_of_here
      | eexists; vm_compute; reflexivity].
  - apply (proj2 (@nodes_are_the_drawn_tasks kfpNodePhase customParent
                    customParentStatus g w' eq_refl eq_refl E "undefined")).
    + repeat constructor; discriminate.
    + right. exists {| parent := None; child := Some "pod-b" |}.
      split; [|reflexivity].
      pose proof E as E'. vm_compute in E'. injection E' as Hg _.
      rewrite <- Hg. apply list_elem_of_here.
Defined.
